(** * Dragonfly: secondary-index query executor and sorted-set container

    A shallow embedding of
    - [src/core/search/search.cc]        (DocSet algebra, query executor, FieldIndices),
    - [src/core/sorted_map.cc]           (sorted set: skiplist and B+tree variants),
    - [src/server/search/search_family.cc] (FT.SEARCH reply construction),
    followed by the properties of the specification established on it. *)

From Stdlib Require Import ZArith NArith Floats Lia Bool.
From stdpp Require Import base option list sorting gmap gmultiset strings.

Local Open Scope N_scope.

(* ===================================================================== *)
(** * Part I: definitions                                                 *)
(* ===================================================================== *)

(** ** The C++ standard algorithms the sources call

    Ranges are lists; an iterator is an index into the list. *)
Module StdAlgo.

Section Ordered.
Context {A : Type} (lt : A → A → bool).

(** [std::set_intersection(first1, last1, first2, last2, out)]. *)
Fixpoint set_intersection (s1 s2 : list A) : list A :=
  match s1 with
  | [] => []
  | x :: s1' =>
      (fix scan2 (s2 : list A) : list A :=
         match s2 with
         | [] => []
         | y :: s2' =>
             if lt x y then set_intersection s1' s2
             else if lt y x then scan2 s2'
             else x :: set_intersection s1' s2'
         end) s2
  end.

(** [std::set_union(first1, last1, first2, last2, out)]. *)
Fixpoint set_union (s1 s2 : list A) : list A :=
  match s1 with
  | [] => s2
  | x :: s1' =>
      (fix scan2 (s2 : list A) : list A :=
         match s2 with
         | [] => x :: s1'
         | y :: s2' =>
             if lt x y then x :: set_union s1' s2
             else if lt y x then y :: scan2 s2'
             else x :: set_union s1' s2'
         end) s2
  end.

(** [std::is_sorted]: no element is smaller than its predecessor. *)
Fixpoint is_sorted (l : list A) : bool :=
  match l with
  | [] => true
  | x :: l' =>
      match l' with
      | [] => true
      | y :: _ => negb (lt y x) && is_sorted l'
      end
  end.

(** The halving loop shared by [std::lower_bound] and [std::upper_bound]:
    [go_right e] tells whether the search continues to the right of the
    probed element [e].  [first] is the start index, [len] the number
    of elements still in play; the loop runs at most [len] times. *)
Fixpoint bound_loop (go_right : A → bool) (l : list A)
         (fuel first len : nat) : nat :=
  match fuel with
  | O => first
  | S fuel' =>
      if Nat.eqb len 0 then first
      else
        let half := Nat.div2 len in
        let mid := (first + half)%nat in
        match l !! mid with
        | Some e =>
            if go_right e
            then bound_loop go_right l fuel' (S mid) (len - half - 1)%nat
            else bound_loop go_right l fuel' first half
        | None => first
        end
  end.

(** [std::lower_bound(begin, end, v) - begin]. *)
Definition lower_bound (l : list A) (v : A) : nat :=
  bound_loop (fun e => lt e v) l (length l) 0%nat (length l).

(** [std::upper_bound(begin, end, v) - begin]. *)
Definition upper_bound (l : list A) (v : A) : nat :=
  bound_loop (fun e => negb (lt v e)) l (length l) 0%nat (length l).

(** [std::binary_search(begin, end, v)]. *)
Definition binary_search (l : list A) (v : A) : bool :=
  match l !! lower_bound l v with
  | Some e => negb (lt v e)
  | None => false
  end.

(** [std::sort(begin, end, lt)].  The standard fixes the result up to the
    order of equivalent elements only; the model is an insertion sort
    that keeps equivalent elements in their original order. *)
Fixpoint sort_insert (x : A) (l : list A) : list A :=
  match l with
  | [] => [x]
  | y :: l' => if lt y x then y :: sort_insert x l' else x :: y :: l'
  end.

Definition sort (l : list A) : list A := foldr sort_insert [] l.

End Ordered.

(** [vec.insert(vec.begin() + i, x)]. *)
Definition insert_at {A} (i : nat) (x : A) (l : list A) : list A :=
  take i l ++ x :: drop i l.

(** [vec.erase(vec.begin() + i)]. *)
Definition erase_at {A} (i : nat) (l : list A) : list A :=
  take i l ++ drop (S i) l.

End StdAlgo.

(** ** How a call ends

    [Done a]: the call returns [a].  [Fatal msg]: the process aborts on a
    failed [CHECK], on a failed [DCHECK] of a debug build, or on
    [LOG(FATAL) << msg].  [Undefined]: the call leaves the behaviour the
    language defines (null dereference, iterator or index out of range). *)
Inductive Outcome (A : Type) : Type :=
| Done (a : A)
| Fatal (msg : string)
| Undefined.
Arguments Done {A} a.
Arguments Fatal {A} msg.
Arguments Undefined {A}.

#[global] Instance Outcome_ret : MRet Outcome := @Done.
#[global] Instance Outcome_bind : MBind Outcome := fun A B f m =>
  match m with
  | Done a => f a
  | Fatal msg => Fatal msg
  | Undefined => Undefined
  end.

(** [LOG(FATAL) << msg]: logs and aborts, in every build. *)
Definition LOG_FATAL {A} (msg : string) : Outcome A := Fatal msg.

(** [CHECK(cond)]: enforced in every build. *)
Definition CHECK (cond : bool) : Outcome unit :=
  if cond then Done tt else Fatal "Check failed".

(** [DCHECK(cond)]: enforced in a debug build, compiled out otherwise. *)
Definition DCHECK (debug_build : bool) (cond : bool) : Outcome unit :=
  if debug_build then CHECK cond else Done tt.

(** Dereferencing a pointer that may be null. *)
Definition deref {A} (p : option A) : Outcome A :=
  match p with
  | Some a => Done a
  | None => Undefined
  end.

(** ** Placing floating-point values

    A value that is not NaN is placed by a triple of integers compared
    lexicographically: its class and sign, then exponent, then mantissa. *)
Module FloatKey.
Local Open Scope Z_scope.

Definition SFkey (f : spec_float) : Z * Z * Z :=
  match f with
  | S754_nan | S754_zero _ => (0, 0, 0)
  | S754_infinity false => (2, 0, 0)
  | S754_infinity true => (-2, 0, 0)
  | S754_finite false m e => (1, e, Z.pos m)
  | S754_finite true m e => (-1, - e, Z.neg m)
  end.

Definition key_compare (a b : Z * Z * Z) : comparison :=
  match a.1.1 ?= b.1.1 with
  | Eq => match a.1.2 ?= b.1.2 with
          | Eq => a.2 ?= b.2
          | c => c
          end
  | c => c
  end.

Definition key_lt (a b : Z * Z * Z) : Prop :=
  a.1.1 < b.1.1 ∨ (a.1.1 = b.1.1 ∧ (a.1.2 < b.1.2 ∨ (a.1.2 = b.1.2 ∧ a.2 < b.2))).

Definition fkey (x : float) : Z * Z * Z := SFkey (Prim2SF x).

End FloatKey.

(** ** [src/core/search/search.cc] *)
Module Search.
Import StdAlgo.

(** [DocId] is an unsigned integer. *)
Abbreviation DocId := N (only parsing).
Abbreviation DocVec := (list N) (only parsing).

(** Modelled from the spec: [CompressedSortedSet]
    (core/search/compressed_sorted_set.h is not among the sources at
    hand) is seen through its iteration sequence. *)
Abbreviation CompressedSortedSet := (list N) (only parsing).

(** [IndexResult]: an owned vector or a borrowed compressed set. *)
Inductive IndexResult :=
| Owned (dv : DocVec)
| BorrowedSet (css : CompressedSortedSet).

(** [IndexResult(const CompressedSortedSet* css)]: a null pointer yields
    the empty owned vector. *)
Definition IndexResult_of_ptr (css : option CompressedSortedSet) : IndexResult :=
  match css with
  | Some s => BorrowedSet s
  | None => Owned []
  end.

(** [Borrowed()]: the sequence either alternative iterates over. *)
Definition Borrowed (r : IndexResult) : list DocId :=
  match r with
  | Owned dv => dv
  | BorrowedSet css => css
  end.

Definition Size (r : IndexResult) : nat := length (Borrowed r).

(** [Take()]: move out of owned or copy borrowed. *)
Definition Take (r : IndexResult) : DocVec := Borrowed r.

Inductive LogicOp := AND | OR.

(** [BasicSearch::Merge(matched, &current, op)]: the new value of
    [current].  The scratch vector [tmp_vec_] is cleared on entry and
    moved out on exit, so it carries nothing between calls. *)
Definition Merge (matched current : IndexResult) (op : LogicOp) : IndexResult :=
  match op with
  | AND => Owned (set_intersection N.ltb (Borrowed matched) (Borrowed current))
  | OR => Owned (set_union N.ltb (Borrowed matched) (Borrowed current))
  end.

(** The comparator handed to [std::sort] in [UnifyResults]. *)
Definition size_lt (l r : IndexResult) : bool := Nat.ltb (Size l) (Size r).

(** [BasicSearch::UnifyResults(sub_results, op)]. *)
Definition UnifyResults (sub_results : list IndexResult) (op : LogicOp) : IndexResult :=
  match sub_results with
  | [] => Owned []
  | _ =>
      match sort size_lt sub_results with
      | [] => Owned []
      | out :: rest => fold_left (fun out matched => Merge matched out op) rest out
      end
  end.

(** *** Schema and per-field indices *)

Inductive FieldType := TAG | TEXT | NUMERIC | VECTOR.

Record SchemaField := { identifier : string; type : FieldType }.

(** [Schema::fields]: attribute name to field description. *)
Abbreviation Schema := (list (string * SchemaField)) (only parsing).

(** [FtVector]: a vector of floats; a [float] is held by the binary64
    value it denotes. *)
Abbreviation FtVector := (list float) (only parsing).

(** Modelled from the spec: the per-field indices (core/search/indices.h
    and .cc are not among the sources at hand) are seen through their
    query operations: [TextIndex::Matching(token)] and
    [TagIndex::Matching(tag)] return a pointer to a posting list (null
    when there is none), [NumericIndex::Range(lo, hi)] an owned DocSet,
    [VectorIndex::Get(doc)] the vector stored for [doc]. *)
Inductive BaseIndex :=
| TextIndex (Matching : string → option CompressedSortedSet)
| TagIndex (Matching : string → option CompressedSortedSet)
| NumericIndex (Range : float → float → DocVec)
| VectorIndex (Get : DocId → option FtVector).

Record FieldIndices := {
  schema_ : Schema;
  all_ids_ : list DocId;
  indices_ : gmap string BaseIndex
}.

(** Modelled from the spec: a freshly created index holds no document. *)
Definition empty_index (t : FieldType) : BaseIndex :=
  match t with
  | TAG => TagIndex (fun _ => None)
  | TEXT => TextIndex (fun _ => None)
  | NUMERIC => NumericIndex (fun _ _ => [])
  | VECTOR => VectorIndex (fun _ => None)
  end.

(** [FieldIndices::FieldIndices(schema)]. *)
Definition FieldIndices_new (schema : Schema) : FieldIndices :=
  {| schema_ := schema;
     all_ids_ := [];
     indices_ := foldl (fun m '(field_name, field_info) =>
                          <[field_name := empty_index (type field_info)]> m)
                       ∅ schema |}.

(** [schema_.fields[field].identifier]; the constructor gives every index
    a schema entry, a missing one reads as the default-constructed field. *)
Definition schema_identifier (schema : Schema) (field : string) : string :=
  match list_find (fun p => String.eqb (fst p) field = true) schema with
  | Some (_, (_, info)) => identifier info
  | None => ""
  end.

Section Documents.
(** The document accessor and the indices' own [Add] and [Remove] live
    outside the sources at hand. *)
Context {DocumentAccessor : Type}.
Context (index_add index_remove :
           DocId → DocumentAccessor → string → BaseIndex → BaseIndex).

(** [FieldIndices::Add(doc, access)]. *)
Definition Add (doc : DocId) (access : DocumentAccessor) (fi : FieldIndices)
  : FieldIndices :=
  {| schema_ := schema_ fi;
     all_ids_ := insert_at (upper_bound N.ltb (all_ids_ fi) doc) doc (all_ids_ fi);
     indices_ := map_imap (fun field index =>
                   Some (index_add doc access (schema_identifier (schema_ fi) field) index))
                   (indices_ fi) |}.

(** [FieldIndices::Remove(doc, access)]. *)
Definition Remove (doc : DocId) (access : DocumentAccessor) (fi : FieldIndices)
  : Outcome FieldIndices :=
  let indices' := map_imap (fun field index =>
                   Some (index_remove doc access (schema_identifier (schema_ fi) field) index))
                   (indices_ fi) in
  let it := lower_bound N.ltb (all_ids_ fi) doc in
  _ ← CHECK (match all_ids_ fi !! it with
             | Some e => N.eqb e doc
             | None => false
             end);
  Done {| schema_ := schema_ fi;
          all_ids_ := erase_at it (all_ids_ fi);
          indices_ := indices' |}.

End Documents.

(** [FieldIndices::GetIndex(field)]: null when the field has no index. *)
Definition GetIndex (fi : FieldIndices) (field : string) : option BaseIndex :=
  indices_ fi !! field.

(** [dynamic_cast<T*>(index)] for each concrete index type. *)
Definition as_TextIndex (i : option BaseIndex) : option (string → option CompressedSortedSet) :=
  match i with Some (TextIndex m) => Some m | _ => None end.
Definition as_TagIndex (i : option BaseIndex) : option (string → option CompressedSortedSet) :=
  match i with Some (TagIndex m) => Some m | _ => None end.
Definition as_NumericIndex (i : option BaseIndex) : option (float → float → DocVec) :=
  match i with Some (NumericIndex r) => Some r | _ => None end.
Definition as_VectorIndex (i : option BaseIndex) : option (DocId → option FtVector) :=
  match i with Some (VectorIndex g) => Some g | _ => None end.

(** [FieldIndices::GetAllDocs()]. *)
Definition GetAllDocs (fi : FieldIndices) : list DocId := all_ids_ fi.

(** *** The query AST ([NodeVariants]) *)
#[local] Unset Elimination Schemes.
Inductive AstNode :=
| AstEmpty                                   (* std::monostate *)
| AstStarNode
| AstTermNode (term : string)
| AstRangeNode (lo hi : float)
| AstNegateNode (node : AstNode)
| AstLogicalNode (op : LogicOp) (nodes : list AstNode)
| AstFieldNode (field : string) (node : AstNode)
| AstTagsNode (tags : list string)
| AstKnnNode (limit : N) (field : string) (vector : FtVector) (filter : AstNode).
#[local] Set Elimination Schemes.

(** [SearchResult]: the ids and, for a KNN query, their distances. *)
Record SearchResult := { ids : list DocId; knn_distances : list float }.

(** [operator<] of [std::pair<float, DocId>]. *)
Definition pair_lt (a b : float * DocId) : bool :=
  PrimFloat.ltb (fst a) (fst b)
  || (negb (PrimFloat.ltb (fst b) (fst a)) && N.ltb (snd a) (snd b)).

(** [FieldIndices::GetAllTextIndices()]: one pointer per TEXT field of the
    schema, null where the cast fails in a build without [DCHECK]. *)
Definition GetAllTextIndices (debug_build : bool) (fi : FieldIndices)
  : Outcome (list (option (string → option CompressedSortedSet))) :=
  foldl (fun acc '(field_name, field_info) =>
           out ← acc;
           match type field_info with
           | TEXT =>
               let index := as_TextIndex (GetIndex fi field_name) in
               _ ← DCHECK debug_build (bool_decide (is_Some index));
               Done (out ++ [index])
           | _ => Done out
           end)
        (Done []) (schema_ fi).

(** The member [distances_] of the executor. *)
Abbreviation Distances := (list (float * N)) (only parsing).

(** [BasicSearch]: the executor of one query.  Its member [distances_] is
    threaded through the calls as explicit state. *)
Section BasicSearch.
Context (debug_build : bool).
(** [VectorDistance] (core/search/vector.h) is outside the sources at hand. *)
Context (VectorDistance : FtVector → FtVector → float).
Context (indices : FieldIndices).

(** [GetIndex<T>(field)]: both checks are [DCHECK]s, so a build without
    them hands back a null pointer. *)
Definition GetIndexAs {T} (cast : option BaseIndex → option T) (field : string)
  : Outcome (option T) :=
  let index := GetIndex indices field in
  _ ← DCHECK debug_build (bool_decide (is_Some index));
  let casted_ptr := cast index in
  _ ← DCHECK debug_build (bool_decide (is_Some casted_ptr));
  Done casted_ptr.

(** [GetSubResults(container, f)]: [f] on each element, in order. *)
Fixpoint GetSubResults {C} (f : C → Distances → Outcome (IndexResult * Distances))
         (container : list C) (distances_ : Distances)
  : Outcome (list IndexResult * Distances) :=
  match container with
  | [] => Done ([], distances_)
  | c :: rest =>
      '(r, distances_) ← f c distances_;
      '(rs, distances_) ← GetSubResults f rest distances_;
      Done (r :: rs, distances_)
  end.

(** The loop of [Search(const AstKnnNode&)] that appends one
    [(distance, doc)] pair per matched document to [distances_]. *)
Fixpoint knn_collect (vector : FtVector) (vec_index : option (DocId → option FtVector))
         (set : list DocId) (distances_ : Distances) : Outcome Distances :=
  match set with
  | [] => Done distances_
  | matched_doc :: rest =>
      get ← deref vec_index;
      v ← deref (get matched_doc);
      knn_collect vector vec_index rest
                  (distances_ ++ [(VectorDistance vector v, matched_doc)])
  end.

(** The overloads of [Search], one per node kind; [SearchGeneric] is the
    function they call on their sub-queries. *)
Section Overloads.
Context (SearchGeneric : AstNode → string → bool → Distances →
                         Outcome (IndexResult * Distances)).

Definition Search_monostate (active_field : string) (distances_ : Distances)
  : Outcome (IndexResult * Distances) :=
  Done (Owned [], distances_).

Definition Search_Star (active_field : string) (distances_ : Distances)
  : Outcome (IndexResult * Distances) :=
  _ ← DCHECK debug_build (String.eqb active_field "");
  Done (Owned (GetAllDocs indices), distances_).

(** "term": the field's text index, or all text indices when no field is
    set. *)
Definition Search_Term (term : string) (active_field : string) (distances_ : Distances)
  : Outcome (IndexResult * Distances) :=
  if negb (String.eqb active_field "") then
    index ← GetIndexAs as_TextIndex active_field;
    matching ← deref index;
    Done (IndexResult_of_ptr (matching term), distances_)
  else
    selected_indices ← GetAllTextIndices debug_build indices;
    '(sub_results, distances_) ←
      GetSubResults (fun index distances_ =>
                       matching ← deref index;
                       Done (IndexResult_of_ptr (matching term), distances_))
                    selected_indices distances_;
    Done (UnifyResults sub_results OR, distances_).

(** [range]: the field's numeric index. *)
Definition Search_Range (lo hi : float) (active_field : string) (distances_ : Distances)
  : Outcome (IndexResult * Distances) :=
  _ ← DCHECK debug_build (negb (String.eqb active_field ""));
  index ← GetIndexAs as_NumericIndex active_field;
  range ← deref index;
  Done (Owned (range lo hi), distances_).

(** negate: the complement of the sub-query within all documents. *)
Definition Search_Negate (node : AstNode) (active_field : string) (distances_ : Distances)
  : Outcome (IndexResult * Distances) :=
  '(sub, distances_) ← SearchGeneric node active_field false distances_;
  let matched := Take sub in
  let all := GetAllDocs indices in
  Done (Owned (filter (fun doc => binary_search N.ltb matched doc = false) all),
        distances_).

(** logical query: unify all sub-results. *)
Definition Search_Logical (op : LogicOp) (nodes : list AstNode) (active_field : string)
           (distances_ : Distances) : Outcome (IndexResult * Distances) :=
  '(sub_results, distances_) ←
    GetSubResults (fun node distances_ => SearchGeneric node active_field false distances_)
                  nodes distances_;
  Done (UnifyResults sub_results op, distances_).

(** @field: set the active field for the sub-tree. *)
Definition Search_Field (field : string) (node : AstNode) (active_field : string)
           (distances_ : Distances) : Outcome (IndexResult * Distances) :=
  _ ← DCHECK debug_build (String.eqb active_field "");
  SearchGeneric node field false distances_.

(** {tags | ...}: unify the results of all tags. *)
Definition Search_Tags (tags : list string) (active_field : string) (distances_ : Distances)
  : Outcome (IndexResult * Distances) :=
  tag_index ← GetIndexAs as_TagIndex active_field;
  '(sub_results, distances_) ←
    GetSubResults (fun tag distances_ =>
                     matching ← deref tag_index;
                     Done (IndexResult_of_ptr (matching tag), distances_))
                  tags distances_;
  Done (UnifyResults sub_results OR, distances_).

(** [KNN limit @field vec]: the distance from [vec] to every vector of the
    filter result, the closest [limit] kept. *)
Definition Search_Knn (limit : N) (field : string) (vector : FtVector) (filter : AstNode)
           (active_field : string) (distances_ : Distances)
  : Outcome (IndexResult * Distances) :=
  _ ← DCHECK debug_build (String.eqb active_field "");
  '(sub_results, distances_) ← SearchGeneric filter active_field false distances_;
  vec_index ← GetIndexAs as_VectorIndex field;
  distances_ ← knn_collect vector vec_index (Borrowed sub_results) distances_;
  let distances_ := sort pair_lt distances_ in
  let n := N.to_nat (N.min limit (N.of_nat (length distances_))) in
  Done (Owned (take n (snd <$> distances_)), distances_).

(** [visit(cb, node)]: the overload of the node's kind. *)
Definition Search_visit (node : AstNode) (active_field : string) (distances_ : Distances)
  : Outcome (IndexResult * Distances) :=
  match node with
  | AstEmpty => Search_monostate active_field distances_
  | AstStarNode => Search_Star active_field distances_
  | AstTermNode term => Search_Term term active_field distances_
  | AstRangeNode lo hi => Search_Range lo hi active_field distances_
  | AstNegateNode node' => Search_Negate node' active_field distances_
  | AstLogicalNode op nodes => Search_Logical op nodes active_field distances_
  | AstFieldNode field node' => Search_Field field node' active_field distances_
  | AstTagsNode tags => Search_Tags tags active_field distances_
  | AstKnnNode limit field vector filter =>
      Search_Knn limit field vector filter active_field distances_
  end.

End Overloads.

(** [SearchGeneric(node, active_field, top_level)]: dispatch on the node
    kind, then check that a result below the top level is sorted. *)
Fixpoint SearchGeneric (node : AstNode) (active_field : string) (top_level : bool)
         (distances_ : Distances) {struct node} : Outcome (IndexResult * Distances) :=
  '(result, distances_) ← Search_visit SearchGeneric node active_field distances_;
  _ ← DCHECK debug_build (top_level || is_sorted N.ltb (Borrowed result));
  Done (result, distances_).

(** [BasicSearch::Search(const AstNode& query)] on a fresh executor. *)
Definition Search (query : AstNode) : Outcome SearchResult :=
  '(result, distances_) ← SearchGeneric query "" true [];
  if negb (bool_decide (distances_ = [])) then
    (* out_distances[i] = distances_[i].first for i < result.Size() *)
    if bool_decide (Size result ≤ length distances_)%nat then
      Done {| ids := Take result;
              knn_distances := take (Size result) (fst <$> distances_) |}
    else Undefined
  else Done {| ids := Take result; knn_distances := [] |}.

End BasicSearch.

(** Whether a [Knn] node occurs in the AST. *)
Fixpoint has_knn (node : AstNode) : bool :=
  match node with
  | AstNegateNode n | AstFieldNode _ n => has_knn n
  | AstLogicalNode _ nodes =>
      (fix any (nodes : list AstNode) : bool :=
         match nodes with
         | [] => false
         | n :: rest => has_knn n || any rest
         end) nodes
  | AstKnnNode _ _ _ _ => true
  | _ => false
  end.

(** [SearchAlgorithm::HasKnn()]: the limit when the root is a [Knn] node. *)
Definition HasKnn (query : AstNode) : option N :=
  match query with
  | AstKnnNode limit _ _ _ => Some limit
  | _ => None
  end.

(** *** The vocabulary of the properties *)

(** A DocSet: sorted ascending, without duplicates. *)
Definition is_docset (l : list DocId) : Prop := StronglySorted N.lt l.

(** [not_after lt a b]: the comparator does not put [b] before [a]. *)
Definition not_after {A} (lt : A → A → bool) (a b : A) : Prop := lt b a = false.

Section Invariants.
Context (indices : FieldIndices).

(** A posting list of a well-formed index: a DocSet of indexed documents. *)
Definition posting_ok (l : list DocId) : Prop :=
  is_docset l ∧ ∀ d, d ∈ l → d ∈ all_ids_ indices.

Definition index_ok (i : BaseIndex) : Prop :=
  match i with
  | TextIndex matching | TagIndex matching =>
      ∀ token css, matching token = Some css → posting_ok css
  | NumericIndex range => ∀ lo hi, posting_ok (range lo hi)
  | VectorIndex _ => True
  end.

(** The invariant of [FieldIndices]: [all_ids] is a DocSet and every
    per-field structure holds indexed documents only, in ascending order. *)
Definition indices_ok : Prop :=
  is_docset (all_ids_ indices)
  ∧ ∀ field i, indices_ indices !! field = Some i → index_ok i.

(** The documents recorded in [distances_] are indexed documents. *)
Definition distances_ok (st : Distances) : Prop :=
  ∀ p, p ∈ st → snd p ∈ all_ids_ indices.

Definition within_all_ids (r : IndexResult) : Prop :=
  ∀ d, d ∈ Borrowed r → d ∈ all_ids_ indices.

End Invariants.

Section Calls.
Context {DocumentAccessor : Type}.
Context (index_add index_remove :
           DocId → DocumentAccessor → string → BaseIndex → BaseIndex).

(** A call of [FieldIndices::Add] or [FieldIndices::Remove]. *)
Inductive IndexOp :=
| OpAdd (doc : DocId) (access : DocumentAccessor)
| OpRemove (doc : DocId) (access : DocumentAccessor).

(** The calls of a sequence, one after the other. *)
Fixpoint run_ops (ops : list IndexOp) (fi : FieldIndices) : Outcome FieldIndices :=
  match ops with
  | [] => Done fi
  | OpAdd doc access :: rest => run_ops rest (Add index_add doc access fi)
  | OpRemove doc access :: rest =>
      (fi' ← Remove index_remove doc access fi;
       run_ops rest fi')
  end.

(** The set of documents added and not removed since. *)
Fixpoint live_docs (ops : list IndexOp) (live : gset DocId) : gset DocId :=
  match ops with
  | [] => live
  | OpAdd doc _ :: rest => live_docs rest ({[doc]} ∪ live)
  | OpRemove doc _ :: rest => live_docs rest (live ∖ {[doc]})
  end.

(** The documents held after a sequence of calls, each as often as it was
    added and not removed since. *)
Fixpoint held_docs (ops : list IndexOp) (held : gmultiset DocId) : gmultiset DocId :=
  match ops with
  | [] => held
  | OpAdd doc _ :: rest => held_docs rest ({[+ doc +]} ⊎ held)
  | OpRemove doc _ :: rest => held_docs rest (held ∖ {[+ doc +]})
  end.

(** Each removed id is present. *)
Fixpoint removes_present (ops : list IndexOp) (held : gmultiset DocId) : Prop :=
  match ops with
  | [] => True
  | OpAdd doc _ :: rest => removes_present rest ({[+ doc +]} ⊎ held)
  | OpRemove doc _ :: rest => doc ∈ held ∧ removes_present rest (held ∖ {[+ doc +]})
  end.

(** No id is added while it is present (DocIds are not reused), and each
    removed id is present. *)
Fixpoint ops_ok (ops : list IndexOp) (live : gset DocId) : Prop :=
  match ops with
  | [] => True
  | OpAdd doc _ :: rest => (doc ∉ live) ∧ ops_ok rest ({[doc]} ∪ live)
  | OpRemove doc _ :: rest => (doc ∈ live) ∧ ops_ok rest (live ∖ {[doc]})
  end.

End Calls.
Arguments IndexOp DocumentAccessor : clear implicits.

(** The pointers [GetAllTextIndices] collects: one per TEXT field of the
    schema, in the order of the schema. *)
Definition text_indices (fi : FieldIndices)
  : list (option (string → option CompressedSortedSet)) :=
  omap (fun p => match type (snd p) with
                 | TEXT => Some (as_TextIndex (GetIndex fi (fst p)))
                 | _ => None
                 end) (schema_ fi).

#[global] Instance FieldType_eq_dec : EqDecision FieldType.
Proof. solve_decision. Defined.

End Search.

(** ** [src/core/sorted_map.cc] *)
Module SortedMap.
Import StdAlgo.
Local Open Scope Z_scope.

(** A [double] is held as a binary64 value; a member ([sds]) as a string
    of bytes. *)
Abbreviation double := float (only parsing).
Abbreviation sds := string (only parsing).

(** Modelled from the spec: the ZADD flag bits (redis/zset.h is not among
    the sources at hand); the spec names the input flags NX, XX, GT, LT,
    INCR and the output flags NOP, NAN, ADDED, UPDATED, the values are
    those of Redis. *)
Definition ZADD_IN_INCR : Z := 1.
Definition ZADD_IN_NX : Z := 2.
Definition ZADD_IN_XX : Z := 4.
Definition ZADD_IN_GT : Z := 8.
Definition ZADD_IN_LT : Z := 16.
Definition ZADD_OUT_NOP : Z := 1.
Definition ZADD_OUT_NAN : Z := 2.
Definition ZADD_OUT_ADDED : Z := 4.
Definition ZADD_OUT_UPDATED : Z := 8.

(** [(in_flags & FLAG) != 0]. *)
Definition has_flag (in_flags flag : Z) : bool := negb (Z.land in_flags flag =? 0).

(** What [Add] hands back: the returned [int], [*out_flags], and
    [*newscore] when it was written. *)
Record AddResult := { ret : Z; out_flags : Z; newscore : option double }.

(** Modelled from the spec: [sdscmp] (redis/sds.c is not among the sources
    at hand) compares two members as byte strings, lexicographically; only
    the sign of the result matters to the callers, the model returns -1,
    0 or 1. *)
Fixpoint sdscmp (s1 s2 : sds) : Z :=
  match s1, s2 with
  | EmptyString, EmptyString => 0
  | EmptyString, String _ _ => -1
  | String _ _, EmptyString => 1
  | String c1 r1, String c2 r2 =>
      if (Ascii.N_of_ascii c1 <? Ascii.N_of_ascii c2)%N then -1
      else if (Ascii.N_of_ascii c2 <? Ascii.N_of_ascii c1)%N then 1
      else sdscmp r1 r2
  end.

(** [zrangespec] and [zlexrangespec]: a score range and a member range. *)
Record zrangespec := { min : double; max : double; minex : bool; maxex : bool }.
Record zlexrangespec := { lex_min : sds; lex_max : sds; lex_minex : bool; lex_maxex : bool }.

(** [ScoredArray]: members with their scores. *)
Abbreviation ScoredArray := (list (string * float)) (only parsing).

(** Modelled from the spec: a listpack (redis/listpack.c is not among the
    sources at hand) is a compact sequential buffer of entries; an entry
    reads back as a byte string or as an integer. *)
Inductive lp_entry := LpStr (vstr : string) | LpInt (vlong : Z).
Abbreviation listpack := (list lp_entry) (only parsing).

(** *** The skiplist variant, [RdImpl] *)

(** A skiplist node: [score] and [ele]. *)
Abbreviation zskiplistNode := (float * string)%type (only parsing).

(** [dict]: member to the score its skiplist node holds; [zsl]: the nodes
    in the order of the bottom-level [forward] chain. *)
Record RdImpl := {
  dict : gmap string double;
  zsl : list zskiplistNode
}.

(** [RdImpl::Init()]. *)
Definition RdImpl_Init : RdImpl := {| dict := ∅; zsl := [] |}.

(** The order of the skiplist: by score, then by member. *)
Definition zsl_lt (x y : zskiplistNode) : bool :=
  PrimFloat.ltb (fst x) (fst y)
  || (PrimFloat.eqb (fst x) (fst y) && (sdscmp (snd x) (snd y) <? 0)).

(** Modelled from the spec: [zslInsert] (redis/t_zset.c is not among the
    sources at hand) links the node after every node that precedes it in
    (score, member) order. *)
Fixpoint zslInsert (l : list zskiplistNode) (score : double) (ele : sds)
  : list zskiplistNode :=
  match l with
  | [] => [(score, ele)]
  | x :: l' =>
      if zsl_lt x (score, ele) then x :: zslInsert l' score ele
      else (score, ele) :: x :: l'
  end.

(** Modelled from the spec: [zslDelete] unlinks the node holding [score]
    and [ele] and tells whether there was one. *)
Fixpoint zslDelete (l : list zskiplistNode) (score : double) (ele : sds)
  : list zskiplistNode * bool :=
  match l with
  | [] => ([], false)
  | x :: l' =>
      if PrimFloat.eqb (fst x) score && (sdscmp (snd x) ele =? 0) then (l', true)
      else let '(l'', found) := zslDelete l' score ele in (x :: l'', found)
  end.

(** Modelled from the spec: [zslUpdateScore] moves the node of [ele] to
    the place its new score asks for. *)
Definition zslUpdateScore (l : list zskiplistNode) (curscore : double) (ele : sds)
           (newscore : double) : list zskiplistNode :=
  zslInsert (fst (zslDelete l curscore ele)) newscore ele.

(** [RdImpl::Insert(score, member)]. *)
Definition RdImpl_Insert (score : double) (member : sds) (z : RdImpl) : RdImpl * bool :=
  let zsl' := zslInsert (zsl z) score member in
  match dict z !! member with
  | None => ({| dict := <[member := score]> (dict z); zsl := zsl' |}, true)
  | Some _ => ({| dict := dict z; zsl := zsl' |}, false)   (* dictAdd: DICT_ERR *)
  end.

(** [RdImpl::Add(score, ele, in_flags, out_flags, newscore)]. *)
Definition RdImpl_Add (score : double) (ele : sds) (in_flags : Z) (z : RdImpl)
  : Outcome (AddResult * RdImpl) :=
  let incr := has_flag in_flags ZADD_IN_INCR in
  let nx := has_flag in_flags ZADD_IN_NX in
  let xx := has_flag in_flags ZADD_IN_XX in
  let gt := has_flag in_flags ZADD_IN_GT in
  let lt := has_flag in_flags ZADD_IN_LT in
  match dict z !! ele with
  | Some curscore =>
      if nx then
        Done ({| ret := 1; out_flags := ZADD_OUT_NOP; newscore := None |}, z)
      else
        let score := if incr then PrimFloat.add score curscore else score in
        if incr && PrimFloat.is_nan score then
          Done ({| ret := 0; out_flags := ZADD_OUT_NAN; newscore := None |}, z)
        else if (lt && PrimFloat.leb curscore score) || (gt && PrimFloat.leb score curscore) then
          Done ({| ret := 1; out_flags := ZADD_OUT_NOP; newscore := None |}, z)
        else if negb (PrimFloat.eqb score curscore) then
          Done ({| ret := 1; out_flags := ZADD_OUT_UPDATED; newscore := Some score |},
                {| dict := <[ele := score]> (dict z);
                   zsl := zslUpdateScore (zsl z) curscore ele score |})
        else
          Done ({| ret := 1; out_flags := 0; newscore := Some score |}, z)
  | None =>
      if negb xx then
        Done ({| ret := 1; out_flags := ZADD_OUT_ADDED; newscore := Some score |},
              {| dict := <[ele := score]> (dict z);
                 zsl := zslInsert (zsl z) score ele |})
      else
        Done ({| ret := 1; out_flags := ZADD_OUT_NOP; newscore := None |}, z)
  end.

(** *** The B+tree variant, [DfImpl] *)

(** A [ScoreSds] is a pointer, a 64-bit word whose top bits may carry tags. *)
Abbreviation ScoreSds := Z (only parsing).

Definition kInfTag : Z := Z.shiftl 1 63.
Definition kIgnoreDoubleTag : Z := Z.shiftl 1 62.
Definition kSdsMask : Z := Z.shiftl 1 60 - 1.

(** What a [ScoreSds] points to: the member bytes followed by the 8 bytes
    of the score. *)
Record ScoreObj := { obj_str : sds; obj_score : double }.

(** The memory the pointers lead into: address to record. *)
Abbreviation Memory := (gmap Z ScoreObj) (only parsing).

(** [GetObjScore(obj)]. *)
Definition GetObjScore (mem : Memory) (obj : Z) : Outcome double :=
  o ← deref (mem !! obj);
  Done (obj_score o).

(** The member string a pointer leads to. *)
Definition GetObjStr (mem : Memory) (obj : Z) : Outcome sds :=
  o ← deref (mem !! obj);
  Done (obj_str o).

(** [SetObjScore(obj, score)]. *)
Definition SetObjScore (mem : Memory) (obj : Z) (score : double) : Outcome Memory :=
  o ← deref (mem !! obj);
  Done (<[obj := {| obj_str := obj_str o; obj_score := score |}]> mem).

(** [BuilScoredKey(score, is_str_inf, buf)]: writes an empty member with
    [score] behind it into the caller's buffer, at [buf + 1], and returns
    the pointer to it, tagged when [is_str_inf]. *)
Definition BuilScoredKey (mem : Memory) (score : double) (is_str_inf : bool) (buf : Z)
  : Memory * ScoreSds :=
  let key := buf + 1 in
  (<[key := {| obj_str := ""; obj_score := score |}]> mem,
   if is_str_inf then Z.lor key kInfTag else key).

(** [ScoreSdsPolicy::KeyCompareTo::operator()(a, b)]. *)
Definition KeyCompareTo (mem : Memory) (a b : ScoreSds) : Outcome Z :=
  let sdsa := Z.land a kSdsMask in
  let sdsb := Z.land b kSdsMask in
  let by_string : Outcome Z :=
    if negb (Z.land a kInfTag =? 0) then Done 1
    else if negb (Z.land b kInfTag =? 0) then Done (-1)
    else
      stra ← GetObjStr mem sdsa;
      strb ← GetObjStr mem sdsb;
      Done (sdscmp stra strb) in
  if (Z.land a kIgnoreDoubleTag =? 0) && (Z.land b kIgnoreDoubleTag =? 0) then
    sa ← GetObjScore mem sdsa;
    sb ← GetObjScore mem sdsb;
    if PrimFloat.ltb sa sb then Done (-1)
    else if PrimFloat.ltb sb sa then Done 1
    else by_string
  else by_string.

(** A key as the tree holds it: no tag, a record behind the pointer, a
    score that is not NaN. *)
Definition tree_key (mem : Memory) (k : ScoreSds) (o : ScoreObj) : Prop :=
  Z.land k kInfTag = 0 ∧ Z.land k kIgnoreDoubleTag = 0
  ∧ mem !! Z.land k kSdsMask = Some o ∧ PrimFloat.is_nan (obj_score o) = false.

(** Ascending by (score, member). *)
Definition score_member_lt (x y : ScoreObj) : Prop :=
  PrimFloat.ltb (obj_score x) (obj_score y) = true
  ∨ (PrimFloat.eqb (obj_score x) (obj_score y) = true
     ∧ sdscmp (obj_str x) (obj_str y) < 0).

(** The containers behind [DfImpl] ([ScoreMap] of core/score_map.h and
    [BPTree] of core/bptree_set.h) are outside the sources at hand; the
    variant is written over their operations. *)
Class ScoreContainers (ScoreMap ScoreTree : Type) := {
  (** [new ScoreMap(mr)] and [new ScoreTree(mr)] *)
  map_new : ScoreMap;
  tree_new : ScoreTree;
  (** [score_map->FindObj(ele)]: the record of [ele], or null *)
  FindObj : ScoreMap → Memory → sds → option ScoreSds;
  (** [score_map->AddOrUpdate(member, score)]: the record and whether it is new *)
  AddOrUpdate : ScoreMap → Memory → sds → double → ScoreMap * Memory * (ScoreSds * bool);
  (** [score_map->Erase(ele)] *)
  Erase : ScoreMap → Memory → sds → ScoreMap * Memory * bool;
  (** [score_tree->Insert(obj)] and [score_tree->Delete(obj)] *)
  tree_Insert : ScoreTree → Memory → ScoreSds → ScoreTree * bool;
  tree_Delete : ScoreTree → Memory → ScoreSds → ScoreTree * bool
}.

Section DfImpl.
Context {ScoreMap ScoreTree : Type} `{!ScoreContainers ScoreMap ScoreTree}.
Context (debug_build : bool).

Record DfImpl := {
  memory : Memory;
  score_map : ScoreMap;
  score_tree : ScoreTree
}.

(** [DfImpl::Init(mr)]. *)
Definition DfImpl_Init : DfImpl :=
  {| memory := ∅; score_map := map_new; score_tree := tree_new |}.

(** [DfImpl::Add(score, ele, in_flags, out_flags, newscore)]. *)
Definition DfImpl_Add (score : double) (ele : sds) (in_flags : Z) (z : DfImpl)
  : Outcome (AddResult * DfImpl) :=
  _ ← DCHECK debug_build (negb (PrimFloat.is_nan score));
  match FindObj (score_map z) (memory z) ele with
  | None =>
      if has_flag in_flags ZADD_IN_XX then
        Done ({| ret := 1; out_flags := ZADD_OUT_NOP; newscore := None |}, z)
      else
        let '(map', mem', (newk, added)) := AddOrUpdate (score_map z) (memory z) ele score in
        _ ← DCHECK debug_build added;
        let '(tree', added) := tree_Insert (score_tree z) mem' newk in
        _ ← DCHECK debug_build added;
        Done ({| ret := 1; out_flags := ZADD_OUT_ADDED; newscore := Some score |},
              {| memory := mem'; score_map := map'; score_tree := tree' |})
  | Some obj =>
      if has_flag in_flags ZADD_IN_NX then
        Done ({| ret := 1; out_flags := ZADD_OUT_NOP; newscore := None |}, z)
      else
        score ← (if has_flag in_flags ZADD_IN_INCR
                 then cur ← GetObjScore (memory z) obj; Done (PrimFloat.add score cur)
                 else Done score);
        if has_flag in_flags ZADD_IN_INCR && PrimFloat.is_nan score then
          Done ({| ret := 0; out_flags := ZADD_OUT_NAN; newscore := None |}, z)
        else
          let '(tree', deleted) := tree_Delete (score_tree z) (memory z) obj in
          _ ← CHECK deleted;
          mem' ← SetObjScore (memory z) obj score;
          let '(tree'', inserted) := tree_Insert tree' mem' obj in
          _ ← CHECK inserted;
          Done ({| ret := 1; out_flags := ZADD_OUT_UPDATED; newscore := Some score |},
                {| memory := mem'; score_map := score_map z; score_tree := tree'' |})
  end.

(** [DfImpl::Insert(score, ele)]. *)
Definition DfImpl_Insert (score : double) (ele : sds) (z : DfImpl) : Outcome (DfImpl * bool) :=
  let '(map', mem', (newk, added)) := AddOrUpdate (score_map z) (memory z) ele score in
  _ ← DCHECK debug_build added;
  let '(tree', added) := tree_Insert (score_tree z) mem' newk in
  _ ← DCHECK debug_build added;
  Done ({| memory := mem'; score_map := map'; score_tree := tree' |}, true).

(** The operations left to be done: each logs fatally before its
    [return]. *)
Definition DfImpl_GetRange (range : zrangespec) (offset limit : N) (reverse : bool)
           (z : DfImpl) : Outcome ScoredArray :=
  _ ← LOG_FATAL (A := unit) "TBD";
  Done [].

Definition DfImpl_GetLexRange (range : zlexrangespec) (offset limit : N) (reverse : bool)
           (z : DfImpl) : Outcome ScoredArray :=
  _ ← LOG_FATAL (A := unit) "TBD";
  Done [].

Definition DfImpl_ToListPack (z : DfImpl) : Outcome (option listpack) :=
  _ ← LOG_FATAL (A := unit) "TBD";
  Done None.                               (* return nullptr *)

Definition DfImpl_DeleteRangeByRank (start end_ : N) (z : DfImpl) : Outcome (N * DfImpl) :=
  _ ← LOG_FATAL (A := unit) "TBD";
  Done (0%N, z).

Definition DfImpl_DeleteRangeByScore (range : zrangespec) (z : DfImpl)
  : Outcome (N * DfImpl) :=
  _ ← LOG_FATAL (A := unit) "TBD";
  Done (0%N, z).

Definition DfImpl_DeleteRangeByLex (range : zlexrangespec) (z : DfImpl)
  : Outcome (N * DfImpl) :=
  _ ← LOG_FATAL (A := unit) "TBD";
  Done (0%N, z).

Definition DfImpl_LexCount (range : zlexrangespec) (z : DfImpl) : Outcome N :=
  _ ← LOG_FATAL (A := unit) "TBD";
  Done 0%N.

End DfImpl.
Arguments DfImpl ScoreMap ScoreTree : clear implicits.

(** *** The façade, [SortedMap] *)

(** [impl_]: the variant chosen at construction. *)
Inductive t (ScoreMap ScoreTree : Type) :=
| Rd (impl : RdImpl)
| Df (impl : DfImpl ScoreMap ScoreTree).
Arguments Rd {ScoreMap ScoreTree} impl.
Arguments Df {ScoreMap ScoreTree} impl.

Section Facade.
Context {ScoreMap ScoreTree : Type} `{!ScoreContainers ScoreMap ScoreTree}.
Context (debug_build : bool).
(** The flag [use_zset_tree]. *)
Context (use_zset_tree : bool).
(** The listpack encoding and the rendering of scores (redis/listpack.c,
    redis/util.c, redis/t_zset.c) are outside the sources at hand:
    [lpEncode] is the entry [lpAppend] stores for a byte string,
    [d2string] renders a score, [zzlGetScore] reads one back from an
    entry, [sdsfromlonglong] prints an integer entry. *)
Context (lpEncode : string → lp_entry) (d2string : double → string)
        (zzlGetScore : lp_entry → double) (sdsfromlonglong : Z → sds).

(** [SortedMap::SortedMap(mr)]. *)
Definition SortedMap_new : t ScoreMap ScoreTree :=
  if use_zset_tree then Df DfImpl_Init else Rd RdImpl_Init.

(** [lpAppend(lp, s, len)]. *)
Definition lpAppend (lp : listpack) (s : string) : listpack := lp ++ [lpEncode s].

(** [zzlInsertAt(zl, NULL, ele, score)]: member, then score, at the tail. *)
Definition zzlInsertAt_tail (zl : listpack) (ele : sds) (score : double) : listpack :=
  lpAppend (lpAppend zl ele) (d2string score).

(** [RdImpl::ToListPack()]: walks the bottom level from the header. *)
Definition RdImpl_ToListPack (z : RdImpl) : listpack :=
  fold_left (fun lp node => zzlInsertAt_tail lp (snd node) (fst node)) (zsl z) [].

(** [SortedMap::ToListPack()] dispatches to the variant. *)
Definition ToListPack (zs : t ScoreMap ScoreTree) : Outcome (option listpack) :=
  match zs with
  | Rd impl => Done (Some (RdImpl_ToListPack impl))
  | Df impl => DfImpl_ToListPack impl
  end.

(** [SortedMap::Insert(score, member)] dispatches to the variant. *)
Definition Insert (score : double) (member : sds) (zs : t ScoreMap ScoreTree)
  : Outcome (t ScoreMap ScoreTree * bool) :=
  match zs with
  | Rd impl => let '(impl', ok) := RdImpl_Insert score member impl in Done (Rd impl', ok)
  | Df impl => '(impl', ok) ← DfImpl_Insert debug_build score member impl; Done (Df impl', ok)
  end.

(** The loop of [SortedMap::FromListPack]: [eptr] walks the members,
    [sptr] the scores. *)
Fixpoint FromListPack_loop (zl : listpack) (zs : t ScoreMap ScoreTree)
  : Outcome (t ScoreMap ScoreTree) :=
  match zl with
  | [] => Done zs
  | eptr :: rest =>
      match rest with
      | [] => Fatal "Check failed"            (* sptr != NULL *)
      | sptr :: rest' =>
          let score := zzlGetScore sptr in
          let ele := match eptr with
                     | LpInt vlong => sdsfromlonglong vlong
                     | LpStr vstr => vstr
                     end in
          '(zs', ok) ← Insert score ele zs;
          _ ← CHECK ok;
          FromListPack_loop rest' zs'
      end
  end.

(** [SortedMap::FromListPack(res, lp)]. *)
Definition FromListPack (lp : listpack) : Outcome (t ScoreMap ScoreTree) :=
  FromListPack_loop lp SortedMap_new.

(** The member an entry reads back as. *)
Definition entry_sds (e : lp_entry) : sds :=
  match e with
  | LpInt vlong => sdsfromlonglong vlong
  | LpStr vstr => vstr
  end.

(** The external encoders read back what they wrote, for the members and
    scores of [z]. *)
Definition codec_ok (z : RdImpl) : Prop :=
  ∀ s m, (s, m) ∈ zsl z →
         entry_sds (lpEncode m) = m ∧ zzlGetScore (lpEncode (d2string s)) = s.

(** The listpack of a node sequence: member, score, member, score, ... *)
Definition lp_of_nodes (l : list zskiplistNode) : listpack :=
  concat ((fun node => [lpEncode (snd node); lpEncode (d2string (fst node))]) <$> l).

End Facade.

(** The elements in ascending order, as iteration hands them out. *)
Definition RdImpl_elements (z : RdImpl) : list (sds * double) :=
  (fun node => (snd node, fst node)) <$> zsl z.

(** The invariant of the skiplist variant: the nodes ascend strictly in
    (score, member) order, no member occurs twice, and the dictionary
    holds exactly the nodes. *)
Definition RdImpl_wf (z : RdImpl) : Prop :=
  StronglySorted (fun x y => zsl_lt x y = true) (zsl z)
  ∧ NoDup (snd <$> zsl z)
  ∧ ∀ m s, dict z !! m = Some s ↔ (s, m) ∈ zsl z.

(** [dictAdd] of a node's member and score. *)
Definition dict_insert (D : gmap string double) (node : zskiplistNode) : gmap string double :=
  <[snd node := fst node]> D.

(** *** More of the skiplist variant *)

(** [RdImpl::GetScore(member)]. *)
Definition RdImpl_GetScore (member : sds) (z : RdImpl) : option double :=
  dict z !! member.

(** [RdImpl::Delete(member)]: the entry leaves the dictionary (resizing the
    table moves no entry), then the node leaves the skiplist. *)
Definition RdImpl_Delete (debug_build : bool) (member : sds) (z : RdImpl)
  : Outcome (RdImpl * bool) :=
  match dict z !! member with
  | None => Done (z, false)
  | Some score =>
      let dict' := delete member (dict z) in
      let '(zsl', retval) := zslDelete (zsl z) score member in
      _ ← DCHECK debug_build retval;
      Done ({| dict := dict'; zsl := zsl' |}, true)
  end.

(** [unsigned] arithmetic wraps at 32 bits. *)
Definition unsigned_max : N := 2 ^ 32.
Definition unsigned_sub (a b : N) : N := ((a + unsigned_max - b mod unsigned_max) mod unsigned_max)%N.

(** Modelled from the spec: [zslGetRank] (redis/t_zset.c is not among the
    sources at hand) gives the 1-based position of the node that holds
    [score] and [ele], 0 when there is none. *)
Fixpoint zslGetRank (l : list zskiplistNode) (score : double) (ele : sds) : N :=
  match l with
  | [] => 0%N
  | x :: l' =>
      if PrimFloat.eqb (fst x) score && (sdscmp (snd x) ele =? 0) then 1%N
      else match zslGetRank l' score ele with
           | 0%N => 0%N
           | r => (r + 1)%N
           end
  end.

(** [RdImpl::GetRank(ele, reverse)]. *)
Definition RdImpl_GetRank (debug_build : bool) (ele : sds) (reverse : bool) (z : RdImpl)
  : Outcome (option N) :=
  match dict z !! ele with
  | None => Done None
  | Some score =>
      let rank := (zslGetRank (zsl z) score ele mod unsigned_max)%N in
      _ ← DCHECK debug_build (negb (rank =? 0)%N);
      Done (Some (if reverse then unsigned_sub (N.of_nat (length (zsl z))) rank
                  else unsigned_sub rank 1))
  end.

(** The invariant of the skiplist variant together with the data model's
    ban on NaN scores. *)
Definition RdImpl_ok (z : RdImpl) : Prop :=
  RdImpl_wf z ∧ ∀ s m, (s, m) ∈ zsl z → PrimFloat.is_nan s = false.

(** A skiplist node seen as a (member, score) record. *)
Definition node_obj (x : zskiplistNode) : ScoreObj :=
  {| obj_str := snd x; obj_score := fst x |}.

(** *** More of the B+tree variant *)

(** [size_t] arithmetic wraps at 64 bits. *)
Definition size_t_sub (a b : N) : N := ((a + 2 ^ 64 - b mod 2 ^ 64) mod 2 ^ 64)%N.

(** The queries of the tree that [DfImpl::Count] uses (core/bptree_set.h
    is outside the sources at hand). *)
Class ScoreQueries (ScoreTree : Type) := {
  (** [score_tree->Size()] *)
  tree_Size : ScoreTree → N;
  (** [score_tree->GEQ(key)]: [Terminal()] and [Rank()] of the path, or
      nothing when the path is [Empty()] *)
  tree_GEQ : ScoreTree → Memory → ScoreSds → option (ScoreSds * N)
}.

Section DfImplQueries.
Context {ScoreMap ScoreTree : Type} `{!ScoreContainers ScoreMap ScoreTree}
        `{!ScoreQueries ScoreTree}.
Context (debug_build : bool).

(** The last line of [DfImpl::Count], on [uint32_t] ranks. *)
Definition count_ranks (max_rank min_rank : N) : N :=
  if (max_rank <? min_rank)%N then 0%N
  else ((max_rank - min_rank + 1) mod unsigned_max)%N.

(** [DfImpl::Count(range)]; [buf] is the address of the local
    [char buf[16]], which both bound keys are built in. *)
Definition DfImpl_Count (range : zrangespec) (buf : Z) (z : DfImpl ScoreMap ScoreTree)
  : Outcome N :=
  _ ← DCHECK debug_build (PrimFloat.leb (min range) (max range));
  if (tree_Size (score_tree z) =? 0)%N then Done 0%N
  else
    let '(mem1, range_key) := BuilScoredKey (memory z) (min range) (minex range) buf in
    match tree_GEQ (score_tree z) mem1 range_key with
    | None => Done 0%N
    | Some (bound, min_rank) =>
        _ ← (if debug_build then
               s ← GetObjScore mem1 bound;
               CHECK (if minex range then PrimFloat.ltb (min range) s
                      else PrimFloat.leb (min range) s)
             else Done tt);
        let '(mem2, range_key) :=
          BuilScoredKey mem1 (max range) (negb (maxex range)) buf in
        match tree_GEQ (score_tree z) mem2 range_key with
        | None => Done (size_t_sub (tree_Size (score_tree z)) min_rank)
        | Some (bound, max_rank) =>
            beyond ← (if maxex range then Done true
                      else s ← GetObjScore mem2 bound;
                           Done (PrimFloat.ltb (max range) s));
            if beyond : bool then
              if (max_rank <=? min_rank)%N then Done 0%N
              else Done (count_ranks (max_rank - 1) min_rank)
            else Done (count_ranks max_rank min_rank)
        end
    end.

End DfImplQueries.

(** A record the tree points to: an address within the 60 pointer bits, a
    record behind it, a score that is not NaN. *)
Definition tree_ptr (mem : Memory) (k : ScoreSds) (o : ScoreObj) : Prop :=
  0 ≤ k < 2 ^ 60 ∧ mem !! k = Some o ∧ PrimFloat.is_nan (obj_score o) = false.

(** Whether the comparator puts [key] at or before [k]. *)
Definition key_not_after (mem : Memory) (key k : ScoreSds) : bool :=
  match KeyCompareTo mem key k with
  | Done c => c <=? 0
  | _ => false
  end.

(** What [GEQ] gives on a tree that holds the keys [ks], ascending: the
    first key that is not below [key], and its rank. *)
Definition first_geq (mem : Memory) (ks : list ScoreSds) (key : ScoreSds)
  : option (ScoreSds * N) :=
  (fun p => (snd p, N.of_nat (fst p)))
    <$> list_find (fun k => key_not_after mem key k = true) ks.

(** Whether a score lies within a [zrangespec]. *)
Definition in_range (range : zrangespec) (s : double) : bool :=
  (if minex range then PrimFloat.ltb (min range) s else PrimFloat.leb (min range) s)
  && (if maxex range then PrimFloat.ltb s (max range) else PrimFloat.leb s (max range)).

(** The nodes a listpack reads back as, in stream order: a member entry,
    then its score entry. *)
Fixpoint lp_nodes (zzlGetScore : lp_entry → double) (sdsfromlonglong : Z → sds)
         (zl : listpack) : list zskiplistNode :=
  match zl with
  | eptr :: sptr :: rest =>
      (zzlGetScore sptr, entry_sds sdsfromlonglong eptr)
        :: lp_nodes zzlGetScore sdsfromlonglong rest
  | _ => []
  end.

(** *** Walking the skiplist variant *)

(** A pointer to a node of the skiplist: the header, or the node at a
    position of the bottom level. *)
Inductive znode := Header | Node (i : nat).

(** Modelled from the spec (redis/t_zset.c is not among the sources at
    hand): [ln->level[0].forward] is the next node of the bottom level,
    [ln->backward] the one before, null for the header and for the first
    node; [zsl->tail] is the last node, null in an empty list; the header
    holds the score 0 and no member. *)
Definition forward (l : list zskiplistNode) (ln : znode) : option znode :=
  let next := match ln with Header => 0%nat | Node i => S i end in
  if bool_decide (next < length l)%nat then Some (Node next) else None.

Definition backward (ln : znode) : option znode :=
  match ln with
  | Node (S i) => Some (Node i)
  | _ => None
  end.

Definition zsl_tail (l : list zskiplistNode) : option znode :=
  match length l with
  | O => None
  | S n => Some (Node n)
  end.

(** [ln->score] and [ln->ele]. *)
Definition node_score (l : list zskiplistNode) (ln : znode) : Outcome double :=
  match ln with
  | Header => Done 0%float
  | Node i => x ← deref (l !! i); Done (fst x)
  end.

Definition node_ele (l : list zskiplistNode) (ln : znode) : Outcome (option sds) :=
  match ln with
  | Header => Done None
  | Node i => x ← deref (l !! i); Done (Some (snd x))
  end.

(** Modelled from the spec: [zslValueGteMin] and [zslValueLteMax]. *)
Definition zslValueGteMin (value : double) (spec : zrangespec) : bool :=
  if minex spec then PrimFloat.ltb (min spec) value else PrimFloat.leb (min spec) value.

Definition zslValueLteMax (value : double) (spec : zrangespec) : bool :=
  if maxex spec then PrimFloat.ltb value (max spec) else PrimFloat.leb value (max spec).

(** [Next(reverse, ln)]. *)
Definition Next (reverse : bool) (l : list zskiplistNode) (ln : znode) : option znode :=
  if reverse then backward ln else forward l ln.

(** [IsUnder(reverse, score, spec)]. *)
Definition IsUnder (reverse : bool) (score : double) (spec : zrangespec) : bool :=
  if reverse then zslValueGteMin score spec else zslValueLteMax score spec.

(** The searches of the skiplist that the range operations start from
    (redis/t_zset.c). *)
Class SkiplistQueries := {
  zslFirstInRange : list zskiplistNode → zrangespec → option znode;
  zslLastInRange : list zskiplistNode → zrangespec → option znode;
  zslGetElementByRank : list zskiplistNode → N → option znode
}.

Section RdImplRanges.
Context `{!SkiplistQueries}.
Context (debug_build : bool).

(** [while (ln && offset--) ln = Next(reverse, ln);] -- every round moves
    along the list, [fuel] bounds the rounds. *)
Fixpoint GetRange_skip (fuel : nat) (reverse : bool) (l : list zskiplistNode)
         (ln : option znode) (offset : N) : option znode :=
  match fuel with
  | O => ln
  | S fuel' =>
      match ln with
      | None => None
      | Some p =>
          if (offset =? 0)%N then ln
          else GetRange_skip fuel' reverse l (Next reverse l p) (offset - 1)%N
      end
  end.

(** The second loop of [GetRange]. *)
Fixpoint GetRange_collect (fuel : nat) (reverse : bool) (l : list zskiplistNode)
         (range : zrangespec) (ln : option znode) (limit : N) : Outcome ScoredArray :=
  match fuel with
  | O => Done []
  | S fuel' =>
      match ln with
      | None => Done []
      | Some p =>
          if (limit =? 0)%N then Done []
          else
            score ← node_score l p;
            if negb (IsUnder reverse score range) then Done []
            else
              ele ← node_ele l p;
              ele ← deref ele;                  (* sdslen(ln->ele) *)
              rest ← GetRange_collect fuel' reverse l range (Next reverse l p) (limit - 1)%N;
              Done ((ele, score) :: rest)
      end
  end.

(** [RdImpl::GetRange(range, offset, limit, reverse)]. *)
Definition RdImpl_GetRange (range : zrangespec) (offset limit : N) (reverse : bool)
           (z : RdImpl) : Outcome ScoredArray :=
  let l := zsl z in
  let ln := if reverse then zslLastInRange l range else zslFirstInRange l range in
  let ln := GetRange_skip (S (length l)) reverse l ln offset in
  GetRange_collect (S (length l)) reverse l range ln limit.

(** [zslGetRank(zsl, zn->score, zn->ele)]. *)
Definition node_rank (l : list zskiplistNode) (zn : znode) : Outcome N :=
  score ← node_score l zn;
  ele ← node_ele l zn;
  ele ← deref ele;
  Done (zslGetRank l score ele).

(** [RdImpl::Count(range)], on [unsigned long] and [size_t]. *)
Definition RdImpl_Count (range : zrangespec) (z : RdImpl) : Outcome N :=
  let l := zsl z in
  let zlen := N.of_nat (length l) in
  match zslFirstInRange l range with
  | None => Done 0%N
  | Some zn =>
      rank ← node_rank l zn;
      let count := size_t_sub zlen (size_t_sub rank 1) in
      match zslLastInRange l range with
      | None => Done count
      | Some zn =>
          rank ← node_rank l zn;
          Done (size_t_sub count (size_t_sub zlen rank))
      end
  end.

(** The loop of [RdImpl::Iterate]; the callback works on a state of its
    own and tells whether to go on. *)
Fixpoint Iterate_loop {St : Type} (fuel : nat) (reverse : bool) (l : list zskiplistNode)
         (cb : St → option sds → double → St * bool) (ln : option znode) (len : N) (s : St)
  : Outcome (St * bool) :=
  match fuel with
  | O => Done (s, true)
  | S fuel' =>
      if (len =? 0)%N then Done (s, true)
      else
        _ ← DCHECK debug_build (bool_decide (is_Some ln));
        p ← deref ln;
        ele ← node_ele l p;
        score ← node_score l p;
        let '(s, success) := cb s ele score in
        match Next reverse l p with
        | None => Done (s, success)
        | Some q =>
            if success then Iterate_loop fuel' reverse l cb (Some q) (len - 1)%N s
            else Done (s, false)
        end
  end.

(** [RdImpl::Iterate(start_rank, len, reverse, cb)]. *)
Definition RdImpl_Iterate {St : Type} (start_rank len : N) (reverse : bool)
           (cb : St → option sds → double → St * bool) (z : RdImpl) (s : St)
  : Outcome (St * bool) :=
  let l := zsl z in
  let ln :=
    if reverse then
      if (0 <? start_rank)%N
      then zslGetElementByRank l (size_t_sub (N.of_nat (length l)) start_rank)
      else zsl_tail l
    else
      if (0 <? start_rank)%N
      then zslGetElementByRank l ((start_rank + 1) mod unsigned_max)%N
      else forward l Header in
  Iterate_loop (S (length l)) reverse l cb ln len s.

End RdImplRanges.

(** What [zslFirstInRange] and [zslLastInRange] find in a skiplist that
    ascends by score: the first and the last node whose score lies within
    the range, null when there is none. *)
Definition first_in_range (l : list zskiplistNode) (range : zrangespec) : option znode :=
  (fun p => Node (fst p)) <$> list_find (fun x => in_range range (fst x) = true) l.

Definition last_in_range (l : list zskiplistNode) (range : zrangespec) : option znode :=
  (fun p => Node (length l - S (fst p)))
    <$> list_find (fun x => in_range range (fst x) = true) (reverse l).

(** What [zslGetElementByRank] gives for a rank from 1 to the length: the
    node at that place; for a rank above the length: null. *)
Definition element_by_rank (l : list zskiplistNode) (rank : N) : option znode :=
  if ((0 <? rank) && (rank <=? N.of_nat (length l)))%N
  then Some (Node (N.to_nat rank - 1)) else None.

(** The calls [Iterate] makes on a sequence of elements: one after the
    other until the callback tells to stop. *)
Fixpoint calls_until_false {St : Type} (cb : St → option sds → double → St * bool)
         (elems : list (sds * double)) (s : St) : St * bool :=
  match elems with
  | [] => (s, true)
  | e :: rest =>
      let '(s, success) := cb s (Some (fst e)) (snd e) in
      if success then calls_until_false cb rest s else (s, false)
  end.

End SortedMap.

(** ** [src/server/search/search_family.cc] *)
Module SearchFamily.
Import StdAlgo.

(** [size_t] arithmetic wraps at 64 bits. *)
Definition size_max : N := 2 ^ 64.
Definition size_add (a b : N) : N := (a + b) mod size_max.
Definition size_sub (a b : N) : N := (a + size_max - b) mod size_max.
Definition size_mul (a b : N) : N := (a * b) mod size_max.

(** [SerializedSearchDoc]: a key, its field values and, for a KNN query,
    the distance of the document. *)
Record SerializedSearchDoc := {
  key : string;
  values : list (string * string);
  knn_distance : float
}.

(** The per-shard [SearchResult] of the server. *)
Record SearchResult := { docs : list SerializedSearchDoc; total_hits : N }.

Record SearchParams := {
  limit_offset : N;
  limit_total : N;
  knn_vector : list float
}.

(** What is written to the connection, in order. *)
Inductive Reply :=
| StartArray (len : N)
| SendLong (n : N)
| SendSerializedDoc (doc : SerializedSearchDoc).

(** The comparator handed to [std::partial_sort] in [ReplyKnn]. *)
Definition knn_lt (l r : SerializedSearchDoc) : bool :=
  PrimFloat.ltb (knn_distance l) (knn_distance r).

Section Replies.
(** [std::partial_sort] leaves the elements behind [middle] in an order the
    standard does not fix. *)
Context (unspecified_order : list SerializedSearchDoc → list SerializedSearchDoc).

(** [std::partial_sort(begin, begin + middle, end, lt)]: the [middle]
    smallest elements, sorted, then the others.  [middle] has to lie
    within the range. *)
Definition partial_sort (lt : SerializedSearchDoc → SerializedSearchDoc → bool)
           (middle : N) (l : list SerializedSearchDoc) : Outcome (list SerializedSearchDoc) :=
  if (middle <=? N.of_nat (length l))%N then
    let sorted := sort lt l in
    Done (take (N.to_nat middle) sorted ++ unspecified_order (drop (N.to_nat middle) sorted))
  else Undefined.

(** [absl::MakeSpan(v).subspan(pos, len)]: throws when [pos > size()]. *)
Definition subspan {A} (v : list A) (pos len : N) : Outcome (list A) :=
  if (pos <=? N.of_nat (length v))%N
  then Done (take (N.to_nat len) (drop (N.to_nat pos) v))
  else Fatal "pos > size()".

(** [ReplyKnn(knn_limit, params, results, cntx)]. *)
Definition ReplyKnn (knn_limit : N) (params : SearchParams) (results : list SearchResult)
  : Outcome (list Reply) :=
  let docs := concat (docs <$> results) in
  docs ← partial_sort knn_lt
         (N.min (size_add (limit_offset params) (limit_total params)) knn_limit) docs;
  let docs := take (N.to_nat (N.min (N.of_nat (length docs)) knn_limit)) docs in
  let size := N.of_nat (length docs) in
  let response_count :=
    N.min (size_sub size (N.min size (limit_offset params))) (limit_total params) in
  window ← subspan docs (limit_offset params) response_count;
  Done ([StartArray (size_add (size_mul response_count 2) 1); SendLong size]
        ++ (SendSerializedDoc <$> window)).

(** The loop of [ReplyWithResults] over all documents of all shards. *)
Fixpoint ReplyWithResults_loop (response_count : N) (docs : list SerializedSearchDoc)
         (sent to_skip : N) : list Reply :=
  match docs with
  | [] => []
  | serialized_doc :: rest =>
      if (0 <? to_skip)%N then
        ReplyWithResults_loop response_count rest sent (to_skip - 1)
      else if (response_count <=? sent)%N then []
      else SendSerializedDoc serialized_doc
           :: ReplyWithResults_loop response_count rest (size_add sent 1) to_skip
  end.

(** [ReplyWithResults(params, results, cntx)]. *)
Definition ReplyWithResults (params : SearchParams) (results : list SearchResult)
  : list Reply :=
  let total_count := foldl (fun acc shard_docs => size_add acc (total_hits shard_docs))
                           0%N results in
  let response_count :=
    N.min (size_sub total_count (N.min total_count (limit_offset params)))
          (limit_total params) in
  [StartArray (size_add (size_mul response_count 2) 1); SendLong total_count]
  ++ ReplyWithResults_loop response_count (concat (docs <$> results)) 0 (limit_offset params).

End Replies.

(** *** Command arguments *)

(** [absl::ascii_toupper]. *)
Definition ascii_toupper (c : Ascii.ascii) : Ascii.ascii :=
  let n := Ascii.N_of_ascii c in
  if ((97 <=? n) && (n <=? 122))%N then Ascii.ascii_of_N (n - 32) else c.

(** [absl::AsciiStrToUpper(s)]; [ToUpper(&arg)] writes the same bytes
    into the argument. *)
Fixpoint AsciiStrToUpper (s : string) : string :=
  match s with
  | EmptyString => EmptyString
  | String c rest => String (ascii_toupper c) (AsciiStrToUpper rest)
  end.

(** [ArgS(args, i)]: the argument at index [i]; an index past the end
    leaves defined behaviour.  The parsers below upper-case some arguments
    in place ([ToUpper(&args[i])]) right before reading them and never
    read an index below one they upper-cased, so that the arguments are
    held as they came in. *)
Definition ArgS (args : list string) (i : nat) : Outcome string := deref (args !! i).

(** [kSchemaTypes]. *)
Definition kSchemaTypes : list (string * Search.FieldType) :=
  [("TAG", Search.TAG); ("TEXT", Search.TEXT);
   ("NUMERIC", Search.NUMERIC); ("VECTOR", Search.VECTOR)].

(** [kSchemaTypes.find(name)]. *)
Definition kSchemaTypes_find (name : string) : option Search.FieldType :=
  snd <$> List.find (fun p => String.eqb (fst p) name) kSchemaTypes.

Definition kIgnoredOptions : list string :=
  ["WEIGHT"; "SEPARATOR"; "TYPE"; "DIM"; "DISTANCE_METRIC"].

(** [DocIndex::DataType]. *)
Inductive DataType := HASH | JSON.

(** [GetSchemaTypeName(type)]: the name of the first entry with that type,
    where [table] is [kSchemaTypes] in the order the hash map is
    iterated in. *)
Definition GetSchemaTypeName (table : list (string * Search.FieldType))
           (type : Search.FieldType) : string :=
  match List.find (fun p => bool_decide (snd p = type)) table with
  | Some (iname, _) => iname
  | None => ""
  end.

(** [DocIndex]: schema, prefix and the kind of document.  The parsers only
    assign to [schema.fields[alias]]: the schema is held as the finite map
    it is. *)
Record DocIndex := {
  index_schema : gmap string Search.SchemaField;
  index_prefix : string;
  index_type : DataType
}.

(** What [FT.CREATE] does in the end: an error reply, or the index
    registered on every shard under its name and the reply OK. *)
Inductive FtCreateEffect :=
| SendError (msg : string)
| InitIndex_SendOk (idx_name : string) (index : DocIndex).

(** *** The arguments the parsers are made for

    Used to state what the parsers accept.  The declaration of one field
    behind SCHEMA: the identifier, optionally AS (as written) and an
    attribute name, the type as written, for a vector field the two
    arguments behind the type, and options with their values. *)
Record FieldDecl := {
  decl_identifier : string;
  decl_alias : option (string * string);
  decl_type : string;
  decl_vector : list string;
  decl_options : list (string * string)
}.

Definition option_args (o : string * string) : list string := [fst o; snd o].

Definition decl_args (d : FieldDecl) : list string :=
  decl_identifier d
  :: match decl_alias d with Some (kw, a) => [kw; a] | None => [] end
  ++ decl_type d :: decl_vector d ++ concat (option_args <$> decl_options d).

Definition decl_attribute (d : FieldDecl) : string :=
  match decl_alias d with Some (_, a) => a | None => decl_identifier d end.

(** The options behind the query of FT.SEARCH: LIMIT (as written) with
    offset and total, PARAMS (as written) with a count, a name and the
    vector, or an argument that is neither keyword. *)
Inductive SearchOption :=
| OptLimit (kw offset_arg total_arg : string) (offset total : N)
| OptParams (kw num name vector : string)
| OptOther (arg : string).

Definition search_option_args (o : SearchOption) : list string :=
  match o with
  | OptLimit kw offset_arg total_arg _ _ => [kw; offset_arg; total_arg]
  | OptParams kw num name vector => [kw; num; name; vector]
  | OptOther arg => [arg]
  end.

(** The options of FT.CREATE before SCHEMA: ON (as written) with the
    kind of document, PREFIX (as written) with the count 1 and one prefix,
    or an argument that is no keyword. *)
Inductive CreateOption :=
| OptOn (kw type_arg : string) (type : DataType)
| OptPrefix (kw prefix : string)
| OptSkipped (arg : string).

Definition create_option_args (o : CreateOption) : list string :=
  match o with
  | OptOn kw type_arg _ => [kw; type_arg]
  | OptPrefix kw prefix => [kw; "1"; prefix]
  | OptSkipped arg => [arg]
  end.

Definition DataType_name (type : DataType) : string :=
  match type with HASH => "HASH" | JSON => "JSON" end.

Section Commands.
(** Outside the sources at hand: the error texts of facade/error.h,
    whether [jsoncons::jsonpath] accepts a path, [absl::SimpleAtoi] into a
    [size_t], [BytesToFtVector], and the type of a value-initialised
    [DocIndex] (server/search/doc_index.h). *)
Context (kSyntaxErr kInvalidIntErr : string).
Context (json_path_ok : string → bool).
Context (SimpleAtoi : string → option N) (BytesToFtVector : string → list float).
Context (default_type : DataType).

(** The loop of [ParseSchemaOrReply] that skips trailing ignored
    parameters; every round moves [i] by two, [fuel] bounds the rounds. *)
Fixpoint skip_ignored (fuel : nat) (args : list string) (i : nat) : Outcome nat :=
  match fuel with
  | O => Done i
  | S fuel' =>
      if bool_decide (i + 2 < length args)%nat then
        option ← ArgS args (i + 1);
        if bool_decide (option ∈ kIgnoredOptions)
        then skip_ignored fuel' args (i + 2)
        else Done i
      else Done i
  end.

(** One round of the loop of [ParseSchemaOrReply], entered with
    [i < args.size()]: the error sent, or the index the next round starts
    at and the schema. *)
Definition ParseSchema_field (type : DataType) (args : list string) (i : nat)
           (schema : gmap string Search.SchemaField)
  : Outcome (string + nat * gmap string Search.SchemaField) :=
  field ← ArgS args i;
  let i := S i in
  if match type with JSON => negb (json_path_ok field) | HASH => false end
  then Done (inl ("Bad json path: " +:+ field))
  else
    '(field_alias, i) ←
      (if bool_decide (i + 1 < length args)%nat then
         as_arg ← ArgS args i;
         if String.eqb (AsciiStrToUpper as_arg) "AS" then
           field_alias ← ArgS args (i + 1);
           Done (field_alias, (i + 2)%nat)
         else Done (field, i)
       else Done (field, i));
    if bool_decide (length args ≤ i)%nat
    then Done (inl ("No field type for field: " +:+ field))
    else
      type_arg ← ArgS args i;
      let type_str := AsciiStrToUpper type_arg in
      match kSchemaTypes_find type_str with
      | None => Done (inl ("Invalid field type: " +:+ type_str))
      | Some field_type =>
          let i := match field_type with
                   | Search.VECTOR => (i + 2)%nat
                   | _ => i
                   end in
          i ← skip_ignored (length args) args i;
          Done (inr (S i,
                     <[field_alias := {| Search.identifier := field;
                                         Search.type := field_type |}]> schema))
      end.

(** The loop of [ParseSchemaOrReply], from index [i] on; every round moves
    [i] forward, [fuel] bounds the rounds. *)
Fixpoint ParseSchema_loop (fuel : nat) (type : DataType) (args : list string) (i : nat)
         (schema : gmap string Search.SchemaField)
  : Outcome (string + gmap string Search.SchemaField) :=
  match fuel with
  | O => Done (inr schema)
  | S fuel' =>
      if bool_decide (i < length args)%nat then
        round ← ParseSchema_field type args i schema;
        match round with
        | inl error => Done (inl error)
        | inr (i, schema) => ParseSchema_loop fuel' type args i schema
        end
      else Done (inr schema)
  end.

(** [ParseSchemaOrReply(type, args, cntx)]: the error sent, or the
    schema. *)
Definition ParseSchemaOrReply (type : DataType) (args : list string)
  : Outcome (string + gmap string Search.SchemaField) :=
  ParseSchema_loop (length args) type args 0 ∅.

(** The errors [ParseSchemaOrReply] can send. *)
Definition schema_error (type : DataType) (args : list string) (error : string) : Prop :=
  (∃ field, field ∈ args ∧ type = JSON ∧ json_path_ok field = false
            ∧ error = "Bad json path: " +:+ field)
  ∨ (∃ field, field ∈ args ∧ error = "No field type for field: " +:+ field)
  ∨ (∃ t, t ∈ args ∧ kSchemaTypes_find (AsciiStrToUpper t) = None
          ∧ error = "Invalid field type: " +:+ AsciiStrToUpper t).

(** What holds of every schema it builds. *)
Definition schema_from (type : DataType) (args : list string)
           (schema : gmap string Search.SchemaField) : Prop :=
  ∀ field_alias f, schema !! field_alias = Some f →
    field_alias ∈ args ∧ Search.identifier f ∈ args
    ∧ (∃ t, t ∈ args ∧ kSchemaTypes_find (AsciiStrToUpper t) = Some (Search.type f))
    ∧ (type = JSON → json_path_ok (Search.identifier f) = true).

(** A declaration [ParseSchemaOrReply] takes as the field [field_type]:
    the identifier is no ignored option (and a JSON path under JSON), the
    keyword reads AS and the type reads [field_type] in upper case, a
    vector type has its two arguments, every option is an ignored one. *)
Definition decl_ok (type : DataType) (d : FieldDecl) (field_type : Search.FieldType) : Prop :=
  decl_identifier d ∉ kIgnoredOptions
  ∧ (type = JSON → json_path_ok (decl_identifier d) = true)
  ∧ (∀ kw a, decl_alias d = Some (kw, a) → AsciiStrToUpper kw = "AS")
  ∧ kSchemaTypes_find (AsciiStrToUpper (decl_type d)) = Some field_type
  ∧ length (decl_vector d) = match field_type with Search.VECTOR => 2%nat | _ => 0%nat end
  ∧ Forall (fun o => fst o ∈ kIgnoredOptions) (decl_options d).

(** The loop of [ParseSearchParamsOrReply], from index [i] on. *)
Fixpoint ParseSearchParams_loop (fuel : nat) (args : list string) (i : nat)
         (params : SearchParams) : Outcome (string + SearchParams) :=
  match fuel with
  | O => Done (inr params)
  | S fuel' =>
      if bool_decide (i < length args)%nat then
        arg ← ArgS args i;
        let arg := AsciiStrToUpper arg in
        if String.eqb arg "LIMIT" then
          if bool_decide (length args ≤ i + 2)%nat then Done (inl kSyntaxErr)
          else
            offset_arg ← ArgS args (i + 1);
            total_arg ← ArgS args (i + 2);
            match SimpleAtoi offset_arg with
            | None => Done (inl kInvalidIntErr)
            | Some offset =>
                match SimpleAtoi total_arg with
                | None => Done (inl kInvalidIntErr)
                | Some total =>
                    ParseSearchParams_loop fuel' args (i + 3)
                      {| limit_offset := offset; limit_total := total;
                         knn_vector := knn_vector params |}
                end
            end
        else if String.eqb arg "PARAMS" then
          if bool_decide (length args ≤ i + 3)%nat then Done (inl kSyntaxErr)
          else
            vector_arg ← ArgS args (i + 3);
            ParseSearchParams_loop fuel' args (i + 4)
              {| limit_offset := limit_offset params; limit_total := limit_total params;
                 knn_vector := BytesToFtVector vector_arg |}
        else ParseSearchParams_loop fuel' args (S i) params
      else Done (inr params)
  end.

(** [ParseSearchParamsOrReply(args, cntx)]: the error sent, or the
    parameters. *)
Definition ParseSearchParamsOrReply (args : list string) : Outcome (string + SearchParams) :=
  ParseSearchParams_loop (length args) args 0
    {| limit_offset := 0; limit_total := 10; knn_vector := [] |}.

(** The errors [ParseSearchParamsOrReply] can send. *)
Definition params_error (args : list string) (error : string) : Prop :=
  (error = kSyntaxErr
   ∧ ∃ kw, kw ∈ args ∧ (AsciiStrToUpper kw = "LIMIT" ∨ AsciiStrToUpper kw = "PARAMS"))
  ∨ (error = kInvalidIntErr
     ∧ ∃ kw a, kw ∈ args ∧ AsciiStrToUpper kw = "LIMIT" ∧ a ∈ args ∧ SimpleAtoi a = None).

(** What holds of the parameters it returns. *)
Definition params_from (args : list string) (params : SearchParams) : Prop :=
  ((limit_offset params = 0%N ∧ limit_total params = 10%N)
   ∨ ∃ offset_arg total_arg,
       offset_arg ∈ args ∧ total_arg ∈ args
       ∧ SimpleAtoi offset_arg = Some (limit_offset params)
       ∧ SimpleAtoi total_arg = Some (limit_total params))
  ∧ (knn_vector params = [] ∨ ∃ v, v ∈ args ∧ knn_vector params = BytesToFtVector v).

(** An option [ParseSearchParamsOrReply] takes as it is meant. *)
Definition search_option_ok (o : SearchOption) : Prop :=
  match o with
  | OptLimit kw offset_arg total_arg offset total =>
      AsciiStrToUpper kw = "LIMIT"
      ∧ SimpleAtoi offset_arg = Some offset ∧ SimpleAtoi total_arg = Some total
  | OptParams kw _ _ _ => AsciiStrToUpper kw = "PARAMS"
  | OptOther arg => AsciiStrToUpper arg ≠ "LIMIT" ∧ AsciiStrToUpper arg ≠ "PARAMS"
  end.

Definition search_option_apply (params : SearchParams) (o : SearchOption) : SearchParams :=
  match o with
  | OptLimit _ _ _ offset total =>
      {| limit_offset := offset; limit_total := total; knn_vector := knn_vector params |}
  | OptParams _ _ _ vector =>
      {| limit_offset := limit_offset params; limit_total := limit_total params;
         knn_vector := BytesToFtVector vector |}
  | OptOther _ => params
  end.

(** The loop of [FtCreate], from index [i] on. *)
Fixpoint FtCreate_loop (fuel : nat) (args : list string) (i : nat) (index : DocIndex)
  : Outcome (string + DocIndex) :=
  match fuel with
  | O => Done (inr index)
  | S fuel' =>
      if bool_decide (i < length args)%nat then
        arg ← ArgS args i;
        let arg := AsciiStrToUpper arg in
        if String.eqb arg "ON" then
          let i := S i in
          if bool_decide (length args ≤ i)%nat then Done (inl kSyntaxErr)
          else
            type_arg ← ArgS args i;
            let type := AsciiStrToUpper type_arg in
            if String.eqb type "HASH" then
              FtCreate_loop fuel' args (S i)
                {| index_schema := index_schema index; index_prefix := index_prefix index;
                   index_type := HASH |}
            else if String.eqb type "JSON" then
              FtCreate_loop fuel' args (S i)
                {| index_schema := index_schema index; index_prefix := index_prefix index;
                   index_type := JSON |}
            else Done (inl ("Invalid rule type: " +:+ type))
        else if String.eqb arg "PREFIX" then
          if bool_decide (length args ≤ i + 2)%nat then Done (inl kSyntaxErr)
          else
            count ← ArgS args (i + 1);
            if negb (String.eqb count "1")
            then Done (inl "Multiple prefixes are not supported")
            else
              prefix ← ArgS args (i + 2);
              FtCreate_loop fuel' args (i + 3)
                {| index_schema := index_schema index; index_prefix := prefix;
                   index_type := index_type index |}
        else if String.eqb arg "SCHEMA" then
          (* if (i++ >= args.size()) *)
          if bool_decide (length args ≤ i)%nat then Done (inl "Empty schema")
          else
            schema ← ParseSchemaOrReply (index_type index) (drop (S i) args);
            match schema with
            | inl error => Done (inl error)
            | inr schema =>
                Done (inr {| index_schema := schema; index_prefix := index_prefix index;
                             index_type := index_type index |})
            end
        else FtCreate_loop fuel' args (S i) index
      else Done (inr index)
  end.

(** [SearchFamily::FtCreate(args, cntx)]. *)
Definition FtCreate (args : list string) : Outcome FtCreateEffect :=
  idx_name ← ArgS args 0;
  result ← FtCreate_loop (length args) args 1
             {| index_schema := ∅; index_prefix := ""; index_type := default_type |};
  match result with
  | inl error => Done (SendError error)
  | inr index => Done (InitIndex_SendOk idx_name index)
  end.

(** The errors [FtCreate] can send. *)
Definition create_error (args : list string) (error : string) : Prop :=
  error = kSyntaxErr
  ∨ (∃ t, t ∈ args ∧ error = "Invalid rule type: " +:+ AsciiStrToUpper t)
  ∨ error = "Multiple prefixes are not supported"
  ∨ ∃ type, schema_error type args error.

(** What holds of every index it registers. *)
Definition index_from (args : list string) (index : DocIndex) : Prop :=
  (index_prefix index = "" ∨ index_prefix index ∈ args)
  ∧ schema_from (index_type index) args (index_schema index).

(** An option [FtCreate] takes as it is meant. *)
Definition create_option_ok (o : CreateOption) : Prop :=
  match o with
  | OptOn kw type_arg type =>
      AsciiStrToUpper kw = "ON" ∧ AsciiStrToUpper type_arg = DataType_name type
  | OptPrefix kw _ => AsciiStrToUpper kw = "PREFIX"
  | OptSkipped arg => AsciiStrToUpper arg ∉ ["ON"; "PREFIX"; "SCHEMA"]
  end.

Definition create_option_apply (index : DocIndex) (o : CreateOption) : DocIndex :=
  match o with
  | OptOn _ _ type =>
      {| index_schema := index_schema index; index_prefix := index_prefix index;
         index_type := type |}
  | OptPrefix _ prefix =>
      {| index_schema := index_schema index; index_prefix := prefix;
         index_type := index_type index |}
  | OptSkipped _ => index
  end.

End Commands.

End SearchFamily.

(** ** Concrete data for the examples *)
Module Examples.
Import StdAlgo.

(** *** Indexed documents *)

(** A stand-in for [VectorDistance], which is outside the sources at
    hand: the Euclidean distance in single precision, the precision the
    code holds vectors and distances in.  The components are rounded to
    binary32, the squares of their differences are summed in binary32 from
    the first component on, and the root is taken in binary32. *)
Definition to_binary32 (x : float) : spec_float :=
  match Prim2SF x with
  | S754_finite s m e => binary_normalize 24 128 (cond_Zopp s (Zpos m)) e s
  | f => f
  end.

Fixpoint squared_distance (sum : spec_float) (a b : list float) : spec_float :=
  match a, b with
  | x :: a', y :: b' =>
      let d := SFsub 24 128 (to_binary32 x) (to_binary32 y) in
      squared_distance (SFadd 24 128 sum (SFmul 24 128 d d)) a' b'
  | _, _ => sum
  end.

Definition euclidean (a b : list float) : float :=
  SF2Prim (SFsqrt 24 128 (squared_distance (S754_zero false) a b)).

(** Three documents: titles apple, apple, banana; tags sale, new, sale;
    prices 10, 20, 30; vectors (5,5), (1,0), (0,0). *)
Definition title_index : Search.BaseIndex :=
  Search.TextIndex (fun token => if String.eqb token "apple" then Some [1; 2]
                                 else if String.eqb token "banana" then Some [3]
                                 else None).

Definition tag_index : Search.BaseIndex :=
  Search.TagIndex (fun tag => if String.eqb tag "sale" then Some [1; 3]
                              else if String.eqb tag "new" then Some [2]
                              else None).

Definition price_of (d : N) : float :=
  if d =? 1 then 10%float else if d =? 2 then 20%float else 30%float.

Definition price_index : Search.BaseIndex :=
  Search.NumericIndex (fun lo hi =>
    filter (fun d => PrimFloat.leb lo (price_of d) && PrimFloat.leb (price_of d) hi = true)
           [1; 2; 3]).

Definition vector_of (d : N) : option (list float) :=
  if d =? 1 then Some [5%float; 5%float]
  else if d =? 2 then Some [1%float; 0%float]
  else if d =? 3 then Some [0%float; 0%float]
  else None.

Definition three_docs : Search.FieldIndices :=
  {| Search.schema_ :=
       [("title", {| Search.identifier := "title"; Search.type := Search.TEXT |});
        ("tag", {| Search.identifier := "tag"; Search.type := Search.TAG |});
        ("price", {| Search.identifier := "price"; Search.type := Search.NUMERIC |});
        ("v", {| Search.identifier := "v"; Search.type := Search.VECTOR |})];
     Search.all_ids_ := [1; 2; 3];
     Search.indices_ := <["title" := title_index]>
                        (<["tag" := tag_index]>
                         (<["price" := price_index]>
                          (<["v" := Search.VectorIndex vector_of]> ∅))) |}.

(** Three documents with the vectors (NaN), (5), (1). *)
Definition nan_vector_of (d : N) : option (list float) :=
  if d =? 1 then Some [nan]
  else if d =? 2 then Some [5%float]
  else if d =? 3 then Some [1%float]
  else None.

Definition nan_docs : Search.FieldIndices :=
  {| Search.schema_ := [("v", {| Search.identifier := "v"; Search.type := Search.VECTOR |})];
     Search.all_ids_ := [1; 2; 3];
     Search.indices_ := <["v" := Search.VectorIndex nan_vector_of]> ∅ |}.

(** The same documents under a schema without TEXT field. *)
Definition no_text_docs : Search.FieldIndices :=
  {| Search.schema_ := [("tag", {| Search.identifier := "tag"; Search.type := Search.TAG |})];
     Search.all_ids_ := [1; 2; 3];
     Search.indices_ := <["tag" := tag_index]> ∅ |}.

(** [@tag:{sale}] and [*=>[KNN 2 @v (0,0)]]. *)
Definition q_sale : Search.AstNode := Search.AstFieldNode "tag" (Search.AstTagsNode ["sale"]).
Definition q_knn : Search.AstNode :=
  Search.AstKnnNode 2 "v" [0%float; 0%float] Search.AstStarNode.

(** The calls add 5, 2, 9, remove 5; the indices' own bookkeeping is left
    out. *)
Definition keep_index : N → unit → string → Search.BaseIndex → Search.BaseIndex :=
  fun _ _ _ index => index.

Definition four_calls : list (Search.IndexOp unit) :=
  [Search.OpAdd 5 tt; Search.OpAdd 2 tt; Search.OpAdd 9 tt; Search.OpRemove 5 tt].

(** The calls add 5, add 5, remove 5. *)
Definition add_add_remove : list (Search.IndexOp unit) :=
  [Search.OpAdd 5 tt; Search.OpAdd 5 tt; Search.OpRemove 5 tt].

(** *** Sorted sets *)
Section SortedSets.
Import SortedMap.
Local Open Scope Z_scope.

(** A list-backed stand-in for the two containers of the B+tree variant:
    the map sends a member to the address of its record, the tree is the
    list of addresses in comparator order; a new record goes to the next
    multiple of 16. *)
Definition key_before (mem : Memory) (a b : ScoreSds) : bool :=
  match KeyCompareTo mem a b with
  | Done c => c <? 0
  | _ => false
  end.

Fixpoint list_tree_insert (mem : Memory) (k : ScoreSds) (t : list ScoreSds)
  : list ScoreSds * bool :=
  match t with
  | [] => ([k], true)
  | x :: t' =>
      if key_before mem x k then
        let '(t'', added) := list_tree_insert mem k t' in (x :: t'', added)
      else if key_before mem k x then (k :: x :: t', true)
      else (x :: t', false)
  end.

Fixpoint list_tree_delete (mem : Memory) (k : ScoreSds) (t : list ScoreSds)
  : list ScoreSds * bool :=
  match t with
  | [] => ([], false)
  | x :: t' =>
      if key_before mem x k then
        let '(t'', deleted) := list_tree_delete mem k t' in (x :: t'', deleted)
      else if key_before mem k x then (x :: t', false)
      else (t', true)
  end.

#[global] Instance list_containers : ScoreContainers (gmap string Z) (list Z) := {|
  map_new := ∅;
  tree_new := [];
  FindObj m _ ele := m !! ele;
  AddOrUpdate m mem ele score :=
    match m !! ele with
    | Some p => (m, <[p := {| obj_str := ele; obj_score := score |}]> mem, (p, false))
    | None =>
        let p := 16 * (1 + Z.of_nat (size mem)) in
        (<[ele := p]> m, <[p := {| obj_str := ele; obj_score := score |}]> mem, (p, true))
    end;
  Erase m mem ele :=
    match m !! ele with
    | Some p => (delete ele m, delete p mem, true)
    | None => (m, mem, false)
    end;
  tree_Insert t mem k := list_tree_insert mem k t;
  tree_Delete t mem k := list_tree_delete mem k t
|}.

(** A skiplist-variant set holding member "m" with score +inf. *)
Definition rd_inf : RdImpl :=
  {| dict := {[ "m" := infinity ]}; zsl := [(infinity, "m")] |}.

(** The same set in the B+tree variant. *)
Definition df_inf : DfImpl (gmap string Z) (list Z) :=
  {| memory := {[ 16 := {| obj_str := "m"; obj_score := infinity |} ]};
     score_map := {[ "m" := 16 ]};
     score_tree := [16] |}.

(** Two records with score 1.5 at the addresses 16 and 32. *)
Definition two_records : Memory :=
  <[16 := {| obj_str := "a"; obj_score := 1.5%float |}]>
  (<[32 := {| obj_str := "b"; obj_score := 1.5%float |}]> ∅).

(** Stand-ins for the external encoders: entries are kept as strings, the
    scores 1.5 and 2 are rendered as "1.5" and "2". *)
Definition d2string_ex (score : double) : string :=
  if PrimFloat.eqb score 1.5 then "1.5"
  else if PrimFloat.eqb score 2 then "2"
  else "0".

Definition zzlGetScore_ex (e : lp_entry) : double :=
  match e with
  | LpStr s => if String.eqb s "1.5" then 1.5%float
               else if String.eqb s "2" then 2%float
               else 0%float
  | LpInt _ => 0%float
  end.

Definition sdsfromlonglong_ex (v : Z) : sds := "".

(** A skiplist-variant set: ("a", 1.5) and ("b", 2). *)
Definition rd_ab : RdImpl :=
  {| dict := <["a" := 1.5%float]> (<["b" := 2%float]> ∅);
     zsl := [(1.5%float, "a"); (2%float, "b")] |}.

End SortedSets.

(** *** Replies *)
Section Replies.
Import SearchFamily.

Definition doc_a : SerializedSearchDoc :=
  {| key := "doc:a"; values := [("title", "apple")]; knn_distance := 0.5%float |}.
Definition doc_b : SerializedSearchDoc :=
  {| key := "doc:b"; values := [("title", "banana")]; knn_distance := 0.25%float |}.

(** The default window, [LIMIT 0 10]. *)
Definition default_params : SearchParams :=
  {| limit_offset := 0; limit_total := 10; knn_vector := [] |}.

(** One order [std::partial_sort] may leave behind [middle]. *)
Definition as_found (l : list SerializedSearchDoc) : list SerializedSearchDoc := l.

End Replies.

(** *** The posting lists behind the example indices *)
Definition tag_postings : string → option (list N) :=
  match tag_index with
  | Search.TagIndex matching => matching
  | _ => fun _ => None
  end.

Definition title_postings : string → option (list N) :=
  match title_index with
  | Search.TextIndex matching => matching
  | _ => fun _ => None
  end.

(** *** A B+tree-variant set of three *)

(** The queries of the list-backed stand-in for the tree. *)
#[global] Instance list_queries : SortedMap.ScoreQueries (list Z) := {|
  SortedMap.tree_Size t := N.of_nat (length t);
  SortedMap.tree_GEQ t mem key := SortedMap.first_geq mem t key
|}.

Definition rec_a : SortedMap.ScoreObj :=
  {| SortedMap.obj_str := "a"; SortedMap.obj_score := 1%float |}.
Definition rec_b : SortedMap.ScoreObj :=
  {| SortedMap.obj_str := "b"; SortedMap.obj_score := 2%float |}.
Definition rec_c : SortedMap.ScoreObj :=
  {| SortedMap.obj_str := "c"; SortedMap.obj_score := 3%float |}.

(** ("a", 1), ("b", 2) and ("c", 3) at the addresses 16, 32 and 48. *)
Definition three_records : gmap Z SortedMap.ScoreObj :=
  <[16%Z := rec_a]> (<[32%Z := rec_b]> (<[48%Z := rec_c]> ∅)).

Definition df_abc : SortedMap.DfImpl (gmap string Z) (list Z) :=
  {| SortedMap.memory := three_records;
     SortedMap.score_map := <["a" := 16%Z]> (<["b" := 32%Z]> (<["c" := 48%Z]> ∅));
     SortedMap.score_tree := [16%Z; 32%Z; 48%Z] |}.

(** The range [1.5, 3], both bounds included. *)
Definition range_15_3 : SortedMap.zrangespec :=
  {| SortedMap.min := 1.5%float; SortedMap.max := 3%float;
     SortedMap.minex := false; SortedMap.maxex := false |}.

(** Arguments of the commands: a check of JSON paths that takes those
    starting with a dollar sign, decimal numbers for [SimpleAtoi], and a
    vector with one entry per byte. *)
Definition json_dollar (path : string) : bool := String.prefix "$" path.

Fixpoint decimal_loop (s : string) (acc : N) : option N :=
  match s with
  | EmptyString => Some acc
  | String c rest =>
      let n := Ascii.N_of_ascii c in
      if ((48 <=? n) && (n <=? 57))%N then decimal_loop rest (acc * 10 + (n - 48))%N
      else None
  end.

Definition decimal (s : string) : option N :=
  match s with
  | EmptyString => None
  | _ => decimal_loop s 0%N
  end.

Definition one_per_byte (s : string) : list float := repeat 1%float (String.length s).

Definition decl_title : SearchFamily.FieldDecl :=
  {| SearchFamily.decl_identifier := "$.title";
     SearchFamily.decl_alias := Some ("as", "title");
     SearchFamily.decl_type := "text";
     SearchFamily.decl_vector := [];
     SearchFamily.decl_options := [("WEIGHT", "2")] |}.

Definition decl_vec : SearchFamily.FieldDecl :=
  {| SearchFamily.decl_identifier := "$.v";
     SearchFamily.decl_alias := None;
     SearchFamily.decl_type := "Vector";
     SearchFamily.decl_vector := ["FLAT"; "6"];
     SearchFamily.decl_options := [("TYPE", "FLOAT32"); ("DIM", "3")] |}.

Definition two_decls : list (SearchFamily.FieldDecl * Search.FieldType) :=
  [(decl_title, Search.TEXT); (decl_vec, Search.VECTOR)].

Definition two_fields : gmap string Search.SchemaField :=
  <["$.v" := {| Search.identifier := "$.v"; Search.type := Search.VECTOR |}]>
    (<["title" := {| Search.identifier := "$.title"; Search.type := Search.TEXT |}]> ∅).

Definition search_options : list SearchFamily.SearchOption :=
  [SearchFamily.OptOther "NOCONTENT";
   SearchFamily.OptLimit "limit" "5" "20" 5 20;
   SearchFamily.OptParams "Params" "2" "vec" "abcd"].

Definition create_options : list SearchFamily.CreateOption :=
  [SearchFamily.OptOn "on" "json" SearchFamily.JSON;
   SearchFamily.OptPrefix "PREFIX" "doc:"].

(** The searches of the skiplist on the list of its nodes. *)
#[global] Instance list_skiplist : SortedMap.SkiplistQueries := {|
  SortedMap.zslFirstInRange := SortedMap.first_in_range;
  SortedMap.zslLastInRange := SortedMap.last_in_range;
  SortedMap.zslGetElementByRank := SortedMap.element_by_rank
|}.

(** The range [1.5, 2), and a callback that collects the members and
    stops behind "a". *)
Definition range_15_2 : SortedMap.zrangespec :=
  {| SortedMap.min := 1.5%float; SortedMap.max := 2%float;
     SortedMap.minex := false; SortedMap.maxex := true |}.

Definition collect_until_a (seen : list string) (ele : option string) (score : float)
  : list string * bool :=
  match ele with
  | Some e => (seen ++ [e], negb (String.eqb e "a"))
  | None => (seen, false)
  end.

End Examples.

(* ===================================================================== *)
(** * Part II: properties                                                 *)
(* ===================================================================== *)

Import StdAlgo.
Local Close Scope N_scope.

(** ** The order of floating-point values that are not NaN *)
Module FloatOrder.

Import FloatKey.
Local Open Scope Z_scope.

Lemma key_compare_Lt a b : key_compare a b = Lt ↔ key_lt a b.
Proof.
  unfold key_compare, key_lt. destruct a as [[a1 a2] a3], b as [[b1 b2] b3]; simpl.
  destruct (Z.compare_spec a1 b1), (Z.compare_spec a2 b2), (Z.compare_spec a3 b3);
    split; (congruence || lia).
Qed.

Lemma key_compare_Eq a b : key_compare a b = Eq ↔ a = b.
Proof.
  unfold key_compare. destruct a as [[a1 a2] a3], b as [[b1 b2] b3]; simpl.
  destruct (Z.compare_spec a1 b1), (Z.compare_spec a2 b2), (Z.compare_spec a3 b3);
    split; intros; simplify_eq; (congruence || lia).
Qed.

Lemma key_compare_Gt a b : key_compare a b = Gt ↔ key_lt b a.
Proof.
  unfold key_compare, key_lt. destruct a as [[a1 a2] a3], b as [[b1 b2] b3]; simpl.
  destruct (Z.compare_spec a1 b1), (Z.compare_spec a2 b2), (Z.compare_spec a3 b3);
    split; (congruence || lia).
Qed.

Lemma SFcompare_key f1 f2 :
  f1 ≠ S754_nan → f2 ≠ S754_nan →
  SFcompare f1 f2 = Some (key_compare (SFkey f1) (SFkey f2)).
Proof.
  intros H1 H2.
  destruct f1 as [[]|[]| |[] m1 e1], f2 as [[]|[]| |[] m2 e2]; try done;
    unfold key_compare; simpl; f_equal.
  rewrite Z.compare_opp, (Z.compare_antisym e1 e2).
  by destruct (e1 ?= e2).
Qed.

Lemma not_nan_SF x : PrimFloat.is_nan x = false → Prim2SF x ≠ S754_nan.
Proof.
  unfold PrimFloat.is_nan. rewrite FloatAxioms.eqb_spec. intros H Hn. rewrite Hn in H. done.
Qed.

Lemma ltb_true_not_nan x y :
  PrimFloat.ltb x y = true → PrimFloat.is_nan x = false ∧ PrimFloat.is_nan y = false.
Proof.
  unfold PrimFloat.is_nan. rewrite FloatAxioms.ltb_spec, !FloatAxioms.eqb_spec. unfold SFltb, SFeqb.
  destruct (Prim2SF x) as [[]|[]| |[] m1 e1] eqn:Hx, (Prim2SF y) as [[]|[]| |[] m2 e2] eqn:Hy;
    simpl; try done; intros _;
    rewrite ?Z.compare_refl, ?Pos.compare_cont_refl; done.
Qed.

Lemma ltb_key x y :
  PrimFloat.is_nan x = false → PrimFloat.is_nan y = false →
  PrimFloat.ltb x y = true ↔ key_lt (fkey x) (fkey y).
Proof.
  intros Hx%not_nan_SF Hy%not_nan_SF.
  rewrite FloatAxioms.ltb_spec. unfold SFltb. rewrite SFcompare_key by done.
  rewrite <- key_compare_Lt. unfold fkey.
  destruct (key_compare _ _); split; done.
Qed.

Lemma eqb_key x y :
  PrimFloat.is_nan x = false → PrimFloat.is_nan y = false →
  PrimFloat.eqb x y = true ↔ fkey x = fkey y.
Proof.
  intros Hx%not_nan_SF Hy%not_nan_SF.
  rewrite FloatAxioms.eqb_spec. unfold SFeqb. rewrite SFcompare_key by done.
  rewrite <- key_compare_Eq. unfold fkey.
  destruct (key_compare _ _); split; done.
Qed.

Lemma leb_key x y :
  PrimFloat.is_nan x = false → PrimFloat.is_nan y = false →
  PrimFloat.leb x y = true ↔ ¬ key_lt (fkey y) (fkey x).
Proof.
  intros Hx%not_nan_SF Hy%not_nan_SF.
  rewrite FloatAxioms.leb_spec. unfold SFleb. rewrite SFcompare_key by done.
  rewrite <- key_compare_Gt. unfold fkey.
  destruct (key_compare _ _); split; done.
Qed.

(** Reading the comparisons of floats that are not NaN on their keys. *)
Ltac float_order :=
  repeat match goal with
         | H : PrimFloat.ltb ?x ?y = true |- _ =>
             lazymatch goal with
             | _ : PrimFloat.is_nan x = false, _ : PrimFloat.is_nan y = false |- _ => fail
             | _ => pose proof (ltb_true_not_nan x y H) as [? ?]
             end
         end;
  repeat match goal with
         | H : PrimFloat.ltb ?x ?y = true |- _ => apply ltb_key in H; [|assumption..]
         | H : PrimFloat.ltb ?x ?y = false |- _ =>
             apply not_true_iff_false in H; rewrite ltb_key in H by assumption
         | H : PrimFloat.eqb ?x ?y = true |- _ => apply eqb_key in H; [|assumption..]
         | H : PrimFloat.eqb ?x ?y = false |- _ =>
             apply not_true_iff_false in H; rewrite eqb_key in H by assumption
         | H : PrimFloat.leb ?x ?y = true |- _ => apply leb_key in H; [|assumption..]
         | H : PrimFloat.leb ?x ?y = false |- _ =>
             apply not_true_iff_false in H; rewrite leb_key in H by assumption
         | |- PrimFloat.ltb ?x ?y = true => apply ltb_key; [assumption..|]
         | |- PrimFloat.ltb ?x ?y = false =>
             apply not_true_iff_false; rewrite ltb_key by assumption
         | |- PrimFloat.eqb ?x ?y = true => apply eqb_key; [assumption..|]
         | |- PrimFloat.eqb ?x ?y = false =>
             apply not_true_iff_false; rewrite eqb_key by assumption
         end;
  repeat match goal with
         | |- context [fkey ?x] =>
             let a := fresh "a" in let b := fresh "b" in let c := fresh "c" in
             destruct (fkey x) as [[a b] c]
         | H : context [fkey ?x] |- _ =>
             let a := fresh "a" in let b := fresh "b" in let c := fresh "c" in
             destruct (fkey x) as [[a b] c]
         end;
  unfold key_lt in *; simpl in *; simplify_eq;
  first [ lia | repeat f_equal; lia | idtac ].

Lemma ltb_irrefl x : PrimFloat.ltb x x = false.
Proof.
  destruct (PrimFloat.ltb x x) eqn:H; [|done].
  exfalso. float_order.
Qed.

Lemma ltb_asym x y : PrimFloat.ltb x y = true → PrimFloat.ltb y x = false.
Proof. intros H. float_order. Qed.

Lemma ltb_trans x y z :
  PrimFloat.ltb x y = true → PrimFloat.ltb y z = true → PrimFloat.ltb x z = true.
Proof. intros H1 H2. float_order. Qed.

(** "Not after": [y] is not below [x]. *)
Lemma not_ltb_trans x y z :
  PrimFloat.is_nan x = false → PrimFloat.is_nan y = false → PrimFloat.is_nan z = false →
  PrimFloat.ltb y x = false → PrimFloat.ltb z y = false → PrimFloat.ltb z x = false.
Proof. intros Hx Hy Hz H1 H2. float_order. Qed.

Lemma eqb_iff_not_ltb x y :
  PrimFloat.is_nan x = false → PrimFloat.is_nan y = false →
  PrimFloat.eqb x y = true ↔ PrimFloat.ltb x y = false ∧ PrimFloat.ltb y x = false.
Proof.
  intros Hx Hy. split.
  - intros H. split; float_order.
  - intros [H1 H2]. float_order.
Qed.

Lemma leb_not_ltb x y :
  PrimFloat.is_nan x = false → PrimFloat.is_nan y = false →
  PrimFloat.leb x y = negb (PrimFloat.ltb y x).
Proof.
  intros Hx Hy. destruct (PrimFloat.ltb y x) eqn:H1, (PrimFloat.leb x y) eqn:H2; try done;
    exfalso; float_order.
Qed.

End FloatOrder.

Section DocSets.
Import Search.
Local Open Scope N_scope.


Lemma set_intersection_elem (s1 s2 : list N) x :
  is_docset s1 → is_docset s2 →
  x ∈ set_intersection N.ltb s1 s2 ↔ x ∈ s1 ∧ x ∈ s2.
Proof.
  unfold is_docset. revert s2.
  induction s1 as [|a s1 IH]; intros s2 H1 H2.
  { simpl. set_solver. }
  apply StronglySorted_cons in H1 as [Ha H1].
  induction s2 as [|b s2 IH2].
  { simpl. set_solver. }
  pose proof H2 as H2'.
  apply StronglySorted_cons in H2 as [Hb H2].
  rewrite Forall_forall in Ha, Hb.
  simpl. destruct (N.ltb_spec a b) as [Hab|Hab].
  - change ((fix scan2 (s0 : list N) : list N := _) ?u) with u.
    rewrite (IH (b :: s2)) by (done || by apply StronglySorted_cons; rewrite Forall_forall).
    rewrite !elem_of_cons. split; [naive_solver|].
    intros [[->|Hx] [->|Hx2]]; try lia; auto.
    specialize (Hb _ Hx2). lia.
  - destruct (N.ltb_spec b a) as [Hba|Hba].
    + simpl in IH2. rewrite IH2 by done.
      rewrite !elem_of_cons. split; [naive_solver|].
      intros [[->|Hx] [->|Hx2]]; auto; try lia.
      specialize (Ha _ Hx). lia.
    + assert (a = b) as -> by lia.
      rewrite elem_of_cons, IH by done.
      rewrite !elem_of_cons. split; [naive_solver|].
      intros [[->|Hx] [Heq|Hx2]]; auto.
Qed.

Lemma set_intersection_sorted (s1 s2 : list N) :
  is_docset s1 → is_docset s2 → is_docset (set_intersection N.ltb s1 s2).
Proof.
  unfold is_docset. revert s2.
  induction s1 as [|a s1 IH]; intros s2 H1 H2.
  { simpl. constructor. }
  pose proof H1 as H1'.
  apply StronglySorted_cons in H1 as [Ha H1].
  induction s2 as [|b s2 IH2].
  { simpl. constructor. }
  pose proof H2 as H2'.
  apply StronglySorted_cons in H2 as [Hb H2].
  simpl. destruct (N.ltb_spec a b) as [Hab|Hab].
  - apply (IH (b :: s2)); done.
  - destruct (N.ltb_spec b a) as [Hba|Hba].
    + apply IH2; done.
    + apply StronglySorted_cons. split; [|by apply IH].
      rewrite Forall_forall in Ha |- *. intros x Hx.
      apply set_intersection_elem in Hx as [Hx _]; auto.
Qed.

Lemma set_union_elem (s1 s2 : list N) x :
  x ∈ set_union N.ltb s1 s2 ↔ x ∈ s1 ∨ x ∈ s2.
Proof.
  revert s2. induction s1 as [|a s1 IH]; intros s2.
  { simpl. set_solver. }
  induction s2 as [|b s2 IH2].
  { simpl. set_solver. }
  simpl. destruct (N.ltb_spec a b) as [Hab|Hab].
  - rewrite elem_of_cons, (IH (b :: s2)), !elem_of_cons. naive_solver.
  - destruct (N.ltb_spec b a) as [Hba|Hba].
    + simpl in IH2. rewrite elem_of_cons, IH2, !elem_of_cons. naive_solver.
    + assert (a = b) as -> by lia.
      rewrite elem_of_cons, IH, !elem_of_cons. naive_solver.
Qed.

Lemma set_union_sorted (s1 s2 : list N) :
  is_docset s1 → is_docset s2 → is_docset (set_union N.ltb s1 s2).
Proof.
  unfold is_docset. revert s2.
  induction s1 as [|a s1 IH]; intros s2 H1 H2.
  { done. }
  pose proof H1 as H1'.
  apply StronglySorted_cons in H1 as [Ha H1].
  induction s2 as [|b s2 IH2].
  { done. }
  pose proof H2 as H2'.
  apply StronglySorted_cons in H2 as [Hb H2].
  rewrite Forall_forall in Ha, Hb.
  simpl. destruct (N.ltb_spec a b) as [Hab|Hab].
  - apply StronglySorted_cons. split; [|by apply (IH (b :: s2))].
    apply Forall_forall. intros x Hx.
    apply set_union_elem in Hx as [Hx|Hx]; [by apply Ha|].
    apply elem_of_cons in Hx as [->|Hx]; [done|]. specialize (Hb _ Hx). lia.
  - destruct (N.ltb_spec b a) as [Hba|Hba].
    + apply StronglySorted_cons. split; [|by apply IH2].
      apply Forall_forall. intros x Hx.
      change (x ∈ set_union N.ltb (a :: s1) s2) in Hx.
      apply set_union_elem in Hx as [Hx|Hx]; [|by apply Hb].
      apply elem_of_cons in Hx as [->|Hx]; [done|]. specialize (Ha _ Hx). lia.
    + assert (a = b) as -> by lia.
      apply StronglySorted_cons. split; [|by apply IH].
      apply Forall_forall. intros x Hx.
      apply set_union_elem in Hx as [Hx|Hx]; auto.
Qed.

Lemma Sorted_weaken {A} (R R' : relation A) l :
  (∀ a b, R a b → R' a b) → Sorted R l → Sorted R' l.
Proof.
  intros HR. induction 1 as [|x l Hl IH Hhd]; constructor; [done|].
  destruct Hhd; constructor; auto.
Qed.

(** Insertion sort: a permutation, ordered by the comparator. *)
Section SortFacts.
Context {A : Type} (lt : A → A → bool).

Lemma sort_insert_perm x l : sort_insert lt x l ≡ₚ x :: l.
Proof.
  induction l as [|y l IH]; simpl; [done|].
  destruct (lt y x); [|done].
  rewrite IH. apply Permutation_swap.
Qed.

Lemma sort_perm l : sort lt l ≡ₚ l.
Proof.
  induction l as [|x l IH]; simpl; [done|].
  rewrite sort_insert_perm. by f_equiv.
Qed.

Lemma sort_length l : length (sort lt l) = length l.
Proof. by rewrite sort_perm. Qed.

Context (lt_asym : ∀ a b, lt a b = true → lt b a = false).

Lemma sort_insert_sorted x l :
  Sorted (not_after lt) l → Sorted (not_after lt) (sort_insert lt x l).
Proof.
  induction 1 as [|y l Hl IH Hhd]; simpl.
  { repeat constructor. }
  destruct (lt y x) eqn:Hyx.
  - constructor; [done|].
    destruct Hhd as [|z l Hyz]; simpl.
    + constructor. by apply lt_asym.
    + destruct (lt z x); constructor; [done|by apply lt_asym].
  - repeat constructor; done.
Qed.

Lemma sort_sorted l : Sorted (not_after lt) (sort lt l).
Proof.
  induction l as [|x l IH]; simpl; [constructor|by apply sort_insert_sorted].
Qed.

End SortFacts.


Lemma is_docset_NoDup (l : list DocId) : is_docset l → NoDup l.
Proof.
  induction 1 as [|a l Hl IH Ha]; constructor; [|done].
  intros Hin. rewrite Forall_forall in Ha. specialize (Ha _ Hin). lia.
Qed.

(** Two DocSets with the same members are the same sequence. *)
Lemma is_docset_ext (l1 l2 : list DocId) :
  is_docset l1 → is_docset l2 → (∀ d, d ∈ l1 ↔ d ∈ l2) → l1 = l2.
Proof.
  intros H1 H2 Heq.
  apply (StronglySorted_unique_strong N.lt); [|done|done|].
  - intros x1 x2 _ _ ? ?. lia.
  - apply NoDup_Permutation; auto using is_docset_NoDup.
Qed.

Lemma Merge_docset matched current op :
  is_docset (Borrowed matched) → is_docset (Borrowed current) →
  is_docset (Borrowed (Merge matched current op)).
Proof.
  intros; destruct op; simpl; auto using set_intersection_sorted, set_union_sorted.
Qed.

Lemma Merge_elem matched current op d :
  is_docset (Borrowed matched) → is_docset (Borrowed current) →
  d ∈ Borrowed (Merge matched current op) ↔
  match op with
  | AND => d ∈ Borrowed matched ∧ d ∈ Borrowed current
  | OR => d ∈ Borrowed matched ∨ d ∈ Borrowed current
  end.
Proof.
  intros; destruct op; simpl; auto using set_intersection_elem, set_union_elem.
Qed.

(** The fold of [UnifyResults] over any ordering of the sub-results. *)
Lemma unify_fold_spec op (rest : list IndexResult) (out : IndexResult) :
  is_docset (Borrowed out) →
  Forall (fun r => is_docset (Borrowed r)) rest →
  let res := fold_left (fun out matched => Merge matched out op) rest out in
  is_docset (Borrowed res) ∧
  ∀ d, d ∈ Borrowed res ↔
       match op with
       | AND => ∀ r, r ∈ out :: rest → d ∈ Borrowed r
       | OR => ∃ r, r ∈ out :: rest ∧ d ∈ Borrowed r
       end.
Proof.
  revert out. induction rest as [|m rest IH]; intros out Hout Hrest; simpl.
  { split; [done|]. intros d. destruct op; set_solver. }
  apply Forall_cons in Hrest as [Hm Hrest].
  destruct (IH (Merge m out op)) as [Hs He]; [by apply Merge_docset|done|].
  split; [done|]. intros d. rewrite He. clear He Hs IH.
  destruct op.
  - split.
    + intros H r Hr. apply elem_of_cons in Hr as [->|Hr].
      * specialize (H (Merge m out AND) (ltac:(left))).
        apply (Merge_elem m out AND) in H; tauto.
      * apply elem_of_cons in Hr as [->|Hr].
        -- specialize (H (Merge m out AND) (ltac:(left))).
           apply (Merge_elem m out AND) in H; tauto.
        -- apply H. by right.
    + intros H r Hr. apply elem_of_cons in Hr as [->|Hr].
      * apply (Merge_elem m out AND); [done|done|]. split; apply H; set_solver.
      * apply H. set_solver.
  - split.
    + intros (r & Hr & Hd). apply elem_of_cons in Hr as [->|Hr].
      * destruct (proj1 (Merge_elem m out OR d Hm Hout) Hd) as [Hd'|Hd'].
        -- exists m. set_solver.
        -- exists out. set_solver.
      * exists r. set_solver.
    + intros (r & Hr & Hd). apply elem_of_cons in Hr as [->|Hr].
      * exists (Merge m out OR). split; [left|].
        apply (Merge_elem m out OR); auto.
      * apply elem_of_cons in Hr as [->|Hr].
        -- exists (Merge m out OR). split; [left|].
           apply (Merge_elem m out OR); auto.
        -- exists r. set_solver.
Qed.

Lemma size_lt_asym a b : size_lt a b = true → size_lt b a = false.
Proof. unfold size_lt. intros H%Nat.ltb_lt. apply Nat.ltb_ge. lia. Qed.



Example UnifyResults_and_example :
  UnifyResults [Owned [1; 2; 3]; BorrowedSet [2]; Owned [2; 3]] AND = Owned [2].
Proof. reflexivity. Qed.

Example UnifyResults_or_example :
  UnifyResults [Owned [1; 5]; BorrowedSet [2]; Owned [2; 3; 5]] OR = Owned [1; 2; 3; 5].
Proof. reflexivity. Qed.

End DocSets.

(** ** The binary searches *)
Section BoundLoop.
Context {A : Type} (go_right : A → bool) (l : list A).
(** Once the search has to go left it never has to go right again. *)
Context (Hpart : ∀ i j ei ej, l !! i = Some ei → l !! j = Some ej → (i ≤ j)%nat →
                 go_right ej = true → go_right ei = true).

Lemma div2_bounds n : (2 * Nat.div2 n ≤ n ∧ n ≤ 2 * Nat.div2 n + 1)%nat.
Proof. pose proof (Nat.div2_odd n). destruct (Nat.odd n); simpl in *; lia. Qed.

Lemma bound_loop_spec fuel first len :
  (len ≤ fuel)%nat → (first + len ≤ length l)%nat →
  (∀ i e, l !! i = Some e → (i < first)%nat → go_right e = true) →
  (∀ i e, l !! i = Some e → (first + len ≤ i)%nat → go_right e = false) →
  (first ≤ bound_loop go_right l fuel first len ≤ first + len)%nat
  ∧ (∀ i e, l !! i = Some e → (i < bound_loop go_right l fuel first len)%nat →
            go_right e = true)
  ∧ (∀ i e, l !! i = Some e → (bound_loop go_right l fuel first len ≤ i)%nat →
            go_right e = false).
Proof.
  revert first len. induction fuel as [|fuel IH]; intros first len Hfuel Hlen Hlo Hhi.
  { assert (len = 0)%nat as -> by lia. simpl.
    split; [lia|]. split; [done|]. intros i e He Hi. apply (Hhi i e He). lia. }
  simpl. destruct (Nat.eqb_spec len 0) as [->|Hne].
  { split; [lia|]. split; [done|]. intros i e He Hi. apply (Hhi i e He). lia. }
  pose proof (div2_bounds len) as Hdiv.
  destruct (lookup_lt_is_Some_2 l (first + Nat.div2 len)) as [e He]; [lia|].
  rewrite He. destruct (go_right e) eqn:Hgo.
  - destruct (IH (S (first + Nat.div2 len)) (len - Nat.div2 len - 1)%nat)
      as (Hr & Hb & Ha); try lia.
    + intros i ei Hei Hi. apply (Hpart i (first + Nat.div2 len)%nat ei e); auto. lia.
    + intros i ei Hei Hi. apply (Hhi i ei Hei). lia.
    + split; [lia|]. split; done.
  - destruct (IH first (Nat.div2 len)) as (Hr & Hb & Ha); try lia.
    + done.
    + intros i ei Hei Hi.
      destruct (go_right ei) eqn:Hgi; [|done].
      rewrite <- Hgo. symmetry.
      apply (Hpart (first + Nat.div2 len)%nat i e ei); auto.
    + split; [lia|]. split; done.
Qed.

End BoundLoop.

Section SortedSearch.
Import Search.
Local Open Scope N_scope.

(** On a sorted range [lower_bound] is the number of elements below [v]
    and [upper_bound] the number of elements not above it. *)
Lemma sorted_lookup_le (l : list N) i j ei ej :
  StronglySorted N.le l → l !! i = Some ei → l !! j = Some ej → (i ≤ j)%nat → ei ≤ ej.
Proof.
  intros Hs. revert i j. induction Hs as [|a l Hs IH Ha]; intros i j Hi Hj Hij.
  { done. }
  destruct i as [|i], j as [|j]; simpl in *; try lia.
  - simplify_eq. lia.
  - simplify_eq. rewrite Forall_forall in Ha. apply Ha. by eapply list_elem_of_lookup_2.
  - eauto with lia.
Qed.

Lemma is_docset_le (l : list N) : is_docset l → StronglySorted N.le l.
Proof.
  induction 1 as [|a l Hs IH Ha]; constructor; [done|].
  eapply Forall_impl; [done|]. simpl. lia.
Qed.

Lemma lower_bound_spec (l : list N) v :
  StronglySorted N.le l →
  (lower_bound N.ltb l v ≤ length l)%nat
  ∧ (∀ i e, l !! i = Some e → (i < lower_bound N.ltb l v)%nat → e < v)
  ∧ (∀ i e, l !! i = Some e → (lower_bound N.ltb l v ≤ i)%nat → v ≤ e).
Proof.
  intros Hs. unfold lower_bound.
  destruct (bound_loop_spec (fun e => N.ltb e v) l) with
    (fuel := length l) (first := 0%nat) (len := length l) as (Hr & Hb & Ha);
    try lia.
  - intros i j ei ej Hi Hj Hij H%N.ltb_lt. apply N.ltb_lt.
    pose proof (sorted_lookup_le l i j ei ej Hs Hi Hj Hij). lia.
  - intros i e He%lookup_lt_Some Hi. simpl in Hi. lia.
  - split; [lia|]. split.
    + intros i e He Hi. by apply N.ltb_lt, (Hb i).
    + intros i e He Hi. by apply N.ltb_ge, (Ha i).
Qed.

Lemma upper_bound_spec (l : list N) v :
  StronglySorted N.le l →
  (upper_bound N.ltb l v ≤ length l)%nat
  ∧ (∀ i e, l !! i = Some e → (i < upper_bound N.ltb l v)%nat → e ≤ v)
  ∧ (∀ i e, l !! i = Some e → (upper_bound N.ltb l v ≤ i)%nat → v < e).
Proof.
  intros Hs. unfold upper_bound.
  destruct (bound_loop_spec (fun e => negb (N.ltb v e)) l) with
    (fuel := length l) (first := 0%nat) (len := length l) as (Hr & Hb & Ha);
    try lia.
  - intros i j ei ej Hi Hj Hij H%negb_true_iff%N.ltb_ge.
    apply negb_true_iff, N.ltb_ge.
    pose proof (sorted_lookup_le l i j ei ej Hs Hi Hj Hij). lia.
  - intros i e He%lookup_lt_Some Hi. simpl in Hi. lia.
  - split; [lia|]. split.
    + intros i e He Hi. by apply N.ltb_ge, negb_true_iff, (Hb i).
    + intros i e He Hi. by apply N.ltb_lt, negb_false_iff, (Ha i).
Qed.

(** [std::binary_search] on a sorted range decides membership. *)
Lemma binary_search_spec (l : list N) v :
  StronglySorted N.le l → binary_search N.ltb l v = true ↔ v ∈ l.
Proof.
  intros Hs. destruct (lower_bound_spec l v Hs) as (Hr & Hb & Ha).
  unfold binary_search. split.
  - destruct (l !! lower_bound N.ltb l v) as [e|] eqn:He; [|done].
    intros H%negb_true_iff%N.ltb_ge.
    specialize (Ha _ _ He (le_n _)). assert (e = v) as -> by lia.
    by eapply list_elem_of_lookup_2.
  - intros [i Hi]%list_elem_of_lookup_1.
    destruct (decide (i < lower_bound N.ltb l v)%nat) as [Hlt|Hge].
    { specialize (Hb _ _ Hi Hlt). lia. }
    destruct (lookup_lt_is_Some_2 l (lower_bound N.ltb l v)) as [e He].
    { apply lookup_lt_Some in Hi. lia. }
    rewrite He. apply negb_true_iff, N.ltb_ge.
    pose proof (sorted_lookup_le l _ i e v Hs He Hi ltac:(lia)).
    done.
Qed.

End SortedSearch.

(** ** [FieldIndices::Add] and [FieldIndices::Remove] *)
Section AllIds.
Import Search.
Local Open Scope N_scope.

Lemma is_docset_take_drop (l : list N) n :
  is_docset l → is_docset (take n l) ∧ is_docset (drop n l).
Proof.
  intros H. unfold is_docset in *. rewrite <- (take_drop n l) in H.
  apply StronglySorted_app in H. tauto.
Qed.

Lemma insert_at_upper_bound (l : list N) v :
  is_docset l → v ∉ l →
  is_docset (insert_at (upper_bound N.ltb l v) v l)
  ∧ ∀ x, x ∈ insert_at (upper_bound N.ltb l v) v l ↔ x = v ∨ x ∈ l.
Proof.
  intros Hs Hv.
  destruct (upper_bound_spec l v (is_docset_le l Hs)) as (Hr & Hb & Ha).
  destruct (is_docset_take_drop l (upper_bound N.ltb l v) Hs) as [Ht Hd].
  unfold insert_at. split.
  - apply StronglySorted_app. split_and!; [|done|].
    + intros x1 x2 [i [Hi Hlt]%lookup_take_Some]%list_elem_of_lookup_1 Hx2.
      assert (x1 < v).
      { specialize (Hb _ _ Hi Hlt).
        assert (x1 ≠ v); [|lia]. intros ->. apply Hv. by eapply list_elem_of_lookup_2. }
      apply elem_of_cons in Hx2 as [->|[j Hj]%list_elem_of_lookup_1]; [done|].
      rewrite lookup_drop in Hj. specialize (Ha _ _ Hj ltac:(lia)). lia.
    + apply StronglySorted_cons. split; [|done].
      apply Forall_forall. intros x [j Hj]%list_elem_of_lookup_1.
      rewrite lookup_drop in Hj. apply (Ha _ _ Hj). lia.
  - intros x. rewrite elem_of_app, elem_of_cons.
    assert (x ∈ l ↔ x ∈ take (upper_bound N.ltb l v) l ∨ x ∈ drop (upper_bound N.ltb l v) l)
      as ->; [|tauto].
    by rewrite <- elem_of_app, take_drop.
Qed.

Lemma lower_bound_found (l : list N) v :
  is_docset l → v ∈ l → l !! lower_bound N.ltb l v = Some v.
Proof.
  intros Hs Hv.
  pose proof (binary_search_spec l v (is_docset_le l Hs)) as Hbs.
  apply Hbs in Hv. unfold binary_search in Hv.
  destruct (lower_bound_spec l v (is_docset_le l Hs)) as (Hr & Hb & Ha).
  destruct (l !! lower_bound N.ltb l v) as [e|] eqn:He; [|done].
  apply negb_true_iff, N.ltb_ge in Hv.
  specialize (Ha _ _ He (le_n _)). f_equal. lia.
Qed.

Lemma erase_at_lower_bound (l : list N) v :
  is_docset l → v ∈ l →
  is_docset (erase_at (lower_bound N.ltb l v) l)
  ∧ ∀ x, x ∈ erase_at (lower_bound N.ltb l v) l ↔ x ∈ l ∧ x ≠ v.
Proof.
  intros Hs Hv.
  pose proof (lower_bound_found l v Hs Hv) as Hfound.
  set (r := lower_bound N.ltb l v) in *.
  assert (Hl : l = take r l ++ v :: drop (S r) l).
  { rewrite <- (take_drop r l) at 1. f_equal. by apply drop_S. }
  unfold erase_at.
  pose proof Hs as Hs'. unfold is_docset in Hs'. rewrite Hl in Hs'.
  apply StronglySorted_app in Hs' as (Hcross & Ht & Hd).
  apply StronglySorted_cons in Hd as [Hvd Hd].
  rewrite Forall_forall in Hvd.
  split.
  - apply StronglySorted_app. split_and!; [|done|done].
    intros x1 x2 H1 H2. apply Hcross; [done|by right].
  - intros x.
    assert (x ∈ l ↔ x ∈ take r l ∨ x = v ∨ x ∈ drop (S r) l) as ->.
    { rewrite Hl at 1. by rewrite elem_of_app, elem_of_cons. }
    rewrite elem_of_app.
    split.
    + intros [H|H]; (split; [tauto|]); intros ->.
      * specialize (Hcross v v H ltac:(left)). lia.
      * specialize (Hvd v H). lia.
    + intros [[H|[->|H]] Hne]; tauto.
Qed.

(** The same without the ban on duplicates. *)
Lemma insert_at_sorted (l : list N) v :
  StronglySorted N.le l →
  StronglySorted N.le (insert_at (upper_bound N.ltb l v) v l)
  ∧ insert_at (upper_bound N.ltb l v) v l ≡ₚ v :: l
  ∧ insert_at (upper_bound N.ltb l v) v l !! upper_bound N.ltb l v = Some v.
Proof.
  intros Hs.
  destruct (upper_bound_spec l v Hs) as (Hr & Hb & Ha).
  set (ub := upper_bound N.ltb l v) in *.
  pose proof Hs as Hs'. rewrite <- (take_drop ub l) in Hs'.
  apply StronglySorted_app in Hs' as (_ & Ht & Hd).
  unfold insert_at. split_and!.
  - apply StronglySorted_app. split_and!; [|done|].
    + intros x1 x2 [i [Hi Hlt]%lookup_take_Some]%list_elem_of_lookup_1 Hx2.
      specialize (Hb _ _ Hi Hlt).
      apply elem_of_cons in Hx2 as [->|[j Hj]%list_elem_of_lookup_1]; [done|].
      rewrite lookup_drop in Hj. specialize (Ha _ _ Hj ltac:(lia)). lia.
    + apply StronglySorted_cons. split; [|done].
      apply Forall_forall. intros x [j Hj]%list_elem_of_lookup_1.
      rewrite lookup_drop in Hj. specialize (Ha _ _ Hj ltac:(lia)). lia.
  - rewrite <- Permutation_middle. by rewrite take_drop.
  - rewrite lookup_app_r by (rewrite length_take; lia).
    rewrite length_take, Nat.min_l by done. by rewrite Nat.sub_diag.
Qed.

Lemma lower_bound_found_le (l : list N) v :
  StronglySorted N.le l → v ∈ l → l !! lower_bound N.ltb l v = Some v.
Proof.
  intros Hs Hv.
  pose proof (binary_search_spec l v Hs) as Hbs.
  apply Hbs in Hv. unfold binary_search in Hv.
  destruct (lower_bound_spec l v Hs) as (Hr & Hb & Ha).
  destruct (l !! lower_bound N.ltb l v) as [e|] eqn:He; [|done].
  apply negb_true_iff, N.ltb_ge in Hv.
  specialize (Ha _ _ He (le_n _)). f_equal. lia.
Qed.

Lemma erase_at_sorted (l : list N) v :
  StronglySorted N.le l → v ∈ l →
  StronglySorted N.le (erase_at (lower_bound N.ltb l v) l)
  ∧ l ≡ₚ v :: erase_at (lower_bound N.ltb l v) l.
Proof.
  intros Hs Hv.
  pose proof (lower_bound_found_le l v Hs Hv) as Hfound.
  set (r := lower_bound N.ltb l v) in *.
  assert (Hl : l = take r l ++ v :: drop (S r) l) by (by rewrite take_drop_middle).
  unfold erase_at. split.
  - rewrite Hl in Hs. apply StronglySorted_app in Hs as (Hcross & Ht & Hd).
    apply StronglySorted_cons in Hd as [_ Hd].
    apply StronglySorted_app. split_and!; [|done|done].
    intros x1 x2 H1 H2. apply Hcross; [done|by right].
  - rewrite Permutation_middle. by rewrite <- Hl.
Qed.

End AllIds.

Section FieldIndicesFacts.
Import Search.
Local Open Scope N_scope.
Context {DocumentAccessor : Type}.
Context (index_add index_remove :
           DocId → DocumentAccessor → string → BaseIndex → BaseIndex).

Local Abbreviation run_ops := (Search.run_ops index_add index_remove).
Local Abbreviation IndexOp := (Search.IndexOp DocumentAccessor).

Lemma run_ops_spec ops fi (live : gset DocId) :
  is_docset (all_ids_ fi) → (∀ d, d ∈ all_ids_ fi ↔ d ∈ live) → ops_ok ops live →
  ∃ fi', run_ops ops fi = Done fi'
         ∧ is_docset (all_ids_ fi')
         ∧ ∀ d, d ∈ all_ids_ fi' ↔ d ∈ live_docs ops live.
Proof.
  revert fi live. induction ops as [|[doc access|doc access] ops IH];
    intros fi live Hs Hlive Hok; simpl in *.
  - eauto.
  - destruct Hok as [Hfresh Hok].
    destruct (insert_at_upper_bound (all_ids_ fi) doc Hs) as [Hs' He'].
    { by rewrite Hlive. }
    apply IH; [done| |done]. simpl.
    intros d. rewrite He', Hlive. set_solver.
  - destruct Hok as [Hin Hok].
    assert (Hin' : doc ∈ all_ids_ fi) by by rewrite Hlive.
    destruct (erase_at_lower_bound (all_ids_ fi) doc Hs Hin') as [Hs' He'].
    unfold Remove. cbv zeta.
    pose proof (lower_bound_found _ _ Hs Hin') as Hfound.
    rewrite Hfound, N.eqb_refl. simpl.
    apply IH; [done| |done]. simpl.
    intros d. rewrite He', Hlive. set_solver.
Qed.

Lemma Remove_absent doc access fi :
  doc ∉ all_ids_ fi → Remove index_remove doc access fi = Fatal "Check failed".
Proof.
  intros Hdoc. unfold Remove. cbv zeta.
  destruct (all_ids_ fi !! lower_bound N.ltb (all_ids_ fi) doc) as [e|] eqn:He; [|done].
  destruct (N.eqb_spec e doc) as [->|Hne]; [|done].
  exfalso. apply Hdoc. by eapply list_elem_of_lookup_2.
Qed.

Lemma run_ops_held ops fi :
  StronglySorted N.le (all_ids_ fi) →
  removes_present ops (list_to_set_disj (all_ids_ fi)) →
  ∃ fi', run_ops ops fi = Done fi'
         ∧ StronglySorted N.le (all_ids_ fi')
         ∧ list_to_set_disj (all_ids_ fi') = held_docs ops (list_to_set_disj (all_ids_ fi)).
Proof.
  revert fi. induction ops as [|[doc access|doc access] ops IH]; intros fi Hs Hok; simpl in *.
  - eauto.
  - destruct (insert_at_sorted (all_ids_ fi) doc Hs) as (Hs' & Hp & _).
    destruct (IH (Add index_add doc access fi)) as (fi' & Hrun & Hs'' & Hheld).
    { done. }
    { cbn [all_ids_ Add]. by rewrite Hp, list_to_set_disj_cons. }
    exists fi'. split_and!; [done..|].
    rewrite Hheld. cbn [all_ids_ Add]. by rewrite Hp, list_to_set_disj_cons.
  - destruct Hok as [Hin Hok]. apply elem_of_list_to_set_disj in Hin.
    destruct (erase_at_sorted (all_ids_ fi) doc Hs Hin) as [Hs' Hp].
    unfold Remove. cbv zeta.
    rewrite (lower_bound_found_le _ _ Hs Hin), N.eqb_refl. simpl.
    assert (Hm : list_to_set_disj (erase_at (lower_bound N.ltb (all_ids_ fi) doc) (all_ids_ fi))
                 = list_to_set_disj (all_ids_ fi) ∖ ({[+ doc +]} : gmultiset DocId)).
    { assert (E : list_to_set_disj (all_ids_ fi)
                  = ({[+ doc +]} : gmultiset DocId)
                    ⊎ list_to_set_disj
                        (erase_at (lower_bound N.ltb (all_ids_ fi) doc) (all_ids_ fi))).
      { rewrite <- list_to_set_disj_cons. by apply list_to_set_disj_perm. }
      rewrite E. multiset_solver. }
    match goal with
    | |- context [run_ops ops ?fi1] =>
        destruct (IH fi1) as (fi' & Hrun & Hs'' & Hheld); [done|by cbn [all_ids_]; rewrite Hm|]
    end.
    exists fi'. split_and!; [done..|]. rewrite Hheld. cbn [all_ids_]. by rewrite Hm.
Qed.

(** C4, as the code has it. Starting from a [FieldIndices] whose [all_ids]
    is sorted ascending, after any sequence of [Add] and [Remove] calls in
    which each removed DocId is present, every call returns, [all_ids] is
    sorted ascending and holds every DocId as often as it was added and
    not removed since; where in addition no DocId is added while it is
    present, [all_ids] has no duplicates and holds exactly the DocIds
    added and not removed since.  A [Remove] of a DocId that is not
    present aborts on its [CHECK] instead of returning. *)
Theorem all_ids_tracks_live_docs (fi : FieldIndices) (ops : list IndexOp) :
  StronglySorted N.le (all_ids_ fi) →
  removes_present ops (list_to_set_disj (all_ids_ fi)) →
  ∃ fi', run_ops ops fi = Done fi'
         ∧ StronglySorted N.le (all_ids_ fi')
         ∧ list_to_set_disj (all_ids_ fi') = held_docs ops (list_to_set_disj (all_ids_ fi))
         ∧ (is_docset (all_ids_ fi) → ops_ok ops (list_to_set (all_ids_ fi)) →
            is_docset (all_ids_ fi')
            ∧ ∀ d, d ∈ all_ids_ fi' ↔ d ∈ live_docs ops (list_to_set (all_ids_ fi)))
         ∧ ∀ doc access, doc ∉ all_ids_ fi' →
                         Remove index_remove doc access fi' = Fatal "Check failed".
Proof.
  intros Hs Hok.
  destruct (run_ops_held ops fi Hs Hok) as (fi' & Hrun & Hs' & Hheld).
  exists fi'. split_and!; try done.
  - intros Hset Hfresh.
    destruct (run_ops_spec ops fi (list_to_set (all_ids_ fi)) Hset)
      as (fi'' & Hrun' & Hs'' & He''); [set_solver|done|].
    rewrite Hrun in Hrun'. by injection Hrun' as <-.
  - intros doc access. apply Remove_absent.
Qed.

End FieldIndicesFacts.

(** An instance: add 5, 2 and 9 to a fresh index, then remove 5. *)
Lemma all_ids_tracks_live_docs_witness :
  ∃ fi', Search.run_ops Examples.keep_index Examples.keep_index Examples.four_calls
                        (Search.FieldIndices_new []) = Done fi'
         ∧ StronglySorted N.le (Search.all_ids_ fi')
         ∧ list_to_set_disj (Search.all_ids_ fi')
           = Search.held_docs Examples.four_calls
               (list_to_set_disj (Search.all_ids_ (Search.FieldIndices_new [])))
         ∧ (Search.is_docset (Search.all_ids_ (Search.FieldIndices_new [])) →
            Search.ops_ok Examples.four_calls
              (list_to_set (Search.all_ids_ (Search.FieldIndices_new []))) →
            Search.is_docset (Search.all_ids_ fi')
            ∧ ∀ d, d ∈ Search.all_ids_ fi' ↔
                   d ∈ Search.live_docs Examples.four_calls
                         (list_to_set (Search.all_ids_ (Search.FieldIndices_new []))))
         ∧ ∀ doc access, doc ∉ Search.all_ids_ fi' →
             Search.Remove Examples.keep_index doc access fi' = Fatal "Check failed".
Proof.
  apply (all_ids_tracks_live_docs Examples.keep_index Examples.keep_index
           (Search.FieldIndices_new []) Examples.four_calls).
  - constructor.
  - simpl. split; [multiset_solver|done].
Defined.

Example all_ids_example :
  Search.all_ids_ <$>
    (match Search.run_ops Examples.keep_index Examples.keep_index Examples.four_calls
                          (Search.FieldIndices_new []) with
     | Done fi => Some fi
     | _ => None
     end)
  = Some [2%N; 9%N].
Proof. reflexivity. Qed.

(** The four calls meet the stronger condition too: no id is added while
    present. *)
Example four_calls_ops_ok :
  Search.ops_ok Examples.four_calls
    (list_to_set (Search.all_ids_ (Search.FieldIndices_new []))).
Proof. simpl. split_and!; try done; set_solver. Qed.

(** Add 5, add 5 again, remove 5: each removed DocId is present, and 5
    stays in [all_ids] although the set of the DocIds added minus those
    removed is empty. *)
Lemma Add_twice_Remove_once :
  Search.removes_present Examples.add_add_remove ∅
  ∧ Search.all_ids_ <$>
      (match Search.run_ops Examples.keep_index Examples.keep_index Examples.add_add_remove
                            (Search.FieldIndices_new []) with
       | Done fi => Some fi
       | _ => None
       end)
    = Some [5%N]
  ∧ Search.live_docs Examples.add_add_remove ∅ = ∅.
Proof.
  split_and!.
  - simpl. split; [multiset_solver|done].
  - reflexivity.
  - simpl. set_solver.
Qed.

(** ** The member order [sdscmp] *)
Section Sdscmp.
Import SortedMap.
Local Open Scope Z_scope.

Lemma sdscmp_range s1 s2 : sdscmp s1 s2 = -1 ∨ sdscmp s1 s2 = 0 ∨ sdscmp s1 s2 = 1.
Proof.
  revert s2. induction s1 as [|c1 r1 IH]; intros [|c2 r2]; simpl; auto.
  destruct (N.ltb_spec (Ascii.N_of_ascii c1) (Ascii.N_of_ascii c2)); auto.
  destruct (N.ltb_spec (Ascii.N_of_ascii c2) (Ascii.N_of_ascii c1)); auto.
Qed.

(** [sdscmp] is the lexicographic comparison of the byte strings. *)
Lemma sdscmp_compare s1 s2 :
  sdscmp s1 s2 = match String.compare s1 s2 with Lt => -1 | Eq => 0 | Gt => 1 end.
Proof.
  revert s2. induction s1 as [|c1 r1 IH]; intros [|c2 r2]; simpl; auto.
  unfold Ascii.compare.
  destruct (N.ltb_spec (Ascii.N_of_ascii c1) (Ascii.N_of_ascii c2)) as [H|H].
  { apply N.compare_lt_iff in H. by rewrite H. }
  destruct (N.ltb_spec (Ascii.N_of_ascii c2) (Ascii.N_of_ascii c1)) as [H'|H'].
  { apply N.compare_gt_iff in H'. by rewrite H'. }
  assert (Heq : Ascii.N_of_ascii c1 = Ascii.N_of_ascii c2) by lia.
  apply N.compare_eq_iff in Heq. rewrite Heq. apply IH.
Qed.

Lemma sdscmp_antisym s1 s2 : sdscmp s2 s1 = - sdscmp s1 s2.
Proof.
  revert s2. induction s1 as [|c1 r1 IH]; intros [|c2 r2]; simpl; auto.
  destruct (N.ltb_spec (Ascii.N_of_ascii c1) (Ascii.N_of_ascii c2)),
    (N.ltb_spec (Ascii.N_of_ascii c2) (Ascii.N_of_ascii c1)); auto; lia.
Qed.

Lemma sdscmp_eq s1 s2 : sdscmp s1 s2 = 0 ↔ s1 = s2.
Proof.
  revert s2. induction s1 as [|c1 r1 IH]; intros [|c2 r2]; simpl; try done.
  destruct (N.ltb_spec (Ascii.N_of_ascii c1) (Ascii.N_of_ascii c2)) as [H|H].
  { split; [done|]. intros [= -> _]. lia. }
  destruct (N.ltb_spec (Ascii.N_of_ascii c2) (Ascii.N_of_ascii c1)) as [H'|H'].
  { split; [done|]. intros [= -> _]. lia. }
  assert (Heq : Ascii.N_of_ascii c1 = Ascii.N_of_ascii c2) by lia.
  assert (c1 = c2) as ->.
  { by rewrite <- (Ascii.ascii_N_embedding c1), Heq, Ascii.ascii_N_embedding. }
  rewrite IH. split; [by intros ->|by intros [= ->]].
Qed.

Lemma sdscmp_trans s1 s2 s3 : sdscmp s1 s2 < 0 → sdscmp s2 s3 < 0 → sdscmp s1 s3 < 0.
Proof.
  revert s2 s3. induction s1 as [|c1 r1 IH]; intros [|c2 r2] [|c3 r3]; simpl; try lia.
  destruct (N.ltb_spec (Ascii.N_of_ascii c1) (Ascii.N_of_ascii c2)),
    (N.ltb_spec (Ascii.N_of_ascii c2) (Ascii.N_of_ascii c1)),
    (N.ltb_spec (Ascii.N_of_ascii c2) (Ascii.N_of_ascii c3)),
    (N.ltb_spec (Ascii.N_of_ascii c3) (Ascii.N_of_ascii c2)),
    (N.ltb_spec (Ascii.N_of_ascii c1) (Ascii.N_of_ascii c3)),
    (N.ltb_spec (Ascii.N_of_ascii c3) (Ascii.N_of_ascii c1)); try lia.
  apply IH.
Qed.

End Sdscmp.

(** ** The comparator of the B+tree variant *)
Section KeyCompare.
Import SortedMap FloatOrder.
Local Open Scope Z_scope.

Lemma KeyCompareTo_tree_keys mem a b oa ob :
  tree_key mem a oa → tree_key mem b ob →
  KeyCompareTo mem a b =
    Done (if PrimFloat.ltb (obj_score oa) (obj_score ob) then -1
          else if PrimFloat.ltb (obj_score ob) (obj_score oa) then 1
          else sdscmp (obj_str oa) (obj_str ob)).
Proof.
  intros (Hia & Hda & Hma & _) (Hib & Hdb & Hmb & _).
  unfold KeyCompareTo, GetObjScore, GetObjStr.
  rewrite Hia, Hda, Hib, Hdb, Hma, Hmb. simpl.
  destruct (PrimFloat.ltb (obj_score oa) (obj_score ob)); [done|].
  by destruct (PrimFloat.ltb (obj_score ob) (obj_score oa)).
Qed.

Lemma KeyCompareTo_lt_iff mem a b oa ob c :
  tree_key mem a oa → tree_key mem b ob → KeyCompareTo mem a b = Done c →
  c < 0 ↔ score_member_lt oa ob.
Proof.
  intros Ha Hb. rewrite (KeyCompareTo_tree_keys mem a b oa ob Ha Hb).
  destruct Ha as (_ & _ & _ & Hna), Hb as (_ & _ & _ & Hnb).
  intros [= <-]. unfold score_member_lt.
  rewrite (eqb_iff_not_ltb _ _ Hna Hnb).
  destruct (PrimFloat.ltb (obj_score oa) (obj_score ob)) eqn:H1.
  { split; [auto|lia]. }
  destruct (PrimFloat.ltb (obj_score ob) (obj_score oa)) eqn:H2.
  { split; [lia|]. intros [?|[[_ ?] _]]; done. }
  split; [auto|]. intros [?|[_ ?]]; done.
Qed.

Lemma score_member_lt_trans x y z :
  PrimFloat.is_nan (obj_score x) = false → PrimFloat.is_nan (obj_score y) = false →
  PrimFloat.is_nan (obj_score z) = false →
  score_member_lt x y → score_member_lt y z → score_member_lt x z.
Proof.
  unfold score_member_lt. intros Hx Hy Hz [H1|[H1 S1]] [H2|[H2 S2]].
  - left. float_order.
  - left. float_order.
  - left. float_order.
  - right. split; [float_order|]. by eapply sdscmp_trans.
Qed.

(** C6. The comparator decides in this order: when neither key carries
    [IGNORE_SCORE_TAG] the scores are compared first; when that does not
    decide, the first of the two keys that carries [INF_TAG] is the greater
    one; otherwise the member strings are compared lexicographically.  On
    keys as the tree holds them (no tag, score not NaN) it is therefore a
    total order, ascending by (score, member): the result is -1, 0 or 1,
    negative exactly when the left key comes first, zero exactly when the
    scores are equal and the members are the same string, negated when
    the arguments are swapped, and transitive. *)
Theorem KeyCompareTo_order (mem : Memory) (a b : ScoreSds) (oa ob : ScoreObj) :
  mem !! Z.land a kSdsMask = Some oa →
  mem !! Z.land b kSdsMask = Some ob →
  KeyCompareTo mem a b =
    Done (if (Z.land a kIgnoreDoubleTag =? 0) && (Z.land b kIgnoreDoubleTag =? 0)
             && PrimFloat.ltb (obj_score oa) (obj_score ob) then -1
          else if (Z.land a kIgnoreDoubleTag =? 0) && (Z.land b kIgnoreDoubleTag =? 0)
                  && PrimFloat.ltb (obj_score ob) (obj_score oa) then 1
          else if negb (Z.land a kInfTag =? 0) then 1
          else if negb (Z.land b kInfTag =? 0) then -1
          else sdscmp (obj_str oa) (obj_str ob))
  ∧ (tree_key mem a oa → tree_key mem b ob →
     ∃ c, KeyCompareTo mem a b = Done c
          ∧ (c = -1 ∨ c = 0 ∨ c = 1)
          ∧ (c < 0 ↔ score_member_lt oa ob)
          ∧ (c = 0 ↔ PrimFloat.eqb (obj_score oa) (obj_score ob) = true
                     ∧ obj_str oa = obj_str ob)
          ∧ KeyCompareTo mem b a = Done (- c)
          ∧ ∀ d od e, tree_key mem d od → KeyCompareTo mem b d = Done e →
                      c < 0 → e < 0 →
                      ∃ f, KeyCompareTo mem a d = Done f ∧ f < 0).
Proof.
  intros Hma Hmb. split.
  { unfold KeyCompareTo, GetObjScore, GetObjStr. rewrite Hma, Hmb. simpl.
    destruct (Z.land a kIgnoreDoubleTag =? 0), (Z.land b kIgnoreDoubleTag =? 0); simpl;
      try (destruct (Z.land a kInfTag =? 0), (Z.land b kInfTag =? 0); done).
    destruct (PrimFloat.ltb (obj_score oa) (obj_score ob)); [done|].
    destruct (PrimFloat.ltb (obj_score ob) (obj_score oa)); [done|].
    destruct (Z.land a kInfTag =? 0), (Z.land b kInfTag =? 0); done. }
  intros Ha Hb.
  pose proof (KeyCompareTo_tree_keys mem a b oa ob Ha Hb) as Hab.
  pose proof (KeyCompareTo_tree_keys mem b a ob oa Hb Ha) as Hba.
  pose proof Ha as (_ & _ & _ & Hna). pose proof Hb as (_ & _ & _ & Hnb).
  eexists. split; [exact Hab|].
  split_and!.
  - destruct (PrimFloat.ltb (obj_score oa) (obj_score ob)); [auto|].
    destruct (PrimFloat.ltb (obj_score ob) (obj_score oa)); [auto|].
    apply sdscmp_range.
  - by apply (KeyCompareTo_lt_iff mem a b oa ob).
  - rewrite (eqb_iff_not_ltb _ _ Hna Hnb), <- sdscmp_eq.
    destruct (PrimFloat.ltb (obj_score oa) (obj_score ob)).
    { split; [lia|]. by intros [[? ?] _]. }
    destruct (PrimFloat.ltb (obj_score ob) (obj_score oa)).
    { split; [lia|]. by intros [[? ?] _]. }
    tauto.
  - rewrite Hba.
    destruct (PrimFloat.ltb (obj_score oa) (obj_score ob)) eqn:H1.
    { by rewrite (ltb_asym _ _ H1). }
    destruct (PrimFloat.ltb (obj_score ob) (obj_score oa)) eqn:H2; [done|].
    by rewrite sdscmp_antisym.
  - intros d od e Hd Hbd Hc He.
    pose proof Hd as (_ & _ & _ & Hnd).
    eexists. split; [by apply KeyCompareTo_tree_keys|].
    apply (KeyCompareTo_lt_iff mem a d oa od _ Ha Hd); [by apply KeyCompareTo_tree_keys|].
    apply (score_member_lt_trans oa ob od); try done.
    + by apply (KeyCompareTo_lt_iff mem a b oa ob _ Ha Hb Hab).
    + by apply (KeyCompareTo_lt_iff mem b d ob od e Hb Hd Hbd).
Qed.

End KeyCompare.

(** An instance: two records with score 1.5 at the addresses 16 and 32, and
    a bound key tagged [INF_TAG]. *)
Lemma KeyCompareTo_order_witness :
  SortedMap.KeyCompareTo Examples.two_records 16 32 = Done (-1)%Z
  ∧ SortedMap.KeyCompareTo Examples.two_records 32 16 = Done (- -1)%Z
  ∧ SortedMap.KeyCompareTo Examples.two_records (Z.lor 16 SortedMap.kInfTag) 32 = Done 1%Z.
Proof.
  pose proof (KeyCompareTo_order Examples.two_records 16 32 _ _ eq_refl eq_refl) as [H1 H2].
  destruct H2 as (c & Hc & _ & _ & _ & Hswap & _).
  { by repeat split. }
  { by repeat split. }
  assert (c = (-1)%Z) as -> by (rewrite H1 in Hc; by injection Hc).
  split; [exact H1|]. split; [exact Hswap|].
  apply (KeyCompareTo_order Examples.two_records (Z.lor 16 SortedMap.kInfTag) 32 _ _ eq_refl eq_refl).
Defined.

(** ** [Add] with [INCR] *)
Section AddNaN.
Import SortedMap.
Local Open Scope Z_scope.
Context {ScoreMap ScoreTree : Type} `{!ScoreContainers ScoreMap ScoreTree}.

(** C3, as the code has it. For a member present with score [s], [Add]
    with [INCR] set and [NX] clear and a delta [d] with [s + d] NaN returns
    0 with the output flag [NAN] and leaves the sorted set as it was: in
    the skiplist variant for every [d], NaN included, and in the B+tree
    variant for every [d] in a release build and for every [d] that is not
    NaN in a debug build.  A debug build of the B+tree variant asserts on
    entry that [d] itself is not NaN: with a NaN delta the call aborts
    there. *)
Theorem Add_incr_nan (z : RdImpl) (zt : DfImpl ScoreMap ScoreTree) (debug_build : bool)
        (ele : sds) (s d : double) (in_flags : Z) (obj : ScoreSds) (o : ScoreObj) :
  has_flag in_flags ZADD_IN_INCR = true →
  has_flag in_flags ZADD_IN_NX = false →
  PrimFloat.is_nan (PrimFloat.add d s) = true →
  (dict z !! ele = Some s →
   RdImpl_Add d ele in_flags z
   = Done ({| ret := 0; out_flags := ZADD_OUT_NAN; newscore := None |}, z))
  ∧ (FindObj (score_map zt) (memory zt) ele = Some obj →
     memory zt !! obj = Some o → obj_score o = s →
     debug_build = false ∨ PrimFloat.is_nan d = false →
     DfImpl_Add debug_build d ele in_flags zt
     = Done ({| ret := 0; out_flags := ZADD_OUT_NAN; newscore := None |}, zt))
  ∧ (PrimFloat.is_nan d = true →
     DfImpl_Add true d ele in_flags zt = Fatal "Check failed").
Proof.
  intros Hincr Hnx Hnan. split_and!.
  - intros Hfind. unfold RdImpl_Add. cbv zeta. rewrite Hfind, Hnx, Hincr, Hnan. done.
  - intros Hfind Hmem Hs Hd. unfold DfImpl_Add.
    assert (DCHECK debug_build (negb (PrimFloat.is_nan d)) = Done tt) as ->.
    { destruct Hd as [->| ->]; [done|by destruct debug_build]. }
    simpl. rewrite Hfind, Hnx, Hincr. unfold GetObjScore. rewrite Hmem. simpl.
    rewrite Hs, Hnan. done.
  - intros Hd. unfold DfImpl_Add. by rewrite Hd.
Qed.

End AddNaN.

(** An instance: the member holds +inf and the delta is -inf. *)
Lemma Add_incr_nan_witness :
  SortedMap.RdImpl_Add neg_infinity "m" SortedMap.ZADD_IN_INCR Examples.rd_inf
  = Done ({| SortedMap.ret := 0; SortedMap.out_flags := SortedMap.ZADD_OUT_NAN;
             SortedMap.newscore := None |}, Examples.rd_inf)
  ∧ SortedMap.DfImpl_Add true neg_infinity "m" SortedMap.ZADD_IN_INCR Examples.df_inf
    = Done ({| SortedMap.ret := 0; SortedMap.out_flags := SortedMap.ZADD_OUT_NAN;
               SortedMap.newscore := None |}, Examples.df_inf).
Proof.
  pose proof (Add_incr_nan Examples.rd_inf Examples.df_inf true "m" infinity neg_infinity
                SortedMap.ZADD_IN_INCR 16
                {| SortedMap.obj_str := "m"; SortedMap.obj_score := infinity |}
                eq_refl eq_refl eq_refl) as (H1 & H2 & _).
  split; [apply H1; reflexivity|].
  apply H2; [reflexivity..|by right].
Defined.

(** A delta that is NaN itself: the skiplist variant and a release build of
    the B+tree variant answer NAN and change nothing, a debug build of the
    B+tree variant aborts on its [DCHECK]. *)
Example Add_incr_nan_delta :
  SortedMap.RdImpl_Add nan "m" SortedMap.ZADD_IN_INCR Examples.rd_inf
  = Done ({| SortedMap.ret := 0; SortedMap.out_flags := SortedMap.ZADD_OUT_NAN;
             SortedMap.newscore := None |}, Examples.rd_inf)
  ∧ SortedMap.DfImpl_Add false nan "m" SortedMap.ZADD_IN_INCR Examples.df_inf
    = Done ({| SortedMap.ret := 0; SortedMap.out_flags := SortedMap.ZADD_OUT_NAN;
               SortedMap.newscore := None |}, Examples.df_inf)
  ∧ SortedMap.DfImpl_Add true nan "m" SortedMap.ZADD_IN_INCR Examples.df_inf
    = Fatal "Check failed".
Proof. repeat split. Qed.

(** With [NX] set as well the call is a no-operation that returns 1, in
    both variants, although the sum is NaN. *)
Lemma Add_incr_nx_nan_is_nop :
  PrimFloat.is_nan (PrimFloat.add neg_infinity infinity) = true
  ∧ SortedMap.has_flag (Z.lor SortedMap.ZADD_IN_INCR SortedMap.ZADD_IN_NX)
                       SortedMap.ZADD_IN_INCR = true
  ∧ SortedMap.RdImpl_Add neg_infinity "m"
      (Z.lor SortedMap.ZADD_IN_INCR SortedMap.ZADD_IN_NX) Examples.rd_inf
    = Done ({| SortedMap.ret := 1; SortedMap.out_flags := SortedMap.ZADD_OUT_NOP;
               SortedMap.newscore := None |}, Examples.rd_inf)
  ∧ SortedMap.DfImpl_Add true neg_infinity "m"
      (Z.lor SortedMap.ZADD_IN_INCR SortedMap.ZADD_IN_NX) Examples.df_inf
    = Done ({| SortedMap.ret := 1; SortedMap.out_flags := SortedMap.ZADD_OUT_NOP;
               SortedMap.newscore := None |}, Examples.df_inf).
Proof. repeat split. Qed.

(** ** The operations left to be done *)
Section Stubs.
Import SortedMap.
Local Open Scope Z_scope.
Context {ScoreMap ScoreTree : Type} `{!ScoreContainers ScoreMap ScoreTree}.

(** C7. Each operation of the B+tree variant that is left to be done
    aborts with the fatal log "TBD" whatever its arguments: no call
    returns a value. *)
Theorem DfImpl_stubs_fail_loudly (z : DfImpl ScoreMap ScoreTree)
        (range : zrangespec) (lexrange : zlexrangespec)
        (offset limit start end_ : N) (reverse : bool) :
  DfImpl_GetRange range offset limit reverse z = Fatal "TBD"
  ∧ DfImpl_GetLexRange lexrange offset limit reverse z = Fatal "TBD"
  ∧ DfImpl_ToListPack z = Fatal "TBD"
  ∧ DfImpl_DeleteRangeByRank start end_ z = Fatal "TBD"
  ∧ DfImpl_DeleteRangeByScore range z = Fatal "TBD"
  ∧ DfImpl_DeleteRangeByLex lexrange z = Fatal "TBD"
  ∧ DfImpl_LexCount lexrange z = Fatal "TBD".
Proof. repeat split. Qed.

End Stubs.

(** ** Listpack round trip *)
Section ListPackRoundTrip.
Import SortedMap.
Local Open Scope Z_scope.
Context {ScoreMap ScoreTree : Type} `{!ScoreContainers ScoreMap ScoreTree}.
Context (debug_build : bool).
Context (lpEncode : string → lp_entry) (d2string : double → string)
        (zzlGetScore : lp_entry → double) (sdsfromlonglong : Z → sds).

Local Abbreviation entry_sds := (SortedMap.entry_sds sdsfromlonglong).
Local Abbreviation codec_ok := (SortedMap.codec_ok lpEncode d2string zzlGetScore sdsfromlonglong).
Local Abbreviation lp_of_nodes := (SortedMap.lp_of_nodes lpEncode d2string).

Lemma ToListPack_fold (l : list zskiplistNode) (lp : listpack) :
  fold_left (fun lp node => zzlInsertAt_tail lpEncode d2string lp (snd node) (fst node)) l lp
  = lp ++ lp_of_nodes l.
Proof.
  revert lp. induction l as [|x l IH]; intros lp; simpl.
  { by rewrite app_nil_r. }
  rewrite IH. unfold zzlInsertAt_tail, lpAppend, lp_of_nodes. simpl.
  by rewrite <- !app_assoc.
Qed.

Lemma zslInsert_append (l : list zskiplistNode) score ele :
  Forall (fun x => zsl_lt x (score, ele) = true) l →
  zslInsert l score ele = l ++ [(score, ele)].
Proof.
  induction 1 as [|x l Hx Hl IH]; simpl; [done|].
  by rewrite Hx, IH.
Qed.

Lemma foldl_dict_insert_lookup (l : list zskiplistNode) (D : gmap string double) m s :
  NoDup (snd <$> l) → (∀ y, y ∈ l → D !! snd y = None) →
  foldl dict_insert D l !! m = Some s ↔ D !! m = Some s ∨ (s, m) ∈ l.
Proof.
  revert D. induction l as [|[s0 m0] l IH]; intros D Hnd Hfresh; simpl.
  { set_solver. }
  apply NoDup_cons in Hnd as [Hm0 Hnd]. simpl in Hm0.
  rewrite IH; [|done|].
  - unfold dict_insert at 1. simpl. rewrite elem_of_cons.
    destruct (decide (m0 = m)) as [->|Hne].
    + rewrite lookup_insert_eq.
      assert (D !! m = None) as -> by (apply (Hfresh (s0, m)); left).
      split; [intros [[= ->]|?]; auto|].
      intros [?|[[= -> ]|?]]; auto; done.
    + rewrite lookup_insert_ne by done.
      split; [intros [?|?]; auto|].
      intros [?|[[= -> ->]|?]]; auto; done.
  - intros y Hy. unfold dict_insert. simpl.
    rewrite lookup_insert_ne; [apply Hfresh; by right|].
    intros Heq. apply Hm0. apply list_elem_of_fmap. by exists y.
Qed.

Lemma FromListPack_loop_nodes (l2 l1 : list zskiplistNode) (D : gmap string double) :
  (∀ x y, x ∈ l1 → y ∈ l2 → zsl_lt x y = true) →
  StronglySorted (fun x y => zsl_lt x y = true) l2 →
  NoDup (snd <$> l2) →
  (∀ y, y ∈ l2 → D !! snd y = None) →
  (∀ s m, (s, m) ∈ l2 →
          entry_sds (lpEncode m) = m ∧ zzlGetScore (lpEncode (d2string s)) = s) →
  FromListPack_loop (ScoreMap := ScoreMap) (ScoreTree := ScoreTree)
                    debug_build zzlGetScore sdsfromlonglong (lp_of_nodes l2)
                    (Rd {| dict := D; zsl := l1 |})
  = Done (Rd {| dict := foldl dict_insert D l2; zsl := l1 ++ l2 |}).
Proof.
  revert l1 D. induction l2 as [|[s m] l2 IH]; intros l1 D Hcross Hs Hnd Hfresh Hcodec.
  { simpl. by rewrite app_nil_r. }
  apply StronglySorted_cons in Hs as [Hhd Hs].
  apply NoDup_cons in Hnd as [Hm Hnd]. simpl in Hm.
  destruct (Hcodec s m ltac:(left)) as [Hrm Hrs].
  change (lp_of_nodes ((s, m) :: l2))
    with (lpEncode m :: lpEncode (d2string s) :: lp_of_nodes l2).
  simpl. rewrite Hrs.
  change (match lpEncode m with LpStr vstr => vstr | LpInt vlong => sdsfromlonglong vlong end)
    with (entry_sds (lpEncode m)).
  rewrite Hrm. unfold RdImpl_Insert. simpl.
  pose proof (Hfresh (s, m) ltac:(left)) as Hnone. simpl in Hnone.
  rewrite Hnone. simpl.
  rewrite zslInsert_append.
  2:{ apply Forall_forall. intros x Hx. apply Hcross; [done|left]. }
  rewrite IH; try done.
  - by rewrite <- app_assoc.
  - intros x y [Hx|Hx]%elem_of_app Hy.
    + apply Hcross; [done|by right].
    + apply list_elem_of_singleton in Hx as ->.
      rewrite Forall_forall in Hhd. by apply Hhd.
  - intros y Hy. rewrite lookup_insert_ne; [apply Hfresh; by right|].
    intros Heq. apply Hm. apply list_elem_of_fmap. by exists y.
  - intros s' m' Hin. apply Hcodec. by right.
Qed.

(** C5, as the code has it. For a sorted set [z] of the skiplist variant
    that satisfies its invariant, with encoders that read back what they
    wrote: [ToListPack] writes every node, in ascending order, as its
    member followed by its score; and [FromListPack] of that listpack,
    built in the skiplist variant, is [z] again: the same (member, score)
    pairs in the same ascending order. *)
Theorem FromListPack_ToListPack (z : RdImpl) :
  RdImpl_wf z → codec_ok z →
  ToListPack (ScoreMap := ScoreMap) (ScoreTree := ScoreTree) lpEncode d2string (Rd z)
  = Done (Some (lp_of_nodes (zsl z)))
  ∧ FromListPack (ScoreMap := ScoreMap) (ScoreTree := ScoreTree)
                 debug_build false zzlGetScore sdsfromlonglong
                 (RdImpl_ToListPack lpEncode d2string z)
    = Done (Rd z)
  ∧ ∀ z', FromListPack (ScoreMap := ScoreMap) (ScoreTree := ScoreTree)
                       debug_build false zzlGetScore sdsfromlonglong
                       (RdImpl_ToListPack lpEncode d2string z) = Done (Rd z') →
          RdImpl_elements z' = RdImpl_elements z.
Proof.
  intros (Hs & Hnd & Hdict) Hcodec.
  assert (Hlp : RdImpl_ToListPack lpEncode d2string z = lp_of_nodes (zsl z)).
  { unfold RdImpl_ToListPack. by rewrite ToListPack_fold. }
  assert (Hback : FromListPack (ScoreMap := ScoreMap) (ScoreTree := ScoreTree)
                    debug_build false zzlGetScore sdsfromlonglong
                    (RdImpl_ToListPack lpEncode d2string z) = Done (Rd z)).
  { rewrite Hlp. unfold FromListPack, SortedMap_new, RdImpl_Init.
    rewrite FromListPack_loop_nodes; try done; [|set_solver].
    do 2 f_equal. destruct z as [D l]; simpl in *. f_equal.
    apply map_eq. intros m. apply option_eq. intros s.
    rewrite foldl_dict_insert_lookup; [|done|done].
    rewrite lookup_empty, Hdict. set_solver. }
  split_and!.
  - simpl. by rewrite Hlp.
  - done.
  - intros z' Hz'. rewrite Hback in Hz'. by injection Hz' as <-.
Qed.

End ListPackRoundTrip.

(** An instance: ("a", 1.5) and ("b", 2). *)
Lemma FromListPack_ToListPack_witness :
  SortedMap.FromListPack (ScoreMap := gmap string Z) (ScoreTree := list Z)
    true false Examples.zzlGetScore_ex Examples.sdsfromlonglong_ex
    (SortedMap.RdImpl_ToListPack SortedMap.LpStr Examples.d2string_ex Examples.rd_ab)
  = Done (SortedMap.Rd Examples.rd_ab).
Proof.
  apply (FromListPack_ToListPack (ScoreMap := gmap string Z) (ScoreTree := list Z)
           true SortedMap.LpStr Examples.d2string_ex Examples.zzlGetScore_ex
           Examples.sdsfromlonglong_ex Examples.rd_ab).
  - split_and!.
    + repeat constructor.
    + simpl. repeat constructor; set_solver.
    + intros m s. unfold Examples.rd_ab. simpl.
      rewrite !elem_of_cons, elem_of_nil.
      destruct (decide (m = "a")) as [->|Ha].
      { rewrite lookup_insert_eq. split; [intros [= <-]; auto|].
        intros [[= -> ]|[[= ? ?]|[]]]; done. }
      rewrite lookup_insert_ne by done.
      destruct (decide (m = "b")) as [->|Hb].
      { rewrite lookup_insert_eq. split; [intros [= <-]; auto|].
        intros [[= ? ?]|[[= ->]|[]]]; done. }
      rewrite lookup_insert_ne by done. rewrite lookup_empty.
      split; [done|]. intros [[= ? ?]|[[= ? ?]|[]]]; done.
  - intros s m. unfold Examples.rd_ab. simpl.
    rewrite !elem_of_cons, elem_of_nil.
    intros [[= -> ->]|[[= -> ->]|[]]]; done.
Defined.

(** A sorted set of the B+tree variant has no listpack: [ToListPack]
    aborts. *)
Lemma ToListPack_btree_variant_aborts :
  SortedMap.ToListPack SortedMap.LpStr Examples.d2string_ex (SortedMap.Df Examples.df_inf)
  = Fatal "TBD".
Proof. reflexivity. Qed.


(** ** [ReplyKnn] *)
Section ReplyKnnFacts.
Import SearchFamily Examples.
Local Open Scope N_scope.
Context (unspecified_order : list SerializedSearchDoc → list SerializedSearchDoc).
(** Whatever the order, the elements stay the same. *)
Context (unspecified_order_perm : ∀ l, unspecified_order l ≡ₚ l).

(** C9. Whenever the shards collected fewer documents than
    min(limit_offset + limit_total, k), [ReplyKnn] hands
    [std::partial_sort] a middle iterator past the end of the range: the
    call has no defined behaviour and no sorted, windowed reply comes out. *)
Theorem ReplyKnn_fewer_docs_than_window (knn_limit : N) (params : SearchParams)
        (results : list SearchResult) :
  (N.of_nat (length (concat (docs <$> results)))
   < N.min (size_add (limit_offset params) (limit_total params)) knn_limit)%N →
  ReplyKnn unspecified_order knn_limit params results = Undefined.
Proof.
  intros Hfew. unfold ReplyKnn, partial_sort.
  apply N.leb_gt in Hfew. by rewrite Hfew.
Qed.

(** Where the window fits, the reply is the one described: the documents
    of all shards sorted by ascending distance, cut to
    min(k, limit_offset + limit_total), without the first [limit_offset]. *)
Lemma ReplyKnn_in_range (knn_limit : N) (params : SearchParams)
      (results : list SearchResult) :
  (limit_offset params + limit_total params < size_max)%N →
  (N.of_nat (length (concat (docs <$> results))) < size_max)%N →
  (N.min (limit_offset params + limit_total params) knn_limit
   ≤ N.of_nat (length (concat (docs <$> results))))%N →
  (limit_offset params ≤ knn_limit)%N →
  ReplyKnn unspecified_order knn_limit params results
  = Done ([StartArray
             (size_add (size_mul (N.min (limit_offset params + limit_total params) knn_limit
                                  - limit_offset params) 2) 1);
           SendLong (N.min (N.of_nat (length (concat (docs <$> results)))) knn_limit)]
          ++ (SendSerializedDoc <$>
                drop (N.to_nat (limit_offset params))
                     (take (N.to_nat (N.min (limit_offset params + limit_total params)
                                            knn_limit))
                           (sort knn_lt (concat (docs <$> results)))))).
Proof using unspecified_order_perm.
  intros Hsum Hfits Hmid Hoffk. unfold ReplyKnn, partial_sort, size_add.
  rewrite (N.mod_small _ _ Hsum).
  set (all := concat (docs <$> results)) in *.
  set (off := limit_offset params) in *. set (total := limit_total params) in *.
  set (mid := N.min (off + total) knn_limit) in *.
  apply N.leb_le in Hmid as Hmid'. rewrite Hmid'. simpl.
  set (sorted := sort knn_lt all).
  assert (Hlen : length sorted = length all) by apply sort_length.
  set (A := take (N.to_nat mid) sorted).
  set (B := unspecified_order (drop (N.to_nat mid) sorted)).
  assert (HA : length A = N.to_nat mid) by (unfold A; rewrite length_take; lia).
  assert (HB : length B = (length all - N.to_nat mid)%nat).
  { unfold B. rewrite unspecified_order_perm, length_drop. lia. }
  assert (Hn : N.of_nat (length (A ++ B)) = N.of_nat (length all)).
  { rewrite length_app. lia. }
  rewrite Hn.
  set (size2 := N.min (N.of_nat (length all)) knn_limit).
  assert (Htake : take (N.to_nat size2) (A ++ B) = A ++ take (N.to_nat size2 - N.to_nat mid) B).
  { rewrite take_app. f_equal; [|by rewrite HA].
    apply take_ge. unfold size2, mid in *. lia. }
  rewrite Htake.
  assert (Hsize : N.of_nat (length (A ++ take (N.to_nat size2 - N.to_nat mid) B)) = size2).
  { rewrite length_app, length_take. unfold size2, mid in *. lia. }
  rewrite Hsize.
  assert (Hoff : (off ≤ mid)%N) by (unfold mid; lia).
  assert (Hsub : size_sub size2 (N.min size2 off) = (size2 - off)%N).
  { unfold size_sub, size_max in *. rewrite N.min_r by (unfold size2, mid in *; lia).
    replace (size2 + 2 ^ 64 - off)%N with (size2 - off + 1 * 2 ^ 64)%N
      by (unfold size2, mid in *; lia).
    rewrite N.Div0.mod_add. apply N.mod_small. unfold size2, mid in *. lia. }
  rewrite Hsub.
  assert (Hrc : N.min (size2 - off) total = (mid - off)%N) by (unfold size2, mid in *; lia).
  rewrite Hrc. unfold subspan. rewrite Hsize.
  assert ((off <=? size2)%N = true) as -> by (apply N.leb_le; unfold size2, mid in *; lia).
  simpl. do 4 f_equal.
  rewrite drop_app_le by lia.
  rewrite take_app_ge by (rewrite length_drop; lia).
  rewrite length_drop, HA.
  replace (N.to_nat (mid - off) - (N.to_nat mid - N.to_nat off))%nat with 0%nat by lia.
  by rewrite take_0, app_nil_r.
Qed.

(** With an offset past the collected documents, [subspan] throws. *)
Lemma ReplyKnn_offset_past_docs :
  ReplyKnn unspecified_order 1
           {| limit_offset := 5; limit_total := 1; knn_vector := [] |}
           [{| docs := [doc_a]; total_hits := 1 |}]
  = Fatal "pos > size()".
Proof using unspecified_order_perm.
  unfold ReplyKnn, partial_sort. simpl.
  pose proof (unspecified_order_perm []) as Hnil.
  apply Permutation_nil_r in Hnil. by rewrite Hnil.
Qed.

(** The sibling [ReplyWithResults] answers the same window with an empty
    page. *)
Lemma ReplyWithResults_offset_past_docs :
  ReplyWithResults {| limit_offset := 5; limit_total := 1; knn_vector := [] |}
                   [{| docs := [doc_a]; total_hits := 1 |}]
  = [StartArray 1; SendLong 1].
Proof. reflexivity. Qed.

End ReplyKnnFacts.

(** An instance: limit 2, the default window, one document found. *)
Lemma ReplyKnn_fewer_docs_than_window_witness :
  SearchFamily.ReplyKnn Examples.as_found 2 Examples.default_params
    [{| SearchFamily.docs := [Examples.doc_a]; SearchFamily.total_hits := 1 |}]
  = Undefined.
Proof.
  apply (ReplyKnn_fewer_docs_than_window Examples.as_found 2 Examples.default_params
           [{| SearchFamily.docs := [Examples.doc_a]; SearchFamily.total_hits := 1 |}]).
  reflexivity.
Defined.

Example ReplyKnn_two_docs :
  SearchFamily.ReplyKnn Examples.as_found 2
    {| SearchFamily.limit_offset := 0; SearchFamily.limit_total := 1;
       SearchFamily.knn_vector := [] |}
    [{| SearchFamily.docs := [Examples.doc_a]; SearchFamily.total_hits := 1 |};
     {| SearchFamily.docs := [Examples.doc_b]; SearchFamily.total_hits := 1 |}]
  = Done [SearchFamily.StartArray 3; SearchFamily.SendLong 2;
          SearchFamily.SendSerializedDoc Examples.doc_b].
Proof. vm_compute. reflexivity. Qed.

(** ** The executor *)
Section ExecutorPrelude.
Import Search.
Local Open Scope N_scope.

(** A relation that is transitive on the elements of a list: sorted is
    strongly sorted. *)
Lemma Sorted_StronglySorted_on {A} (R : relation A) (P : A → Prop) (l : list A) :
  (∀ a b c, P a → P b → P c → R a b → R b c → R a c) →
  Forall P l → Sorted R l → StronglySorted R l.
Proof.
  intros Htrans HP Hs. induction Hs as [|x l Hl IH Hhd]; [constructor|].
  apply Forall_cons in HP as [Hx HP]. specialize (IH HP).
  constructor; [done|].
  destruct Hhd as [|y l Hxy]; [constructor|].
  apply Forall_cons in HP as [Hy HP].
  apply StronglySorted_cons in IH as [Hyl _].
  constructor; [done|].
  rewrite Forall_forall in Hyl, HP |- *. intros z Hz.
  apply (Htrans x y z); auto.
Qed.

Lemma pair_lt_asym a b : pair_lt a b = true → pair_lt b a = false.
Proof.
  unfold pair_lt. destruct a as [fa da], b as [fb db]; cbn [fst snd].
  intros [H|[H1 H2]%andb_true_iff]%orb_true_iff.
  - rewrite (FloatOrder.ltb_asym _ _ H), H. done.
  - apply negb_true_iff in H1. rewrite H1. simpl.
    apply N.ltb_lt in H2. destruct (PrimFloat.ltb fa fb); simpl; [done|].
    apply N.ltb_ge. lia.
Qed.

Lemma pair_not_after_trans (a b c : float * N) :
  PrimFloat.is_nan (fst a) = false → PrimFloat.is_nan (fst b) = false →
  PrimFloat.is_nan (fst c) = false →
  pair_lt b a = false → pair_lt c b = false → pair_lt c a = false.
Proof.
  unfold pair_lt. destruct a as [fa da], b as [fb db], c as [fc dc]; cbn [fst snd].
  intros Ha Hb Hc [H1 H2]%orb_false_iff [H3 H4]%orb_false_iff.
  apply orb_false_iff.
  assert (Hca : PrimFloat.ltb fc fa = false)
    by (by apply (FloatOrder.not_ltb_trans fa fb fc)).
  split; [done|].
  apply andb_false_iff in H2, H4. apply andb_false_iff.
  destruct (PrimFloat.ltb fa fc) eqn:Hac; [by left|right].
  assert (Hab : PrimFloat.ltb fa fb = false).
  { destruct (PrimFloat.ltb fa fb) eqn:E; [|done]. exfalso.
    clear H2 H4. FloatOrder.float_order. }
  assert (Hbc : PrimFloat.ltb fb fc = false).
  { destruct (PrimFloat.ltb fb fc) eqn:E; [|done]. exfalso.
    clear H2 H4. FloatOrder.float_order. }
  rewrite Hab in H2. rewrite Hbc in H4.
  destruct H2 as [?|H2]; [done|]. destruct H4 as [?|H4]; [done|].
  apply N.ltb_ge in H2, H4. apply N.ltb_ge. lia.
Qed.

End ExecutorPrelude.

(** Induction over the AST, with the children of a [Logical] node at hand. *)
Section AstNode_induction.
Import Search.
Context (P : AstNode → Prop).
Context (HEmpty : P AstEmpty) (HStar : P AstStarNode)
        (HTerm : ∀ term, P (AstTermNode term))
        (HRange : ∀ lo hi, P (AstRangeNode lo hi))
        (HNegate : ∀ node, P node → P (AstNegateNode node))
        (HLogical : ∀ op nodes, Forall P nodes → P (AstLogicalNode op nodes))
        (HField : ∀ field node, P node → P (AstFieldNode field node))
        (HTags : ∀ tags, P (AstTagsNode tags))
        (HKnn : ∀ limit field vector filter, P filter →
                P (AstKnnNode limit field vector filter)).

Fixpoint AstNode_ind (node : AstNode) : P node :=
  match node with
  | AstEmpty => HEmpty
  | AstStarNode => HStar
  | AstTermNode term => HTerm term
  | AstRangeNode lo hi => HRange lo hi
  | AstNegateNode n => HNegate n (AstNode_ind n)
  | AstLogicalNode op nodes =>
      HLogical op nodes
        ((fix all (l : list AstNode) : Forall P l :=
            match l with
            | [] => Forall_nil_2 P
            | n :: rest => Forall_cons_2 P n rest (AstNode_ind n) (all rest)
            end) nodes)
  | AstFieldNode field n => HField field n (AstNode_ind n)
  | AstTagsNode tags => HTags tags
  | AstKnnNode limit field vector filter => HKnn limit field vector filter (AstNode_ind filter)
  end.
End AstNode_induction.

Section ExecutorFacts.
Import Search.
Local Open Scope N_scope.
Context (debug_build : bool) (VectorDistance : FtVector → FtVector → float).
Context (indices : FieldIndices).

Local Abbreviation SearchGeneric := (Search.SearchGeneric debug_build VectorDistance indices).
Local Abbreviation Search_visit :=
  (Search.Search_visit debug_build VectorDistance indices
     (Search.SearchGeneric debug_build VectorDistance indices)).
Local Abbreviation posting_ok := (Search.posting_ok indices).
Local Abbreviation index_ok := (Search.index_ok indices).
Local Abbreviation indices_ok := (Search.indices_ok indices).
Local Abbreviation distances_ok := (Search.distances_ok indices).
Local Abbreviation within_all_ids := (Search.within_all_ids indices).

(** Unfolds the overload a [Search_visit] in [H] dispatches to. *)
Ltac unfold_search H :=
  unfold Search.Search_visit, Search_monostate, Search_Star, Search_Term, Search_Range,
    Search_Negate, Search_Logical, Search_Field, Search_Tags, Search_Knn in H;
  cbv zeta in H.

Lemma SearchGeneric_unfold node active_field top_level distances_ :
  SearchGeneric node active_field top_level distances_ =
  '(result, distances_) ← Search_visit node active_field distances_;
  _ ← DCHECK debug_build (top_level || is_sorted N.ltb (Borrowed result));
  Done (result, distances_).
Proof. destruct node; reflexivity. Qed.

(** *** Successful calls, read backwards *)

Lemma bind_Done {A B} (m : Outcome A) (f : A → Outcome B) (b : B) :
  m ≫= f = Done b → ∃ a, m = Done a ∧ f a = Done b.
Proof. destruct m as [a| |]; simpl; [eauto|done|done]. Qed.

Lemma deref_Done {A} (p : option A) (a : A) : deref p = Done a → p = Some a.
Proof. destruct p; simpl; [by intros [= ->]|done]. Qed.

Lemma SearchGeneric_Done node active_field top_level st r st' :
  SearchGeneric node active_field top_level st = Done (r, st') →
  Search_visit node active_field st = Done (r, st')
  ∧ DCHECK debug_build (top_level || is_sorted N.ltb (Borrowed r)) = Done tt.
Proof.
  rewrite SearchGeneric_unfold. intros ([r0 st0] & Hn & H)%bind_Done.
  apply bind_Done in H as ([] & Hd & [= -> ->]). done.
Qed.

(** A call that succeeds below the top level succeeds at the top level,
    with the same result. *)
Lemma SearchGeneric_top node active_field top_level st r st' :
  SearchGeneric node active_field top_level st = Done (r, st') →
  SearchGeneric node active_field true st = Done (r, st').
Proof.
  intros [Hn _]%SearchGeneric_Done. rewrite SearchGeneric_unfold, Hn. simpl.
  by destruct debug_build.
Qed.

(** *** What the set algebra can return, sorted input or not *)

Lemma set_intersection_incl (s1 s2 : list N) x :
  x ∈ set_intersection N.ltb s1 s2 → x ∈ s1 ∧ x ∈ s2.
Proof.
  revert s2. induction s1 as [|a s1 IH]; intros s2; [by intros ?%elem_of_nil|].
  induction s2 as [|b s2 IH2]; [by intros ?%elem_of_nil|].
  simpl. destruct (N.ltb_spec a b) as [Hab|Hab].
  - intros [? ?]%(IH (b :: s2)). split; [by right|done].
  - destruct (N.ltb_spec b a) as [Hba|Hba].
    + intros [? ?]%IH2. split; [done|by right].
    + assert (a = b) as -> by lia.
      intros [->|[? ?]%IH]%elem_of_cons; split; (by left) || (by right).
Qed.

Lemma Merge_incl matched current op d :
  d ∈ Borrowed (Merge matched current op) →
  d ∈ Borrowed matched ∨ d ∈ Borrowed current.
Proof.
  destruct op; simpl.
  - intros [? ?]%set_intersection_incl. by left.
  - by intros ?%set_union_elem.
Qed.

Lemma UnifyResults_incl sub_results op d :
  d ∈ Borrowed (UnifyResults sub_results op) →
  ∃ r, r ∈ sub_results ∧ d ∈ Borrowed r.
Proof.
  unfold UnifyResults. destruct sub_results as [|r0 rs]; [by intros ?%elem_of_nil|].
  pose proof (sort_perm size_lt (r0 :: rs)) as Hperm.
  destruct (sort size_lt (r0 :: rs)) as [|out rest]; [by intros ?%elem_of_nil|].
  intros Hd.
  assert (∃ r, r ∈ out :: rest ∧ d ∈ Borrowed r) as (r & Hr & Hdr).
  { clear Hperm. revert out Hd. induction rest as [|m rest IH]; intros out Hd; simpl in Hd.
    - exists out. split; [left|done].
    - apply IH in Hd as (r & [->|Hr]%elem_of_cons & Hdr).
      + apply Merge_incl in Hdr as [?|?]; [exists m|exists out]; split; try done.
        * right; left.
        * left.
      + exists r. split; [by do 2 right|done]. }
  exists r. split; [by rewrite <- Hperm|done].
Qed.

(** *** Every result lies within [all_ids] *)

Lemma IndexResult_of_ptr_within (matching : string → option CompressedSortedSet) token :
  (∀ token css, matching token = Some css → posting_ok css) →
  within_all_ids (IndexResult_of_ptr (matching token)).
Proof.
  intros Hok d. destruct (matching token) as [css|] eqn:Hm; simpl.
  - by apply (Hok token css Hm).
  - by intros ?%elem_of_nil.
Qed.

Lemma GetIndexAs_Done {T} (cast : option BaseIndex → option T) field p :
  GetIndexAs debug_build indices cast field = Done p → p = cast (GetIndex indices field).
Proof.
  unfold GetIndexAs. intros ([] & _ & H)%bind_Done.
  apply bind_Done in H as ([] & _ & [= <-]). done.
Qed.

Lemma as_TextIndex_ok i matching :
  indices_ok → as_TextIndex (GetIndex indices i) = Some matching →
  ∀ token css, matching token = Some css → posting_ok css.
Proof.
  intros [_ Hok]. unfold GetIndex. destruct (indices_ indices !! i) as [[]|] eqn:Hi; try done.
  intros [= <-]. apply (Hok _ _ Hi).
Qed.

Lemma as_TagIndex_ok i matching :
  indices_ok → as_TagIndex (GetIndex indices i) = Some matching →
  ∀ token css, matching token = Some css → posting_ok css.
Proof.
  intros [_ Hok]. unfold GetIndex. destruct (indices_ indices !! i) as [[]|] eqn:Hi; try done.
  intros [= <-]. apply (Hok _ _ Hi).
Qed.

Lemma as_NumericIndex_ok i range :
  indices_ok → as_NumericIndex (GetIndex indices i) = Some range →
  ∀ lo hi, posting_ok (range lo hi).
Proof.
  intros [_ Hok]. unfold GetIndex. destruct (indices_ indices !! i) as [[]|] eqn:Hi; try done.
  intros [= <-]. apply (Hok _ _ Hi).
Qed.

Lemma GetSubResults_Forall {C} (f : C → Distances → Outcome (IndexResult * Distances))
      (Q : IndexResult → Prop) (I : Distances → Prop) (container : list C)
      (st : Distances) (sub_results : list IndexResult) (st' : Distances) :
  (∀ c st r st', c ∈ container → I st → f c st = Done (r, st') → Q r ∧ I st') →
  I st →
  GetSubResults f container st = Done (sub_results, st') →
  Forall Q sub_results ∧ I st'.
Proof.
  revert st sub_results st'. induction container as [|c rest IH]; intros st subs st' Hf Hst; simpl.
  { intros [= <- <-]. split; [constructor|done]. }
  intros ([r st1] & Hr & H)%bind_Done. apply bind_Done in H as ([rs st2] & Hrs & [= <- <-]).
  destruct (Hf c st r st1 ltac:(left) Hst Hr) as [Hq Hst1].
  destruct (IH st1 rs st2) as [Hall Hst2]; [|done|done|].
  { intros c' s0 r' s1 Hc'. apply Hf. by right. }
  split; [by constructor|done].
Qed.

Lemma GetAllTextIndices_ok selected_indices :
  indices_ok → GetAllTextIndices debug_build indices = Done selected_indices →
  Forall (fun index => ∀ matching, index = Some matching →
                       ∀ token css, matching token = Some css → posting_ok css)
         selected_indices.
Proof.
  intros Hok. unfold GetAllTextIndices.
  assert (∀ schema (acc0 : Outcome (list (option (string → option CompressedSortedSet)))),
    foldl (fun acc '(field_name, field_info) =>
             out ← acc;
             match type field_info with
             | TEXT =>
                 let index := as_TextIndex (GetIndex indices field_name) in
                 _ ← DCHECK debug_build (bool_decide (is_Some index));
                 Done (out ++ [index])
             | _ => Done out
             end) acc0 schema = Done selected_indices →
    ∃ acc, acc0 = Done acc ∧
      (Forall (fun index => ∀ matching, index = Some matching →
                 ∀ token css, matching token = Some css → posting_ok css) acc →
       Forall (fun index => ∀ matching, index = Some matching →
                 ∀ token css, matching token = Some css → posting_ok css)
              selected_indices)) as Hfold.
  { induction schema as [|[field_name field_info] schema IH]; intros acc0; simpl.
    { intros ->. eauto. }
    intros (acc1 & Hstep & Hrest)%IH.
    apply bind_Done in Hstep as (out & -> & Hstep).
    exists out. split; [done|]. intros Hout. apply Hrest.
    destruct (type field_info); try (by injection Hstep as <-).
    apply bind_Done in Hstep as ([] & _ & [= <-]).
    apply Forall_app. split; [done|]. constructor; [|constructor].
    intros matching Hm. by apply (as_TextIndex_ok field_name). }
  intros (acc & [= <-] & H)%Hfold. apply H. constructor.
Qed.

Lemma knn_collect_Done vector vec_index set st st' :
  knn_collect VectorDistance vector vec_index set st = Done st' →
  ∃ new, st' = st ++ new ∧ snd <$> new = set.
Proof.
  revert st. induction set as [|d set IH]; intros st; simpl.
  { intros [= <-]. exists []. by rewrite app_nil_r. }
  intros (get & _ & H)%bind_Done. apply bind_Done in H as (v & _ & H).
  apply IH in H as (new & -> & Hnew).
  exists ((VectorDistance vector v, d) :: new). rewrite <- app_assoc.
  by rewrite fmap_cons, Hnew.
Qed.

Lemma SearchGeneric_within :
  indices_ok →
  ∀ node active_field top_level st r st',
    distances_ok st →
    SearchGeneric node active_field top_level st = Done (r, st') →
    within_all_ids r ∧ distances_ok st'.
Proof.
  intros Hok node.
  induction node as [| |term|lo hi|node IH|op nodes IH|field node IH|tags
                     |limit field vector filter IH] using AstNode_ind;
    intros active_field top_level st r st' Hst [Hn _]%SearchGeneric_Done;
    unfold_search Hn.
  - injection Hn as <- <-. split; [by intros d ?%elem_of_nil|done].
  - apply bind_Done in Hn as ([] & _ & [= <- <-]). split; [by intros d|done].
  - destruct (negb (String.eqb active_field "")).
    + apply bind_Done in Hn as (index & Hi%GetIndexAs_Done & Hn).
      apply bind_Done in Hn as (matching & Hm%deref_Done & [= <- <-]).
      split; [|done]. apply IndexResult_of_ptr_within.
      apply (as_TextIndex_ok active_field); [done|by rewrite <- Hi].
    + apply bind_Done in Hn as (sel & Hsel & Hn).
      apply bind_Done in Hn as ([subs st1] & Hsubs & [= <- <-]).
      pose proof (GetAllTextIndices_ok sel Hok Hsel) as Hall.
      apply (GetSubResults_Forall _ within_all_ids distances_ok) in Hsubs as [Hsubs Hst1];
        [|clear Hsubs|done].
      * split; [|done]. intros d (r & Hr & Hd)%UnifyResults_incl.
        rewrite Forall_forall in Hsubs. by apply (Hsubs r).
      * intros index s0 r' s1 Hin Hs0 Hr'.
        apply bind_Done in Hr' as (matching & Hm%deref_Done & [= <- <-]).
        split; [|done]. apply IndexResult_of_ptr_within.
        rewrite Forall_forall in Hall. by apply (Hall index Hin).
  - apply bind_Done in Hn as ([] & _ & Hn).
    apply bind_Done in Hn as (index & Hi%GetIndexAs_Done & Hn).
    apply bind_Done in Hn as (range & Hm%deref_Done & [= <- <-]).
    split; [|done]. intros d Hd. simpl in Hd.
    eapply (as_NumericIndex_ok active_field range); [done|by rewrite <- Hi|done].
  - apply bind_Done in Hn as ([sub st1] & Hsub & [= <- <-]).
    apply IH in Hsub as [_ Hst1]; [|done].
    split; [|done]. intros d Hd. simpl in Hd.
    by apply list_elem_of_filter in Hd as [_ ?].
  - apply bind_Done in Hn as ([subs st1] & Hsubs & [= <- <-]).
    apply (GetSubResults_Forall _ within_all_ids distances_ok) in Hsubs as [Hsubs Hst1];
      [|clear Hsubs|done].
    + split; [|done]. intros d (r & Hr & Hd)%UnifyResults_incl.
      rewrite Forall_forall in Hsubs. by apply (Hsubs r).
    + intros n s0 r' s1 Hin Hs0 Hr'. rewrite Forall_forall in IH.
      by apply (IH n Hin active_field false s0).
  - apply bind_Done in Hn as ([] & _ & Hn). by apply IH in Hn.
  - apply bind_Done in Hn as (tag_index & Hi%GetIndexAs_Done & Hn).
    apply bind_Done in Hn as ([subs st1] & Hsubs & [= <- <-]).
    apply (GetSubResults_Forall _ within_all_ids distances_ok) in Hsubs as [Hsubs Hst1];
      [|clear Hsubs|done].
    + split; [|done]. intros d (r & Hr & Hd)%UnifyResults_incl.
      rewrite Forall_forall in Hsubs. by apply (Hsubs r).
    + intros tag s0 r' s1 _ Hs0 Hr'.
      apply bind_Done in Hr' as (matching & Hm%deref_Done & [= <- <-]).
      split; [|done]. apply IndexResult_of_ptr_within.
      apply (as_TagIndex_ok active_field); [done|by rewrite <- Hi].
  - apply bind_Done in Hn as ([] & _ & Hn).
    apply bind_Done in Hn as ([sub st1] & Hsub & Hn).
    apply bind_Done in Hn as (vec_index & _ & Hn).
    apply bind_Done in Hn as (st2 & (new & -> & Hnew)%knn_collect_Done & [= <- <-]).
    apply IH in Hsub as [Hw1 Hst1]; [|done].
    assert (Hsorted : distances_ok (sort pair_lt (st1 ++ new))).
    { intros p. rewrite sort_perm. intros [Hp|Hp]%elem_of_app; [by apply Hst1|].
      apply Hw1. rewrite <- Hnew. apply list_elem_of_fmap. by exists p. }
    split; [|done]. intros d Hd. simpl in Hd.
    apply elem_of_take in Hd as (i & Hd & _).
    apply list_lookup_fmap_Some in Hd as (p & -> & Hp).
    apply Hsorted. by eapply list_elem_of_lookup_2.
Qed.

(** *** Double negation *)

Lemma is_sorted_le (l : list N) : is_sorted N.ltb l = true → StronglySorted N.le l.
Proof.
  intros H. apply Sorted_StronglySorted; [intros x y z; lia|].
  induction l as [|x l IH]; [constructor|].
  simpl in H. destruct l as [|y l]; [repeat constructor|].
  apply andb_true_iff in H as [Hxy Hl]. constructor; [by apply IH|].
  constructor. apply negb_true_iff, N.ltb_ge in Hxy. lia.
Qed.

Lemma is_docset_is_sorted (l : list N) : is_docset l → is_sorted N.ltb l = true.
Proof.
  induction 1 as [|x l Hl IH Hx]; [done|].
  simpl. destruct l as [|y l]; [done|].
  apply andb_true_iff. split; [|done].
  apply Forall_cons in Hx as [Hxy _]. apply negb_true_iff, N.ltb_ge. lia.
Qed.

Lemma filter_docset (P : N → Prop) `{!∀ x, Decision (P x)} (l : list N) :
  is_docset l → is_docset (filter P l).
Proof.
  induction 1 as [|x l Hl IH Hx]; [constructor|].
  rewrite filter_cons. destruct (decide (P x)); [|done].
  constructor; [done|]. rewrite Forall_forall in Hx |- *.
  intros y [_ Hy]%list_elem_of_filter. by apply Hx.
Qed.

(** [Negate] of a sorted result: the indexed documents outside it. *)
Lemma negate_filter_spec (matched : list N) :
  is_docset (all_ids_ indices) → StronglySorted N.le matched →
  is_docset (filter (fun doc => binary_search N.ltb matched doc = false) (all_ids_ indices))
  ∧ ∀ d, d ∈ filter (fun doc => binary_search N.ltb matched doc = false) (all_ids_ indices)
         ↔ d ∈ all_ids_ indices ∧ d ∉ matched.
Proof.
  intros Hall Hm. split; [by apply filter_docset|].
  intros d. rewrite list_elem_of_filter, <- (binary_search_spec matched d Hm).
  destruct (binary_search N.ltb matched d); split; intros [? ?]; split; try done.
Qed.

(** C8, as the code has it. Over a well-formed [FieldIndices], a query
    [q] that evaluates below the top level to a result sorted by id (the
    check a debug build makes on every such result) evaluates to the same
    result at the top level, and [Negate (Negate q)] evaluates to the
    DocSet of exactly the same doc ids, with the same distances recorded. *)
Theorem double_negation (q : AstNode) (active_field : string) (top_level : bool)
        (st : Distances) (r : IndexResult) (st' : Distances) :
  indices_ok → distances_ok st →
  SearchGeneric q active_field false st = Done (r, st') →
  is_sorted N.ltb (Borrowed r) = true →
  SearchGeneric q active_field true st = Done (r, st')
  ∧ ∃ r2, SearchGeneric (AstNegateNode (AstNegateNode q)) active_field top_level st
          = Done (Owned r2, st')
          ∧ is_docset r2
          ∧ ∀ d, d ∈ r2 ↔ d ∈ Borrowed r.
Proof.
  intros Hok Hst Hq Hsorted.
  pose proof Hok as [Hall _].
  split; [by eapply SearchGeneric_top|].
  destruct (SearchGeneric_within Hok q active_field false st r st' Hst Hq) as [Hw _].
  destruct (negate_filter_spec (Borrowed r) Hall (is_sorted_le _ Hsorted)) as [Hs1 He1].
  set (r1 := filter (fun doc => binary_search N.ltb (Borrowed r) doc = false)
                    (all_ids_ indices)) in *.
  destruct (negate_filter_spec r1 Hall (is_docset_le _ Hs1)) as [Hs2 He2].
  set (r2 := filter (fun doc => binary_search N.ltb r1 doc = false) (all_ids_ indices)) in *.
  assert (Hinner : SearchGeneric (AstNegateNode q) active_field false st
                   = Done (Owned r1, st')).
  { rewrite SearchGeneric_unfold. unfold Search.Search_visit, Search_Negate.
    rewrite Hq. simpl.
    unfold Take, GetAllDocs. fold r1. rewrite (is_docset_is_sorted r1 Hs1). by destruct debug_build. }
  exists r2. split_and!.
  - rewrite SearchGeneric_unfold. unfold Search.Search_visit, Search_Negate.
    rewrite Hinner. simpl.
    unfold GetAllDocs. fold r2. rewrite (is_docset_is_sorted r2 Hs2), orb_true_r. by destruct debug_build.
  - done.
  - intros d. rewrite He2, He1. split.
    + intros [Hd Hn]. destruct (decide (d ∈ Borrowed r)); [done|]. by destruct Hn.
    + intros Hd. split; [by apply Hw|]. by intros [_ ?].
Qed.

(** *** Nothing to unify *)

Lemma GetAllTextIndices_no_text :
  Forall (fun p => type (snd p) ≠ TEXT) (schema_ indices) →
  GetAllTextIndices debug_build indices = Done [].
Proof.
  unfold GetAllTextIndices. generalize (@nil (option (string → option CompressedSortedSet))).
  induction (schema_ indices) as [|[field_name field_info] schema IH]; intros acc Hall; simpl.
  { done. }
  apply Forall_cons in Hall as [Hty Hall]. simpl in Hty.
  destruct (type field_info); try done; by apply IH.
Qed.

(** C10. Unifying no sub-result gives the empty DocSet under AND and under
    OR, so do a [Logical] node without children, a [Term] without field
    scope over a schema that has no TEXT field, and a [Tags] node without
    tags whose active field names a tag index (in a build without
    [DCHECK] whatever the active field): each returns the empty result and
    leaves the recorded distances alone. *)
Theorem unify_nothing_is_empty (op : LogicOp) (active_field term : string)
        (top_level : bool) (st : Distances) :
  UnifyResults [] op = Owned []
  ∧ SearchGeneric (AstLogicalNode op []) active_field top_level st = Done (Owned [], st)
  ∧ (Forall (fun p => type (snd p) ≠ TEXT) (schema_ indices) →
     SearchGeneric (AstTermNode term) "" top_level st = Done (Owned [], st))
  ∧ (debug_build = false ∨ is_Some (as_TagIndex (GetIndex indices active_field)) →
     SearchGeneric (AstTagsNode []) active_field top_level st = Done (Owned [], st)).
Proof.
  split_and!.
  - done.
  - rewrite SearchGeneric_unfold. by destruct top_level, debug_build.
  - intros Hschema. rewrite SearchGeneric_unfold.
    unfold Search.Search_visit, Search_Term. simpl.
    rewrite (GetAllTextIndices_no_text Hschema). by destruct top_level, debug_build.
  - intros Htag. rewrite SearchGeneric_unfold.
    unfold Search.Search_visit, Search_Tags, GetIndexAs.
    destruct Htag as [->|[m Hm]]; [by destruct top_level|].
    rewrite Hm.
    assert (is_Some (GetIndex indices active_field)) as Hidx.
    { destruct (GetIndex indices active_field); [by eexists|done]. }
    rewrite !bool_decide_eq_true_2 by (done || by eexists).
    by destruct top_level, debug_build.
Qed.

(** *** KNN at the top level *)

Lemma has_knn_Logical op nodes :
  has_knn (AstLogicalNode op nodes) = false → Forall (fun n => has_knn n = false) nodes.
Proof.
  simpl. induction nodes as [|n nodes IH]; [constructor|].
  intros [? ?]%orb_false_iff. constructor; auto.
Qed.

(** A query without [Knn] node leaves [distances_] alone. *)
Lemma knn_free_state node :
  has_knn node = false →
  ∀ active_field top_level st r st',
    SearchGeneric node active_field top_level st = Done (r, st') → st' = st.
Proof.
  induction node as [| |term|lo hi|node IH|op nodes IH|field node IH|tags
                     |limit field vector filter IH] using AstNode_ind;
    intros Hknn active_field top_level st r st' [Hn _]%SearchGeneric_Done;
    unfold_search Hn.
  - by injection Hn as _ <-.
  - by apply bind_Done in Hn as ([] & _ & [= _ <-]).
  - destruct (negb (String.eqb active_field "")).
    + apply bind_Done in Hn as (? & _ & Hn).
      by apply bind_Done in Hn as (? & _ & [= _ <-]).
    + apply bind_Done in Hn as (? & _ & Hn).
      apply bind_Done in Hn as ([subs st1] & Hsubs & [= _ <-]).
      apply (GetSubResults_Forall _ (fun _ => True) (fun s => s = st)) in Hsubs as [_ ?];
        [done| |done].
      intros index s0 r' s1 _ -> Hr'.
      by apply bind_Done in Hr' as (? & _ & [= _ <-]).
  - apply bind_Done in Hn as ([] & _ & Hn).
    apply bind_Done in Hn as (? & _ & Hn).
    by apply bind_Done in Hn as (? & _ & [= _ <-]).
  - apply bind_Done in Hn as ([sub st1] & Hsub & [= _ <-]).
    by eapply IH.
  - apply has_knn_Logical in Hknn.
    apply bind_Done in Hn as ([subs st1] & Hsubs & [= _ <-]).
    apply (GetSubResults_Forall _ (fun _ => True) (fun s => s = st)) in Hsubs as [_ ?];
      [done| |done].
    intros n s0 r' s1 Hin -> Hr'. rewrite Forall_forall in IH, Hknn.
    split; [done|]. by apply (IH n Hin (Hknn n Hin) active_field false st r').
  - apply bind_Done in Hn as ([] & _ & Hn). by eapply IH.
  - apply bind_Done in Hn as (? & _ & Hn).
    apply bind_Done in Hn as ([subs st1] & Hsubs & [= _ <-]).
    apply (GetSubResults_Forall _ (fun _ => True) (fun s => s = st)) in Hsubs as [_ ?];
      [done| |done].
    intros tag s0 r' s1 _ -> Hr'.
    by apply bind_Done in Hr' as (? & _ & [= _ <-]).
  - done.
Qed.

Lemma knn_collect_ok vector (get : DocId → option FtVector) (set : list DocId) st :
  (∀ d, d ∈ set → is_Some (get d)) →
  knn_collect VectorDistance vector (Some get) set st
  = Done (st ++ ((fun d => (VectorDistance vector (default [] (get d)), d)) <$> set)).
Proof.
  revert st. induction set as [|d set IH]; intros st Hget; simpl.
  { by rewrite app_nil_r. }
  destruct (Hget d ltac:(left)) as [v Hv]. rewrite Hv. simpl.
  rewrite IH by (intros; apply Hget; by right).
  by rewrite <- app_assoc.
Qed.

(** Strong sortedness passes to a relation that follows on the elements
    of the list. *)
Lemma StronglySorted_on_impl {A} (R R' : relation A) (P : A → Prop) (l : list A) :
  (∀ a b, P a → P b → R a b → R' a b) →
  Forall P l → StronglySorted R l → StronglySorted R' l.
Proof.
  intros Himpl HP Hs. induction Hs as [|a l Hl IH Ha]; [constructor|].
  apply Forall_cons in HP as [Pa HP]. constructor; [by apply IH|].
  rewrite Forall_forall in Ha, HP |- *. intros b Hb. apply Himpl; auto.
Qed.


End ExecutorFacts.

(** ** The executor on three documents *)
Section ThreeDocs.
Import Search Examples.
Local Open Scope N_scope.

Lemma three_docs_ok : indices_ok three_docs.
Proof.
  assert (Hall : is_docset [1; 2; 3]) by (repeat constructor; lia).
  split; [exact Hall|].
  assert (Hsub : ∀ l : list N, l ⊆ [1; 2; 3] → ∀ d, d ∈ l → d ∈ all_ids_ three_docs).
  { intros l Hl d Hd. by apply Hl. }
  intros field i. unfold three_docs. simpl.
  rewrite !lookup_insert_Some, lookup_empty.
  intros [[_ <-]|[_ [[_ <-]|[_ [[_ <-]|[_ [[_ <-]|[_ ?]]]]]]]]; try done; simpl.
  - intros token css. destruct (String.eqb token "apple"); [intros [= <-]|].
    { split; [repeat constructor; lia|apply Hsub; set_solver]. }
    destruct (String.eqb token "banana"); [intros [= <-]|done].
    split; [repeat constructor; lia|apply Hsub; set_solver].
  - intros token css. destruct (String.eqb token "sale"); [intros [= <-]|].
    { split; [repeat constructor; lia|apply Hsub; set_solver]. }
    destruct (String.eqb token "new"); [intros [= <-]|done].
    split; [repeat constructor; lia|apply Hsub; set_solver].
  - intros lo hi. split; [by apply filter_docset|].
    intros d [_ Hd]%list_elem_of_filter. done.
Qed.

(** Scenario 1 of the specification. *)
Example scenario_sale_and_price :
  Search true euclidean three_docs
    (AstLogicalNode AND [q_sale; AstFieldNode "price" (AstRangeNode 15 40)])
  = Done {| ids := [3]; knn_distances := [] |}.
Proof. vm_compute. reflexivity. Qed.

Example scenario_sale_or_apple :
  Search true euclidean three_docs (AstLogicalNode OR [q_sale; AstTermNode "apple"])
  = Done {| ids := [1; 2; 3]; knn_distances := [] |}.
Proof. vm_compute. reflexivity. Qed.

Example scenario_not_apple :
  Search true euclidean three_docs (AstNegateNode (AstTermNode "apple"))
  = Done {| ids := [3]; knn_distances := [] |}.
Proof. vm_compute. reflexivity. Qed.

Example scenario_knn :
  Search true euclidean three_docs q_knn
  = Done {| ids := [3; 2]; knn_distances := [0%float; 1%float] |}.
Proof. vm_compute. reflexivity. Qed.



(** An instance: [@tag:{sale}] and its double negation. *)
Lemma double_negation_witness :
  SearchGeneric true euclidean three_docs q_sale "" true [] = Done (BorrowedSet [1; 3], [])
  ∧ ∃ r2, SearchGeneric true euclidean three_docs (AstNegateNode (AstNegateNode q_sale))
                        "" true []
          = Done (Owned r2, [])
          ∧ is_docset r2
          ∧ ∀ d, d ∈ r2 ↔ d ∈ Borrowed (BorrowedSet [1; 3]).
Proof.
  apply (double_negation true euclidean three_docs q_sale "" true [] (BorrowedSet [1; 3]) []).
  - exact three_docs_ok.
  - intros p Hp. by apply elem_of_nil in Hp.
  - vm_compute. reflexivity.
  - reflexivity.
Defined.

(** A [Knn] root returns its documents in distance order, here 3 before 2:
    its double negation aborts on the sortedness check of a debug build,
    and without that check evaluates to the empty result. *)
Lemma double_negation_of_knn_root :
  Search true euclidean three_docs q_knn
  = Done {| ids := [3; 2]; knn_distances := [0%float; 1%float] |}
  ∧ Search true euclidean three_docs (AstNegateNode (AstNegateNode q_knn))
    = Fatal "Check failed"
  ∧ Search false euclidean three_docs (AstNegateNode (AstNegateNode q_knn))
    = Done {| ids := []; knn_distances := [] |}.
Proof. split_and!; vm_compute; reflexivity. Qed.

(** An instance: a schema with a single tag field. *)
Lemma unify_nothing_is_empty_witness :
  SearchGeneric true euclidean no_text_docs (AstTermNode "apple") "" true []
  = Done (Owned [], [])
  ∧ SearchGeneric true euclidean no_text_docs (AstTagsNode []) "tag" false []
    = Done (Owned [], []).
Proof.
  split.
  - apply (unify_nothing_is_empty true euclidean no_text_docs AND "" "apple" true []).
    repeat constructor; done.
  - apply (unify_nothing_is_empty true euclidean no_text_docs OR "tag" "" false []).
    right. vm_compute. by eexists.
Defined.

End ThreeDocs.

(* ===================================================================== *)
(** * Part III: further properties of the code                            *)
(* ===================================================================== *)

(** ** [search.cc]: unifying sub-results *)
Section UnifyFacts.
Import Search.
Local Open Scope N_scope.

(** What [UnifyResults] returns on DocSets. *)
Lemma UnifyResults_spec op sub_results :
  Forall (fun r => is_docset (Borrowed r)) sub_results →
  is_docset (Borrowed (UnifyResults sub_results op))
  ∧ ∀ d, d ∈ Borrowed (UnifyResults sub_results op) ↔
         match op with
         | AND => sub_results ≠ [] ∧ ∀ r, r ∈ sub_results → d ∈ Borrowed r
         | OR => ∃ r, r ∈ sub_results ∧ d ∈ Borrowed r
         end.
Proof.
  intros Hall.
  pose proof (sort_perm size_lt sub_results) as Hperm.
  unfold UnifyResults. destruct sub_results as [|r0 rs].
  { split; [constructor|]. intros d. destruct op; set_solver. }
  destruct (sort size_lt (r0 :: rs)) as [|out rest] eqn:Hs.
  { by apply Permutation_nil_l in Hperm. }
  assert (Hall' : Forall (fun r => is_docset (Borrowed r)) (out :: rest)).
  { by rewrite Hperm. }
  apply Forall_cons in Hall' as [Hout Hrest].
  destruct (unify_fold_spec op rest out Hout Hrest) as [Hd He].
  split; [done|]. intros d. rewrite He. destruct op.
  - split; [intros H; split; [done|]; intros r Hr; apply H; by rewrite Hperm
           |intros [_ H] r Hr; apply H; by rewrite <- Hperm].
  - split; intros (r & Hr & Hdr); exists r; split; try done;
      [by rewrite <- Hperm | by rewrite Hperm].
Qed.

(** Two or more sub-results are merged into an owned vector. *)
Lemma UnifyResults_owned op a b rest :
  UnifyResults (a :: b :: rest) op = Owned (Borrowed (UnifyResults (a :: b :: rest) op)).
Proof.
  unfold UnifyResults.
  pose proof (sort_length size_lt (a :: b :: rest)) as Hlen.
  destruct (sort size_lt (a :: b :: rest)) as [|out [|m rest']]; try done.
  change (fold_left (fun out matched => Merge matched out op) (m :: rest') out)
    with (fold_left (fun out matched => Merge matched out op) rest' (Merge m out op)).
  assert (∃ v, Merge m out op = Owned v) as [v ->] by (destruct op; simpl; eauto).
  clear. revert v. induction rest' as [|m' rest' IH]; intros v; [done|].
  simpl. destruct op; simpl; apply IH.
Qed.

(** X1. The outcome of [UnifyResults] on DocSets depends on the
    sub-results as a collection only: handing them over in another order
    gives the same DocSet, and so does unifying two non-empty groups
    separately and then unifying the two outcomes. *)
Theorem UnifyResults_order_independent (op : LogicOp) (l l' l1 l2 : list IndexResult) :
  Forall (fun r => is_docset (Borrowed r)) l →
  l ≡ₚ l' →
  Forall (fun r => is_docset (Borrowed r)) l1 →
  Forall (fun r => is_docset (Borrowed r)) l2 →
  l1 ≠ [] → l2 ≠ [] →
  Borrowed (UnifyResults l op) = Borrowed (UnifyResults l' op)
  ∧ Borrowed (UnifyResults [UnifyResults l1 op; UnifyResults l2 op] op)
    = Borrowed (UnifyResults (l1 ++ l2) op).
Proof.
  intros Hl Hperm Hl1 Hl2 Hne1 Hne2.
  assert (Hl' : Forall (fun r => is_docset (Borrowed r)) l') by (by rewrite <- Hperm).
  destruct (UnifyResults_spec op l Hl) as [Hs He].
  destruct (UnifyResults_spec op l' Hl') as [Hs' He'].
  destruct (UnifyResults_spec op l1 Hl1) as [Hs1 He1].
  destruct (UnifyResults_spec op l2 Hl2) as [Hs2 He2].
  split.
  - apply is_docset_ext; [done..|]. intros d. rewrite He, He'. destruct op.
    + split; intros [Hne H]; (split; [intros ->|intros r Hr; apply H]).
      * apply Permutation_nil_r in Hperm. by subst.
      * by rewrite Hperm.
      * apply Permutation_nil_l in Hperm. by subst.
      * by rewrite <- Hperm.
    + split; intros (r & Hr & Hd); exists r; (split; [|done]);
        [by rewrite <- Hperm|by rewrite Hperm].
  - destruct (UnifyResults_spec op [UnifyResults l1 op; UnifyResults l2 op]) as [Hs12 He12].
    { by repeat constructor. }
    destruct (UnifyResults_spec op (l1 ++ l2)) as [Hsa Hea].
    { by apply Forall_app. }
    apply is_docset_ext; [done..|]. intros d. rewrite He12, Hea. destruct op.
    + split.
      * intros [_ H]. split; [by destruct l1|].
        pose proof (proj1 (He1 d) (H _ ltac:(left))) as [_ H1].
        pose proof (proj1 (He2 d) (H _ ltac:(right; left))) as [_ H2].
        intros r [?|?]%elem_of_app; auto.
      * intros [_ H]. split; [done|]. intros r Hr.
        apply elem_of_cons in Hr as [->|Hr].
        { apply He1. split; [done|]. intros r Hr. apply H, elem_of_app. by left. }
        apply list_elem_of_singleton in Hr as ->.
        apply He2. split; [done|]. intros r Hr. apply H, elem_of_app. by right.
    + split.
      * intros (r & Hr & Hd). apply elem_of_cons in Hr as [->|Hr].
        { apply He1 in Hd as (r & Hr & Hd). exists r. split; [|done].
          apply elem_of_app. by left. }
        apply list_elem_of_singleton in Hr as ->.
        apply He2 in Hd as (r & Hr & Hd). exists r. split; [|done].
        apply elem_of_app. by right.
      * intros (r & [Hr|Hr]%elem_of_app & Hd).
        { exists (UnifyResults l1 OR). split; [left|]. apply He1. eauto. }
        exists (UnifyResults l2 OR). split; [right; left|]. apply He2. eauto.
Qed.

End UnifyFacts.

(** An instance: three posting lists, in two orders and in two groups. *)
Lemma UnifyResults_order_independent_witness :
  Search.Borrowed (Search.UnifyResults
    [Search.Owned [1; 2; 3]; Search.BorrowedSet [2]; Search.Owned [2; 3]]%N Search.AND)
  = Search.Borrowed (Search.UnifyResults
    [Search.Owned [2; 3]; Search.Owned [1; 2; 3]; Search.BorrowedSet [2]]%N Search.AND)
  ∧ Search.Borrowed (Search.UnifyResults
      [Search.UnifyResults [Search.Owned [1; 2; 3]]%N Search.AND;
       Search.UnifyResults [Search.BorrowedSet [2]; Search.Owned [2; 3]]%N Search.AND]
      Search.AND)
    = Search.Borrowed (Search.UnifyResults
        ([Search.Owned [1; 2; 3]] ++ [Search.BorrowedSet [2]; Search.Owned [2; 3]])%N
        Search.AND).
Proof.
  apply (UnifyResults_order_independent Search.AND).
  - repeat constructor; simpl; lia.
  - apply Permutation_sym, (Permutation_cons_append [Search.Owned [1; 2; 3]%N; _]).
  - repeat constructor; simpl; lia.
  - repeat constructor; simpl; lia.
  - done.
  - done.
Defined.

(** ** [search.cc]: the executor over well-formed indices *)
Section ExecutorInvariants.
Import Search.
Local Open Scope N_scope.
Context (debug_build : bool) (VectorDistance : FtVector → FtVector → float).
Context (indices : FieldIndices).

Local Abbreviation SearchGeneric := (Search.SearchGeneric debug_build VectorDistance indices).
Local Abbreviation Search_visit :=
  (Search.Search_visit debug_build VectorDistance indices
     (Search.SearchGeneric debug_build VectorDistance indices)).
Local Abbreviation posting_ok := (Search.posting_ok indices).
Local Abbreviation indices_ok := (Search.indices_ok indices).

Ltac unfold_search H :=
  unfold Search.Search_visit, Search_monostate, Search_Star, Search_Term, Search_Range,
    Search_Negate, Search_Logical, Search_Field, Search_Tags, Search_Knn in H;
  cbv zeta in H.

Lemma IndexResult_of_ptr_posting (matching : string → option CompressedSortedSet) token :
  (∀ token css, matching token = Some css → posting_ok css) →
  posting_ok (Borrowed (IndexResult_of_ptr (matching token))).
Proof.
  intros Hok. destruct (matching token) as [css|] eqn:Hm; simpl.
  - by apply (Hok token css Hm).
  - split; [constructor|by intros d ?%elem_of_nil].
Qed.

Lemma UnifyResults_posting sub_results op :
  Forall (fun r => posting_ok (Borrowed r)) sub_results →
  posting_ok (Borrowed (UnifyResults sub_results op)).
Proof.
  intros Hall. split.
  - apply UnifyResults_spec. eapply Forall_impl; [done|]. by intros r [? _].
  - intros d (r & Hr & Hd)%UnifyResults_incl.
    rewrite Forall_forall in Hall. by apply (Hall r Hr).
Qed.

(** A query without [Knn] node evaluates to a DocSet of indexed documents
    at every level. *)
Lemma SearchGeneric_docset :
  indices_ok →
  ∀ node, has_knn node = false →
  ∀ active_field top_level st r st',
    SearchGeneric node active_field top_level st = Done (r, st') →
    posting_ok (Borrowed r).
Proof.
  intros Hok node.
  induction node as [| |term|lo hi|node IH|op nodes IH|field node IH|tags
                     |limit field vector filter IH] using AstNode_ind;
    intros Hknn active_field top_level st r st' [Hn _]%SearchGeneric_Done;
    unfold_search Hn.
  - injection Hn as <- <-. split; [constructor|by intros d ?%elem_of_nil].
  - apply bind_Done in Hn as ([] & _ & [= <- <-]). split; [apply Hok|done].
  - destruct (negb (String.eqb active_field "")).
    + apply bind_Done in Hn as (index & Hi%GetIndexAs_Done & Hn).
      apply bind_Done in Hn as (matching & Hm%deref_Done & [= <- <-]).
      apply IndexResult_of_ptr_posting.
      eapply as_TextIndex_ok; [done|by rewrite <- Hi].
    + apply bind_Done in Hn as (sel & Hsel & Hn).
      apply bind_Done in Hn as ([subs st1] & Hsubs & [= <- <-]).
      pose proof (GetAllTextIndices_ok _ _ sel Hok Hsel) as Hall.
      apply (GetSubResults_Forall _ (fun r => posting_ok (Borrowed r)) (fun _ => True))
        in Hsubs as [Hsubs _]; [|clear Hsubs|done].
      * by apply UnifyResults_posting.
      * intros index s0 r' s1 Hin _ Hr'.
        apply bind_Done in Hr' as (matching & Hm%deref_Done & [= <- <-]).
        split; [|done]. apply IndexResult_of_ptr_posting.
        rewrite Forall_forall in Hall. by apply (Hall index Hin).
  - apply bind_Done in Hn as ([] & _ & Hn).
    apply bind_Done in Hn as (index & Hi%GetIndexAs_Done & Hn).
    apply bind_Done in Hn as (range & Hm%deref_Done & [= <- <-]).
    simpl. eapply as_NumericIndex_ok; [done|by rewrite <- Hi].
  - apply bind_Done in Hn as ([sub st1] & Hsub & [= <- <-]).
    simpl. split; [apply filter_docset, Hok|].
    by intros d [_ ?]%list_elem_of_filter.
  - apply has_knn_Logical in Hknn.
    apply bind_Done in Hn as ([subs st1] & Hsubs & [= <- <-]).
    apply (GetSubResults_Forall _ (fun r => posting_ok (Borrowed r)) (fun _ => True))
      in Hsubs as [Hsubs _]; [|clear Hsubs|done].
    + by apply UnifyResults_posting.
    + intros n s0 r' s1 Hin _ Hr'. rewrite Forall_forall in IH, Hknn.
      split; [|done]. by apply (IH n Hin (Hknn n Hin) active_field false s0 r' s1).
  - apply bind_Done in Hn as ([] & _ & Hn). by eapply IH.
  - apply bind_Done in Hn as (tag_index & Hi%GetIndexAs_Done & Hn).
    apply bind_Done in Hn as ([subs st1] & Hsubs & [= <- <-]).
    apply (GetSubResults_Forall _ (fun r => posting_ok (Borrowed r)) (fun _ => True))
      in Hsubs as [Hsubs _]; [|clear Hsubs|done].
    + by apply UnifyResults_posting.
    + intros tag s0 r' s1 _ _ Hr'.
      apply bind_Done in Hr' as (matching & Hm%deref_Done & [= <- <-]).
      split; [|done]. apply IndexResult_of_ptr_posting.
      eapply as_TagIndex_ok; [done|by rewrite <- Hi].
  - done.
Qed.

(** X2. Over well-formed indices (all_ids and every posting list sorted
    ascending without duplicates, postings within all_ids) a query that
    holds no [Knn] node, when it returns, returns ids sorted ascending
    without duplicates, all of them indexed documents, and no distances. *)
Theorem knn_free_query_result (q : AstNode) (res : SearchResult) :
  indices_ok →
  has_knn q = false →
  Search debug_build VectorDistance indices q = Done res →
  is_docset (ids res)
  ∧ (∀ d, d ∈ ids res → d ∈ all_ids_ indices)
  ∧ knn_distances res = [].
Proof.
  intros Hok Hknn. unfold Search.
  intros ([r st] & Hq & Hres)%bind_Done.
  pose proof (knn_free_state _ _ _ q Hknn _ _ _ _ _ Hq) as ->.
  pose proof (SearchGeneric_docset Hok q Hknn _ _ _ _ _ Hq) as [Hd Hw].
  simpl in Hres. injection Hres as <-. by split_and!.
Qed.

(** [Negate] over a sorted sub-result. *)
Lemma Negate_spec q active_field top_level st r st' :
  is_docset (all_ids_ indices) →
  SearchGeneric q active_field false st = Done (r, st') →
  is_sorted N.ltb (Borrowed r) = true →
  ∃ c, SearchGeneric (AstNegateNode q) active_field top_level st = Done (Owned c, st')
       ∧ is_docset c
       ∧ ∀ d, d ∈ c ↔ d ∈ all_ids_ indices ∧ d ∉ Borrowed r.
Proof.
  intros Hall Hq Hsorted.
  destruct (negate_filter_spec _ (Borrowed r) Hall (is_sorted_le _ Hsorted)) as [Hs He].
  eexists. split_and!; [|exact Hs|exact He].
  rewrite SearchGeneric_unfold. unfold Search.Search_visit, Search_Negate.
  rewrite Hq. simpl. unfold Take, GetAllDocs.
  rewrite (is_docset_is_sorted _ Hs), orb_true_r. by destruct debug_build.
Qed.


(** X4. Over well-formed indices, for a query [q] without [Knn] node that
    evaluates below the top level: [q OR NOT q] returns all indexed
    documents and [q AND NOT q] returns none. *)
Theorem Negate_excluded_middle (q : AstNode) (active_field : string) (top_level : bool)
        (st : Distances) (r : IndexResult) (st' : Distances) :
  indices_ok →
  has_knn q = false →
  SearchGeneric q active_field false st = Done (r, st') →
  SearchGeneric (AstLogicalNode OR [q; AstNegateNode q]) active_field top_level st
  = Done (Owned (all_ids_ indices), st)
  ∧ SearchGeneric (AstLogicalNode AND [q; AstNegateNode q]) active_field top_level st
    = Done (Owned [], st).
Proof.
  intros Hok Hknn Hq.
  pose proof (knn_free_state _ _ _ q Hknn _ _ _ _ _ Hq) as ->.
  pose proof (SearchGeneric_docset Hok q Hknn _ _ _ _ _ Hq) as [Hd Hw].
  pose proof Hok as [Hall _].
  destruct (Negate_spec q active_field false st r st Hall Hq (is_docset_is_sorted _ Hd))
    as (c & Hneg & Hc & Hce).
  assert (Hsubs : Forall (fun r => is_docset (Borrowed r)) [r; Owned c]).
  { by repeat constructor. }
  assert (Hrun : ∀ op, SearchGeneric (AstLogicalNode op [q; AstNegateNode q])
                                     active_field top_level st
                       = (_ ← DCHECK debug_build
                                (top_level
                                 || is_sorted N.ltb (Borrowed (UnifyResults [r; Owned c] op)));
                          Done (UnifyResults [r; Owned c] op, st))).
  { intros op. rewrite SearchGeneric_unfold. unfold Search.Search_visit, Search_Logical.
    cbn [GetSubResults]. rewrite Hq. cbn [mbind Outcome_bind]. rewrite Hneg. done. }
  rewrite !Hrun.
  destruct (UnifyResults_spec OR _ Hsubs) as [Hso Heo].
  destruct (UnifyResults_spec AND _ Hsubs) as [Hsa Hea].
  rewrite !(is_docset_is_sorted _ Hso), !(is_docset_is_sorted _ Hsa), !orb_true_r.
  rewrite (UnifyResults_owned OR), (UnifyResults_owned AND).
  assert (Borrowed (UnifyResults [r; Owned c] OR) = all_ids_ indices) as ->.
  { apply is_docset_ext; [done..|]. intros d. rewrite Heo. split.
    - intros (x & [->|Hx]%elem_of_cons & Hdx); [by apply Hw|].
      apply list_elem_of_singleton in Hx as ->. by apply Hce in Hdx as [? _].
    - intros Hdall. destruct (decide (d ∈ Borrowed r)).
      + exists r. split; [left|done].
      + exists (Owned c). split; [right; left|]. by apply Hce. }
  assert (Borrowed (UnifyResults [r; Owned c] AND) = []) as ->.
  { apply is_docset_ext; [done|constructor|]. intros d. rewrite Hea. split.
    - intros [_ H]. pose proof (H r ltac:(left)) as H1.
      pose proof (H (Owned c) ltac:(right; left)) as H2.
      apply Hce in H2 as [_ H2]. done.
    - by intros ?%elem_of_nil. }
  by destruct debug_build.
Qed.

End ExecutorInvariants.

Section ExecutorInstances.
Import Search Examples.
Local Open Scope N_scope.

(** An instance: [@tag:{sale} | apple] over the three documents. *)
Lemma knn_free_query_result_witness :
  is_docset (ids {| ids := [1; 2; 3]; knn_distances := [] |})
  ∧ (∀ d, d ∈ ids {| ids := [1; 2; 3]; knn_distances := [] |} → d ∈ all_ids_ three_docs)
  ∧ knn_distances {| ids := [1; 2; 3]; knn_distances := [] |} = [].
Proof.
  exact (knn_free_query_result true euclidean three_docs
           (AstLogicalNode OR [q_sale; AstTermNode "apple"])
           {| ids := [1; 2; 3]; knn_distances := [] |}
           three_docs_ok eq_refl eq_refl).
Defined.


(** An instance: [@tag:{sale}] and its negation, unified. *)
Lemma Negate_excluded_middle_witness :
  SearchGeneric true euclidean three_docs
    (AstLogicalNode OR [q_sale; AstNegateNode q_sale]) "" false []
  = Done (Owned (all_ids_ three_docs), [])
  ∧ SearchGeneric true euclidean three_docs
      (AstLogicalNode AND [q_sale; AstNegateNode q_sale]) "" false []
    = Done (Owned [], []).
Proof.
  apply (Negate_excluded_middle true euclidean three_docs q_sale "" false []
           (BorrowedSet [1; 3]) []).
  - apply three_docs_ok.
  - reflexivity.
  - reflexivity.
Defined.

End ExecutorInstances.

(** ** [search.cc]: what [Tags] and [Term] return *)
Section LeafQueries.
Import Search.
Local Open Scope N_scope.
Context (debug_build : bool) (VectorDistance : FtVector → FtVector → float).
Context (indices : FieldIndices).

Local Abbreviation SearchGeneric := (Search.SearchGeneric debug_build VectorDistance indices).
Local Abbreviation posting_ok := (Search.posting_ok indices).
Local Abbreviation indices_ok := (Search.indices_ok indices).

(** [GetSubResults] with a function that leaves [distances_] alone. *)
Lemma GetSubResults_map {C} (f : C → Distances → Outcome (IndexResult * Distances))
      (g : C → IndexResult) (container : list C) (st : Distances) :
  (∀ c, c ∈ container → f c st = Done (g c, st)) →
  GetSubResults f container st = Done (g <$> container, st).
Proof.
  induction container as [|c rest IH]; intros Hf; [done|].
  simpl. rewrite (Hf c) by left. simpl.
  rewrite IH by (intros c' Hc'; apply Hf; by right). done.
Qed.

Lemma GetAllTextIndices_text_indices :
  Forall (fun index => is_Some index) (text_indices indices) →
  GetAllTextIndices debug_build indices = Done (text_indices indices).
Proof.
  unfold GetAllTextIndices, text_indices.
  assert (∀ schema acc,
    Forall (fun index => is_Some index)
           (omap (fun p => match type (snd p) with
                           | TEXT => Some (as_TextIndex (GetIndex indices (fst p)))
                           | _ => None
                           end) schema) →
    foldl (fun acc '(field_name, field_info) =>
             out ← acc;
             match type field_info with
             | TEXT =>
                 let index := as_TextIndex (GetIndex indices field_name) in
                 _ ← DCHECK debug_build (bool_decide (is_Some index));
                 Done (out ++ [index])
             | _ => Done out
             end) (Done acc) schema
    = Done (acc ++ omap (fun p => match type (snd p) with
                                  | TEXT => Some (as_TextIndex (GetIndex indices (fst p)))
                                  | _ => None
                                  end) schema)) as Hfold.
  { induction schema as [|[field_name field_info] schema IH]; intros acc Hall.
    { by rewrite app_nil_r. }
    simpl in *. destruct (type field_info); simpl in *; try by apply IH.
    apply Forall_cons in Hall as [Hsome Hall].
    rewrite bool_decide_eq_true_2 by done.
    replace (DCHECK debug_build true) with (Done tt) by (by destruct debug_build).
    simpl. rewrite IH by done. by rewrite <- app_assoc. }
  intros Hall. by rewrite Hfold.
Qed.

Lemma elem_of_text_indices index :
  index ∈ text_indices indices ↔
  ∃ field info, (field, info) ∈ schema_ indices ∧ type info = TEXT
                ∧ index = as_TextIndex (GetIndex indices field).
Proof.
  unfold text_indices. rewrite list_elem_of_omap. split.
  - intros ([field info] & Hin & H). simpl in H.
    destruct (type info) eqn:Hty; try done. injection H as <-. eauto.
  - intros (field & info & Hin & Hty & ->). exists (field, info). simpl.
    by rewrite Hty.
Qed.

(** X5. Under an active field that names a tag index, over well-formed
    indices, a [Tags] node returns, at every level, the DocSet of exactly
    the documents found in the posting list of one of its tags, and
    records no distance. *)
Theorem Tags_is_union (tags : list string) (active_field : string) (top_level : bool)
        (st : Distances) (matching : string → option CompressedSortedSet) :
  indices_ok →
  as_TagIndex (GetIndex indices active_field) = Some matching →
  ∃ r, SearchGeneric (AstTagsNode tags) active_field top_level st = Done (r, st)
       ∧ is_docset (Borrowed r)
       ∧ ∀ d, d ∈ Borrowed r ↔
              ∃ tag css, tag ∈ tags ∧ matching tag = Some css ∧ d ∈ css.
Proof.
  intros Hok Hm.
  pose proof (as_TagIndex_ok _ _ _ Hok Hm) as Hpost.
  set (g := fun tag : string => IndexResult_of_ptr (matching tag)).
  assert (Hall : Forall (fun r => is_docset (Borrowed r)) (g <$> tags)).
  { apply Forall_fmap, Forall_forall. intros tag _. unfold g. simpl.
    destruct (matching tag) as [css|] eqn:Ht; simpl; [by apply (Hpost tag)|constructor]. }
  destruct (UnifyResults_spec OR _ Hall) as [Hs He].
  exists (UnifyResults (g <$> tags) OR). split_and!; [|done|].
  - rewrite SearchGeneric_unfold.
    unfold Search.Search_visit, Search_Tags, GetIndexAs. rewrite Hm.
    assert (is_Some (GetIndex indices active_field)) as Hidx.
    { destruct (GetIndex indices active_field); [by eexists|done]. }
    rewrite !bool_decide_eq_true_2 by (done || by eexists).
    replace (DCHECK debug_build true) with (Done tt) by (by destruct debug_build).
    cbn [mbind Outcome_bind].
    rewrite (GetSubResults_map _ g) by done.
    cbn [mbind Outcome_bind].
    rewrite (is_docset_is_sorted _ Hs), orb_true_r. by destruct debug_build.
  - intros d. rewrite He. split.
    + intros (r & (tag & -> & Htag)%list_elem_of_fmap & Hd). unfold g in Hd.
      destruct (matching tag) as [css|] eqn:Ht; simpl in Hd; [eauto|].
      by apply elem_of_nil in Hd.
    + intros (tag & css & Htag & Ht & Hd). exists (g tag). split.
      * apply list_elem_of_fmap. eauto.
      * unfold g. by rewrite Ht.
Qed.

(** X6. A [Term] node under an active field that names a text index
    returns the posting list of the token in that index (empty when there
    is none); without active field, over well-formed indices in which
    every TEXT field of the schema has a text index, it returns the DocSet
    of exactly the documents that some TEXT field holds under the token. *)
Theorem Term_all_text_fields (term : string) (active_field : string) (top_level : bool)
        (st : Distances) (matching : string → option CompressedSortedSet) :
  indices_ok →
  (active_field ≠ "" →
   as_TextIndex (GetIndex indices active_field) = Some matching →
   SearchGeneric (AstTermNode term) active_field top_level st
   = Done (IndexResult_of_ptr (matching term), st))
  ∧ ((∀ field info, (field, info) ∈ schema_ indices → type info = TEXT →
                    is_Some (as_TextIndex (GetIndex indices field))) →
     ∃ r, SearchGeneric (AstTermNode term) "" top_level st = Done (r, st)
          ∧ is_docset (Borrowed r)
          ∧ ∀ d, d ∈ Borrowed r ↔
                 ∃ field info m css,
                   (field, info) ∈ schema_ indices ∧ type info = TEXT
                   ∧ as_TextIndex (GetIndex indices field) = Some m
                   ∧ m term = Some css ∧ d ∈ css).
Proof.
  intros Hok. split.
  - intros Hne Hm.
    pose proof (as_TextIndex_ok _ _ _ Hok Hm) as Hpost.
    rewrite SearchGeneric_unfold.
    unfold Search.Search_visit, Search_Term, GetIndexAs. rewrite Hm.
    apply String.eqb_neq in Hne. rewrite Hne. simpl negb. cbv iota.
    assert (is_Some (GetIndex indices active_field)) as Hidx.
    { destruct (GetIndex indices active_field); [by eexists|done]. }
    rewrite !bool_decide_eq_true_2 by (done || by eexists).
    replace (DCHECK debug_build true) with (Done tt) by (by destruct debug_build).
    cbn [mbind Outcome_bind deref].
    assert (is_docset (Borrowed (IndexResult_of_ptr (matching term)))) as Hs.
    { destruct (matching term) as [css|] eqn:Ht; simpl; [by apply (Hpost term)|constructor]. }
    rewrite (is_docset_is_sorted _ Hs), orb_true_r. by destruct debug_build.
  - intros Hschema.
    assert (Hsome : Forall (fun index => is_Some index) (text_indices indices)).
    { apply Forall_forall. intros index (field & info & Hin & Hty & ->)%elem_of_text_indices.
      by apply (Hschema field info). }
    set (g := fun index : option (string → option CompressedSortedSet) =>
                IndexResult_of_ptr (default (fun _ => None) index term)).
    assert (Hall : Forall (fun r => is_docset (Borrowed r)) (g <$> text_indices indices)).
    { apply Forall_fmap, Forall_forall.
      intros index (field & info & Hin & Hty & ->)%elem_of_text_indices. unfold g. simpl.
      destruct (Hschema field info Hin Hty) as [m Hm]. rewrite Hm. simpl.
      pose proof (as_TextIndex_ok _ _ _ Hok Hm) as Hpost.
      destruct (m term) as [css|] eqn:Ht; simpl; [by apply (Hpost term)|constructor]. }
    destruct (UnifyResults_spec OR _ Hall) as [Hs He].
    exists (UnifyResults (g <$> text_indices indices) OR). split_and!; [|done|].
    + rewrite SearchGeneric_unfold.
      unfold Search.Search_visit, Search_Term. simpl negb. cbv iota.
      rewrite (GetAllTextIndices_text_indices Hsome).
      cbn [mbind Outcome_bind].
      rewrite (GetSubResults_map _ g).
      2:{ intros index Hin. rewrite Forall_forall in Hsome.
          destruct (Hsome index Hin) as [m ->]. done. }
      cbn [mbind Outcome_bind].
      rewrite (is_docset_is_sorted _ Hs), orb_true_r. by destruct debug_build.
    + intros d. rewrite He. split.
      * intros (r & (index & -> & Hin)%list_elem_of_fmap & Hd).
        apply elem_of_text_indices in Hin as (field & info & Hin & Hty & ->).
        destruct (Hschema field info Hin Hty) as [m Hm].
        unfold g in Hd. rewrite Hm in Hd. simpl in Hd.
        destruct (m term) as [css|] eqn:Ht; simpl in Hd;
          [|by apply elem_of_nil in Hd].
        exists field, info, m, css. done.
      * intros (field & info & m & css & Hin & Hty & Hm & Ht & Hd).
        exists (g (as_TextIndex (GetIndex indices field))). split.
        -- apply list_elem_of_fmap. eexists. split; [done|].
           apply elem_of_text_indices. eauto.
        -- unfold g. rewrite Hm. simpl. by rewrite Ht.
Qed.

End LeafQueries.

Section LeafInstances.
Import Search Examples.
Local Open Scope N_scope.

(** An instance: [@tag:{sale | new}] over the three documents. *)
Lemma Tags_is_union_witness :
  ∃ r, SearchGeneric true euclidean three_docs (AstTagsNode ["sale"; "new"]) "tag" false []
       = Done (r, [])
       ∧ is_docset (Borrowed r)
       ∧ ∀ d, d ∈ Borrowed r ↔
              ∃ tag css, tag ∈ ["sale"; "new"] ∧ tag_postings tag = Some css ∧ d ∈ css.
Proof.
  apply (Tags_is_union true euclidean three_docs ["sale"; "new"] "tag" false []
           tag_postings).
  - apply three_docs_ok.
  - reflexivity.
Defined.

(** An instance: the bare term [apple]; the schema of the three documents
    has one TEXT field, [title]. *)
Lemma Term_all_text_fields_witness :
  ∃ r, SearchGeneric true euclidean three_docs (AstTermNode "apple") "" true []
       = Done (r, [])
       ∧ is_docset (Borrowed r)
       ∧ ∀ d, d ∈ Borrowed r ↔
              ∃ field info m css,
                (field, info) ∈ schema_ three_docs ∧ type info = TEXT
                ∧ as_TextIndex (GetIndex three_docs field) = Some m
                ∧ m "apple" = Some css ∧ d ∈ css.
Proof.
  destruct (Term_all_text_fields true euclidean three_docs "apple" "" true []
              title_postings three_docs_ok) as [_ H].
  apply H. intros field info Hin Hty. simpl in Hin.
  repeat (apply elem_of_cons in Hin as [Hin|Hin]);
    try (injection Hin as -> ->; first [by exists title_postings | discriminate Hty]).
  by apply elem_of_nil in Hin.
Defined.

End LeafInstances.

(** ** [search.cc]: [FieldIndices] *)
Section FieldIndicesMore.
Import Search.
Local Open Scope N_scope.
Context {DocumentAccessor : Type}.
Context (index_add index_remove :
           DocId → DocumentAccessor → string → BaseIndex → BaseIndex).

(** X7. [Add] puts the id into all_ids behind the ids that are not
    greater, whether it is there already or not: all_ids stays sorted
    and holds the id once more than before.  A [Remove] of the same id
    that follows passes its check, takes one occurrence out and leaves
    all_ids as it was before the [Add]. *)
Theorem Add_then_Remove (fi : FieldIndices) (doc : DocId)
        (access access' : DocumentAccessor) :
  StronglySorted N.le (all_ids_ fi) →
  StronglySorted N.le (all_ids_ (Add index_add doc access fi))
  ∧ all_ids_ (Add index_add doc access fi) ≡ₚ doc :: all_ids_ fi
  ∧ ∃ fi', Remove index_remove doc access' (Add index_add doc access fi) = Done fi'
           ∧ all_ids_ fi' = all_ids_ fi.
Proof.
  intros Hs.
  destruct (insert_at_sorted (all_ids_ fi) doc Hs) as (Hs1 & Hp1 & Hat).
  split_and!; [done..|].
  unfold Remove. cbn [all_ids_ Add].
  set (l1 := insert_at (upper_bound N.ltb (all_ids_ fi) doc) doc (all_ids_ fi)) in *.
  destruct (lower_bound_spec l1 doc Hs1) as (Hr & Hb & Ha).
  set (lb := lower_bound N.ltb l1 doc) in *.
  assert (Hle : (lb ≤ upper_bound N.ltb (all_ids_ fi) doc)%nat).
  { destruct (decide (lb ≤ upper_bound N.ltb (all_ids_ fi) doc)%nat); [done|].
    specialize (Hb _ _ Hat ltac:(lia)). lia. }
  assert (Hfound : l1 !! lb = Some doc).
  { destruct (l1 !! lb) as [e|] eqn:He.
    - f_equal. specialize (Ha _ _ He (le_n _)).
      pose proof (sorted_lookup_le l1 _ _ _ _ Hs1 He Hat Hle). lia.
    - apply lookup_ge_None in He. apply lookup_lt_Some in Hat. lia. }
  rewrite Hfound, N.eqb_refl. cbn [CHECK mbind Outcome_bind].
  eexists. split; [done|]. cbn [all_ids_].
  assert (Hl1 : l1 = take lb l1 ++ doc :: drop (S lb) l1).
  { by rewrite take_drop_middle. }
  apply (StronglySorted_unique N.le); [|done|].
  - rewrite Hl1 in Hs1. apply StronglySorted_app in Hs1 as (Hcross & Ht & Hd).
    apply StronglySorted_cons in Hd as [_ Hd].
    unfold erase_at. apply StronglySorted_app. split_and!; [|done|done].
    intros x1 x2 H1 H2. apply Hcross; [done|by right].
  - apply (Permutation_cons_inv (a := doc)). rewrite <- Hp1.
    unfold erase_at. rewrite Permutation_middle. by rewrite <- Hl1.
Qed.

End FieldIndicesMore.

(** An instance: 5 added to, and removed from, an index that holds 5
    already. *)
Lemma Add_then_Remove_witness :
  StronglySorted N.le
    (Search.all_ids_ (Search.Add Examples.keep_index 5%N tt
                        {| Search.schema_ := []; Search.all_ids_ := [2; 5; 9]%N;
                           Search.indices_ := ∅ |}))
  ∧ Search.all_ids_ (Search.Add Examples.keep_index 5%N tt
                       {| Search.schema_ := []; Search.all_ids_ := [2; 5; 9]%N;
                          Search.indices_ := ∅ |})
    ≡ₚ 5%N :: [2; 5; 9]%N
  ∧ ∃ fi', Search.Remove Examples.keep_index 5%N tt
             (Search.Add Examples.keep_index 5%N tt
                {| Search.schema_ := []; Search.all_ids_ := [2; 5; 9]%N;
                   Search.indices_ := ∅ |}) = Done fi'
           ∧ Search.all_ids_ fi' = [2; 5; 9]%N.
Proof.
  apply (Add_then_Remove Examples.keep_index Examples.keep_index
           {| Search.schema_ := []; Search.all_ids_ := [2; 5; 9]%N; Search.indices_ := ∅ |}
           5%N tt tt).
  repeat constructor; lia.
Defined.

Section FieldIndicesNew.
Import Search.
Local Open Scope N_scope.

Lemma FieldIndices_new_lookup (schema : Schema) (m : gmap string BaseIndex) :
  (∀ field, field ∉ fst <$> schema →
            foldl (fun m '(field_name, field_info) =>
                     <[field_name := empty_index (type field_info)]> m) m schema !! field
            = m !! field)
  ∧ (NoDup (fst <$> schema) →
     ∀ field info, (field, info) ∈ schema →
       foldl (fun m '(field_name, field_info) =>
                <[field_name := empty_index (type field_info)]> m) m schema !! field
       = Some (empty_index (type info)))
  ∧ ((∀ field i, m !! field = Some i → ∃ t, i = empty_index t) →
     ∀ field i,
       foldl (fun m '(field_name, field_info) =>
                <[field_name := empty_index (type field_info)]> m) m schema !! field
       = Some i → ∃ t, i = empty_index t).
Proof.
  revert m. induction schema as [|[f0 i0] schema IH]; intros m.
  { split_and!; [done| |done]. by intros _ field info ?%elem_of_nil. }
  destruct (IH (<[f0 := empty_index (type i0)]> m)) as (IHa & IHb & IHc).
  cbn [foldl fmap list_fmap fst]. split_and!.
  - intros field Hnot. apply not_elem_of_cons in Hnot as [Hne Hnot].
    rewrite IHa by done. by rewrite lookup_insert_ne.
  - intros Hnd field info Hin. apply NoDup_cons in Hnd as [Hf0 Hnd].
    apply elem_of_cons in Hin as [[= -> ->]|Hin].
    + rewrite IHa by done. by rewrite lookup_insert_eq.
    + by apply IHb.
  - intros Hm field i. apply IHc. intros field' i'.
    destruct (decide (field' = f0)) as [->|Hne].
    + rewrite lookup_insert_eq. intros [= <-]. eauto.
    + rewrite lookup_insert_ne by done. apply Hm.
Qed.

(** X8. The constructor gives every field of the schema (attribute names
    distinct) an index of the field's type and no other field an index,
    and leaves all_ids empty; the fresh [FieldIndices] is well-formed,
    [GetAllTextIndices] finds a text index for every TEXT field, so that
    its check passes in every build, and the query [*] returns the empty
    result. *)
Theorem FieldIndices_new_ok (schema : Schema) (debug_build : bool)
        (VectorDistance : FtVector → FtVector → float) :
  NoDup (fst <$> schema) →
  all_ids_ (FieldIndices_new schema) = []
  ∧ (∀ field info, (field, info) ∈ schema →
       GetIndex (FieldIndices_new schema) field = Some (empty_index (type info)))
  ∧ (∀ field, field ∉ fst <$> schema → GetIndex (FieldIndices_new schema) field = None)
  ∧ indices_ok (FieldIndices_new schema)
  ∧ Forall (fun index => is_Some index) (text_indices (FieldIndices_new schema))
  ∧ GetAllTextIndices debug_build (FieldIndices_new schema)
    = Done (text_indices (FieldIndices_new schema))
  ∧ Search debug_build VectorDistance (FieldIndices_new schema) AstStarNode
    = Done {| ids := []; knn_distances := [] |}.
Proof.
  intros Hnd.
  destruct (FieldIndices_new_lookup schema ∅) as (Ha & Hb & Hc).
  assert (Hget : ∀ field info, (field, info) ∈ schema →
            GetIndex (FieldIndices_new schema) field = Some (empty_index (type info))).
  { intros field info Hin. by apply Hb. }
  assert (Hsome : Forall (fun index => is_Some index)
                         (text_indices (FieldIndices_new schema))).
  { apply Forall_forall.
    intros index (field & info & Hin & Hty & ->)%elem_of_text_indices.
    rewrite (Hget field info Hin), Hty. by eexists. }
  split_and!; [done|done| | |done| |].
  - intros field Hnot. unfold GetIndex, FieldIndices_new. cbn [indices_].
    by rewrite Ha.
  - split; [constructor|]. intros field i Hi.
    destruct (Hc ltac:(by intros ? ? ?%lookup_empty_Some) field i Hi) as [t ->].
    destruct t; simpl; try done.
    split; [constructor|by intros d ?%elem_of_nil].
  - by apply GetAllTextIndices_text_indices.
  - unfold Search. rewrite SearchGeneric_unfold. simpl. by destruct debug_build.
Qed.

End FieldIndicesNew.

(** An instance: the schema of the three documents. *)
Lemma FieldIndices_new_ok_witness :
  Search.indices_ok (Search.FieldIndices_new (Search.schema_ Examples.three_docs))
  ∧ Search.GetAllTextIndices true
      (Search.FieldIndices_new (Search.schema_ Examples.three_docs))
    = Done (Search.text_indices
              (Search.FieldIndices_new (Search.schema_ Examples.three_docs)))
  ∧ Search.Search true Examples.euclidean
      (Search.FieldIndices_new (Search.schema_ Examples.three_docs)) Search.AstStarNode
    = Done {| Search.ids := []; Search.knn_distances := [] |}.
Proof.
  destruct (FieldIndices_new_ok (Search.schema_ Examples.three_docs) true Examples.euclidean)
    as (_ & _ & _ & Hok & _ & Htext & Hstar).
  - apply (bool_decide_unpack (NoDup (fst <$> Search.schema_ Examples.three_docs))).
    vm_compute. exact I.
  - by split_and!.
Defined.

(** ** [sorted_map.cc]: the skiplist variant *)
Section RdImplFacts.
Import SortedMap FloatOrder.
Local Open Scope Z_scope.

Local Abbreviation zlt := (fun x y : float * string => zsl_lt x y = true).

Lemma eqb_refl_not_nan x : PrimFloat.is_nan x = false → PrimFloat.eqb x x = true.
Proof. intros Hx. apply eqb_iff_not_ltb; [done..|]. by rewrite ltb_irrefl. Qed.

Lemma eqb_sym_not_nan x y :
  PrimFloat.is_nan x = false → PrimFloat.is_nan y = false →
  PrimFloat.eqb x y = true → PrimFloat.eqb y x = true.
Proof.
  intros Hx Hy [H1 H2]%eqb_iff_not_ltb; [|done..]. by apply eqb_iff_not_ltb.
Qed.

Lemma ltb_leb x y : PrimFloat.ltb x y = true → PrimFloat.leb x y = true.
Proof.
  intros H. destruct (ltb_true_not_nan x y H) as [Hx Hy].
  rewrite leb_not_ltb by done. by rewrite (ltb_asym x y H).
Qed.

Lemma zsl_lt_score_member x y :
  zsl_lt x y = true ↔ score_member_lt (node_obj x) (node_obj y).
Proof.
  unfold zsl_lt, score_member_lt. simpl.
  rewrite orb_true_iff, andb_true_iff, Z.ltb_lt. done.
Qed.

Lemma zsl_lt_trans x y z :
  PrimFloat.is_nan (fst x) = false → PrimFloat.is_nan (fst y) = false →
  PrimFloat.is_nan (fst z) = false →
  zsl_lt x y = true → zsl_lt y z = true → zsl_lt x z = true.
Proof.
  rewrite !zsl_lt_score_member. intros. by eapply (score_member_lt_trans _ (node_obj y)).
Qed.

Lemma zsl_lt_total x y :
  PrimFloat.is_nan (fst x) = false → PrimFloat.is_nan (fst y) = false →
  snd x ≠ snd y → zsl_lt x y = false → zsl_lt y x = true.
Proof.
  intros Hx Hy Hne. unfold zsl_lt.
  intros [Hlt H]%orb_false_iff. apply orb_true_iff.
  destruct (PrimFloat.ltb (fst y) (fst x)) eqn:Hgt; [by left|right].
  assert (PrimFloat.eqb (fst x) (fst y) = true) as Heq by (by apply eqb_iff_not_ltb).
  rewrite Heq in H. simpl in H. apply Z.ltb_ge in H.
  rewrite (eqb_sym_not_nan _ _ Hx Hy Heq). simpl. apply Z.ltb_lt.
  rewrite sdscmp_antisym.
  assert (sdscmp (snd x) (snd y) ≠ 0) by (by rewrite sdscmp_eq). lia.
Qed.

Lemma zslInsert_perm l s e : zslInsert l s e ≡ₚ (s, e) :: l.
Proof.
  induction l as [|x l IH]; [done|]. simpl.
  destruct (zsl_lt x (s, e)); [|done]. rewrite IH. apply Permutation_swap.
Qed.

Lemma zslInsert_sorted l s e :
  StronglySorted zlt l →
  (∀ x, x ∈ l → PrimFloat.is_nan (fst x) = false) →
  PrimFloat.is_nan s = false →
  (∀ x, x ∈ l → snd x ≠ e) →
  StronglySorted zlt (zslInsert l s e).
Proof.
  induction 1 as [|x l Hl IH Hx]; intros Hnan Hs Hne; simpl.
  { repeat constructor. }
  rewrite Forall_forall in Hx.
  destruct (zsl_lt x (s, e)) eqn:Hlt.
  - constructor.
    + apply IH; [intros; apply Hnan; by right|done|intros; apply Hne; by right].
    + apply Forall_forall. intros y Hy. rewrite zslInsert_perm in Hy.
      apply elem_of_cons in Hy as [->|Hy]; [done|by apply Hx].
  - assert (zsl_lt (s, e) x = true) as Hgt.
    { apply zsl_lt_total; simpl; [by apply Hnan; left|done| |done].
      apply Hne. by left. }
    constructor; [by constructor; [|apply Forall_forall]|].
    constructor; [done|]. apply Forall_forall. intros y Hy.
    apply (zsl_lt_trans _ x); simpl; [done| | |done|by apply Hx].
    + apply Hnan. by left.
    + apply Hnan. by right.
Qed.

Lemma zslDelete_found l cur e :
  NoDup (snd <$> l) → (cur, e) ∈ l → PrimFloat.is_nan cur = false →
  ∃ l1 l2, l = l1 ++ (cur, e) :: l2 ∧ zslDelete l cur e = (l1 ++ l2, true).
Proof.
  induction l as [|x l IH]; intros Hnd Hin Hcur; [by apply elem_of_nil in Hin|].
  cbn [fmap list_fmap] in Hnd. apply NoDup_cons in Hnd as [Hx Hnd]. simpl.
  destruct (PrimFloat.eqb (fst x) cur && (sdscmp (snd x) e =? 0)) eqn:Htest.
  - apply andb_true_iff in Htest as [_ Hs%Z.eqb_eq%sdscmp_eq].
    apply elem_of_cons in Hin as [<-|Hin]; [by exists [], l|].
    destruct Hx. rewrite Hs. apply list_elem_of_fmap. by exists (cur, e).
  - apply elem_of_cons in Hin as [<-|Hin].
    + simpl in Htest. rewrite (eqb_refl_not_nan _ Hcur) in Htest.
      by rewrite (proj2 (sdscmp_eq e e) eq_refl) in Htest.
    + destruct (IH Hnd Hin Hcur) as (l1 & l2 & -> & ->). by exists (x :: l1), l2.
Qed.

Lemma zslDelete_zslInsert l s e :
  (∀ x, x ∈ l → snd x ≠ e) → PrimFloat.is_nan s = false →
  zslDelete (zslInsert l s e) s e = (l, true).
Proof.
  intros Hne Hs. induction l as [|x l IH]; simpl.
  { rewrite (eqb_refl_not_nan _ Hs). by rewrite (proj2 (sdscmp_eq e e) eq_refl). }
  destruct (zsl_lt x (s, e)); simpl.
  - assert (sdscmp (snd x) e =? 0 = false) as ->.
    { apply Z.eqb_neq. rewrite sdscmp_eq. apply Hne. by left. }
    rewrite andb_false_r, IH; [done|]. intros; apply Hne; by right.
  - rewrite (eqb_refl_not_nan _ Hs). by rewrite (proj2 (sdscmp_eq e e) eq_refl).
Qed.

Lemma RdImpl_ok_absent z e :
  RdImpl_ok z → dict z !! e = None → ∀ x, x ∈ zsl z → snd x ≠ e.
Proof.
  intros [(_ & _ & Hd) _] He [s m] Hin Hm. simpl in Hm. subst m.
  apply Hd in Hin. by rewrite He in Hin.
Qed.

Lemma RdImpl_ok_insert z s e :
  RdImpl_ok z → dict z !! e = None → PrimFloat.is_nan s = false →
  RdImpl_ok {| dict := <[e := s]> (dict z); zsl := zslInsert (zsl z) s e |}.
Proof.
  intros Hok He Hs. pose proof (RdImpl_ok_absent z e Hok He) as Hne.
  destruct Hok as [(Hsorted & Hnd & Hd) Hnan].
  split; [split_and!|]; cbn [dict zsl].
  - apply zslInsert_sorted; try done. intros [s' m] Hin. by apply (Hnan s' m).
  - rewrite zslInsert_perm. cbn [fmap list_fmap]. apply NoDup_cons. split; [|done].
    intros ([s' m] & Hm & Hin)%list_elem_of_fmap. by apply (Hne _ Hin).
  - intros m s'. rewrite zslInsert_perm, elem_of_cons.
    destruct (decide (m = e)) as [->|Hme].
    + rewrite lookup_insert_eq. split.
      * intros [= ->]. by left.
      * intros [[= ->]|Hin]; [done|]. by destruct (Hne _ Hin).
    + rewrite lookup_insert_ne by done. rewrite Hd. split; [by right|].
      intros [[= _ ->]|Hin]; done.
  - intros s' m. rewrite zslInsert_perm. intros [[= -> ->]|Hin]%elem_of_cons; [done|].
    by apply (Hnan s' m).
Qed.

Lemma RdImpl_ok_delete z cur e :
  RdImpl_ok z → dict z !! e = Some cur →
  (zslDelete (zsl z) cur e).2 = true
  ∧ RdImpl_ok {| dict := delete e (dict z); zsl := (zslDelete (zsl z) cur e).1 |}.
Proof.
  intros [(Hsorted & Hnd & Hd) Hnan] He.
  pose proof (proj1 (Hd e cur) He) as Hin.
  destruct (zslDelete_found (zsl z) cur e Hnd Hin (Hnan _ _ Hin)) as (l1 & l2 & Hl & ->).
  split; [done|]. cbn [fst].
  rewrite Hl in Hsorted, Hnd, Hd, Hnan.
  apply StronglySorted_app in Hsorted as (Hcross & H1 & H2).
  apply StronglySorted_cons in H2 as [_ H2].
  rewrite fmap_app, fmap_cons in Hnd. cbn [snd] in Hnd.
  apply NoDup_app in Hnd as (Hn1 & Hn12 & Hn2). apply NoDup_cons in Hn2 as [Hn2e Hn2].
  split; [split_and!|]; cbn [dict zsl].
  - apply StronglySorted_app. split_and!; [|done|done].
    intros x1 x2 Hx1 Hx2. apply Hcross; [done|by right].
  - rewrite fmap_app. apply NoDup_app. split_and!; [done| |done].
    intros m Hm1 Hm2. apply (Hn12 m Hm1). by right.
  - intros m s. destruct (decide (m = e)) as [->|Hme].
    + rewrite lookup_delete_eq. split; [done|].
      intros [Hin'|Hin']%elem_of_app.
      * destruct (Hn12 e); [|left]. apply list_elem_of_fmap. by exists (s, e).
      * destruct Hn2e. apply list_elem_of_fmap. by exists (s, e).
    + rewrite lookup_delete_ne by done. rewrite Hd, !elem_of_app, elem_of_cons.
      split; [intros [?|[[= _ ->]|?]]; tauto|tauto].
  - intros s m Hin'. apply (Hnan s m). rewrite elem_of_app, elem_of_cons.
    apply elem_of_app in Hin'. tauto.
Qed.

End RdImplFacts.

Section RdImplOps.
Import SortedMap FloatOrder.
Local Open Scope Z_scope.

(** X9. [RdImpl::Add] with a score that is not NaN keeps the invariant of
    the skiplist variant (nodes ascending by score, then member; members
    distinct; the dictionary holding exactly the nodes; no NaN score)
    whatever the flags, never fails, touches no other member, stores a
    score equal to the one it reports through [newscore], leaves the set
    as it was when it reports none, and returns 0 exactly with the NAN
    flag. *)
Theorem RdImpl_Add_keeps_invariant (z : RdImpl) (score : double) (ele : sds)
        (in_flags : Z) :
  RdImpl_ok z →
  PrimFloat.is_nan score = false →
  ∃ res z', RdImpl_Add score ele in_flags z = Done (res, z')
    ∧ RdImpl_ok z'
    ∧ (∀ m, m ≠ ele → RdImpl_GetScore m z' = RdImpl_GetScore m z)
    ∧ (∀ s, newscore res = Some s →
            ∃ s', RdImpl_GetScore ele z' = Some s' ∧ PrimFloat.eqb s' s = true)
    ∧ (newscore res = None → z' = z)
    ∧ (ret res = 0 ↔ out_flags res = ZADD_OUT_NAN).
Proof.
  intros Hok Hscore. unfold RdImpl_Add, RdImpl_GetScore.
  destruct (dict z !! ele) as [cur|] eqn:He.
  - assert (Hcur : PrimFloat.is_nan cur = false).
    { destruct Hok as [(_ & _ & Hd) Hnan]. apply (Hnan cur ele). by apply Hd. }
    destruct (has_flag in_flags ZADD_IN_NX).
    { eexists _, _. split_and!; try done; by intros s [=]. }
    set (score' := if has_flag in_flags ZADD_IN_INCR then (score + cur)%float else score).
    destruct (has_flag in_flags ZADD_IN_INCR && PrimFloat.is_nan score') eqn:Hnan.
    { eexists _, _. split_and!; try done; by intros s [=]. }
    assert (Hscore' : PrimFloat.is_nan score' = false).
    { subst score'. destruct (has_flag in_flags ZADD_IN_INCR); [done|done]. }
    destruct ((has_flag in_flags ZADD_IN_LT && PrimFloat.leb cur score')
              || (has_flag in_flags ZADD_IN_GT && PrimFloat.leb score' cur)).
    { eexists _, _. split_and!; try done; by intros s [=]. }
    destruct (PrimFloat.eqb score' cur) eqn:Heq; cbn [negb].
    + eexists _, _. split_and!; try done.
      intros s [= <-]. exists cur. rewrite He. split; [done|].
      by apply eqb_sym_not_nan.
    + destruct (RdImpl_ok_delete z cur ele Hok He) as [_ Hdel].
      pose proof (RdImpl_ok_insert _ score' ele Hdel) as Hins.
      cbn [dict zsl] in Hins. rewrite lookup_delete_eq in Hins.
      specialize (Hins eq_refl Hscore'). rewrite insert_delete_eq in Hins.
      eexists _, _. split_and!; try done; cbn [dict newscore].
      * intros m Hm. by rewrite lookup_insert_ne.
      * intros s [= <-]. exists score'. rewrite lookup_insert_eq.
        split; [done|by apply eqb_refl_not_nan].
  - destruct (has_flag in_flags ZADD_IN_XX); cbn [negb].
    { eexists _, _. split_and!; try done; by intros s [=]. }
    eexists _, _. split_and!; try done; cbn [dict newscore].
    + by apply RdImpl_ok_insert.
    + intros m Hm. by rewrite lookup_insert_ne.
    + intros s [= <-]. exists score. rewrite lookup_insert_eq.
      split; [done|by apply eqb_refl_not_nan].
Qed.

(** X10. [RdImpl::Delete] on a set that satisfies the invariant never
    fails: it tells whether the member was present, keeps the invariant,
    leaves the member without score and every other member with its
    score, and leaves the set as it was when the member was absent. *)
Theorem RdImpl_Delete_spec (debug_build : bool) (z : RdImpl) (member : sds) :
  RdImpl_ok z →
  ∃ z', RdImpl_Delete debug_build member z
        = Done (z', bool_decide (is_Some (RdImpl_GetScore member z)))
    ∧ RdImpl_ok z'
    ∧ RdImpl_GetScore member z' = None
    ∧ (∀ m, m ≠ member → RdImpl_GetScore m z' = RdImpl_GetScore m z)
    ∧ (RdImpl_GetScore member z = None → z' = z).
Proof.
  intros Hok. unfold RdImpl_Delete, RdImpl_GetScore.
  destruct (dict z !! member) as [cur|] eqn:He.
  - destruct (RdImpl_ok_delete z cur member Hok He) as [Hfound Hdel].
    destruct (zslDelete (zsl z) cur member) as [l' found]. cbn [fst snd] in *.
    subst found. exists {| dict := delete member (dict z); zsl := l' |}.
    split_and!; try done; cbn [dict].
    + by destruct debug_build.
    + by rewrite lookup_delete_eq.
    + intros m Hm. by rewrite lookup_delete_ne.
  - exists z. by split_and!.
Qed.

(** X11. Adding a member that the set does not hold (XX clear, score not
    NaN) reports ADDED, and deleting it right after gives back exactly
    the set there was. *)
Theorem RdImpl_Add_then_Delete (debug_build : bool) (z : RdImpl) (score : double)
        (ele : sds) (in_flags : Z) :
  RdImpl_ok z →
  RdImpl_GetScore ele z = None →
  PrimFloat.is_nan score = false →
  has_flag in_flags ZADD_IN_XX = false →
  ∃ z1, RdImpl_Add score ele in_flags z
        = Done ({| ret := 1; out_flags := ZADD_OUT_ADDED; newscore := Some score |}, z1)
    ∧ RdImpl_GetScore ele z1 = Some score
    ∧ RdImpl_Delete debug_build ele z1 = Done (z, true).
Proof.
  intros Hok He Hscore Hxx. unfold RdImpl_Add, RdImpl_GetScore in *.
  rewrite He, Hxx. cbn [negb]. eexists. split; [done|]. cbn [dict].
  rewrite lookup_insert_eq. split; [done|].
  unfold RdImpl_Delete. cbn [dict zsl]. rewrite lookup_insert_eq.
  rewrite (zslDelete_zslInsert _ _ _ (RdImpl_ok_absent z ele Hok He) Hscore).
  rewrite delete_insert_eq, delete_id by done.
  destruct z. by destruct debug_build.
Qed.

(** X12. On a member that is present [RdImpl::Add] never lowers the score
    when GT is set and never raises it when LT is set, whatever the other
    flags and the score handed in. *)
Theorem RdImpl_Add_gt_lt (z : RdImpl) (score cur : double) (ele : sds) (in_flags : Z) :
  RdImpl_GetScore ele z = Some cur →
  ∃ res z' s', RdImpl_Add score ele in_flags z = Done (res, z')
    ∧ RdImpl_GetScore ele z' = Some s'
    ∧ (has_flag in_flags ZADD_IN_GT = true → PrimFloat.ltb s' cur = false)
    ∧ (has_flag in_flags ZADD_IN_LT = true → PrimFloat.ltb cur s' = false).
Proof.
  intros He. unfold RdImpl_Add, RdImpl_GetScore in *. rewrite He.
  assert (Hsame : PrimFloat.ltb cur cur = false) by apply ltb_irrefl.
  destruct (has_flag in_flags ZADD_IN_NX).
  { by eexists _, _, _. }
  set (score' := if has_flag in_flags ZADD_IN_INCR then (score + cur)%float else score).
  destruct (has_flag in_flags ZADD_IN_INCR && PrimFloat.is_nan score').
  { by eexists _, _, _. }
  destruct ((has_flag in_flags ZADD_IN_LT && PrimFloat.leb cur score')
            || (has_flag in_flags ZADD_IN_GT && PrimFloat.leb score' cur)) eqn:Hcond.
  { by eexists _, _, _. }
  apply orb_false_iff in Hcond as [Hlt Hgt].
  destruct (PrimFloat.eqb score' cur); cbn [negb].
  { by eexists _, _, _. }
  eexists _, _, score'. split; [done|]. cbn [dict]. rewrite lookup_insert_eq.
  split_and!; [done| |].
  - intros Hg. rewrite Hg in Hgt. simpl in Hgt.
    destruct (PrimFloat.ltb score' cur) eqn:H; [|done].
    apply ltb_leb in H. congruence.
  - intros Hl. rewrite Hl in Hlt. simpl in Hlt.
    destruct (PrimFloat.ltb cur score') eqn:H; [|done].
    apply ltb_leb in H. congruence.
Qed.

Lemma zslGetRank_position l s e i :
  NoDup (snd <$> l) → PrimFloat.is_nan s = false → l !! i = Some (s, e) →
  zslGetRank l s e = (N.of_nat i + 1)%N.
Proof.
  revert i. induction l as [|x l IH]; intros i Hnd Hs Hi; [done|].
  cbn [fmap list_fmap] in Hnd. apply NoDup_cons in Hnd as [Hx Hnd].
  destruct i as [|i]; simpl in *.
  - injection Hi as ->. simpl. rewrite (eqb_refl_not_nan _ Hs).
    by rewrite (proj2 (sdscmp_eq e e) eq_refl).
  - assert (sdscmp (snd x) e =? 0 = false) as ->.
    { apply Z.eqb_neq. rewrite sdscmp_eq. intros Heq. apply Hx. rewrite Heq.
      apply list_elem_of_fmap. exists (s, e). split; [done|].
      by eapply list_elem_of_lookup_2. }
    rewrite andb_false_r, (IH i) by done.
    destruct (N.of_nat i + 1)%N eqn:Hn; lia.
Qed.

(** X13. On a set that satisfies the invariant and holds fewer than 2^32
    elements, [RdImpl::GetRank] of the member at position [i] of the
    ascending order is [i], its reverse rank is [length - 1 - i], and a
    member that is absent has no rank. *)
Theorem RdImpl_GetRank_position (debug_build : bool) (z : RdImpl) (s : double)
        (ele other : sds) (i : nat) (reverse : bool) :
  RdImpl_ok z →
  (N.of_nat (length (zsl z)) < unsigned_max)%N →
  zsl z !! i = Some (s, ele) →
  RdImpl_GetRank debug_build ele false z = Done (Some (N.of_nat i))
  ∧ RdImpl_GetRank debug_build ele true z
    = Done (Some (N.of_nat (length (zsl z) - 1 - i)))
  ∧ (RdImpl_GetScore other z = None →
     RdImpl_GetRank debug_build other reverse z = Done None).
Proof.
  intros [(Hsorted & Hnd & Hd) Hnan] Hlen Hi. unfold RdImpl_GetRank, RdImpl_GetScore.
  assert (Hin : (s, ele) ∈ zsl z) by (by eapply list_elem_of_lookup_2).
  rewrite (proj2 (Hd ele s) Hin).
  rewrite (zslGetRank_position _ _ _ _ Hnd (Hnan _ _ Hin) Hi).
  apply lookup_lt_Some in Hi. unfold unsigned_sub, unsigned_max in *.
  change (2 ^ 32)%N with 4294967296%N in *.
  assert ((N.of_nat i + 1) mod 4294967296 = N.of_nat i + 1)%N as Hmod
    by (apply N.mod_small; lia).
  rewrite !Hmod.
  assert ((N.of_nat i + 1 =? 0)%N = false) as -> by (apply N.eqb_neq; lia).
  replace (DCHECK debug_build (negb false)) with (Done tt) by (by destruct debug_build).
  cbn [mbind Outcome_bind]. split_and!.
  - do 2 f_equal. change (1 mod 4294967296)%N with 1%N.
    replace (N.of_nat i + 1 + 4294967296 - 1)%N
      with (N.of_nat i + 1 * 4294967296)%N by lia.
    rewrite N.Div0.mod_add. apply N.mod_small. lia.
  - do 2 f_equal.
    replace (N.of_nat (length (zsl z)) + 4294967296 - (N.of_nat i + 1))%N
      with (N.of_nat (length (zsl z) - 1 - i) + 1 * 4294967296)%N by lia.
    rewrite N.Div0.mod_add. apply N.mod_small. lia.
  - by intros ->.
Qed.

End RdImplOps.

Section RdImplInstances.
Import SortedMap Examples.
Local Open Scope Z_scope.

Lemma rd_ab_ok : RdImpl_ok rd_ab.
Proof.
  split; [split_and!|].
  - repeat constructor.
  - simpl. repeat constructor; set_solver.
  - intros m s. unfold rd_ab. simpl.
    rewrite !elem_of_cons, elem_of_nil.
    destruct (decide (m = "a")) as [->|Ha].
    { rewrite lookup_insert_eq. split; [intros [= <-]; auto|].
      intros [[= -> ]|[[= ? ?]|[]]]; done. }
    rewrite lookup_insert_ne by done.
    destruct (decide (m = "b")) as [->|Hb].
    { rewrite lookup_insert_eq. split; [intros [= <-]; auto|].
      intros [[= ? ?]|[[= ->]|[]]]; done. }
    rewrite lookup_insert_ne by done. rewrite lookup_empty.
    split; [done|]. intros [[= ? ?]|[[= ? ?]|[]]]; done.
  - intros s m. unfold rd_ab. simpl.
    rewrite !elem_of_cons, elem_of_nil.
    intros [[= -> ->]|[[= -> ->]|[]]]; done.
Qed.

(** An instance: ("c", 3) added to the set of ("a", 1.5) and ("b", 2). *)
Lemma RdImpl_Add_keeps_invariant_witness :
  ∃ res z', RdImpl_Add 3 "c" 0 rd_ab = Done (res, z')
    ∧ RdImpl_ok z'
    ∧ (∀ m, m ≠ "c" → RdImpl_GetScore m z' = RdImpl_GetScore m rd_ab)
    ∧ (∀ s, newscore res = Some s →
            ∃ s', RdImpl_GetScore "c" z' = Some s' ∧ PrimFloat.eqb s' s = true)
    ∧ (newscore res = None → z' = rd_ab)
    ∧ (ret res = 0 ↔ out_flags res = ZADD_OUT_NAN).
Proof. exact (RdImpl_Add_keeps_invariant rd_ab 3 "c" 0 rd_ab_ok eq_refl). Defined.

(** An instance: "a" deleted from the same set. *)
Lemma RdImpl_Delete_spec_witness :
  ∃ z', RdImpl_Delete true "a" rd_ab
        = Done (z', bool_decide (is_Some (RdImpl_GetScore "a" rd_ab)))
    ∧ RdImpl_ok z'
    ∧ RdImpl_GetScore "a" z' = None
    ∧ (∀ m, m ≠ "a" → RdImpl_GetScore m z' = RdImpl_GetScore m rd_ab)
    ∧ (RdImpl_GetScore "a" rd_ab = None → z' = rd_ab).
Proof. exact (RdImpl_Delete_spec true rd_ab "a" rd_ab_ok). Defined.

(** An instance: ("c", 3) added and deleted again. *)
Lemma RdImpl_Add_then_Delete_witness :
  ∃ z1, RdImpl_Add 3 "c" ZADD_IN_NX rd_ab
        = Done ({| ret := 1; out_flags := ZADD_OUT_ADDED; newscore := Some 3%float |}, z1)
    ∧ RdImpl_GetScore "c" z1 = Some 3%float
    ∧ RdImpl_Delete true "c" z1 = Done (rd_ab, true).
Proof.
  exact (RdImpl_Add_then_Delete true rd_ab 3 "c" ZADD_IN_NX rd_ab_ok eq_refl eq_refl eq_refl).
Defined.

(** An instance: "b", held with score 2, given 1 under GT. *)
Lemma RdImpl_Add_gt_lt_witness :
  ∃ res z' s', RdImpl_Add 1 "b" ZADD_IN_GT rd_ab = Done (res, z')
    ∧ RdImpl_GetScore "b" z' = Some s'
    ∧ (has_flag ZADD_IN_GT ZADD_IN_GT = true → PrimFloat.ltb s' 2 = false)
    ∧ (has_flag ZADD_IN_GT ZADD_IN_LT = true → PrimFloat.ltb 2 s' = false).
Proof. exact (RdImpl_Add_gt_lt rd_ab 1 2 "b" ZADD_IN_GT eq_refl). Defined.

(** An instance: "b" is the second of two elements. *)
Lemma RdImpl_GetRank_position_witness :
  RdImpl_GetRank true "b" false rd_ab = Done (Some (N.of_nat 1))
  ∧ RdImpl_GetRank true "b" true rd_ab
    = Done (Some (N.of_nat (length (zsl rd_ab) - 1 - 1)))
  ∧ (RdImpl_GetScore "zz" rd_ab = None →
     RdImpl_GetRank true "zz" true rd_ab = Done None).
Proof.
  exact (RdImpl_GetRank_position true rd_ab 2 "b" "zz" 1 true rd_ab_ok eq_refl eq_refl).
Defined.

End RdImplInstances.

(** ** [sorted_map.cc]: the bound keys of the B+tree variant and [Count] *)
Section BoundKeys.
Import SortedMap FloatOrder.
Local Open Scope Z_scope.

Lemma land_pow2_small a n : 0 ≤ n → 0 ≤ a < 2 ^ n → Z.land a (2 ^ n) = 0.
Proof.
  intros Hn Ha. apply Z.bits_inj'. intros i Hi.
  rewrite Z.land_spec, Z.bits_0, Z.pow2_bits_eqb by done.
  destruct (Z.eqb_spec n i) as [<-|]; [|by rewrite andb_false_r].
  rewrite andb_true_r. apply Z.testbit_false; [done|].
  by rewrite Z.div_small.
Qed.

Lemma land_mask_small a : 0 ≤ a < 2 ^ 60 → Z.land a kSdsMask = a.
Proof.
  intros Ha. change kSdsMask with (Z.ones 60).
  rewrite Z.land_ones by done. by apply Z.mod_small.
Qed.

Lemma pointer_untagged a :
  0 ≤ a < 2 ^ 60 →
  Z.land a kSdsMask = a ∧ Z.land a kIgnoreDoubleTag = 0 ∧ Z.land a kInfTag = 0.
Proof.
  intros Ha. split_and!.
  - by apply land_mask_small.
  - change kIgnoreDoubleTag with (2 ^ 62). apply land_pow2_small; lia.
  - change kInfTag with (2 ^ 63). apply land_pow2_small; lia.
Qed.

Lemma pointer_inf_tagged a :
  0 ≤ a < 2 ^ 60 →
  Z.land (Z.lor a kInfTag) kSdsMask = a
  ∧ Z.land (Z.lor a kInfTag) kIgnoreDoubleTag = 0
  ∧ Z.land (Z.lor a kInfTag) kInfTag = kInfTag.
Proof.
  intros Ha. destruct (pointer_untagged a Ha) as (H1 & H2 & H3).
  rewrite !Z.land_lor_distr_l, H1, H2, H3.
  change (Z.land kInfTag kSdsMask) with 0.
  change (Z.land kInfTag kIgnoreDoubleTag) with 0.
  change (Z.land kInfTag kInfTag) with kInfTag.
  by rewrite !Z.lor_0_r.
Qed.

Lemma tree_ptr_tree_key mem k o : tree_ptr mem k o → tree_key mem k o.
Proof.
  intros (Hk & Hm & Hn). destruct (pointer_untagged k Hk) as (H1 & H2 & H3).
  unfold tree_key. by rewrite H1.
Qed.

Lemma sdscmp_empty_l s : sdscmp "" s ≤ 0.
Proof. by destruct s. Qed.

(** How a bound key compares with a record of the tree. *)
Lemma bound_key_compare mem s is_str_inf buf k o :
  0 ≤ buf + 1 < 2 ^ 60 → k ≠ buf + 1 → tree_ptr mem k o →
  KeyCompareTo (BuilScoredKey mem s is_str_inf buf).1
               (BuilScoredKey mem s is_str_inf buf).2 k
  = Done (if PrimFloat.ltb s (obj_score o) then -1
          else if PrimFloat.ltb (obj_score o) s then 1
          else if is_str_inf then 1 else sdscmp "" (obj_str o)).
Proof.
  intros Hbuf Hne (Hk & Hm & Hn). unfold BuilScoredKey. cbn [fst snd].
  destruct (pointer_untagged k Hk) as (K1 & K2 & K3).
  unfold KeyCompareTo, GetObjScore, GetObjStr. rewrite K1, K2, K3.
  destruct is_str_inf.
  - destruct (pointer_inf_tagged (buf + 1) Hbuf) as (H1 & H2 & H3).
    rewrite H1, H2, H3. rewrite lookup_insert_eq, lookup_insert_ne by done.
    rewrite Hm. simpl.
    by destruct (PrimFloat.ltb s (obj_score o)), (PrimFloat.ltb (obj_score o) s).
  - destruct (pointer_untagged (buf + 1) Hbuf) as (H1 & H2 & H3).
    rewrite H1, H2, H3. rewrite lookup_insert_eq, lookup_insert_ne by done.
    rewrite Hm. simpl.
    by destruct (PrimFloat.ltb s (obj_score o)), (PrimFloat.ltb (obj_score o) s).
Qed.

Lemma bound_key_not_after mem s is_str_inf buf k o :
  0 ≤ buf + 1 < 2 ^ 60 → k ≠ buf + 1 → tree_ptr mem k o →
  PrimFloat.is_nan s = false →
  key_not_after (BuilScoredKey mem s is_str_inf buf).1
                (BuilScoredKey mem s is_str_inf buf).2 k
  = if is_str_inf then PrimFloat.ltb s (obj_score o) else PrimFloat.leb s (obj_score o).
Proof.
  intros Hbuf Hne Hptr Hs. unfold key_not_after.
  rewrite (bound_key_compare mem s is_str_inf buf k o Hbuf Hne Hptr).
  destruct Hptr as (_ & _ & Hn).
  rewrite (leb_not_ltb s (obj_score o) Hs Hn).
  destruct (PrimFloat.ltb s (obj_score o)) eqn:Hlt.
  - rewrite (ltb_asym _ _ Hlt). by destruct is_str_inf.
  - destruct (PrimFloat.ltb (obj_score o) s); [by destruct is_str_inf|].
    destruct is_str_inf; [done|]. simpl. apply Z.leb_le, sdscmp_empty_l.
Qed.

(** X14. A bound key that [BuilScoredKey] builds in a buffer within the
    60 pointer bits, for a score [s] that is not NaN, compares with a
    record of the tree by score first; on equal scores it comes after the
    record when tagged as infinite and not after it otherwise.  So the
    tagged key is at or before exactly the records with a score above
    [s], the untagged one exactly those with a score of at least [s]. *)
Theorem bound_key_order (mem : Memory) (s : double) (is_str_inf : bool) (buf : Z)
        (k : ScoreSds) (o : ScoreObj) :
  0 ≤ buf + 1 < 2 ^ 60 → k ≠ buf + 1 → tree_ptr mem k o →
  PrimFloat.is_nan s = false →
  KeyCompareTo (BuilScoredKey mem s is_str_inf buf).1
               (BuilScoredKey mem s is_str_inf buf).2 k
  = Done (if PrimFloat.ltb s (obj_score o) then -1
          else if PrimFloat.ltb (obj_score o) s then 1
          else if is_str_inf then 1 else sdscmp "" (obj_str o))
  ∧ key_not_after (BuilScoredKey mem s is_str_inf buf).1
                  (BuilScoredKey mem s is_str_inf buf).2 k
    = (if is_str_inf then PrimFloat.ltb s (obj_score o)
       else PrimFloat.leb s (obj_score o)).
Proof.
  intros. split; [by apply bound_key_compare|by apply bound_key_not_after].
Qed.

End BoundKeys.

Section CountFacts.
Import SortedMap FloatOrder.
Local Open Scope Z_scope.
Context {ScoreMap ScoreTree : Type} `{!ScoreContainers ScoreMap ScoreTree}
        `{!ScoreQueries ScoreTree}.

Lemma StronglySorted_lookup {A} (R : relation A) (l : list A) i j a b :
  StronglySorted R l → l !! i = Some a → l !! j = Some b → (i < j)%nat → R a b.
Proof.
  intros Hs. revert i j. induction Hs as [|x l Hl IH Hx]; intros i j Hi Hj Hij.
  { by rewrite lookup_nil in Hi. }
  destruct j as [|j]; [lia|]. simpl in Hj. destruct i as [|i]; simpl in Hi.
  - injection Hi as ->. rewrite Forall_forall in Hx. apply Hx.
    by eapply list_elem_of_lookup_2.
  - apply (IH i j); [done..|lia].
Qed.

(** The elements that pass two tests, one of which holds from a position
    on and the other up to a position. *)
Lemma filter_window {A} (P Q : A → bool) (l : list A) (i1 i2 : nat) :
  (i2 ≤ length l)%nat →
  (∀ j x, l !! j = Some x → P x = true ↔ (i1 ≤ j)%nat) →
  (∀ j x, l !! j = Some x → Q x = true ↔ (j < i2)%nat) →
  length (filter (fun x => P x && Q x = true) l) = (i2 - i1)%nat.
Proof.
  revert i1 i2. induction l as [|x l IH]; intros i1 i2 Hlen HP HQ.
  { simpl in *. lia. }
  simpl in Hlen.
  pose proof (HP 0%nat x eq_refl) as HPx. pose proof (HQ 0%nat x eq_refl) as HQx.
  specialize (IH (Nat.pred i1) (Nat.pred i2) ltac:(lia)).
  assert (IH' : length (filter (fun x => P x && Q x = true) l)
                = (Nat.pred i2 - Nat.pred i1)%nat).
  { apply IH.
    - intros j y Hj. rewrite (HP (S j) y Hj). lia.
    - intros j y Hj. rewrite (HQ (S j) y Hj). lia. }
  rewrite filter_cons.
  destruct (decide (P x && Q x = true)) as [[HP1 HQ1]%andb_true_iff|Hn]; simpl;
    rewrite IH'.
  - apply HPx in HP1. apply HQx in HQ1. lia.
  - destruct (P x) eqn:HP1, (Q x) eqn:HQ1; try done.
    + assert (¬ (0 < i2)%nat) by (rewrite <- HQx; done). lia.
    + assert (¬ (i1 ≤ 0)%nat) by (rewrite <- HPx; done). lia.
    + assert (¬ (0 < i2)%nat) by (rewrite <- HQx; done). lia.
Qed.

(** The position from which a test that is closed upwards holds, and
    what [list_find] of the matching test on the keys gives. *)
Lemma find_threshold (ks : list Z) (os : list ScoreObj) (P : Z → bool)
      (p : ScoreObj → bool) :
  Forall2 (fun k o => P k = p o) ks os →
  (∀ i j a b, os !! i = Some a → os !! j = Some b → (i ≤ j)%nat →
              p a = true → p b = true) →
  ∃ i1, (i1 ≤ length os)%nat
        ∧ (∀ j x, os !! j = Some x → p x = true ↔ (i1 ≤ j)%nat)
        ∧ match list_find (fun k => P k = true) ks with
          | Some (i, k) => i = i1 ∧ ks !! i = Some k ∧ (i < length os)%nat
          | None => i1 = length os
          end.
Proof.
  intros Hko Hmono. pose proof (Forall2_length _ _ _ Hko) as Hlen.
  destruct (list_find (fun k => P k = true) ks) as [[i k]|] eqn:Hfind.
  - apply list_find_Some in Hfind as (Hi & HPk & Hbefore).
    destruct (Forall2_lookup_l _ _ _ _ _ Hko Hi) as (o & Ho & Hpo).
    exists i. split_and!; try done.
    + apply lookup_lt_Some in Ho. lia.
    + intros j x Hj. split.
      * intros Hpx. destruct (decide (i ≤ j)%nat); [done|].
        destruct (Forall2_lookup_r _ _ _ _ _ Hko Hj) as (k' & Hk' & Hpk').
        destruct (Hbefore j k' Hk' ltac:(lia)). by rewrite Hpk'.
      * intros Hij. apply (Hmono i j o x Ho Hj Hij). by rewrite <- Hpo.
    + by apply lookup_lt_Some in Ho.
  - apply list_find_None in Hfind. exists (length os). split_and!; try done.
    intros j x Hj. split.
    + intros Hpx.
      destruct (Forall2_lookup_r _ _ _ _ _ Hko Hj) as (k' & Hk' & Hpk').
      rewrite Forall_forall in Hfind. destruct (Hfind k').
      * by eapply list_elem_of_lookup_2.
      * by rewrite Hpk'.
    + intros Hge. apply lookup_lt_Some in Hj. lia.
Qed.

(** X15. [DfImpl::Count] counts the elements whose score lies in the
    range.  The tree holds the records [os] under the keys [ks], ascending
    by score, fewer than 2^32 of them; [GEQ] gives the first key that the
    comparator does not put before its argument, with its rank; the local
    buffer lies within the pointer bits and apart from the records; the
    bounds are not NaN and [min <= max]. *)
Theorem DfImpl_Count_correct (debug_build : bool) (z : DfImpl ScoreMap ScoreTree)
        (range : zrangespec) (buf : Z) (ks : list Z) (os : list ScoreObj) :
  Forall2 (tree_ptr (memory z)) ks os →
  StronglySorted (fun a b => PrimFloat.leb (obj_score a) (obj_score b) = true) os →
  tree_Size (score_tree z) = N.of_nat (length ks) →
  (N.of_nat (length ks) < unsigned_max)%N →
  (∀ mem key, tree_GEQ (score_tree z) mem key = first_geq mem ks key) →
  0 ≤ buf + 1 < 2 ^ 60 →
  buf + 1 ∉ ks →
  PrimFloat.is_nan (min range) = false →
  PrimFloat.is_nan (max range) = false →
  PrimFloat.leb (min range) (max range) = true →
  DfImpl_Count debug_build range buf z
  = Done (N.of_nat (length (filter (fun o => in_range range (obj_score o) = true) os))).
Proof.
  intros Hko Hsorted Hsize Hsmall Hgeq Hbuf Hfresh Hmin Hmax Hle.
  pose proof (Forall2_length _ _ _ Hko) as Hlen.
  set (low := fun o : ScoreObj =>
         if minex range then PrimFloat.ltb (min range) (obj_score o)
         else PrimFloat.leb (min range) (obj_score o)).
  set (up := fun o : ScoreObj =>
         if maxex range then PrimFloat.ltb (obj_score o) (max range)
         else PrimFloat.leb (obj_score o) (max range)).
  assert (Hnan : ∀ j o, os !! j = Some o → PrimFloat.is_nan (obj_score o) = false).
  { intros j o Ho. destruct (Forall2_lookup_r _ _ _ _ _ Hko Ho) as (k & _ & _ & _ & ?).
    done. }
  assert (Hord : ∀ i j a b, os !! i = Some a → os !! j = Some b → (i ≤ j)%nat →
                            PrimFloat.ltb (obj_score b) (obj_score a) = false).
  { intros i j a b Ha Hb Hij. destruct (decide (i = j)) as [->|Hne].
    - rewrite Ha in Hb. injection Hb as ->. apply ltb_irrefl.
    - pose proof (StronglySorted_lookup _ _ _ _ _ _ Hsorted Ha Hb ltac:(lia)) as H.
      simpl in H. rewrite leb_not_ltb in H by eauto. by apply negb_true_iff in H. }
  assert (Hne : ∀ j k, ks !! j = Some k → k ≠ buf + 1).
  { intros j k Hk ->. apply Hfresh. by eapply list_elem_of_lookup_2. }
  set (mem1 := (BuilScoredKey (memory z) (min range) (minex range) buf).1).
  set (key1 := (BuilScoredKey (memory z) (min range) (minex range) buf).2).
  set (mem2 := (BuilScoredKey mem1 (max range) (negb (maxex range)) buf).1).
  set (key2 := (BuilScoredKey mem1 (max range) (negb (maxex range)) buf).2).
  assert (Hko1 : Forall2 (tree_ptr mem1) ks os).
  { apply Forall2_same_length_lookup. split; [done|]. intros j k o Hk Ho.
    destruct (Forall2_lookup_lr _ _ _ _ _ _ Hko Hk Ho) as (Hr & Hm & Hn').
    split_and!; [lia|lia| |done]. unfold mem1, BuilScoredKey. simpl.
    rewrite lookup_insert_ne; [done|]. intros Heq. by apply (Hne j k Hk). }
  assert (Hlow : Forall2 (fun k o => key_not_after mem1 key1 k = low o) ks os).
  { apply Forall2_same_length_lookup. split; [done|]. intros j k o Hk Ho.
    apply bound_key_not_after; try done; [by apply (Hne j)|].
    by apply (Forall2_lookup_lr _ _ _ _ _ _ Hko Hk Ho). }
  assert (Hhigh : Forall2 (fun k o => key_not_after mem2 key2 k = negb (up o)) ks os).
  { apply Forall2_same_length_lookup. split; [done|]. intros j k o Hk Ho.
    unfold mem2, key2. rewrite (bound_key_not_after mem1 _ _ _ k o); try done.
    - unfold up. pose proof (Hnan j o Ho) as Hn.
      destruct (maxex range); simpl.
      + by rewrite leb_not_ltb.
      + rewrite (leb_not_ltb (obj_score o)) by done. by rewrite negb_involutive.
    - by apply (Hne j).
    - by apply (Forall2_lookup_lr _ _ _ _ _ _ Hko1 Hk Ho). }
  destruct (find_threshold ks os _ low Hlow) as (i1 & Hi1 & Hlow1 & Hfind1).
  { intros i j a b Ha Hb Hij. unfold low.
    pose proof (Hord i j a b Ha Hb Hij) as Hba.
    pose proof (Hnan i a Ha) as Hna. pose proof (Hnan j b Hb) as Hnb.
    destruct (minex range).
    - intros Hlt. destruct (PrimFloat.ltb (min range) (obj_score b)) eqn:Hb'; [done|].
      by rewrite (not_ltb_trans (obj_score a) (obj_score b) (min range)) in Hlt.
    - rewrite !leb_not_ltb by done. intros Hlt%negb_true_iff.
      by rewrite (not_ltb_trans (min range) (obj_score a) (obj_score b)). }
  destruct (find_threshold ks os _ (fun o => negb (up o)) Hhigh)
    as (i2 & Hi2 & Hup2 & Hfind2).
  { intros i j a b Ha Hb Hij. unfold up.
    pose proof (Hord i j a b Ha Hb Hij) as Hba.
    pose proof (Hnan i a Ha) as Hna. pose proof (Hnan j b Hb) as Hnb.
    destruct (maxex range).
    - intros Hlt%negb_true_iff.
      by rewrite (not_ltb_trans (max range) (obj_score a) (obj_score b)).
    - rewrite !leb_not_ltb, !negb_involutive by done.
      intros Hlt. destruct (PrimFloat.ltb (max range) (obj_score b)) eqn:Hb'; [done|].
      by rewrite (not_ltb_trans (obj_score a) (obj_score b) (max range)) in Hlt. }
  assert (Hcount : length (filter (fun o => in_range range (obj_score o) = true) os)
                   = (i2 - i1)%nat).
  { apply (filter_window low up os i1 i2 Hi2); [done|].
    intros j x Hx. specialize (Hup2 j x Hx). destruct (up x); simpl in Hup2.
    - split; [|done]. intros _. destruct (decide (j < i2)%nat); [done|].
      assert (false = true); [|done]. apply Hup2. lia.
    - split; [done|]. intros Hj. assert (i2 ≤ j)%nat by (by apply Hup2). lia. }
  rewrite Hcount. clear Hcount.
  unfold DfImpl_Count. rewrite Hle.
  replace (DCHECK debug_build true) with (Done tt) by (by destruct debug_build).
  cbn [mbind Outcome_bind]. rewrite Hsize.
  unfold unsigned_max in Hsmall. change (2 ^ 32)%N with 4294967296%N in Hsmall.
  destruct (N.eqb_spec (N.of_nat (length ks)) 0) as [Hzero|Hnz].
  { do 2 f_equal. lia. }
  change (BuilScoredKey (memory z) (min range) (minex range) buf) with (mem1, key1).
  cbv beta iota. rewrite Hgeq. unfold first_geq.
  destruct (list_find (fun k => key_not_after mem1 key1 k = true) ks)
    as [[i k]|]; cbn [fmap option_fmap option_map fst snd].
  2:{ do 2 f_equal. lia. }
  destruct Hfind1 as (-> & Hk & Hlt).
  destruct (Forall2_lookup_l _ _ _ _ _ Hko1 Hk) as (o & Ho & Hptr).
  assert (Hcheck : (if debug_build then
                      s ← GetObjScore mem1 k;
                      CHECK (if minex range then PrimFloat.ltb (min range) s
                             else PrimFloat.leb (min range) s)
                    else Done tt) = Done tt).
  { destruct debug_build; [|done]. unfold GetObjScore.
    destruct Hptr as (_ & -> & _). simpl.
    assert (low o = true) as Hl by (by apply (Hlow1 i1 o Ho)).
    unfold low in Hl. by rewrite Hl. }
  rewrite Hcheck. cbn [mbind Outcome_bind].
  change (BuilScoredKey mem1 (max range) (negb (maxex range)) buf) with (mem2, key2).
  cbv beta iota. rewrite Hgeq. unfold first_geq.
  destruct (list_find (fun k => key_not_after mem2 key2 k = true) ks)
    as [[i' k']|]; cbn [fmap option_fmap option_map fst snd].
  2:{ subst i2. do 2 f_equal. unfold size_t_sub.
      change (2 ^ 64)%N with 18446744073709551616%N.
      rewrite (N.mod_small (N.of_nat i1)) by lia.
      replace (N.of_nat (length ks) + 18446744073709551616 - N.of_nat i1)%N
        with (N.of_nat (length os - i1) + 1 * 18446744073709551616)%N by lia.
      rewrite N.Div0.mod_add. apply N.mod_small. lia. }
  destruct Hfind2 as (-> & Hk' & Hlt').
  destruct (Forall2_lookup_l _ _ _ _ _ Hko1 Hk') as (o' & Ho' & Hptr').
  assert (Hbeyond : (if maxex range then Done true
                     else s ← GetObjScore mem2 k';
                          Done (PrimFloat.ltb (max range) s)) = Done true).
  { assert (negb (up o') = true) as Hu by (by apply (Hup2 i2 o' Ho')).
    unfold up in Hu. destruct (maxex range); [done|].
    unfold GetObjScore, mem2, BuilScoredKey. simpl.
    rewrite lookup_insert_ne by (intros Heq; by apply (Hne i2 k' Hk')).
    destruct Hptr' as (_ & -> & Hn'). simpl. f_equal.
    rewrite leb_not_ltb in Hu by done. by rewrite negb_involutive in Hu. }
  rewrite Hbeyond. cbn [mbind Outcome_bind].
  destruct (N.leb_spec (N.of_nat i2) (N.of_nat i1)) as [Hle21|Hgt21].
  { do 2 f_equal. lia. }
  unfold count_ranks, unsigned_max. change (2 ^ 32)%N with 4294967296%N.
  destruct (N.ltb_spec (N.of_nat i2 - 1) (N.of_nat i1)) as [?|_]; [lia|].
  do 2 f_equal. rewrite N.mod_small by lia. lia.
Qed.

End CountFacts.

Section CountInstances.
Import SortedMap Examples.
Local Open Scope Z_scope.

Lemma three_records_ptrs :
  Forall2 (tree_ptr three_records) [16; 32; 48] [rec_a; rec_b; rec_c].
Proof. repeat constructor; try lia; reflexivity. Qed.

(** An instance: the bound key of score 2, tagged as infinite, against the
    record ("b", 2). *)
Lemma bound_key_order_witness :
  KeyCompareTo (BuilScoredKey three_records 2 true 1000).1
               (BuilScoredKey three_records 2 true 1000).2 32
  = Done (if PrimFloat.ltb 2 (obj_score rec_b) then -1
          else if PrimFloat.ltb (obj_score rec_b) 2 then 1
          else if true then 1 else sdscmp "" (obj_str rec_b))
  ∧ key_not_after (BuilScoredKey three_records 2 true 1000).1
                  (BuilScoredKey three_records 2 true 1000).2 32
    = (if true then PrimFloat.ltb 2 (obj_score rec_b)
       else PrimFloat.leb 2 (obj_score rec_b)).
Proof.
  apply (bound_key_order three_records 2 true 1000 32 rec_b).
  - split; [lia|reflexivity].
  - lia.
  - repeat split; try lia; reflexivity.
  - reflexivity.
Defined.

(** An instance: two of the three scores 1, 2, 3 lie in [1.5, 3]. *)
Lemma DfImpl_Count_correct_witness :
  DfImpl_Count true range_15_3 1000 df_abc
  = Done (N.of_nat (length (filter (fun o => in_range range_15_3 (obj_score o) = true)
                                   [rec_a; rec_b; rec_c]))).
Proof.
  apply (DfImpl_Count_correct true df_abc range_15_3 1000 [16; 32; 48]).
  - apply three_records_ptrs.
  - repeat first [reflexivity | constructor].
  - reflexivity.
  - reflexivity.
  - intros mem key. reflexivity.
  - split; [lia|reflexivity].
  - intros H. repeat (apply elem_of_cons in H as [H|H]; [lia|]). by apply elem_of_nil in H.
  - reflexivity.
  - reflexivity.
  - reflexivity.
Defined.

Example DfImpl_Count_example : DfImpl_Count true range_15_3 1000 df_abc = Done 2%N.
Proof. reflexivity. Qed.

End CountInstances.

(** ** [sorted_map.cc]: [FromListPack] on any listpack *)
Section FromListPackFacts.
Import SortedMap.
Local Open Scope Z_scope.
Context {ScoreMap ScoreTree : Type} `{!ScoreContainers ScoreMap ScoreTree}.
Context (debug_build : bool).
Context (zzlGetScore : lp_entry → double) (sdsfromlonglong : Z → sds).

Local Abbreviation lp_nodes := (SortedMap.lp_nodes zzlGetScore sdsfromlonglong).
Local Abbreviation loop :=
  (FromListPack_loop (ScoreMap := ScoreMap) (ScoreTree := ScoreTree)
                     debug_build zzlGetScore sdsfromlonglong).

Lemma pair_induction {A} (P : list A → Prop) :
  P [] → (∀ x, P [x]) → (∀ x y l, P l → P (x :: y :: l)) → ∀ l, P l.
Proof.
  intros H0 H1 H2 l. assert (P l ∧ ∀ x, P (x :: l)) as [? _]; [|done].
  induction l as [|y l [IH1 IH2]]; [by split|]. split; [apply IH2|].
  intros x. by apply H2.
Qed.

(** A listpack that [FromListPack] accepts on top of a dictionary [D]:
    an even number of entries, members distinct and not in [D]. *)
Local Abbreviation accepted := (fun (zl : listpack) (D : gmap string float) =>
  Nat.Even (length zl) ∧ NoDup (snd <$> lp_nodes zl)
  ∧ ∀ y, y ∈ lp_nodes zl → D !! snd y = None).

Lemma FromListPack_loop_accepts zl :
  ∀ z0, accepted zl (dict z0) →
        ∃ l, loop zl (Rd z0) = Done (Rd {| dict := foldl dict_insert (dict z0) (lp_nodes zl);
                                           zsl := l |})
             ∧ l ≡ₚ lp_nodes zl ++ zsl z0.
Proof.
  induction zl as [|x|eptr sptr rest IH] using pair_induction; intros z0 (Hev & Hnd & Hd).
  - exists (zsl z0). split; [by destruct z0|done].
  - destruct Hev as [n Hn]. simpl in Hn. lia.
  - cbn [SortedMap.lp_nodes fmap list_fmap snd] in Hnd, Hd.
    apply NoDup_cons in Hnd as [Hm Hnd].
    cbn [FromListPack_loop Insert RdImpl_Insert].
    change (match eptr with
            | LpStr vstr => vstr
            | LpInt vlong => sdsfromlonglong vlong
            end) with (entry_sds sdsfromlonglong eptr).
    assert (Hnone : dict z0 !! entry_sds sdsfromlonglong eptr = None).
    { apply (Hd (zzlGetScore sptr, entry_sds sdsfromlonglong eptr)). left. }
    unfold RdImpl_Insert. rewrite Hnone.
    cbn [mbind Outcome_bind CHECK].
    destruct (IH {| dict := <[entry_sds sdsfromlonglong eptr := zzlGetScore sptr]> (dict z0);
                    zsl := zslInsert (zsl z0) (zzlGetScore sptr)
                                     (entry_sds sdsfromlonglong eptr) |})
      as (l & Hl & Hperm).
    { cbn [dict]. split_and!; [|done|].
      - destruct Hev as [n Hn]. simpl in Hn. exists (n - 1)%nat. lia.
      - intros y Hy. rewrite lookup_insert_ne; [apply Hd; by right|].
        intros Heq. apply Hm. rewrite Heq. apply list_elem_of_fmap. by exists y. }
    exists l. split; [done|]. cbn [zsl] in Hperm.
    rewrite Hperm, zslInsert_perm. cbn [SortedMap.lp_nodes app].
    by rewrite <- Permutation_middle.
Qed.

Lemma FromListPack_loop_rejects zl :
  ∀ z0, ¬ accepted zl (dict z0) → loop zl (Rd z0) = Fatal "Check failed".
Proof.
  induction zl as [|x|eptr sptr rest IH] using pair_induction; intros z0 Hbad.
  - destruct Hbad. split_and!; [by exists 0%nat|constructor|by intros y ?%elem_of_nil].
  - done.
  - cbn [FromListPack_loop Insert RdImpl_Insert].
    change (match eptr with
            | LpStr vstr => vstr
            | LpInt vlong => sdsfromlonglong vlong
            end) with (entry_sds sdsfromlonglong eptr).
    unfold RdImpl_Insert.
    destruct (dict z0 !! entry_sds sdsfromlonglong eptr) as [s|] eqn:Hm; [done|].
    cbn [mbind Outcome_bind CHECK]. apply IH. cbn [dict].
    intros (Hev & Hnd & Hd). apply Hbad. split_and!.
    + destruct Hev as [n Hn]. exists (S n). simpl. lia.
    + cbn [SortedMap.lp_nodes fmap list_fmap snd]. apply NoDup_cons. split; [|done].
      intros (y & Hy & Hin)%list_elem_of_fmap.
      specialize (Hd y Hin). rewrite <- Hy, lookup_insert_eq in Hd. done.
    + cbn [SortedMap.lp_nodes]. intros y [->|Hy]%elem_of_cons; [done|].
      specialize (Hd y Hy).
      destruct (decide (snd y = entry_sds sdsfromlonglong eptr)) as [Heq|Hne].
      * by rewrite Heq, lookup_insert_eq in Hd.
      * by rewrite lookup_insert_ne in Hd.
Qed.

(** X16. With the flag use_zset_tree off, [FromListPack] returns a set
    exactly for a listpack with an even number of entries whose members
    are pairwise distinct: the set then holds each member with the score
    read from the entry behind it and one skiplist node per pair.  For
    any other listpack (a member without score entry, a member that
    occurs twice) the call aborts on a failed check. *)
Theorem FromListPack_accepts_iff (zl : listpack) :
  (Nat.Even (length zl) ∧ NoDup (snd <$> lp_nodes zl) →
   ∃ z, FromListPack (ScoreMap := ScoreMap) (ScoreTree := ScoreTree)
          debug_build false zzlGetScore sdsfromlonglong zl = Done (Rd z)
        ∧ (∀ m s, RdImpl_GetScore m z = Some s ↔ (s, m) ∈ lp_nodes zl)
        ∧ zsl z ≡ₚ lp_nodes zl)
  ∧ (¬ (Nat.Even (length zl) ∧ NoDup (snd <$> lp_nodes zl)) →
     FromListPack (ScoreMap := ScoreMap) (ScoreTree := ScoreTree)
       debug_build false zzlGetScore sdsfromlonglong zl = Fatal "Check failed").
Proof.
  unfold FromListPack, SortedMap_new. split.
  - intros [Hev Hnd].
    destruct (FromListPack_loop_accepts zl RdImpl_Init) as (l & Hl & Hperm).
    { by split_and!. }
    eexists. split; [exact Hl|]. cbn [dict zsl RdImpl_Init] in *.
    rewrite app_nil_r in Hperm. split; [|done].
    intros m s. unfold RdImpl_GetScore. cbn [dict].
    rewrite (foldl_dict_insert_lookup LpStr (fun _ => EmptyString) zzlGetScore
               (lp_nodes zl) ∅ m s Hnd) by (intros; apply lookup_empty).
    rewrite lookup_empty. naive_solver.
  - intros Hbad. apply FromListPack_loop_rejects. intros (Hev & Hnd & _). by apply Hbad.
Qed.

End FromListPackFacts.

(** Instances: the listpack of ("a", 1.5) and ("b", 2), and one that names
    "a" twice. *)
Lemma FromListPack_accepts_iff_witness :
  (∃ z, SortedMap.FromListPack (ScoreMap := gmap string Z) (ScoreTree := list Z)
          true false Examples.zzlGetScore_ex Examples.sdsfromlonglong_ex
          [SortedMap.LpStr "a"; SortedMap.LpStr "1.5"; SortedMap.LpStr "b"; SortedMap.LpStr "2"]
        = Done (SortedMap.Rd z)
        ∧ (∀ m s, SortedMap.RdImpl_GetScore m z = Some s ↔
                  (s, m) ∈ SortedMap.lp_nodes Examples.zzlGetScore_ex
                             Examples.sdsfromlonglong_ex
                             [SortedMap.LpStr "a"; SortedMap.LpStr "1.5";
                              SortedMap.LpStr "b"; SortedMap.LpStr "2"])
        ∧ SortedMap.zsl z ≡ₚ
            SortedMap.lp_nodes Examples.zzlGetScore_ex Examples.sdsfromlonglong_ex
              [SortedMap.LpStr "a"; SortedMap.LpStr "1.5";
               SortedMap.LpStr "b"; SortedMap.LpStr "2"])
  ∧ SortedMap.FromListPack (ScoreMap := gmap string Z) (ScoreTree := list Z)
      true false Examples.zzlGetScore_ex Examples.sdsfromlonglong_ex
      [SortedMap.LpStr "a"; SortedMap.LpStr "1.5"; SortedMap.LpStr "a"; SortedMap.LpStr "2"]
    = Fatal "Check failed".
Proof.
  split.
  - apply (FromListPack_accepts_iff (ScoreMap := gmap string Z) (ScoreTree := list Z)
             true Examples.zzlGetScore_ex Examples.sdsfromlonglong_ex).
    split; [by exists 2%nat|]. simpl. repeat constructor; set_solver.
  - apply (FromListPack_accepts_iff (ScoreMap := gmap string Z) (ScoreTree := list Z)
             true Examples.zzlGetScore_ex Examples.sdsfromlonglong_ex).
    intros [_ Hnd]. simpl in Hnd. apply NoDup_cons in Hnd as [Hnd _].
    apply Hnd. left.
Defined.

(** ** [sorted_map.cc]: [DfImpl::Add] and the flags GT and LT *)
Section DfImplAddFacts.
Import SortedMap.
Local Open Scope Z_scope.
Context {ScoreMap ScoreTree : Type} `{!ScoreContainers ScoreMap ScoreTree}.

(** X17. [DfImpl::Add] never consults GT or LT: two flag words that agree
    on INCR, NX and XX give the same outcome.  On a member that is
    present, with NX clear, a call that returns reports NAN with 0 or
    UPDATED with 1, never NOP, also when GT or LT is set and when the score
    stays what it was. *)
Theorem DfImpl_Add_ignores_gt_lt (debug_build : bool) (z : DfImpl ScoreMap ScoreTree)
        (score : double) (ele : sds) (in_flags in_flags' : Z) :
  has_flag in_flags ZADD_IN_INCR = has_flag in_flags' ZADD_IN_INCR →
  has_flag in_flags ZADD_IN_NX = has_flag in_flags' ZADD_IN_NX →
  has_flag in_flags ZADD_IN_XX = has_flag in_flags' ZADD_IN_XX →
  DfImpl_Add debug_build score ele in_flags z = DfImpl_Add debug_build score ele in_flags' z
  ∧ ∀ obj res z',
      FindObj (score_map z) (memory z) ele = Some obj →
      has_flag in_flags ZADD_IN_NX = false →
      DfImpl_Add debug_build score ele in_flags z = Done (res, z') →
      (ret res = 0 ∧ out_flags res = ZADD_OUT_NAN)
      ∨ (ret res = 1 ∧ out_flags res = ZADD_OUT_UPDATED).
Proof.
  intros Hincr Hnx Hxx. split.
  { unfold DfImpl_Add. by rewrite Hincr, Hnx, Hxx. }
  intros obj res z' Hobj Hnx0. unfold DfImpl_Add. rewrite Hobj, Hnx0.
  intros ([] & _ & H)%bind_Done.
  apply bind_Done in H as (score' & _ & H).
  destruct (has_flag in_flags ZADD_IN_INCR && PrimFloat.is_nan score').
  { injection H as <- <-. by left. }
  destruct (tree_Delete (score_tree z) (memory z) obj) as [tree' deleted].
  apply bind_Done in H as ([] & _ & H).
  apply bind_Done in H as (mem' & _ & H).
  destruct (tree_Insert tree' mem' obj) as [tree'' inserted].
  apply bind_Done in H as ([] & _ & [= <- <-]). by right.
Qed.

End DfImplAddFacts.

Section DfImplAddInstances.
Import SortedMap Examples.
Local Open Scope Z_scope.

(** An instance: "b", held with score 2, given 1 under GT. *)
Lemma DfImpl_Add_ignores_gt_lt_witness :
  DfImpl_Add true 1 "b" ZADD_IN_GT df_abc = DfImpl_Add true 1 "b" 0 df_abc
  ∧ ∀ obj res z',
      FindObj (score_map df_abc) (memory df_abc) "b" = Some obj →
      has_flag ZADD_IN_GT ZADD_IN_NX = false →
      DfImpl_Add true 1 "b" ZADD_IN_GT df_abc = Done (res, z') →
      (ret res = 0 ∧ out_flags res = ZADD_OUT_NAN)
      ∨ (ret res = 1 ∧ out_flags res = ZADD_OUT_UPDATED).
Proof.
  exact (DfImpl_Add_ignores_gt_lt true df_abc 1 "b" ZADD_IN_GT 0 eq_refl eq_refl eq_refl).
Defined.

(** The two variants on that call: the skiplist variant keeps the score,
    the B+tree variant lowers it. *)
Example Add_gt_variants_differ :
  (∃ z', RdImpl_Add 1 "b" ZADD_IN_GT rd_ab
         = Done ({| ret := 1; out_flags := ZADD_OUT_NOP; newscore := None |}, z'))
  ∧ (∃ z', DfImpl_Add true 1 "b" ZADD_IN_GT df_abc
           = Done ({| ret := 1; out_flags := ZADD_OUT_UPDATED; newscore := Some 1%float |},
                   z')).
Proof. split; eexists; reflexivity. Qed.

End DfImplAddInstances.

(** ** [search_family.cc]: the replies *)
Section ReplyFacts.
Import SearchFamily.
Local Open Scope N_scope.

(** The loop of [ReplyWithResults]: skip [to_skip] documents, then send
    until [response_count] are out. *)
Lemma ReplyWithResults_loop_window response_count docs sent to_skip :
  sent ≤ response_count → response_count < size_max →
  ReplyWithResults_loop response_count docs sent to_skip
  = SendSerializedDoc <$> take (N.to_nat (response_count - sent))
                               (drop (N.to_nat to_skip) docs).
Proof.
  intros Hsent Hmax. revert sent to_skip Hsent.
  induction docs as [|doc docs IH]; intros sent to_skip Hsent; simpl.
  { by rewrite drop_nil, take_nil. }
  destruct (0 <? to_skip) eqn:Hskip.
  - apply N.ltb_lt in Hskip. rewrite IH by done.
    replace (N.to_nat to_skip) with (S (N.to_nat (to_skip - 1))) by lia. done.
  - apply N.ltb_ge in Hskip. replace (N.to_nat to_skip) with 0%nat by lia.
    rewrite drop_0. destruct (response_count <=? sent) eqn:Hfull.
    + apply N.leb_le in Hfull. by replace (N.to_nat (response_count - sent)) with 0%nat by lia.
    + apply N.leb_gt in Hfull.
      assert (Hadd : size_add sent 1 = sent + 1).
      { unfold size_add. apply N.mod_small. lia. }
      rewrite Hadd, IH by lia. replace (N.to_nat to_skip) with 0%nat by lia.
      rewrite drop_0.
      replace (N.to_nat (response_count - sent))
        with (S (N.to_nat (response_count - (sent + 1)))) by lia.
      done.
Qed.

(** X18. [ReplyWithResults] announces an array of 2 * response_count + 1
    entries and the total number of hits, and then sends the documents of
    all shards, in the order of the shards, without the first
    [limit_offset] and cut to [response_count], where response_count is
    min(total - min(total, limit_offset), limit_total): fewer than announced
    when the shards hold fewer documents than that. *)
Theorem ReplyWithResults_window (params : SearchParams) (results : list SearchResult) :
  let total_count := foldl (fun acc shard => size_add acc (total_hits shard)) 0 results in
  let response_count :=
    N.min (total_count - N.min total_count (limit_offset params)) (limit_total params) in
  let sent := take (N.to_nat response_count)
                   (drop (N.to_nat (limit_offset params)) (concat (docs <$> results))) in
  ReplyWithResults params results
  = [StartArray (size_add (size_mul response_count 2) 1); SendLong total_count]
    ++ (SendSerializedDoc <$> sent)
  ∧ N.of_nat (length sent)
    = N.min response_count
            (N.of_nat (length (concat (docs <$> results))) - limit_offset params).
Proof.
  intros total_count response_count sent.
  assert (Htotal : total_count < size_max).
  { unfold total_count. destruct results as [|r rs] using rev_ind; [done|].
    rewrite foldl_app. simpl. unfold size_add. by apply N.mod_lt. }
  assert (Hsub : size_sub total_count (N.min total_count (limit_offset params))
                 = total_count - N.min total_count (limit_offset params)).
  { unfold size_sub.
    replace (total_count + size_max - N.min total_count (limit_offset params))
      with (total_count - N.min total_count (limit_offset params) + 1 * size_max) by lia.
    rewrite N.Div0.mod_add. apply N.mod_small. lia. }
  split.
  - unfold ReplyWithResults. fold total_count. rewrite Hsub. fold response_count.
    rewrite ReplyWithResults_loop_window by (unfold response_count; lia).
    by rewrite N.sub_0_r.
  - unfold sent. rewrite length_take, length_drop. lia.
Qed.

Context (unspecified_order : list SerializedSearchDoc → list SerializedSearchDoc).
Context (unspecified_order_perm : ∀ l, unspecified_order l ≡ₚ l).

(** X19. Where the documents of the shards fill the window, that is
    min(limit_offset + limit_total, k) of them are there, limit_offset is
    at most k and no distance is NaN, [ReplyKnn] sends the documents from
    rank limit_offset up to rank min(limit_offset + limit_total, k) of an
    ordering of all documents by ascending distance, whatever
    [std::partial_sort] does with the others. *)
Theorem ReplyKnn_nearest_first (knn_limit : N) (params : SearchParams)
        (results : list SearchResult) :
  limit_offset params + limit_total params < size_max →
  N.of_nat (length (concat (docs <$> results))) < size_max →
  N.min (limit_offset params + limit_total params) knn_limit
  ≤ N.of_nat (length (concat (docs <$> results))) →
  limit_offset params ≤ knn_limit →
  Forall (fun d => PrimFloat.is_nan (knn_distance d) = false) (concat (docs <$> results)) →
  ∃ ranked,
    ranked ≡ₚ concat (docs <$> results)
    ∧ StronglySorted (fun a b => PrimFloat.leb (knn_distance a) (knn_distance b) = true) ranked
    ∧ ReplyKnn unspecified_order knn_limit params results
      = Done ([StartArray
                 (size_add (size_mul (N.min (limit_offset params + limit_total params)
                                            knn_limit - limit_offset params) 2) 1);
               SendLong (N.min (N.of_nat (length (concat (docs <$> results)))) knn_limit)]
              ++ (SendSerializedDoc <$>
                    drop (N.to_nat (limit_offset params))
                         (take (N.to_nat (N.min (limit_offset params + limit_total params)
                                                knn_limit)) ranked))).
Proof using unspecified_order_perm.
  intros Hsum Hfits Hmid Hoffk Hnan.
  exists (sort knn_lt (concat (docs <$> results))). split_and!.
  - apply sort_perm.
  - assert (Hnan' : Forall (fun d => PrimFloat.is_nan (knn_distance d) = false)
                           (sort knn_lt (concat (docs <$> results)))).
    { by rewrite sort_perm. }
    assert (Hss : StronglySorted (Search.not_after knn_lt) (sort knn_lt (concat (docs <$> results)))).
    { eapply Sorted_StronglySorted_on; [|exact Hnan'|].
      - intros a b c Ha Hb Hc. unfold Search.not_after, knn_lt.
        by apply FloatOrder.not_ltb_trans.
      - apply sort_sorted. intros a b. unfold knn_lt. apply FloatOrder.ltb_asym. }
    revert Hss Hnan'. generalize (sort knn_lt (concat (docs <$> results))).
    intros l. induction 1 as [|a l Hl IH Hhd]; intros Hn; [constructor|].
    apply Forall_cons in Hn as [Ha Hn]. constructor; [by apply IH|].
    rewrite Forall_forall in Hhd, Hn |- *. intros b Hb.
    specialize (Hhd b Hb). specialize (Hn b Hb). unfold Search.not_after, knn_lt in Hhd.
    by rewrite FloatOrder.leb_not_ltb, Hhd.
  - by apply ReplyKnn_in_range.
Qed.

End ReplyFacts.

(** An instance: two shards with one document each, the window of the
    first one. *)
Lemma ReplyKnn_nearest_first_witness :
  ∃ ranked,
    ranked ≡ₚ [Examples.doc_a; Examples.doc_b]
    ∧ StronglySorted (fun a b => PrimFloat.leb (SearchFamily.knn_distance a)
                                               (SearchFamily.knn_distance b) = true) ranked
    ∧ SearchFamily.ReplyKnn Examples.as_found 2
        {| SearchFamily.limit_offset := 0; SearchFamily.limit_total := 1;
           SearchFamily.knn_vector := [] |}
        [{| SearchFamily.docs := [Examples.doc_a]; SearchFamily.total_hits := 1 |};
         {| SearchFamily.docs := [Examples.doc_b]; SearchFamily.total_hits := 1 |}]
      = Done ([SearchFamily.StartArray 3; SearchFamily.SendLong 2]
              ++ (SearchFamily.SendSerializedDoc <$> drop 0 (take 1 ranked))).
Proof.
  apply (ReplyKnn_nearest_first Examples.as_found (fun l => reflexivity l) 2
           {| SearchFamily.limit_offset := 0; SearchFamily.limit_total := 1;
              SearchFamily.knn_vector := [] |}
           [{| SearchFamily.docs := [Examples.doc_a]; SearchFamily.total_hits := 1 |};
            {| SearchFamily.docs := [Examples.doc_b]; SearchFamily.total_hits := 1 |}]).
  - done.
  - done.
  - simpl. lia.
  - simpl. lia.
  - repeat constructor.
Defined.

(** ** [search_family.cc]: parsing the arguments of the commands *)
Section SchemaParser.
Import SearchFamily.
Context (json_path_ok : string → bool).

Lemma ArgS_in_range args i :
  (i < length args)%nat → ∃ s, ArgS args i = Done s ∧ s ∈ args.
Proof.
  intros H. destruct (lookup_lt_is_Some_2 args i H) as [s Hs].
  exists s. unfold ArgS. rewrite Hs. split; [done|]. by eapply list_elem_of_lookup_2.
Qed.

Lemma ArgS_at pre l i k : i = (length pre + k)%nat → ArgS (pre ++ l) i = ArgS l k.
Proof.
  intros ->. unfold ArgS. rewrite lookup_app_r by lia. do 2 f_equal. lia.
Qed.

(** Skipping ignored parameters reads within the arguments and stays
    within them. *)
Lemma skip_ignored_in_range fuel args i :
  ∃ j, skip_ignored fuel args i = Done j ∧ (i ≤ j)%nat.
Proof.
  revert i. induction fuel as [|fuel IH]; intros i; simpl; [eauto|].
  case_bool_decide as Hlt; [|eauto].
  destruct (ArgS_in_range args (i + 1)) as (s & -> & _); [lia|]. simpl.
  case_bool_decide; [|eauto].
  destruct (IH (i + 2)%nat) as (j & -> & Hle). exists j. split; [done|lia].
Qed.

Lemma ParseSchema_field_in_range type args i schema :
  (i < length args)%nat → schema_from json_path_ok type args schema →
  ∃ r, ParseSchema_field json_path_ok type args i schema = Done r
       ∧ match r with
         | inl error => schema_error json_path_ok type args error
         | inr (j, schema') => (i < j)%nat ∧ schema_from json_path_ok type args schema'
         end.
Proof.
  intros Hi Hschema. unfold ParseSchema_field.
  destruct (ArgS_in_range args i Hi) as (field & -> & Hfield). simpl.
  destruct (match type with JSON => negb (json_path_ok field) | HASH => false end) eqn:Hjson.
  { eexists. split; [done|]. left. exists field. destruct type; [done|].
    apply negb_true_iff in Hjson. done. }
  assert (Hok : type = JSON → json_path_ok field = true).
  { intros ->. by apply negb_false_iff in Hjson. }
  assert (∃ field_alias i',
            (if bool_decide (S (i + 1) < length args)%nat then
               as_arg ← ArgS args (S i);
               if String.eqb (AsciiStrToUpper as_arg) "AS" then
                 field_alias ← ArgS args (S (i + 1));
                 Done (field_alias, S (i + 2))
               else Done (field, S i)
             else Done (field, S i)) = Done (field_alias, i')
            ∧ field_alias ∈ args ∧ (S i ≤ i')%nat) as (field_alias & i' & -> & Halias & Hi').
  { case_bool_decide as Has; [|by eauto].
    destruct (ArgS_in_range args (S i)) as (as_arg & -> & _); [lia|]. simpl.
    destruct (String.eqb _ _); [|by eauto].
    destruct (ArgS_in_range args (S (i + 1))) as (field_alias & -> & Halias); [done|].
    simpl. exists field_alias, (S (i + 2)). split_and!; [done|done|lia]. }
  simpl. case_bool_decide as Hend.
  { eexists. split; [done|]. right. left. by exists field. }
  destruct (ArgS_in_range args i') as (type_arg & -> & Htype); [lia|]. simpl.
  destruct (kSchemaTypes_find (AsciiStrToUpper type_arg)) as [field_type|] eqn:Hfind.
  2:{ eexists. split; [done|]. right. right. by exists type_arg. }
  destruct (skip_ignored_in_range (length args) args
              (match field_type with Search.VECTOR => (i' + 2)%nat | _ => i' end))
    as (j & -> & Hj).
  simpl. eexists. split; [done|]. split.
  { destruct field_type; lia. }
  intros a f. destruct (decide (a = field_alias)) as [->|Hne].
  - rewrite lookup_insert_eq. intros [= <-]. simpl. split_and!; try done. by exists type_arg.
  - rewrite lookup_insert_ne by done. apply Hschema.
Qed.

Lemma ParseSchema_loop_in_range fuel type args i schema :
  schema_from json_path_ok type args schema →
  ∃ r, ParseSchema_loop json_path_ok fuel type args i schema = Done r
       ∧ match r with
         | inl error => schema_error json_path_ok type args error
         | inr schema' => schema_from json_path_ok type args schema'
         end.
Proof.
  revert i schema. induction fuel as [|fuel IH]; intros i schema Hschema; simpl; [by eauto|].
  case_bool_decide as Hi; [|by eauto].
  destruct (ParseSchema_field_in_range type args i schema Hi Hschema)
    as ([error|[j schema']] & -> & Hr); simpl; [by eauto|].
  apply IH, Hr.
Qed.

(** The rounds end before the fuel does. *)
Lemma ParseSchema_loop_fuel fuel fuel' type args i schema :
  schema_from json_path_ok type args schema →
  (length args ≤ i + fuel)%nat → (length args ≤ i + fuel')%nat →
  ParseSchema_loop json_path_ok fuel type args i schema
  = ParseSchema_loop json_path_ok fuel' type args i schema.
Proof.
  revert fuel' i schema. induction fuel as [|fuel IH]; intros fuel' i schema Hschema H1 H2.
  - destruct fuel'; simpl; [done|]. by rewrite bool_decide_eq_false_2 by lia.
  - destruct fuel'; simpl.
    { by rewrite bool_decide_eq_false_2 by lia. }
    case_bool_decide as Hi; [|done].
    destruct (ParseSchema_field_in_range type args i schema Hi Hschema)
      as ([error|[j schema']] & -> & Hr); simpl; [done|].
    apply IH; [apply Hr|lia..].
Qed.

(** X20. [ParseSchemaOrReply] never reads outside the arguments it is
    given.  It sends one of three errors, each about an argument: a field
    that is no JSON path (JSON indices only), a field without a type
    behind it, an argument in the place of the type that names none.
    Every field of a schema it returns has an argument as attribute name,
    an argument as identifier, the type an argument names, and under JSON
    an identifier that is a JSON path.  Its loop ends by itself: more
    rounds allowed change nothing. *)
Theorem ParseSchemaOrReply_in_range (type : DataType) (args : list string) :
  ∃ r, ParseSchemaOrReply json_path_ok type args = Done r
       ∧ match r with
         | inl error => schema_error json_path_ok type args error
         | inr schema => schema_from json_path_ok type args schema
         end
       ∧ ∀ fuel, (length args ≤ fuel)%nat →
                 ParseSchema_loop json_path_ok fuel type args 0 ∅ = Done r.
Proof.
  assert (Hempty : schema_from json_path_ok type args ∅) by (by intros a f H).
  destruct (ParseSchema_loop_in_range (length args) type args 0 ∅ Hempty) as (r & Hr & Hpost).
  exists r. split; [done|]. split; [done|]. intros fuel Hfuel.
  rewrite <- Hr. apply ParseSchema_loop_fuel; [done|lia..].
Qed.

End SchemaParser.

(** Reading the arguments behind a prefix. *)
Ltac read_args pre :=
  repeat match goal with
         | |- context [SearchFamily.ArgS (pre ++ ?l) ?i] =>
             first [ rewrite (ArgS_at pre l i 0) by lia
                   | rewrite (ArgS_at pre l i 1) by lia
                   | rewrite (ArgS_at pre l i 2) by lia
                   | rewrite (ArgS_at pre l i 3) by lia
                   | rewrite (ArgS_at pre l i 4) by lia
                   | rewrite (ArgS_at pre l i 5) by lia ]
         end.

Ltac prefix_of l tail :=
  lazymatch l with
  | tail => constr:(@nil string)
  | ?x :: ?l' => let p := prefix_of l' tail in constr:(x :: p)
  end.

Section SchemaGrammar.
Import SearchFamily.
Context (json_path_ok : string → bool).

Lemma length_option_args opts :
  length (concat (option_args <$> opts)) = (2 * length opts)%nat.
Proof.
  induction opts as [|o opts IH]; [done|].
  rewrite fmap_cons, concat_cons, length_app, IH. simpl. lia.
Qed.

(** The options of a field are skipped, and nothing behind them. *)
Lemma skip_ignored_options opts pre rest fuel i :
  S i = length pre →
  Forall (fun o => fst o ∈ kIgnoredOptions) opts →
  (∀ x, head rest = Some x → x ∉ kIgnoredOptions) →
  (length opts ≤ fuel)%nat →
  skip_ignored fuel (pre ++ concat (option_args <$> opts) ++ rest) i
  = Done (i + 2 * length opts)%nat.
Proof.
  revert pre fuel i. induction opts as [|[o v] opts IH]; intros pre fuel i Hi Hopts Hrest Hfuel.
  - simpl. rewrite Nat.add_0_r. destruct fuel; [done|]. simpl.
    case_bool_decide as Hlen; [|done].
    rewrite (ArgS_at pre rest _ 0) by lia.
    destruct rest as [|x rest]; [rewrite length_app in Hlen; simpl in Hlen; lia|].
    simpl. rewrite bool_decide_eq_false_2; [done|]. by apply Hrest.
  - apply Forall_cons in Hopts as [Ho Hopts]. destruct fuel; [simpl in Hfuel; lia|].
    rewrite fmap_cons, concat_cons, <- app_assoc. cbn [option_args fst snd app].
    specialize (IH (pre ++ [o; v]) fuel (i + 2)%nat).
    rewrite <- app_assoc in IH. cbn [app] in IH.
    remember (concat (option_args <$> opts) ++ rest) as tail eqn:Htail.
    simpl. rewrite bool_decide_eq_true_2 by (rewrite length_app; simpl; lia).
    rewrite (ArgS_at pre _ _ 0) by lia. simpl.
    rewrite bool_decide_eq_true_2 by done.
    rewrite IH; [f_equal; lia|rewrite length_app; simpl; lia|done|done|].
    simpl in Hfuel. lia.
Qed.

(** One round takes one declaration. *)
Lemma ParseSchema_field_decl type d ty pre rest schema :
  decl_ok json_path_ok type d ty →
  (∀ x, head rest = Some x → x ∉ kIgnoredOptions) →
  ParseSchema_field json_path_ok type (pre ++ decl_args d ++ rest) (length pre) schema
  = Done (inr ((length pre + length (decl_args d))%nat,
               <[decl_attribute d := {| Search.identifier := decl_identifier d;
                                        Search.type := ty |}]> schema)).
Proof.
  intros (Hid & Hjson & Has & Hty & Hvec & Hopts) Hrest.
  destruct d as [id alias tystr vec opts]. unfold decl_args, decl_attribute. simpl in *.
  assert (Hcheck : match type with JSON => negb (json_path_ok id) | HASH => false end = false).
  { destruct type; [done|]. by rewrite Hjson. }
  assert (Hnot : String.eqb (AsciiStrToUpper tystr) "AS" = false).
  { apply String.eqb_neq. intros E. by rewrite E in Hty. }
  pose proof (length_option_args opts) as Hlen.
  assert (Htail : length (concat (option_args <$> opts) ++ rest)
                  = (2 * length opts + length rest)%nat).
  { by rewrite length_app, Hlen. }
  destruct alias as [[kw a]|]; [specialize (Has kw a eq_refl)|];
    (destruct ty;
     [destruct vec as [|? ?]; [|done]..|destruct vec as [|v1 [|v2 [|? ?]]]; try done]);
    rewrite <- ?app_assoc; cbn [app];
    remember (concat (option_args <$> opts) ++ rest) as tail eqn:Etail;
    unfold ParseSchema_field; read_args pre; simpl; rewrite Hcheck;
    [rewrite bool_decide_eq_true_2 by (rewrite length_app; simpl; lia);
     rewrite Has; simpl..
    |case_bool_decide; [rewrite Hnot|]; simpl
    |case_bool_decide; [rewrite Hnot|]; simpl
    |case_bool_decide; [rewrite Hnot|]; simpl
    |case_bool_decide; [rewrite Hnot|]; simpl];
    rewrite bool_decide_eq_false_2 by (rewrite length_app; simpl; lia);
    read_args pre; simpl; rewrite Hty;
    match goal with
    | |- context [skip_ignored _ (pre ++ ?l) ?i] =>
        let p := prefix_of l tail in
        replace (pre ++ l) with ((pre ++ p) ++ tail) by (by rewrite <- app_assoc);
        rewrite Etail, (skip_ignored_options opts (pre ++ p) rest _ i);
        [|rewrite length_app; simpl; lia|done|done
         |rewrite <- Etail, !length_app, Htail; lia]
    end;
    simpl; rewrite Hlen; do 3 f_equal; lia.
Qed.

(** The loop takes the declarations one by one. *)
Lemma ParseSchema_loop_decls type (fields : list (FieldDecl * Search.FieldType))
      pre schema fuel :
  Forall (fun p => decl_ok json_path_ok type (fst p) (snd p)) fields →
  (length fields ≤ fuel)%nat →
  ParseSchema_loop json_path_ok fuel type
    (pre ++ concat (decl_args ∘ fst <$> fields)) (length pre) schema
  = Done (inr (foldl (fun schema p =>
                        <[decl_attribute (fst p) :=
                            {| Search.identifier := decl_identifier (fst p);
                               Search.type := snd p |}]> schema)
                     schema fields)).
Proof.
  revert pre schema fuel.
  induction fields as [|[d ty] fields IH]; intros pre schema fuel Hok Hfuel.
  - simpl. rewrite app_nil_r. destruct fuel; [done|]. simpl.
    by rewrite bool_decide_eq_false_2 by lia.
  - apply Forall_cons in Hok as [Hd Hok]. destruct fuel; [simpl in Hfuel; lia|].
    rewrite fmap_cons, concat_cons. cbn [ParseSchema_loop compose fst snd].
    rewrite bool_decide_eq_true_2.
    2:{ rewrite !length_app. unfold decl_args. simpl. lia. }
    rewrite (ParseSchema_field_decl type d ty); [|done|].
    2:{ destruct fields as [|[d' ty'] fields']; [done|].
        intros x [= <-]. apply Forall_cons in Hok as [Hd' _]. apply Hd'. }
    cbn [mbind Outcome_bind]. rewrite app_assoc, <- length_app.
    rewrite IH; [done|done|]. simpl in Hfuel. lia.
Qed.

(** X21. [ParseSchemaOrReply] takes every list of well-formed field
    declarations: identifier (no ignored option; a JSON path under JSON),
    optionally AS in any case and an attribute name, a type name in any
    case, for a vector the two arguments behind the type, then ignored
    options with their values.  The schema holds, under each attribute
    name (the identifier where there is no AS), the identifier and type of
    the last declaration with that name. *)
Theorem ParseSchemaOrReply_accepts (type : DataType)
        (fields : list (FieldDecl * Search.FieldType)) :
  Forall (fun p => decl_ok json_path_ok type (fst p) (snd p)) fields →
  ParseSchemaOrReply json_path_ok type (concat (decl_args ∘ fst <$> fields))
  = Done (inr (foldl (fun schema p =>
                        <[decl_attribute (fst p) :=
                            {| Search.identifier := decl_identifier (fst p);
                               Search.type := snd p |}]> schema)
                     ∅ fields)).
Proof.
  intros Hok. unfold ParseSchemaOrReply.
  apply (ParseSchema_loop_decls type fields [] ∅); [done|].
  clear Hok. induction fields as [|[d ty] fields IH]; [done|].
  rewrite fmap_cons, concat_cons, length_app. unfold decl_args at 1.
  cbn [compose fst length]. cbn [length] in IH |- *. lia.
Qed.

End SchemaGrammar.

Section SearchParamsParser.
Import SearchFamily.
Context (kSyntaxErr kInvalidIntErr : string).
Context (SimpleAtoi : string → option N) (BytesToFtVector : string → list float).

Local Abbreviation loop := (ParseSearchParams_loop kSyntaxErr kInvalidIntErr SimpleAtoi BytesToFtVector).
Local Abbreviation perror := (params_error kSyntaxErr kInvalidIntErr SimpleAtoi).
Local Abbreviation pfrom := (params_from SimpleAtoi BytesToFtVector).

Lemma ParseSearchParams_loop_in_range fuel args i params :
  pfrom args params →
  ∃ r, loop fuel args i params = Done r
       ∧ match r with
         | inl error => perror args error
         | inr params' => pfrom args params'
         end.
Proof.
  revert i params. induction fuel as [|fuel IH]; intros i params Hp; simpl; [by eauto|].
  case_bool_decide as Hi; [|by eauto].
  destruct (ArgS_in_range args i Hi) as (kw & -> & Hkw). simpl.
  destruct (String.eqb_spec (AsciiStrToUpper kw) "LIMIT") as [Hlimit|_].
  { case_bool_decide as Hend.
    { eexists. split; [done|]. left. split; [done|]. exists kw. auto. }
    destruct (ArgS_in_range args (i + 1)) as (offset_arg & -> & Hoff); [lia|]. simpl.
    destruct (ArgS_in_range args (i + 2)) as (total_arg & -> & Htot); [lia|]. simpl.
    destruct (SimpleAtoi offset_arg) as [offset|] eqn:Hoffset.
    2:{ eexists. split; [done|]. right. split; [done|]. by exists kw, offset_arg. }
    destruct (SimpleAtoi total_arg) as [total|] eqn:Htotal.
    2:{ eexists. split; [done|]. right. split; [done|]. by exists kw, total_arg. }
    apply IH. split; [|apply Hp]. right. by exists offset_arg, total_arg. }
  destruct (String.eqb_spec (AsciiStrToUpper kw) "PARAMS") as [Hparams|_].
  { case_bool_decide as Hend.
    { eexists. split; [done|]. left. split; [done|]. exists kw. auto. }
    destruct (ArgS_in_range args (i + 3)) as (vector_arg & -> & Hvec); [lia|]. simpl.
    apply IH. split; [apply Hp|]. right. by exists vector_arg. }
  by apply IH.
Qed.

Lemma ParseSearchParams_loop_fuel fuel fuel' args i params :
  (length args ≤ i + fuel)%nat → (length args ≤ i + fuel')%nat →
  loop fuel args i params = loop fuel' args i params.
Proof.
  revert fuel' i params. induction fuel as [|fuel IH]; intros fuel' i params H1 H2.
  - destruct fuel'; simpl; [done|]. by rewrite bool_decide_eq_false_2 by lia.
  - destruct fuel'; simpl.
    { by rewrite bool_decide_eq_false_2 by lia. }
    case_bool_decide as Hi; [|done].
    destruct (ArgS args i) as [kw| |]; simpl; [|done..].
    destruct (String.eqb _ _).
    { case_bool_decide; [done|].
      destruct (ArgS args (i + 1)) as [offset_arg| |]; simpl; [|done..].
      destruct (ArgS args (i + 2)) as [total_arg| |]; simpl; [|done..].
      destruct (SimpleAtoi offset_arg); [|done]. destruct (SimpleAtoi total_arg); [|done].
      apply IH; lia. }
    destruct (String.eqb _ _).
    { case_bool_decide; [done|].
      destruct (ArgS args (i + 3)) as [vector_arg| |]; simpl; [|done..].
      apply IH; lia. }
    apply IH; lia.
Qed.

(** X22. [ParseSearchParamsOrReply] never reads outside the arguments it
    is given.  It sends the syntax error only where an argument reads
    LIMIT or PARAMS, the integer error only where one reads LIMIT and an
    argument is no number.  The parameters it returns hold offset 0 and
    total 10 or the numbers two arguments denote, and no vector or the
    vector of an argument.  Its loop ends by itself: more rounds allowed
    change nothing. *)
Theorem ParseSearchParamsOrReply_in_range (args : list string) :
  ∃ r, ParseSearchParamsOrReply kSyntaxErr kInvalidIntErr SimpleAtoi BytesToFtVector args
       = Done r
       ∧ match r with
         | inl error => perror args error
         | inr params => pfrom args params
         end
       ∧ ∀ fuel, (length args ≤ fuel)%nat →
                 loop fuel args 0%nat
                      {| limit_offset := 0; limit_total := 10; knn_vector := [] |}
                 = Done r.
Proof.
  set (start := {| limit_offset := 0; limit_total := 10; knn_vector := [] |}).
  assert (Hstart : pfrom args start) by (split; by left).
  destruct (ParseSearchParams_loop_in_range (length args) args 0 start Hstart)
    as (r & Hr & Hpost).
  exists r. split; [done|]. split; [done|]. intros fuel Hfuel.
  rewrite <- Hr. apply ParseSearchParams_loop_fuel; lia.
Qed.

(** The loop takes the options one by one. *)
Lemma ParseSearchParams_loop_options opts pre params fuel :
  Forall (search_option_ok SimpleAtoi) opts →
  (length opts ≤ fuel)%nat →
  loop fuel (pre ++ concat (search_option_args <$> opts)) (length pre) params
  = Done (inr (foldl (search_option_apply BytesToFtVector) params opts)).
Proof.
  revert pre params fuel. induction opts as [|o opts IH]; intros pre params fuel Hok Hfuel.
  - simpl. rewrite app_nil_r. destruct fuel; [done|]. simpl.
    by rewrite bool_decide_eq_false_2 by lia.
  - apply Forall_cons in Hok as [Ho Hok]. destruct fuel; [simpl in Hfuel; lia|].
    rewrite fmap_cons, concat_cons.
    remember (concat (search_option_args <$> opts)) as tail eqn:Etail.
    assert (Hnext : ∀ n, n = length (search_option_args o) →
              loop fuel (pre ++ search_option_args o ++ tail) (length pre + n) 
                   (search_option_apply BytesToFtVector params o)
              = Done (inr (foldl (search_option_apply BytesToFtVector) params (o :: opts)))).
    { intros n ->. rewrite app_assoc, <- length_app, IH; [done|done|].
      simpl in Hfuel. lia. }
    destruct o as [kw offset_arg total_arg offset total|kw num name vector|arg];
      cbn [search_option_args app length] in *; cbn [ParseSearchParams_loop];
      rewrite bool_decide_eq_true_2 by (rewrite length_app; simpl; lia);
      read_args pre; simpl.
    + destruct Ho as (-> & Hoffset & Htotal). simpl.
      rewrite bool_decide_eq_false_2 by (rewrite length_app; simpl; lia).
      read_args pre. simpl. rewrite Hoffset, Htotal. by apply Hnext.
    + cbn [search_option_ok] in Ho. rewrite !Ho. simpl.
      rewrite bool_decide_eq_false_2 by (rewrite length_app; simpl; lia).
      read_args pre. simpl. by apply Hnext.
    + destruct Ho as [H1 H2].
      apply String.eqb_neq in H1, H2. rewrite H1, H2.
      replace (S (length pre)) with (length pre + 1)%nat by lia. by apply Hnext.
Qed.

(** X23. [ParseSearchParamsOrReply] takes every list of options of these
    kinds: LIMIT in any case with two numbers, PARAMS in any case with
    three arguments of which the third is the vector, and any argument
    that reads neither LIMIT nor PARAMS, which it skips.  The parameters
    are those of the last LIMIT and the last PARAMS, offset 0 and total 10
    without LIMIT, no vector without PARAMS. *)
Theorem ParseSearchParamsOrReply_accepts (opts : list SearchOption) :
  Forall (search_option_ok SimpleAtoi) opts →
  ParseSearchParamsOrReply kSyntaxErr kInvalidIntErr SimpleAtoi BytesToFtVector
    (concat (search_option_args <$> opts))
  = Done (inr (foldl (search_option_apply BytesToFtVector)
                     {| limit_offset := 0; limit_total := 10; knn_vector := [] |} opts)).
Proof.
  intros Hok. unfold ParseSearchParamsOrReply.
  apply (ParseSearchParams_loop_options opts [] _); [done|].
  clear Hok. induction opts as [|o opts IH]; [done|].
  rewrite fmap_cons, concat_cons, length_app.
  destruct o; cbn [search_option_args length] in *; lia.
Qed.

End SearchParamsParser.

Section CreateCommand.
Import SearchFamily.
Context (kSyntaxErr : string) (json_path_ok : string → bool) (default_type : DataType).

Local Abbreviation create_loop := (FtCreate_loop kSyntaxErr json_path_ok).
Local Abbreviation cerror := (create_error kSyntaxErr json_path_ok).
Local Abbreviation ifrom := (index_from json_path_ok).

Lemma schema_error_mono type (l l' : list string) error :
  l ⊆ l' → schema_error json_path_ok type l error → schema_error json_path_ok type l' error.
Proof.
  intros Hsub [(f & Hf & H)|[(f & Hf & H)|(t & Ht & H)]];
    [left|right; left|right; right]; eexists; (split; [by apply Hsub|done]).
Qed.

Lemma schema_from_mono type (l l' : list string) schema :
  l ⊆ l' → schema_from json_path_ok type l schema → schema_from json_path_ok type l' schema.
Proof.
  intros Hsub H a f Haf. destruct (H a f Haf) as (H1 & H2 & (t & Ht & H3) & H4).
  split_and!; [by apply Hsub|by apply Hsub| |done]. exists t. split; [by apply Hsub|done].
Qed.

Lemma FtCreate_loop_in_range fuel args i index :
  index_schema index = ∅ →
  index_prefix index = "" ∨ index_prefix index ∈ args →
  ∃ r, create_loop fuel args i index = Done r
       ∧ match r with
         | inl error => cerror args error
         | inr index' => ifrom args index'
         end.
Proof.
  assert (Hstop : ∀ index, index_schema index = ∅ →
            index_prefix index = "" ∨ index_prefix index ∈ args → ifrom args index).
  { intros idx Hs Hp. split; [done|]. rewrite Hs. by intros a f H. }
  revert i index. induction fuel as [|fuel IH]; intros i index Hs Hp; simpl.
  { eexists. split; [done|]. by apply Hstop. }
  case_bool_decide as Hi.
  2:{ eexists. split; [done|]. by apply Hstop. }
  destruct (ArgS_in_range args i Hi) as (kw & -> & Hkw). simpl.
  destruct (String.eqb (AsciiStrToUpper kw) "ON").
  { case_bool_decide as Hend.
    { eexists. split; [done|]. by left. }
    destruct (ArgS_in_range args (S i)) as (type_arg & -> & Htype); [lia|]. simpl.
    destruct (String.eqb (AsciiStrToUpper type_arg) "HASH"); [by apply IH|].
    destruct (String.eqb (AsciiStrToUpper type_arg) "JSON"); [by apply IH|].
    eexists. split; [done|]. right. left. by exists type_arg. }
  destruct (String.eqb (AsciiStrToUpper kw) "PREFIX").
  { case_bool_decide as Hend.
    { eexists. split; [done|]. by left. }
    destruct (ArgS_in_range args (i + 1)) as (count & -> & Hcount); [lia|]. simpl.
    destruct (negb (String.eqb count "1")).
    { eexists. split; [done|]. right. right. by left. }
    destruct (ArgS_in_range args (i + 2)) as (prefix & -> & Hprefix); [lia|]. simpl.
    apply IH; [done|by right]. }
  destruct (String.eqb (AsciiStrToUpper kw) "SCHEMA"); [|by apply IH].
  rewrite bool_decide_eq_false_2 by lia. unfold ParseSchemaOrReply.
  destruct (ParseSchema_loop_in_range json_path_ok (length (drop (S i) args))
              (index_type index) (drop (S i) args) 0 ∅)
    as ([error|schema] & -> & Hr); [by intros a f H|..]; simpl.
  - eexists. split; [done|]. right. right. right. exists (index_type index).
    eapply schema_error_mono; [apply subseteq_drop|done].
  - eexists. split; [done|]. split; [done|]. simpl.
    eapply schema_from_mono; [apply subseteq_drop|done].
Qed.

Lemma FtCreate_loop_fuel fuel fuel' args i index :
  (length args ≤ i + fuel)%nat → (length args ≤ i + fuel')%nat →
  create_loop fuel args i index = create_loop fuel' args i index.
Proof.
  revert fuel' i index. induction fuel as [|fuel IH]; intros fuel' i index H1 H2.
  - destruct fuel'; simpl; [done|]. by rewrite bool_decide_eq_false_2 by lia.
  - destruct fuel'; simpl.
    { by rewrite bool_decide_eq_false_2 by lia. }
    case_bool_decide as Hi; [|done].
    destruct (ArgS args i) as [kw| |]; simpl; [|done..].
    destruct (String.eqb _ _).
    { case_bool_decide; [done|].
      destruct (ArgS args (S i)) as [type_arg| |]; simpl; [|done..].
      destruct (String.eqb _ _); [apply IH; lia|].
      destruct (String.eqb _ _); [apply IH; lia|done]. }
    destruct (String.eqb _ _).
    { case_bool_decide; [done|].
      destruct (ArgS args (i + 1)) as [count| |]; simpl; [|done..].
      destruct (negb _); [done|].
      destruct (ArgS args (i + 2)) as [prefix| |]; simpl; [|done..].
      apply IH; lia. }
    destruct (String.eqb _ _); [done|]. apply IH; lia.
Qed.

Lemma create_error_not_Empty_schema args error :
  kSyntaxErr ≠ "Empty schema" → cerror args error → error ≠ "Empty schema".
Proof.
  intros Hsyntax [->|[(t & _ & ->)|[->|(type & [(f & _ & _ & _ & ->)|[(f & _ & ->)|(t & _ & _ & ->)]])]]];
    done.
Qed.

(** X24. Given the index name, [FtCreate] never reads outside its
    arguments and ends in a reply: an error (the syntax error, an unknown
    kind behind ON, more than one prefix, or an error of
    [ParseSchemaOrReply]), or OK after registering the index under the
    first argument, with no prefix or an argument as prefix and a schema
    made of its arguments.  Unless it is the text of the syntax error,
    the reply [Empty schema] is never sent.  The loop ends by itself:
    more rounds allowed change nothing. *)
Theorem FtCreate_in_range (args : list string) :
  args ≠ [] →
  ∃ effect, FtCreate kSyntaxErr json_path_ok default_type args = Done effect
    ∧ match effect with
      | SendError error =>
          cerror args error ∧ (kSyntaxErr ≠ "Empty schema" → error ≠ "Empty schema")
      | InitIndex_SendOk idx_name index => head args = Some idx_name ∧ ifrom args index
      end
    ∧ ∀ fuel index, (length args ≤ fuel)%nat →
        create_loop fuel args 1 index = create_loop (length args) args 1 index.
Proof.
  intros Hargs. destruct args as [|idx_name args]; [done|]. unfold FtCreate. simpl ArgS.
  set (start := {| index_schema := ∅; index_prefix := ""; index_type := default_type |}).
  destruct (FtCreate_loop_in_range (length (idx_name :: args)) (idx_name :: args) 1 start)
    as ([error|index] & Hr & Hpost); [done|by left|..].
  - exists (SendError error). cbn [mbind Outcome_bind]. rewrite Hr. split; [done|].
    split; [|intros; apply FtCreate_loop_fuel; simpl in *; lia].
    split; [done|]. intros Hsyntax. by eapply create_error_not_Empty_schema.
  - exists (InitIndex_SendOk idx_name index). cbn [mbind Outcome_bind]. rewrite Hr.
    split; [done|]. split; [done|]. intros; apply FtCreate_loop_fuel; simpl in *; lia.
Qed.

(** The loop takes the options one by one, then what is behind them. *)
Lemma FtCreate_loop_options opts tail result pre index fuel :
  Forall create_option_ok opts →
  (length opts < fuel)%nat →
  (∀ pre' fuel', create_loop (S fuel') (pre' ++ tail) (length pre')
                             (foldl create_option_apply index opts) = result) →
  create_loop fuel (pre ++ concat (create_option_args <$> opts) ++ tail) (length pre) index
  = result.
Proof.
  revert pre index fuel. induction opts as [|o opts IH]; intros pre index fuel Hok Hfuel Htail.
  - destruct fuel; [lia|]. apply Htail.
  - apply Forall_cons in Hok as [Ho Hok]. destruct fuel; [lia|].
    rewrite fmap_cons, concat_cons, <- app_assoc.
    remember (concat (create_option_args <$> opts) ++ tail) as rest eqn:Erest.
    assert (Hnext : ∀ n, n = length (create_option_args o) →
              create_loop fuel (pre ++ create_option_args o ++ rest) (length pre + n)
                          (create_option_apply index o) = result).
    { intros n ->. rewrite app_assoc, <- length_app. apply IH; [done| |done].
      simpl in Hfuel. lia. }
    destruct o as [kw type_arg type|kw prefix|arg];
      cbn [create_option_args app length create_option_ok] in *; cbn [FtCreate_loop];
      rewrite bool_decide_eq_true_2 by (rewrite length_app; simpl; lia);
      read_args pre; simpl.
    + destruct Ho as [-> Htype]. simpl.
      rewrite bool_decide_eq_false_2 by (rewrite length_app; simpl; lia).
      read_args pre. simpl. rewrite Htype.
      replace (S (S (length pre))) with (length pre + 2)%nat by lia.
      destruct type; simpl; by apply Hnext.
    + rewrite !Ho. simpl.
      rewrite bool_decide_eq_false_2 by (rewrite length_app; simpl; lia).
      read_args pre. simpl. read_args pre. simpl. by apply Hnext.
    + assert (String.eqb (AsciiStrToUpper arg) "ON" = false) as ->.
      { apply String.eqb_neq. intros E. apply Ho. rewrite E. set_solver. }
      assert (String.eqb (AsciiStrToUpper arg) "PREFIX" = false) as ->.
      { apply String.eqb_neq. intros E. apply Ho. rewrite E. set_solver. }
      assert (String.eqb (AsciiStrToUpper arg) "SCHEMA" = false) as ->.
      { apply String.eqb_neq. intros E. apply Ho. rewrite E. set_solver. }
      replace (S (length pre)) with (length pre + 1)%nat by lia. by apply Hnext.
Qed.

Lemma length_decl_args (fields : list (FieldDecl * Search.FieldType)) :
  (length fields ≤ length (concat (decl_args ∘ fst <$> fields)))%nat.
Proof.
  induction fields as [|[d ty] fields IH]; [done|].
  rewrite fmap_cons, concat_cons, length_app. unfold decl_args at 1.
  cbn [compose fst length]. cbn [length] in IH |- *. lia.
Qed.

(** X25. [FtCreate] takes the index name, then options (ON in any case
    with HASH or JSON in any case, PREFIX in any case with the count 1 and
    a prefix, arguments that read no keyword, which it skips), then SCHEMA
    in any case and well-formed field declarations for the kind of
    document chosen last: it registers the index with the last kind and
    the last prefix (those of a value-initialised index where there is
    none) and the schema [ParseSchemaOrReply] builds.  Without SCHEMA the
    index registered has no field. *)
Theorem FtCreate_accepts (idx_name schema_kw : string) (opts : list CreateOption)
        (fields : list (FieldDecl * Search.FieldType)) :
  let index := foldl create_option_apply
                     {| index_schema := ∅; index_prefix := ""; index_type := default_type |}
                     opts in
  Forall create_option_ok opts →
  AsciiStrToUpper schema_kw = "SCHEMA" →
  Forall (fun p => decl_ok json_path_ok (index_type index) (fst p) (snd p)) fields →
  FtCreate kSyntaxErr json_path_ok default_type
    (idx_name :: concat (create_option_args <$> opts)
              ++ schema_kw :: concat (decl_args ∘ fst <$> fields))
  = Done (InitIndex_SendOk idx_name
            {| index_schema :=
                 foldl (fun schema p =>
                          <[decl_attribute (fst p) :=
                              {| Search.identifier := decl_identifier (fst p);
                                 Search.type := snd p |}]> schema)
                       ∅ fields;
               index_prefix := index_prefix index;
               index_type := index_type index |})
  ∧ FtCreate kSyntaxErr json_path_ok default_type
      (idx_name :: concat (create_option_args <$> opts))
    = Done (InitIndex_SendOk idx_name index).
Proof.
  intros index Hopts Hkw Hfields.
  assert (Hlen : (length opts ≤ length (concat (create_option_args <$> opts)))%nat).
  { clear. induction opts as [|o opts IH]; [done|].
    rewrite fmap_cons, concat_cons, length_app. destruct o; simpl in *; lia. }
  split.
  - unfold FtCreate. simpl ArgS. cbn [mbind Outcome_bind].
    match goal with
    | |- context [FtCreate_loop _ _ ?fuel ?args 1%nat ?start] =>
        assert (Hloop : create_loop fuel args 1 start
                        = Done (inr {| index_schema :=
                                         foldl (fun schema p =>
                                           <[decl_attribute (fst p) :=
                                               {| Search.identifier := decl_identifier (fst p);
                                                  Search.type := snd p |}]> schema) ∅ fields;
                                       index_prefix := index_prefix index;
                                       index_type := index_type index |}))
    end.
    { apply (FtCreate_loop_options opts _ _ [idx_name]); [done|..].
      { cbn [length]. rewrite length_app, length_cons. lia. }
      intros pre' fuel'. fold index. cbn [FtCreate_loop].
      rewrite bool_decide_eq_true_2 by (rewrite length_app; simpl; lia).
      read_args pre'. simpl. rewrite Hkw. simpl.
      rewrite bool_decide_eq_false_2 by (rewrite length_app; simpl; lia).
      rewrite (cons_middle schema_kw), app_assoc.
      rewrite drop_app_length' by (rewrite length_app; simpl; lia).
      unfold ParseSchemaOrReply.
      rewrite (ParseSchema_loop_decls json_path_ok (index_type index) fields [] ∅);
        [done|done|apply length_decl_args]. }
    by rewrite Hloop.
  - unfold FtCreate. simpl ArgS. cbn [mbind Outcome_bind].
    match goal with
    | |- context [FtCreate_loop _ _ ?fuel ?args 1%nat ?start] =>
        assert (Hloop : create_loop fuel args 1 start = Done (inr index))
    end.
    { rewrite <- (app_nil_r (concat (create_option_args <$> opts))).
      apply (FtCreate_loop_options opts [] _ [idx_name]); [done|..].
      { cbn [length]. rewrite app_nil_r. lia. }
      intros pre' fuel'. fold index. cbn [FtCreate_loop].
      by rewrite bool_decide_eq_false_2 by (rewrite length_app; simpl; lia). }
    by rewrite Hloop.
Qed.

End CreateCommand.

(** ** [search_family.cc]: the names of the field types *)
Section TypeNames.
Import SearchFamily.

(** X26. Whatever the order in which the hash map [kSchemaTypes] is
    iterated, [GetSchemaTypeName] and the lookup in [kSchemaTypes] are
    inverse to each other: the name it gives for a type is the one name
    that is looked up to that type, and never the empty string. *)
Theorem GetSchemaTypeName_inverse (table : list (string * Search.FieldType))
        (type : Search.FieldType) (name : string) :
  table ≡ₚ kSchemaTypes →
  kSchemaTypes_find (GetSchemaTypeName table type) = Some type
  ∧ (kSchemaTypes_find name = Some type ↔ GetSchemaTypeName table type = name).
Proof.
  intros Hperm.
  assert (Hin : ∀ p, p ∈ table ↔ p ∈ kSchemaTypes) by (intros p; by rewrite Hperm).
  assert (Hname : ∃ n, GetSchemaTypeName table type = n ∧ (n, type) ∈ kSchemaTypes).
  { unfold GetSchemaTypeName.
    destruct (List.find _ table) as [[n t]|] eqn:Hfind.
    - apply find_some in Hfind as [Hp Ht]. apply bool_decide_eq_true in Ht. simpl in Ht.
      subst t. exists n. split; [done|]. by apply Hin, list_elem_of_In.
    - exfalso.
      assert (∃ n, (n, type) ∈ kSchemaTypes) as [n Hn].
      { unfold kSchemaTypes.
        destruct type; [exists "TAG"|exists "TEXT"|exists "NUMERIC"|exists "VECTOR"];
          rewrite !elem_of_cons; auto 6. }
      apply Hin, list_elem_of_In in Hn.
      pose proof (find_none _ _ Hfind _ Hn) as Hf.
      apply bool_decide_eq_false in Hf. by apply Hf. }
  destruct Hname as (n & -> & Hn).
  assert (Hcases : (n, type) ∈ kSchemaTypes →
            kSchemaTypes_find n = Some type
            ∧ ∀ name, kSchemaTypes_find name = Some type → n = name).
  { unfold kSchemaTypes. rewrite !elem_of_cons, elem_of_nil.
    intros [[= -> ->]|[[= -> ->]|[[= -> ->]|[[= -> ->]|[]]]]]; (split; [done|]);
      intros nm; unfold kSchemaTypes_find, kSchemaTypes; cbn [List.find fst];
      (destruct (String.eqb_spec "TAG" nm) as [<-|_]; [by intros [=]|]);
      (destruct (String.eqb_spec "TEXT" nm) as [<-|_]; [by intros [=]|]);
      (destruct (String.eqb_spec "NUMERIC" nm) as [<-|_]; [by intros [=]|]);
      (destruct (String.eqb_spec "VECTOR" nm) as [<-|_]; by intros [=]). }
  destruct (Hcases Hn) as [Hfind Hunique].
  split; [done|]. split; [by intros ?%Hunique|by intros <-].
Qed.

End TypeNames.

(** An instance: the table iterated backwards. *)
Lemma GetSchemaTypeName_inverse_witness :
  SearchFamily.kSchemaTypes_find
    (SearchFamily.GetSchemaTypeName (reverse SearchFamily.kSchemaTypes) Search.TEXT)
  = Some Search.TEXT
  ∧ (SearchFamily.kSchemaTypes_find "TEXT" = Some Search.TEXT
     ↔ SearchFamily.GetSchemaTypeName (reverse SearchFamily.kSchemaTypes) Search.TEXT = "TEXT").
Proof.
  apply (GetSchemaTypeName_inverse (reverse SearchFamily.kSchemaTypes) Search.TEXT "TEXT").
  apply reverse_Permutation.
Defined.

(** ** Instances for the commands *)

(** FT.CREATE's schema [$.title as title text WEIGHT 2 $.v Vector FLAT 6
    TYPE FLOAT32 DIM 3] for JSON documents. *)
Lemma ParseSchemaOrReply_accepts_witness :
  SearchFamily.ParseSchemaOrReply Examples.json_dollar SearchFamily.JSON
    ["$.title"; "as"; "title"; "text"; "WEIGHT"; "2";
     "$.v"; "Vector"; "FLAT"; "6"; "TYPE"; "FLOAT32"; "DIM"; "3"]
  = Done (inr Examples.two_fields).
Proof.
  apply (ParseSchemaOrReply_accepts Examples.json_dollar SearchFamily.JSON Examples.two_decls).
  apply Forall_cons; split; [|apply Forall_cons; split; [|done]];
    (unfold SearchFamily.decl_ok; cbn [fst snd]; split_and!;
     [apply (bool_decide_unpack _); vm_compute; exact I
     |intros _; reflexivity
     |intros kw a [=]; subst; reflexivity
     |reflexivity
     |reflexivity
     |repeat (apply Forall_cons; split;
              [apply (bool_decide_unpack _); vm_compute; exact I|]); done]).
Defined.

(** FT.SEARCH's options [NOCONTENT limit 5 20 Params 2 vec abcd]. *)
Lemma ParseSearchParamsOrReply_accepts_witness :
  SearchFamily.ParseSearchParamsOrReply "syntax error" "value is not an integer"
    Examples.decimal Examples.one_per_byte
    ["NOCONTENT"; "limit"; "5"; "20"; "Params"; "2"; "vec"; "abcd"]
  = Done (inr {| SearchFamily.limit_offset := 5; SearchFamily.limit_total := 20;
                 SearchFamily.knn_vector := [1; 1; 1; 1]%float |}).
Proof.
  apply (ParseSearchParamsOrReply_accepts "syntax error" "value is not an integer"
           Examples.decimal Examples.one_per_byte Examples.search_options).
  apply Forall_cons; split; [|apply Forall_cons; split; [|apply Forall_cons; split; [|done]]].
  - split; vm_compute; intros [=].
  - split_and!; reflexivity.
  - reflexivity.
Defined.

(** [FT.CREATE idx SCHEMA]. *)
Lemma FtCreate_in_range_witness :
  ∃ effect,
    SearchFamily.FtCreate "syntax error" Examples.json_dollar SearchFamily.HASH
      ["idx"; "SCHEMA"] = Done effect
    ∧ match effect with
      | SearchFamily.SendError error =>
          SearchFamily.create_error "syntax error" Examples.json_dollar
            ["idx"; "SCHEMA"] error
          ∧ ("syntax error" ≠ "Empty schema" → error ≠ "Empty schema")
      | SearchFamily.InitIndex_SendOk idx_name index =>
          head ["idx"; "SCHEMA"] = Some idx_name
          ∧ SearchFamily.index_from Examples.json_dollar ["idx"; "SCHEMA"] index
      end
    ∧ ∀ fuel index, (length ["idx"; "SCHEMA"] ≤ fuel)%nat →
        SearchFamily.FtCreate_loop "syntax error" Examples.json_dollar fuel
          ["idx"; "SCHEMA"] 1 index
        = SearchFamily.FtCreate_loop "syntax error" Examples.json_dollar
            (length ["idx"; "SCHEMA"]) ["idx"; "SCHEMA"] 1 index.
Proof.
  apply (FtCreate_in_range "syntax error" Examples.json_dollar SearchFamily.HASH
           ["idx"; "SCHEMA"]).
  done.
Defined.

(** [FT.CREATE idx on json PREFIX 1 doc: schema ...] with the schema
    above, and the same without schema. *)
Lemma FtCreate_accepts_witness :
  SearchFamily.FtCreate "syntax error" Examples.json_dollar SearchFamily.HASH
    ["idx"; "on"; "json"; "PREFIX"; "1"; "doc:"; "schema";
     "$.title"; "as"; "title"; "text"; "WEIGHT"; "2";
     "$.v"; "Vector"; "FLAT"; "6"; "TYPE"; "FLOAT32"; "DIM"; "3"]
  = Done (SearchFamily.InitIndex_SendOk "idx"
            {| SearchFamily.index_schema := Examples.two_fields;
               SearchFamily.index_prefix := "doc:";
               SearchFamily.index_type := SearchFamily.JSON |})
  ∧ SearchFamily.FtCreate "syntax error" Examples.json_dollar SearchFamily.HASH
      ["idx"; "on"; "json"; "PREFIX"; "1"; "doc:"]
    = Done (SearchFamily.InitIndex_SendOk "idx"
              {| SearchFamily.index_schema := ∅;
                 SearchFamily.index_prefix := "doc:";
                 SearchFamily.index_type := SearchFamily.JSON |}).
Proof.
  apply (FtCreate_accepts "syntax error" Examples.json_dollar SearchFamily.HASH
           "idx" "schema" Examples.create_options Examples.two_decls).
  - apply Forall_cons; split; [|apply Forall_cons; split; [|done]].
    + split; reflexivity.
    + reflexivity.
  - reflexivity.
  - apply Forall_cons; split; [|apply Forall_cons; split; [|done]];
      (unfold SearchFamily.decl_ok; cbn [fst snd]; split_and!;
       [apply (bool_decide_unpack _); vm_compute; exact I
       |intros _; reflexivity
       |intros kw a [=]; subst; reflexivity
       |reflexivity
       |reflexivity
       |repeat (apply Forall_cons; split;
                [apply (bool_decide_unpack _); vm_compute; exact I|]); done]).
Defined.

(** ** [sorted_map.cc]: ranges of the skiplist variant *)
Section Blocks.

(** A test that is closed upwards along a list holds from one position
    on. *)
Lemma threshold_up {A} (p : A → bool) (l : list A) :
  (∀ i j a b, l !! i = Some a → l !! j = Some b → (i ≤ j)%nat → p a = true → p b = true) →
  ∃ i1, (i1 ≤ length l)%nat ∧ ∀ j x, l !! j = Some x → p x = true ↔ (i1 ≤ j)%nat.
Proof.
  intros Hmono. destruct (list_find (fun x => p x = true) l) as [[i a]|] eqn:Hfind.
  - apply list_find_Some in Hfind as (Hi & Hp & Hbefore). exists i. split.
    { apply lookup_lt_Some in Hi. lia. }
    intros j x Hj. split.
    + intros Hpx. destruct (decide (i ≤ j)%nat); [done|].
      destruct (Hbefore j x Hj ltac:(lia)). done.
    + intros Hij. by apply (Hmono i j a x).
  - apply list_find_None in Hfind. exists (length l). split; [done|].
    intros j x Hj. split.
    + intros Hpx. rewrite Forall_forall in Hfind. destruct (Hfind x); [|done].
      by eapply list_elem_of_lookup_2.
    + apply lookup_lt_Some in Hj. lia.
Qed.

(** A test that is closed downwards holds up to one position. *)
Lemma threshold_down {A} (q : A → bool) (l : list A) :
  (∀ i j a b, l !! i = Some a → l !! j = Some b → (i ≤ j)%nat → q b = true → q a = true) →
  ∃ i2, (i2 ≤ length l)%nat ∧ ∀ j x, l !! j = Some x → q x = true ↔ (j < i2)%nat.
Proof.
  intros Hmono. destruct (threshold_up (fun x => negb (q x)) l) as (i2 & Hlen & Hi2).
  { intros i j a b Hi Hj Hij Ha. apply negb_true_iff in Ha. apply negb_true_iff.
    destruct (q b) eqn:Hb; [|done]. by rewrite (Hmono i j a b Hi Hj Hij Hb) in Ha. }
  exists i2. split; [done|]. intros j x Hj. specialize (Hi2 j x Hj).
  rewrite negb_true_iff in Hi2. destruct (q x); split; try done.
  - intros _. destruct (decide (j < i2)%nat); [done|]. assert (i2 ≤ j)%nat as H by lia.
    by apply Hi2 in H.
  - intros H. assert (i2 ≤ j)%nat as Hn by (by apply Hi2). lia.
Qed.

(** The elements that pass both tests are those between the two
    positions. *)
Lemma filter_block {A} (P Q : A → bool) (l : list A) (i1 i2 : nat) :
  (i2 ≤ length l)%nat →
  (∀ j x, l !! j = Some x → P x = true ↔ (i1 ≤ j)%nat) →
  (∀ j x, l !! j = Some x → Q x = true ↔ (j < i2)%nat) →
  filter (fun x => P x && Q x = true) l = take (i2 - i1) (drop i1 l).
Proof.
  revert i1 i2. induction l as [|x l IH]; intros i1 i2 Hlen HP HQ.
  { by rewrite drop_nil, take_nil. }
  simpl in Hlen.
  pose proof (HP 0%nat x eq_refl) as HPx. pose proof (HQ 0%nat x eq_refl) as HQx.
  assert (IH' : filter (fun x => P x && Q x = true) l
                = take (Nat.pred i2 - Nat.pred i1) (drop (Nat.pred i1) l)).
  { apply IH; [lia| |].
    - intros j y Hj. rewrite (HP (S j) y Hj). lia.
    - intros j y Hj. rewrite (HQ (S j) y Hj). lia. }
  rewrite filter_cons.
  destruct (decide (P x && Q x = true)) as [[HP1 HQ1]%andb_true_iff|Hn]; rewrite IH'.
  - apply HPx in HP1. apply HQx in HQ1.
    replace i1 with 0%nat by lia. destruct i2 as [|i2]; [lia|]. simpl.
    by rewrite Nat.sub_0_r.
  - destruct (P x) eqn:HP1, (Q x) eqn:HQ1; try done.
    + assert (¬ (0 < i2)%nat) by (rewrite <- HQx; done).
      replace i2 with 0%nat by lia. done.
    + assert (¬ (i1 ≤ 0)%nat) by (rewrite <- HPx; done).
      destruct i1 as [|i1]; [lia|]. simpl.
      destruct i2 as [|i2]; simpl; [done|]. done.
    + assert (¬ (0 < i2)%nat) by (rewrite <- HQx; done).
      replace i2 with 0%nat by lia. done.
Qed.

(** The first element that passes both tests. *)
Lemma find_block_first {A} (P Q : A → bool) (l : list A) (i1 i2 : nat) :
  (i2 ≤ length l)%nat →
  (∀ j x, l !! j = Some x → P x = true ↔ (i1 ≤ j)%nat) →
  (∀ j x, l !! j = Some x → Q x = true ↔ (j < i2)%nat) →
  fst <$> list_find (fun x => P x && Q x = true) l
  = if bool_decide (i1 < i2)%nat then Some i1 else None.
Proof.
  intros Hlen HP HQ. case_bool_decide as Hlt.
  - destruct (lookup_lt_is_Some_2 l i1 ltac:(lia)) as [x Hx].
    assert (Hfind : list_find (fun x => P x && Q x = true) l = Some (i1, x)); [|by rewrite Hfind].
    apply list_find_Some. split_and!; [done| |].
    + apply andb_true_iff. split; [by apply (HP i1)|by apply (HQ i1)].
    + intros j y Hj Hji [HPy _]%andb_true_iff. apply (HP j y Hj) in HPy. lia.
  - assert (Hfind : list_find (fun x => P x && Q x = true) l = None); [|by rewrite Hfind].
    apply list_find_None, Forall_forall. intros x Hx [HPx HQx]%andb_true_iff.
    apply list_elem_of_lookup in Hx as [j Hj].
    apply (HP j x Hj) in HPx. apply (HQ j x Hj) in HQx. lia.
Qed.

(** The last one, found first in the reversed list. *)
Lemma find_block_last {A} (P Q : A → bool) (l : list A) (i1 i2 : nat) :
  (i2 ≤ length l)%nat →
  (∀ j x, l !! j = Some x → P x = true ↔ (i1 ≤ j)%nat) →
  (∀ j x, l !! j = Some x → Q x = true ↔ (j < i2)%nat) →
  (fun p => (length l - S (fst p))%nat)
    <$> list_find (fun x => P x && Q x = true) (reverse l)
  = if bool_decide (i1 < i2)%nat then Some (i2 - 1)%nat else None.
Proof.
  intros Hlen HP HQ. case_bool_decide as Hlt.
  - destruct (lookup_lt_is_Some_2 l (i2 - 1) ltac:(lia)) as [x Hx].
    assert (Hfind : list_find (fun x => P x && Q x = true) (reverse l)
                    = Some ((length l - i2)%nat, x)).
    { apply list_find_Some. split_and!.
      - rewrite reverse_lookup by lia. rewrite <- Hx. f_equal. lia.
      - apply andb_true_iff. split; [apply (HP (i2 - 1)%nat); [done|lia]
                                    |apply (HQ (i2 - 1)%nat); [done|lia]].
      - intros j y Hj Hji [_ HQy]%andb_true_iff.
        rewrite reverse_lookup in Hj by lia. apply (HQ _ y Hj) in HQy. lia. }
    rewrite Hfind. simpl. f_equal. lia.
  - assert (Hfind : list_find (fun x => P x && Q x = true) (reverse l) = None);
      [|by rewrite Hfind].
    apply list_find_None, Forall_forall. intros x Hx [HPx HQx]%andb_true_iff.
    rewrite elem_of_reverse in Hx. apply list_elem_of_lookup in Hx as [j Hj].
    apply (HP j x Hj) in HPx. apply (HQ j x Hj) in HQx. lia.
Qed.

End Blocks.

Section SkiplistRanges.
Import SortedMap FloatOrder.
Local Open Scope nat_scope.

Local Abbreviation elem := (fun node : float * string => (snd node, fst node)).

(** Along the skiplist the scores do not descend. *)
Lemma zsl_scores_ascend z i j a b :
  RdImpl_ok z → zsl z !! i = Some a → zsl z !! j = Some b → i ≤ j →
  PrimFloat.ltb (fst b) (fst a) = false.
Proof.
  intros [(Hs & _ & _) Hnan] Hi Hj Hij.
  destruct (decide (i = j)) as [->|Hne].
  { rewrite Hi in Hj. injection Hj as ->. apply ltb_irrefl. }
  pose proof (StronglySorted_lookup _ _ i j a b Hs Hi Hj ltac:(lia)) as Hlt. simpl in Hlt.
  unfold zsl_lt in Hlt. apply orb_true_iff in Hlt as [Hlt|[Heq _]%andb_true_iff].
  - by apply ltb_asym.
  - assert (PrimFloat.is_nan (fst a) = false) as Ha.
    { apply (Hnan (fst a) (snd a)). rewrite <- surjective_pairing.
      by eapply list_elem_of_lookup_2. }
    assert (PrimFloat.is_nan (fst b) = false) as Hb.
    { apply (Hnan (fst b) (snd b)). rewrite <- surjective_pairing.
      by eapply list_elem_of_lookup_2. }
    by apply (eqb_iff_not_ltb _ _ Ha Hb) in Heq as [_ ?].
Qed.

Lemma zslValueGteMin_up range x y :
  PrimFloat.is_nan (min range) = false →
  PrimFloat.is_nan x = false → PrimFloat.is_nan y = false →
  PrimFloat.ltb y x = false →
  zslValueGteMin x range = true → zslValueGteMin y range = true.
Proof.
  unfold zslValueGteMin. intros Hm Hx Hy Hxy. destruct (minex range); intros H.
  - float_order.
  - rewrite leb_not_ltb by done. apply negb_true_iff. float_order.
Qed.

Lemma zslValueLteMax_down range x y :
  PrimFloat.is_nan (max range) = false →
  PrimFloat.is_nan x = false → PrimFloat.is_nan y = false →
  PrimFloat.ltb y x = false →
  zslValueLteMax y range = true → zslValueLteMax x range = true.
Proof.
  unfold zslValueLteMax. intros Hm Hx Hy Hxy. destruct (maxex range); intros H.
  - float_order.
  - rewrite leb_not_ltb by done. apply negb_true_iff. float_order.
Qed.

(** The nodes within a range form a block of the skiplist. *)
Lemma range_block z range :
  RdImpl_ok z →
  PrimFloat.is_nan (min range) = false → PrimFloat.is_nan (max range) = false →
  ∃ a b, b ≤ length (zsl z)
    ∧ (∀ j x, zsl z !! j = Some x → zslValueGteMin (fst x) range = true ↔ a ≤ j)
    ∧ (∀ j x, zsl z !! j = Some x → zslValueLteMax (fst x) range = true ↔ j < b).
Proof.
  intros Hok Hmin Hmax.
  assert (Hnan : ∀ j x, zsl z !! j = Some x → PrimFloat.is_nan (fst x) = false).
  { intros j x Hj. apply (proj2 Hok (fst x) (snd x)). rewrite <- surjective_pairing.
    by eapply list_elem_of_lookup_2. }
  destruct (threshold_up (fun x => zslValueGteMin (fst x) range) (zsl z)) as (a & _ & Ha).
  { intros i j x y Hi Hj Hij. apply zslValueGteMin_up; eauto using zsl_scores_ascend. }
  destruct (threshold_down (fun x => zslValueLteMax (fst x) range) (zsl z)) as (b & Hb & Hb').
  { intros i j x y Hi Hj Hij. apply zslValueLteMax_down; eauto using zsl_scores_ascend. }
  by exists a, b.
Qed.

(** Skipping forwards and backwards. *)
Lemma GetRange_skip_forward l fuel i offset :
  i < length l → length l - i ≤ fuel →
  GetRange_skip fuel false l (Some (Node i)) offset
  = if bool_decide (i + N.to_nat offset < length l) then Some (Node (i + N.to_nat offset))
    else None.
Proof.
  revert i offset. induction fuel as [|fuel IH]; intros i offset Hi Hfuel; [lia|].
  simpl. destruct (offset =? 0)%N eqn:Hoff.
  { apply N.eqb_eq in Hoff as ->. change (N.to_nat 0) with 0. rewrite Nat.add_0_r.
    by rewrite bool_decide_eq_true_2 by done. }
  apply N.eqb_neq in Hoff. unfold forward. case_bool_decide as Hnext.
  - rewrite IH by lia. replace (S i + N.to_nat (offset - 1)) with (i + N.to_nat offset) by lia.
    done.
  - rewrite bool_decide_eq_false_2 by lia. by destruct fuel.
Qed.

Lemma GetRange_skip_backward l fuel i offset :
  i < fuel →
  GetRange_skip fuel true l (Some (Node i)) offset
  = if bool_decide (N.to_nat offset ≤ i) then Some (Node (i - N.to_nat offset)) else None.
Proof.
  revert i offset. induction fuel as [|fuel IH]; intros i offset Hfuel; [lia|].
  simpl. destruct (offset =? 0)%N eqn:Hoff.
  { apply N.eqb_eq in Hoff as ->. change (N.to_nat 0) with 0. rewrite Nat.sub_0_r.
    by rewrite bool_decide_eq_true_2 by lia. }
  apply N.eqb_neq in Hoff. destruct i as [|i]; simpl.
  - rewrite bool_decide_eq_false_2 by lia. by destruct fuel.
  - rewrite IH by lia. replace (S i - N.to_nat offset) with (i - N.to_nat (offset - 1)) by lia.
    case_bool_decide; case_bool_decide; try done; lia.
Qed.

(** Collecting forwards and backwards. *)
Lemma GetRange_collect_forward l range b fuel j limit :
  j < length l → length l - j ≤ fuel → b ≤ length l →
  (∀ k x, l !! k = Some x → zslValueLteMax (fst x) range = true ↔ k < b) →
  GetRange_collect fuel false l range (Some (Node j)) limit
  = Done (elem <$> take (N.to_nat limit) (take (b - j) (drop j l))).
Proof.
  intros Hj Hfuel Hb HQ. revert j limit Hj Hfuel.
  induction fuel as [|fuel IH]; intros j limit Hj Hfuel; [lia|].
  simpl. destruct (limit =? 0)%N eqn:Hlim.
  { apply N.eqb_eq in Hlim as ->. done. }
  apply N.eqb_neq in Hlim.
  destruct (lookup_lt_is_Some_2 l j Hj) as [x Hx]. rewrite Hx. simpl.
  destruct (zslValueLteMax (fst x) range) eqn:Hunder; simpl.
  2:{ assert (¬ j < b) by (rewrite <- (HQ j x Hx); congruence).
      replace (b - j) with 0 by lia. by rewrite take_0, take_nil. }
  apply (HQ j x Hx) in Hunder.
  assert (Hshape : take (N.to_nat limit) (take (b - j) (drop j l))
                   = x :: take (N.to_nat (limit - 1)) (take (b - S j) (drop (S j) l))).
  { rewrite (drop_S l x j Hx).
    replace (b - j) with (S (b - S j)) by lia.
    replace (N.to_nat limit) with (S (N.to_nat (limit - 1))) by lia. done. }
  rewrite Hshape. unfold forward. case_bool_decide as Hnext.
  - rewrite IH by lia. done.
  - rewrite drop_ge by lia. rewrite take_nil, take_nil. by destruct fuel.
Qed.

Lemma GetRange_collect_backward l range a fuel j limit :
  j < length l → j < fuel →
  (∀ k x, l !! k = Some x → zslValueGteMin (fst x) range = true ↔ a ≤ k) →
  GetRange_collect fuel true l range (Some (Node j)) limit
  = Done (elem <$> take (N.to_nat limit) (reverse (take (j + 1 - a) (drop a l)))).
Proof.
  intros Hj Hfuel HP. revert j limit Hj Hfuel.
  induction fuel as [|fuel IH]; intros j limit Hj Hfuel; [lia|].
  cbn [GetRange_collect]. destruct (limit =? 0)%N eqn:Hlim.
  { apply N.eqb_eq in Hlim as ->. done. }
  apply N.eqb_neq in Hlim.
  destruct (lookup_lt_is_Some_2 l j Hj) as [x Hx].
  cbn [node_score node_ele IsUnder]. rewrite Hx. cbn [deref mbind Outcome_bind fst snd].
  destruct (zslValueGteMin (fst x) range) eqn:Hunder; cbn [negb].
  2:{ assert (¬ a ≤ j) by (rewrite <- (HP j x Hx); congruence).
      replace (j + 1 - a) with 0 by lia. by rewrite take_0, reverse_nil, take_nil. }
  apply (HP j x Hx) in Hunder.
  assert (Hshape : reverse (take (j + 1 - a) (drop a l))
                   = x :: reverse (take (j - a) (drop a l))).
  { replace (j + 1 - a) with (S (j - a)) by lia.
    rewrite (take_S_r _ _ x).
    - by rewrite reverse_app.
    - rewrite lookup_drop. rewrite <- Hx. f_equal. lia. }
  rewrite Hshape.
  replace (N.to_nat limit) with (S (N.to_nat (limit - 1))) by lia.
  cbn [take fmap list_fmap Next backward].
  destruct j as [|j].
  - replace (0 - a) with 0 by lia. rewrite take_0, reverse_nil, take_nil. by destruct fuel.
  - rewrite IH by lia. replace (j + 1 - a) with (S j - a) by lia. done.
Qed.

Lemma filter_fmap_bool {A B} (f : A → B) (p : B → bool) (l : list A) :
  filter (fun y => p y = true) (f <$> l) = f <$> filter (fun x => p (f x) = true) l.
Proof.
  induction l as [|x l IH]; [done|].
  rewrite fmap_cons, !filter_cons, IH. by destruct (decide (p (f x) = true)).
Qed.

(** The elements within a range, as a block of the skiplist, and the
    nodes the searches find. *)
Lemma range_block_elements z range :
  RdImpl_ok z →
  PrimFloat.is_nan (min range) = false → PrimFloat.is_nan (max range) = false →
  ∃ a b, b ≤ length (zsl z)
    ∧ (∀ j x, zsl z !! j = Some x → zslValueGteMin (fst x) range = true ↔ a ≤ j)
    ∧ (∀ j x, zsl z !! j = Some x → zslValueLteMax (fst x) range = true ↔ j < b)
    ∧ filter (fun e => in_range range (snd e) = true) (RdImpl_elements z)
      = elem <$> take (b - a) (drop a (zsl z))
    ∧ first_in_range (zsl z) range = (if bool_decide (a < b) then Some (Node a) else None)
    ∧ last_in_range (zsl z) range
      = (if bool_decide (a < b) then Some (Node (b - 1)) else None).
Proof.
  intros Hok Hmin Hmax. destruct (range_block z range Hok Hmin Hmax) as (a & b & Hb & HP & HQ).
  exists a, b. split_and!; try done.
  - unfold RdImpl_elements.
    rewrite (filter_fmap_bool elem (fun e => in_range range (snd e))).
    f_equal. by apply (filter_block (fun x => zslValueGteMin (fst x) range)
                                    (fun x => zslValueLteMax (fst x) range)).
  - unfold first_in_range.
    change (fun p : nat * (float * string) => Node (fst p)) with (Node ∘ (@fst nat (float * string))).
    rewrite option_fmap_compose.
    pose proof (find_block_first (fun x => zslValueGteMin (fst x) range)
                  (fun x => zslValueLteMax (fst x) range) (zsl z) a b Hb HP HQ) as Hfind.
    assert (Hfind' : fst <$> list_find (fun x => in_range range (fst x) = true) (zsl z)
                     = if bool_decide (a < b) then Some a else None) by exact Hfind.
    rewrite Hfind'. by case_bool_decide.
  - unfold last_in_range.
    change (fun p : nat * (float * string) => Node (length (zsl z) - S (fst p)))
      with (Node ∘ (fun p : nat * (float * string) => length (zsl z) - S (fst p))).
    rewrite option_fmap_compose.
    pose proof (find_block_last (fun x => zslValueGteMin (fst x) range)
                  (fun x => zslValueLteMax (fst x) range) (zsl z) a b Hb HP HQ) as Hfind.
    assert (Hfind' : (fun p : nat * (float * string) => length (zsl z) - S (fst p))
                       <$> list_find (fun x => in_range range (fst x) = true)
                                     (reverse (zsl z))
                     = if bool_decide (a < b) then Some (b - 1) else None) by exact Hfind.
    rewrite Hfind'. by case_bool_decide.
Qed.

Lemma size_t_sub_le (a b : N) : (b ≤ a)%N → (a < 2 ^ 64)%N → size_t_sub a b = (a - b)%N.
Proof.
  intros Hba Ha. unfold size_t_sub.
  change (2 ^ 64)%N with 18446744073709551616%N in *.
  rewrite (N.mod_small b) by lia.
  replace (a + 18446744073709551616 - b)%N with (a - b + 1 * 18446744073709551616)%N by lia.
  rewrite N.Div0.mod_add. apply N.mod_small. lia.
Qed.

Context `{!SkiplistQueries}.

(** X27. On a skiplist-variant set that satisfies the invariant, with
    bounds that are not NaN and searches that find the first and the last
    node within the range, [GetRange] returns the elements whose score
    lies within the range, in ascending order or, reversed, in descending
    order, without the first [offset] of them and cut to [limit]. *)
Theorem RdImpl_GetRange_window (z : RdImpl) (range : zrangespec) (offset limit : N)
        (rev : bool) :
  RdImpl_ok z →
  PrimFloat.is_nan (min range) = false → PrimFloat.is_nan (max range) = false →
  zslFirstInRange (zsl z) range = first_in_range (zsl z) range →
  zslLastInRange (zsl z) range = last_in_range (zsl z) range →
  RdImpl_GetRange range offset limit rev z
  = Done (take (N.to_nat limit)
            (drop (N.to_nat offset)
               (let found := filter (fun e => in_range range (snd e) = true)
                                    (RdImpl_elements z) in
                if rev then reverse found else found))).
Proof.
  intros Hok Hmin Hmax Hfirst Hlast.
  destruct (range_block_elements z range Hok Hmin Hmax)
    as (a & b & Hb & HP & HQ & Hfound & Hf & Hl).
  unfold RdImpl_GetRange. cbv zeta. rewrite Hfound, Hfirst, Hlast, Hf, Hl.
  set (l := zsl z) in *.
  assert (Hblock : length (take (b - a) (drop a l)) = b - a).
  { rewrite length_take, length_drop. lia. }
  destruct rev.
  - rewrite <- fmap_reverse, <- fmap_drop, <- fmap_take. case_bool_decide as Hab.
    + rewrite GetRange_skip_backward by lia. case_bool_decide as Hoff.
      * rewrite (GetRange_collect_backward l range a) by (done || lia).
        do 3 f_equal. rewrite drop_reverse, Hblock, take_take. do 2 f_equal. lia.
      * rewrite drop_ge by (rewrite length_reverse, Hblock; lia). by rewrite take_nil.
    + replace (b - a) with 0 by lia. rewrite take_0, reverse_nil, drop_nil, take_nil. done.
  - rewrite <- fmap_drop, <- fmap_take. case_bool_decide as Hab.
    + rewrite GetRange_skip_forward by lia. case_bool_decide as Hoff.
      * rewrite (GetRange_collect_forward l range b) by (done || lia).
        do 3 f_equal. rewrite skipn_firstn_comm, drop_drop.
        f_equal; lia.
      * rewrite drop_ge by (rewrite Hblock; lia). by rewrite take_nil.
    + replace (b - a) with 0 by lia. rewrite take_0, drop_nil, take_nil. done.
Qed.

(** X28. Under the same conditions, on a skiplist of fewer than 2^64
    nodes, [Count] returns the number of elements whose score lies within
    the range: what [GetRange] without offset and limit returns. *)
Theorem RdImpl_Count_correct (z : RdImpl) (range : zrangespec) :
  RdImpl_ok z →
  PrimFloat.is_nan (min range) = false → PrimFloat.is_nan (max range) = false →
  (N.of_nat (length (zsl z)) < 2 ^ 64)%N →
  zslFirstInRange (zsl z) range = first_in_range (zsl z) range →
  zslLastInRange (zsl z) range = last_in_range (zsl z) range →
  RdImpl_Count range z
  = Done (N.of_nat (length (filter (fun e => in_range range (snd e) = true)
                                   (RdImpl_elements z)))).
Proof.
  intros Hok Hmin Hmax Hlen Hfirst Hlast.
  destruct (range_block_elements z range Hok Hmin Hmax)
    as (a & b & Hb & HP & HQ & Hfound & Hf & Hl).
  unfold RdImpl_Count. cbv zeta. rewrite Hfound, Hfirst, Hlast, Hf, Hl.
  rewrite length_fmap, length_take, length_drop.
  case_bool_decide as Hab.
  2:{ f_equal. lia. }
  assert (Hrank : ∀ i, i < length (zsl z) →
            node_rank (zsl z) (Node i) = Done (N.of_nat i + 1)%N).
  { intros i Hi. destruct (lookup_lt_is_Some_2 (zsl z) i Hi) as [[s e] Hx].
    unfold node_rank. cbn [node_score node_ele]. rewrite Hx. cbn.
    f_equal. apply zslGetRank_position; [apply Hok| |done].
    apply (proj2 Hok s e). by eapply list_elem_of_lookup_2. }
  rewrite !Hrank by lia. cbn [mbind Outcome_bind]. f_equal.
  rewrite (size_t_sub_le (N.of_nat a + 1) 1) by lia.
  rewrite (size_t_sub_le (N.of_nat (length (zsl z)))) by lia.
  rewrite (size_t_sub_le (N.of_nat (length (zsl z))) (N.of_nat (b - 1) + 1)) by lia.
  rewrite size_t_sub_le by lia. lia.
Qed.

Section IterateFacts.
Context {St : Type} (debug_build : bool) (cb : St → option sds → double → St * bool).

Lemma DCHECK_true : DCHECK debug_build true = Done tt.
Proof. by destruct debug_build. Qed.

Lemma Iterate_loop_forward l fuel i len s :
  i < length l → length l - i ≤ fuel →
  Iterate_loop debug_build fuel false l cb (Some (Node i)) len s
  = Done (calls_until_false cb (take (N.to_nat len) (elem <$> drop i l)) s).
Proof.
  revert i len s. induction fuel as [|fuel IH]; intros i len s Hi Hfuel; [lia|].
  cbn [Iterate_loop]. destruct (len =? 0)%N eqn:Hlen.
  { apply N.eqb_eq in Hlen as ->. done. }
  apply N.eqb_neq in Hlen.
  rewrite bool_decide_eq_true_2 by eauto. rewrite DCHECK_true.
  destruct (lookup_lt_is_Some_2 l i Hi) as [x Hx].
  cbn [deref mbind Outcome_bind node_ele node_score]. rewrite Hx.
  cbn [deref mbind Outcome_bind].
  rewrite (drop_S l x i Hx), fmap_cons.
  replace (N.to_nat len) with (S (N.to_nat (len - 1))) by lia.
  cbn [take calls_until_false fst snd].
  destruct (cb s (Some (snd x)) (fst x)) as [s' success].
  cbn [Next]. unfold forward. case_bool_decide as Hnext.
  - destruct success; [|done]. by rewrite IH by lia.
  - rewrite drop_ge by lia. rewrite fmap_nil, take_nil. by destruct success.
Qed.

Lemma Iterate_loop_backward l fuel i len s :
  i < length l → i < fuel →
  Iterate_loop debug_build fuel true l cb (Some (Node i)) len s
  = Done (calls_until_false cb (take (N.to_nat len) (elem <$> reverse (take (i + 1) l))) s).
Proof.
  revert i len s. induction fuel as [|fuel IH]; intros i len s Hi Hfuel; [lia|].
  cbn [Iterate_loop]. destruct (len =? 0)%N eqn:Hlen.
  { apply N.eqb_eq in Hlen as ->. done. }
  apply N.eqb_neq in Hlen.
  rewrite bool_decide_eq_true_2 by eauto. rewrite DCHECK_true.
  destruct (lookup_lt_is_Some_2 l i Hi) as [x Hx].
  cbn [deref mbind Outcome_bind node_ele node_score]. rewrite Hx.
  cbn [deref mbind Outcome_bind].
  replace (i + 1) with (S i) by lia.
  rewrite (take_S_r l i x Hx), reverse_snoc, fmap_cons.
  replace (N.to_nat len) with (S (N.to_nat (len - 1))) by lia.
  cbn [take calls_until_false fst snd].
  destruct (cb s (Some (snd x)) (fst x)) as [s' success].
  cbn [Next backward]. destruct i as [|i].
  - rewrite take_0, reverse_nil, fmap_nil, take_nil. by destruct success.
  - destruct success; [|done]. rewrite IH by lia.
    by replace (i + 1) with (S i) by lia.
Qed.

(** The node [Iterate] starts from. *)
Lemma Iterate_start_backward (l : list zskiplistNode) (start_rank : N) :
  (N.of_nat (length l) < 2 ^ 32)%N →
  (∀ rank, (0 < rank)%N → zslGetElementByRank l rank = element_by_rank l rank) →
  (start_rank < N.of_nat (length l))%N →
  (if (0 <? start_rank)%N
   then zslGetElementByRank l (size_t_sub (N.of_nat (length l)) start_rank)
   else zsl_tail l)
  = Some (Node (length l - 1 - N.to_nat start_rank)).
Proof.
  change (2 ^ 32)%N with 4294967296%N. intros Hlen Hrank Hstart.
  destruct (0 <? start_rank)%N eqn:H0.
  - apply N.ltb_lt in H0.
    rewrite size_t_sub_le by (change (2 ^ 64)%N with 18446744073709551616%N; lia).
    rewrite Hrank by lia. unfold element_by_rank.
    rewrite (proj2 (N.ltb_lt _ _)) by lia. rewrite (proj2 (N.leb_le _ _)) by lia.
    simpl. do 2 f_equal. lia.
  - apply N.ltb_ge in H0. unfold zsl_tail.
    destruct (length l) as [|n] eqn:Hn; [lia|]. do 2 f_equal. lia.
Qed.

Lemma Iterate_start_forward (l : list zskiplistNode) (start_rank : N) :
  (start_rank + 1 < 2 ^ 32)%N →
  (∀ rank, (0 < rank)%N → zslGetElementByRank l rank = element_by_rank l rank) →
  (if (0 <? start_rank)%N
   then zslGetElementByRank l ((start_rank + 1) mod unsigned_max)%N
   else forward l Header)
  = if bool_decide (start_rank < N.of_nat (length l))%N
    then Some (Node (N.to_nat start_rank)) else None.
Proof.
  change (2 ^ 32)%N with 4294967296%N. intros Hsmall Hrank.
  destruct (0 <? start_rank)%N eqn:H0.
  - apply N.ltb_lt in H0. unfold unsigned_max.
    change (2 ^ 32)%N with 4294967296%N. rewrite N.mod_small by lia.
    rewrite Hrank by lia. unfold element_by_rank.
    rewrite (proj2 (N.ltb_lt _ _)) by lia. case_bool_decide as Hin.
    + rewrite (proj2 (N.leb_le _ _)) by lia. simpl. do 2 f_equal. lia.
    + by rewrite (proj2 (N.leb_gt _ _)) by lia.
  - apply N.ltb_ge in H0. unfold forward. case_bool_decide as Hin.
    + rewrite bool_decide_eq_true_2 by lia. do 2 f_equal. lia.
    + by rewrite bool_decide_eq_false_2 by lia.
Qed.

(** X29. [Iterate] from a rank within the set (fewer than 2^32 elements,
    [zslGetElementByRank] giving the node at a rank) hands the callback
    the elements from that rank on, in ascending order or, reversed, in
    descending order counted from the end, at most [len] of them, and
    stops behind the first one for which the callback returns false; it
    returns what the last call returned, true when there was none. *)
Theorem RdImpl_Iterate_calls (z : RdImpl) (start_rank len : N) (rev : bool) (s : St) :
  (N.of_nat (length (zsl z)) < 2 ^ 32)%N →
  (∀ rank, (0 < rank)%N →
           zslGetElementByRank (zsl z) rank = element_by_rank (zsl z) rank) →
  (start_rank < N.of_nat (length (zsl z)))%N →
  RdImpl_Iterate debug_build start_rank len rev cb z s
  = Done (calls_until_false cb
            (take (N.to_nat len)
               (drop (N.to_nat start_rank)
                  (if rev then reverse (RdImpl_elements z) else RdImpl_elements z))) s).
Proof.
  intros Hlen Hrank Hstart. unfold RdImpl_Iterate, RdImpl_elements. cbv zeta.
  set (l := zsl z) in *. destruct rev.
  - rewrite Iterate_start_backward by done.
    assert (length l - 1 - N.to_nat start_rank < length l) by lia.
    rewrite Iterate_loop_backward by lia.
    rewrite (drop_reverse (elem <$> l)), length_fmap, fmap_reverse, fmap_take.
    do 5 f_equal. lia.
  - rewrite Iterate_start_forward by (done || change (2 ^ 32)%N with 4294967296%N in *; lia).
    rewrite bool_decide_eq_true_2 by done.
    rewrite Iterate_loop_forward by lia. by rewrite fmap_drop.
Qed.

(** X30. Forwards from a rank at or past the number of elements and
    below 2^32 - 1 (there the unsigned [start_rank + 1] wraps to rank 0,
    which is left open), with [len > 0], [Iterate] has no node to read:
    its [DCHECK] fails in a debug build, a null pointer is dereferenced
    otherwise.  The empty set is such a case at rank 0. *)
Theorem RdImpl_Iterate_past_end (z : RdImpl) (start_rank len : N) (s : St) :
  (∀ rank, (0 < rank)%N →
           zslGetElementByRank (zsl z) rank = element_by_rank (zsl z) rank) →
  (N.of_nat (length (zsl z)) ≤ start_rank)%N → (start_rank + 1 < 2 ^ 32)%N → (0 < len)%N →
  RdImpl_Iterate debug_build start_rank len false cb z s
  = if debug_build then Fatal "Check failed" else Undefined.
Proof.
  intros Hrank Hpast Hsmall Hpos. unfold RdImpl_Iterate. cbv zeta.
  rewrite Iterate_start_forward by done.
  rewrite bool_decide_eq_false_2 by lia.
  cbn [Iterate_loop]. rewrite (proj2 (N.eqb_neq _ _)) by lia.
  rewrite bool_decide_eq_false_2 by (by intros [? ?]).
  by destruct debug_build.
Qed.

End IterateFacts.

End SkiplistRanges.

(** Instances on the set of ("a", 1.5) and ("b", 2). *)
Section RangeInstances.
Import SortedMap Examples.

(** The range [1.5, 3] backwards, without the first element. *)
Lemma RdImpl_GetRange_window_witness :
  RdImpl_GetRange range_15_3 1 5 true rd_ab = Done [("a", 1.5%float)].
Proof.
  apply (RdImpl_GetRange_window rd_ab range_15_3 1 5 true).
  - apply rd_ab_ok.
  - reflexivity.
  - reflexivity.
  - reflexivity.
  - reflexivity.
Defined.

Lemma RdImpl_Count_correct_witness : RdImpl_Count range_15_3 rd_ab = Done 2%N.
Proof.
  apply (RdImpl_Count_correct rd_ab range_15_3).
  - apply rd_ab_ok.
  - reflexivity.
  - reflexivity.
  - reflexivity.
  - reflexivity.
  - reflexivity.
Defined.

(** Both elements are handed over, the callback stops at "a". *)
Lemma RdImpl_Iterate_calls_witness :
  RdImpl_Iterate false 0 5 true collect_until_a rd_ab [] = Done (["b"; "a"], false).
Proof.
  apply (RdImpl_Iterate_calls false collect_until_a rd_ab 0 5 true []).
  - reflexivity.
  - reflexivity.
  - reflexivity.
Defined.

(** From rank 2 of two elements. *)
Lemma RdImpl_Iterate_past_end_witness :
  RdImpl_Iterate false 2 1 false collect_until_a rd_ab [] = Undefined.
Proof.
  apply (RdImpl_Iterate_past_end false collect_until_a rd_ab 2 1 []).
  - reflexivity.
  - simpl. lia.
  - reflexivity.
  - reflexivity.
Defined.

End RangeInstances.
